(** * Algo1: the step-recording and playback engine

    A shallow embedding of the record/replay core of the algorithm
    visualizer: the sorting visualizer (src/algorithms/SortingVisualizer.cpp),
    the search visualizer (SearchVisualizer.cpp), the guard of the
    pathfinding visualizer (PathfindingVisualizer.cpp) and the host's
    performance history (Application.cpp).

    Conventions of the embedding.
    - C++ [int] values are [Z]; the counters would need 2^31 increments to
      wrap, which no array the application builds (at most 500 elements)
      reaches, so no wrap-around is written out.
    - [size_t] cursors are [nat]; [std::vector] is [list], indexed with
      stdpp's lookup.
    - Clock reads are inputs: every operation that calls
      [steady_clock::now()] receives the reading, in milliseconds, as [now].
    - A [float] is the rational number it holds, and an operation on
      floats is the exact operation followed by rounding to the nearest
      single-precision number, ties to even ([Float32]).  NaN and the
      infinities have no counterpart.
    - Rendering, audio calls, the random generators and the UI mirror fields
      ([m_selected*]) are left out; they never feed back into the fields
      kept here. *)

From stdpp Require Import base numbers list strings pretty gmap sorting.
From Stdlib Require Import QArith Qround Qpower Lqa.

Open Scope Z_scope.

(** ** Performance callback payload

    [PerformanceCallback = std::function<void(const std::string&, double,
    int, int)>]: one value of [PerfCall] is one invocation. *)
Record PerfCall := mkPerfCall {
  pc_name : string;
  pc_time : Z;
  pc_comparisons : Z;
  pc_swaps : Z
}.

(** ** Single-precision arithmetic

    IEEE 754 binary32 with the default rounding: 24 significant bits,
    round to nearest, ties to even.  The exponent is not bounded: the
    quotients and conversions of the visualizers ([100 / speed] with the
    speed clamped, [1000 / speed], a count of milliseconds) are zero or
    lie in the normal range, where this is what the hardware computes. *)
Module Float32.

(** The integer nearest to [x], a tie going to the even one. *)
Definition rne (x : Q) : Z :=
  let f := Qfloor x in
  match (x - inject_Z f ?= 1 # 2)%Q with
  | Lt => f
  | Gt => f + 1
  | Eq => if Z.even f then f else f + 1
  end.

(** The exponent [e] of a positive [x]: [2^e <= x < 2^(e+1)]. *)
Definition ilog2 (x : Q) : Z :=
  if Qle_bool 1 x then Z.log2 (Qfloor x)
  else - Z.log2_up (Qceiling (/ x)).

(** A positive [x] rounded to 24 significant bits: the significand
    [x / 2^(e-23)] lies in [[2^23, 2^24)] and is rounded to an integer. *)
Definition round_pos (x : Q) : Q :=
  let e := ilog2 x in
  (inject_Z (rne (x * 2 ^ (23 - e))) * 2 ^ (e - 23))%Q.

Definition round (x : Q) : Q :=
  match (0 ?= x)%Q with
  | Eq => 0%Q
  | Lt => round_pos x
  | Gt => (- round_pos (- x))%Q
  end.

(** [x / y] on floats, [y] not zero. *)
Definition div (x y : Q) : Q := round (x / y).

(** The conversion of an integer to [float]. *)
Definition of_int (n : Z) : Q := round (inject_Z n).

(** [static_cast<int>]: truncation toward zero. *)
Definition to_int (x : Q) : Z :=
  if Qle_bool 0 x then Qfloor x else Qceiling x.

(** The float [0.1f], which is 13421773 * 2^-27, a little more than one
    tenth. *)
Definition tenth : Q := 13421773 # 134217728.

End Float32.

Module Sorting.

Inductive SortingAlgorithm :=
| BubbleSortAlg | SelectionSortAlg | InsertionSortAlg | QuickSortAlg
| MergeSortAlg | HeapSortAlg | TournamentSortAlg | IntroSortAlg
| PatienceSortAlg.

Inductive AnimationState := Stopped | Running | Paused | Completed.

Record SortingStep := mkStep {
  array : list Z;
  compareIndex1 : Z;
  compareIndex2 : Z;
  pivotIndex : Z;
  swapped : bool;
  description : string
}.

(** The members of [SortingVisualizer] that the control methods read or
    write.  [m_performanceCallback] records whether a callback is
    registered ([if (m_performanceCallback)]); [m_animationSpeed] is kept
    only through [m_stepDelay], which is all [Update] reads.  Left out:
    [m_totalComparisons] and [m_totalSwaps], which are set to 0 and never
    read, and the timing statistics the panel shows ([m_isTimingActive],
    [m_animationStartTime], [m_currentAnimationTime],
    [m_algorithmGenerationTime]). *)
Record Visualizer := mkVisualizer {
  m_array : list Z;
  m_originalArray : list Z;
  m_sortingSteps : list SortingStep;
  m_currentAlgorithm : SortingAlgorithm;
  m_state : AnimationState;
  m_currentStepIndex : nat;
  m_stepDelay : Z;
  m_lastUpdate : Z;
  m_sortStartTime : Z;
  m_comparisons : Z;
  m_swaps : Z;
  m_performanceCallback : bool
}.

Definition set_array (a : list Z) (v : Visualizer) : Visualizer :=
  mkVisualizer a (m_originalArray v) (m_sortingSteps v)
    (m_currentAlgorithm v) (m_state v) (m_currentStepIndex v)
    (m_stepDelay v) (m_lastUpdate v) (m_sortStartTime v)
    (m_comparisons v) (m_swaps v) (m_performanceCallback v).

Definition set_steps (l : list SortingStep) (v : Visualizer) : Visualizer :=
  mkVisualizer (m_array v) (m_originalArray v) l
    (m_currentAlgorithm v) (m_state v) (m_currentStepIndex v)
    (m_stepDelay v) (m_lastUpdate v) (m_sortStartTime v)
    (m_comparisons v) (m_swaps v) (m_performanceCallback v).

Definition set_algorithm (a : SortingAlgorithm) (v : Visualizer) : Visualizer :=
  mkVisualizer (m_array v) (m_originalArray v) (m_sortingSteps v)
    a (m_state v) (m_currentStepIndex v)
    (m_stepDelay v) (m_lastUpdate v) (m_sortStartTime v)
    (m_comparisons v) (m_swaps v) (m_performanceCallback v).

Definition set_state (st : AnimationState) (v : Visualizer) : Visualizer :=
  mkVisualizer (m_array v) (m_originalArray v) (m_sortingSteps v)
    (m_currentAlgorithm v) st (m_currentStepIndex v)
    (m_stepDelay v) (m_lastUpdate v) (m_sortStartTime v)
    (m_comparisons v) (m_swaps v) (m_performanceCallback v).

Definition set_index (i : nat) (v : Visualizer) : Visualizer :=
  mkVisualizer (m_array v) (m_originalArray v) (m_sortingSteps v)
    (m_currentAlgorithm v) (m_state v) i
    (m_stepDelay v) (m_lastUpdate v) (m_sortStartTime v)
    (m_comparisons v) (m_swaps v) (m_performanceCallback v).

Definition set_stepDelay (d : Z) (v : Visualizer) : Visualizer :=
  mkVisualizer (m_array v) (m_originalArray v) (m_sortingSteps v)
    (m_currentAlgorithm v) (m_state v) (m_currentStepIndex v)
    d (m_lastUpdate v) (m_sortStartTime v)
    (m_comparisons v) (m_swaps v) (m_performanceCallback v).

Definition set_lastUpdate (t : Z) (v : Visualizer) : Visualizer :=
  mkVisualizer (m_array v) (m_originalArray v) (m_sortingSteps v)
    (m_currentAlgorithm v) (m_state v) (m_currentStepIndex v)
    (m_stepDelay v) t (m_sortStartTime v)
    (m_comparisons v) (m_swaps v) (m_performanceCallback v).

Definition set_sortStartTime (t : Z) (v : Visualizer) : Visualizer :=
  mkVisualizer (m_array v) (m_originalArray v) (m_sortingSteps v)
    (m_currentAlgorithm v) (m_state v) (m_currentStepIndex v)
    (m_stepDelay v) (m_lastUpdate v) t
    (m_comparisons v) (m_swaps v) (m_performanceCallback v).

Definition set_comparisons (c : Z) (v : Visualizer) : Visualizer :=
  mkVisualizer (m_array v) (m_originalArray v) (m_sortingSteps v)
    (m_currentAlgorithm v) (m_state v) (m_currentStepIndex v)
    (m_stepDelay v) (m_lastUpdate v) (m_sortStartTime v)
    c (m_swaps v) (m_performanceCallback v).

Definition set_swaps (c : Z) (v : Visualizer) : Visualizer :=
  mkVisualizer (m_array v) (m_originalArray v) (m_sortingSteps v)
    (m_currentAlgorithm v) (m_state v) (m_currentStepIndex v)
    (m_stepDelay v) (m_lastUpdate v) (m_sortStartTime v)
    (m_comparisons v) c (m_performanceCallback v).

Definition SetPerformanceCallback (v : Visualizer) : Visualizer :=
  mkVisualizer (m_array v) (m_originalArray v) (m_sortingSteps v)
    (m_currentAlgorithm v) (m_state v) (m_currentStepIndex v)
    (m_stepDelay v) (m_lastUpdate v) (m_sortStartTime v)
    (m_comparisons v) (m_swaps v) true.

Definition state_eqb (a b : AnimationState) : bool :=
  match a, b with
  | Stopped, Stopped | Running, Running
  | Paused, Paused | Completed, Completed => true
  | _, _ => false
  end.

Definition GetAlgorithmName (a : SortingAlgorithm) : string :=
  match a with
  | BubbleSortAlg => "Bubble Sort"
  | SelectionSortAlg => "Selection Sort"
  | InsertionSortAlg => "Insertion Sort"
  | QuickSortAlg => "Quick Sort"
  | MergeSortAlg => "Merge Sort"
  | HeapSortAlg => "Heap Sort"
  | TournamentSortAlg => "Tournament Sort"
  | IntroSortAlg => "Intro Sort"
  | PatienceSortAlg => "Patience Sort"
  end.

(** [RecordStep]: the array is copied by value into the step, and the
    step is pushed at the back of the log. *)
Definition RecordStep (arr : list Z) (comp1 comp2 pivot : Z)
    (sw : bool) (desc : string) (v : Visualizer) : Visualizer :=
  set_steps (m_sortingSteps v ++ [mkStep arr comp1 comp2 pivot sw desc]) v.

Definition ClearSteps (v : Visualizer) : Visualizer :=
  set_index 0%nat (set_steps [] v).

(** [arr[j]]; the executors only index inside the array. *)
Definition at_ (arr : list Z) (j : nat) : Z := arr !!! j.

(** [std::swap(arr[j], arr[k])]. *)
Definition swap (arr : list Z) (j k : nat) : list Z :=
  <[j := at_ arr k]> (<[k := at_ arr j]> arr).

(** The body of the inner loop of [BubbleSort], for one value of [j]. *)
Definition BubbleSort_body (j : nat) (st : list Z * Visualizer)
    : list Z * Visualizer :=
  let '(arr, v) := st in
  let zj := Z.of_nat j in
  let v := RecordStep arr zj (zj + 1) (-1) false
             ("Comparing elements at positions " +:+ pretty zj +:+
              " and " +:+ pretty (zj + 1)) v in
  let v := set_comparisons (m_comparisons v + 1) v in
  if at_ arr (S j) <? at_ arr j then
    let arr := swap arr j (S j) in
    let v := set_swaps (m_swaps v + 1) v in
    (arr, RecordStep arr zj (zj + 1) (-1) true
            ("Swapping elements at positions " +:+ pretty zj +:+
             " and " +:+ pretty (zj + 1)) v)
  else (arr, v).

(** [for (int j = from; j < from + cnt; ++j) body]. *)
Fixpoint BubbleSort_inner (cnt from : nat) (st : list Z * Visualizer)
    : list Z * Visualizer :=
  match cnt with
  | O => st
  | S cnt' => BubbleSort_inner cnt' (S from) (BubbleSort_body from st)
  end.

(** [for (int i = from; i < from + cnt; ++i)] around the inner loop, whose
    bound is [n - i - 1]. *)
Fixpoint BubbleSort_outer (n cnt from : nat) (st : list Z * Visualizer)
    : list Z * Visualizer :=
  match cnt with
  | O => st
  | S cnt' =>
      BubbleSort_outer n cnt' (S from)
        (BubbleSort_inner (n - from - 1) 0 st)
  end.

Definition BubbleSort (v : Visualizer) : Visualizer :=
  let arr := m_array v in
  let n := length arr in
  let '(arr, v) := BubbleSort_outer n (n - 1) 0 (arr, v) in
  RecordStep arr (-1) (-1) (-1) false "Bubble sort completed!" v.

(** What an executor leaves behind: the steps it pushed and the amounts
    it added to the two counters. *)
Record Recording := mkRecording {
  rec_steps : list SortingStep;
  rec_comparisons : Z;
  rec_swaps : Z
}.

Definition absorb (r : Recording) (v : Visualizer) : Visualizer :=
  set_swaps (m_swaps v + rec_swaps r)
    (set_comparisons (m_comparisons v + rec_comparisons r)
       (set_steps (m_sortingSteps v ++ rec_steps r) v)).

Section Control.

(** The eight executors besides [BubbleSort] have the same shape: they
    copy [m_array], call [RecordStep] and bump [m_comparisons] and
    [m_swaps], and touch no other member.  They are a parameter of
    that shape. *)
Variable OtherSort : SortingAlgorithm -> list Z -> Recording.

Definition RunExecutor (v : Visualizer) : Visualizer :=
  match m_currentAlgorithm v with
  | BubbleSortAlg => BubbleSort v
  | a => absorb (OtherSort a (m_array v)) v
  end.

Definition StartSorting (now : Z) (v : Visualizer) : Visualizer :=
  let v :=
    if state_eqb (m_state v) Stopped then
      let v := set_sortStartTime now v in
      let v := ClearSteps v in
      let v := set_comparisons 0 v in
      let v := set_swaps 0 v in
      let v := RunExecutor v in
      set_index 0%nat v
    else v in
  set_lastUpdate now (set_state Running v).

End Control.

Definition PauseSorting (v : Visualizer) : Visualizer :=
  if state_eqb (m_state v) Running then set_state Paused v else v.

Definition ResetArray (v : Visualizer) : Visualizer :=
  let v := set_state Stopped v in
  let v := set_array (m_originalArray v) v in
  let v := set_index 0%nat v in
  let v := ClearSteps v in
  set_swaps 0 (set_comparisons 0 v).

Definition ExecuteCurrentStep (v : Visualizer) : Visualizer :=
  match m_sortingSteps v !! m_currentStepIndex v with
  | Some step => set_array (array step) v
  | None => v
  end.

(** [StepForward] reads the clock only when it reports; [now] is that
    reading.  The second component lists the callback invocations made
    by the call. *)
Definition StepForward (now : Z) (v : Visualizer)
    : Visualizer * list PerfCall :=
  if negb (bool_decide (m_sortingSteps v = [])) &&
     bool_decide (m_currentStepIndex v < length (m_sortingSteps v))%nat then
    let v := ExecuteCurrentStep v in
    let v := set_index (S (m_currentStepIndex v)) v in
    if bool_decide (length (m_sortingSteps v) <= m_currentStepIndex v)%nat
    then
      let v := set_state Completed v in
      (v, if m_performanceCallback v
          then [mkPerfCall (GetAlgorithmName (m_currentAlgorithm v))
                  (now - m_sortStartTime v) (m_comparisons v) (m_swaps v)]
          else [])
    else (v, [])
  else (v, []).

Definition StepBackward (v : Visualizer) : Visualizer :=
  if bool_decide (0 < m_currentStepIndex v)%nat then
    let v := set_index (pred (m_currentStepIndex v)) v in
    let v := ExecuteCurrentStep v in
    if state_eqb (m_state v) Completed then set_state Paused v else v
  else v.

(** [SetAnimationSpeed].  [speed] is the number the [float] argument
    holds; for a NaN the cast below is undefined behaviour, and an
    infinity is clamped like any number beyond the bound.
    [std::clamp(speed, 0.1f, 10.0f)] compares floats; in
    [100 / m_animationSpeed] the [int] is converted to [100.0f] and the
    quotient is a float, which [static_cast<int>] truncates. *)
Definition clampQ (lo hi x : Q) : Q :=
  if Qle_bool x lo then lo else if Qle_bool hi x then hi else x.

Definition SetAnimationSpeed (speed : Q) (v : Visualizer) : Visualizer :=
  let s := clampQ Float32.tenth 10 speed in
  set_stepDelay (Float32.to_int (Float32.div 100 s)) v.

Definition SetAlgorithm (a : SortingAlgorithm) (v : Visualizer) : Visualizer :=
  set_algorithm a v.

(** [GenerateRandomArray], [GenerateReversedArray] and
    [GenerateNearlySortedArray]: [arr] is the array they build. *)
Definition GenerateArray (arr : list Z) (v : Visualizer) : Visualizer :=
  mkVisualizer arr arr (m_sortingSteps v)
    (m_currentAlgorithm v) (m_state v) (m_currentStepIndex v)
    (m_stepDelay v) (m_lastUpdate v) (m_sortStartTime v)
    (m_comparisons v) (m_swaps v) (m_performanceCallback v).

(** The visualizer as the constructor and [Application::Initialize]
    leave it: default members, the first random array [arr], the
    callback registered. *)
Definition fresh (arr : list Z) : Visualizer :=
  mkVisualizer arr arr [] BubbleSortAlg Stopped 0%nat 100 0 0 0 0 true.

Definition Update (now : Z) (v : Visualizer) : Visualizer * list PerfCall :=
  if state_eqb (m_state v) Running then
    if m_stepDelay v <=? now - m_lastUpdate v then
      let '(v, calls) := StepForward now v in
      (set_lastUpdate now v, calls)
    else (v, [])
  else (v, []).

End Sorting.

Module Search.

Inductive SearchAlgorithm :=
| LinearSearchAlg | BinarySearchAlg | InterpolationSearchAlg
| ExponentialSearchAlg | JumpSearchAlg.

(** [SearchStep]; [searchRange] is never written and is left out. *)
Record SearchStep := mkStep {
  description : string;
  currentIndex : Z;
  lowIndex : Z;
  highIndex : Z;
  foundIndex : Z;
  isComparison : bool;
  isFound : bool
}.

(** The members of [SearchVisualizer] behind the controls.  The display
    statistics computed in floating point ([m_maxComparisons],
    [m_searchTime] and the two time points that feed it) are left out. *)
Record Visualizer := mkVisualizer {
  m_array : list Z;
  m_steps : list SearchStep;
  m_currentAlgorithm : SearchAlgorithm;
  m_targetValue : Z;
  m_currentStep : nat;
  m_isRunning : bool;
  m_isComplete : bool;
  m_targetFound : bool;
  m_foundIndex : Z;
  m_comparisons : Z;
  m_animationSpeed : Q;
  m_lastStepTime : Z;
  m_performanceCallback : bool;
  m_searchStartTime : Z;
  m_totalComparisons : Z
}.

Definition set_steps (l : list SearchStep) (v : Visualizer) : Visualizer :=
  mkVisualizer (m_array v) l (m_currentAlgorithm v) (m_targetValue v)
    (m_currentStep v) (m_isRunning v) (m_isComplete v) (m_targetFound v)
    (m_foundIndex v) (m_comparisons v) (m_animationSpeed v)
    (m_lastStepTime v) (m_performanceCallback v) (m_searchStartTime v)
    (m_totalComparisons v).

Definition set_currentStep (i : nat) (v : Visualizer) : Visualizer :=
  mkVisualizer (m_array v) (m_steps v) (m_currentAlgorithm v)
    (m_targetValue v) i (m_isRunning v) (m_isComplete v) (m_targetFound v)
    (m_foundIndex v) (m_comparisons v) (m_animationSpeed v)
    (m_lastStepTime v) (m_performanceCallback v) (m_searchStartTime v)
    (m_totalComparisons v).

Definition set_isRunning (b : bool) (v : Visualizer) : Visualizer :=
  mkVisualizer (m_array v) (m_steps v) (m_currentAlgorithm v)
    (m_targetValue v) (m_currentStep v) b (m_isComplete v)
    (m_targetFound v) (m_foundIndex v) (m_comparisons v)
    (m_animationSpeed v) (m_lastStepTime v) (m_performanceCallback v)
    (m_searchStartTime v) (m_totalComparisons v).

Definition set_isComplete (b : bool) (v : Visualizer) : Visualizer :=
  mkVisualizer (m_array v) (m_steps v) (m_currentAlgorithm v)
    (m_targetValue v) (m_currentStep v) (m_isRunning v) b
    (m_targetFound v) (m_foundIndex v) (m_comparisons v)
    (m_animationSpeed v) (m_lastStepTime v) (m_performanceCallback v)
    (m_searchStartTime v) (m_totalComparisons v).

Definition set_targetFound (b : bool) (v : Visualizer) : Visualizer :=
  mkVisualizer (m_array v) (m_steps v) (m_currentAlgorithm v)
    (m_targetValue v) (m_currentStep v) (m_isRunning v) (m_isComplete v)
    b (m_foundIndex v) (m_comparisons v)
    (m_animationSpeed v) (m_lastStepTime v) (m_performanceCallback v)
    (m_searchStartTime v) (m_totalComparisons v).

Definition set_foundIndex (i : Z) (v : Visualizer) : Visualizer :=
  mkVisualizer (m_array v) (m_steps v) (m_currentAlgorithm v)
    (m_targetValue v) (m_currentStep v) (m_isRunning v) (m_isComplete v)
    (m_targetFound v) i (m_comparisons v)
    (m_animationSpeed v) (m_lastStepTime v) (m_performanceCallback v)
    (m_searchStartTime v) (m_totalComparisons v).

Definition set_comparisons (c : Z) (v : Visualizer) : Visualizer :=
  mkVisualizer (m_array v) (m_steps v) (m_currentAlgorithm v)
    (m_targetValue v) (m_currentStep v) (m_isRunning v) (m_isComplete v)
    (m_targetFound v) (m_foundIndex v) c
    (m_animationSpeed v) (m_lastStepTime v) (m_performanceCallback v)
    (m_searchStartTime v) (m_totalComparisons v).

Definition set_lastStepTime (t : Z) (v : Visualizer) : Visualizer :=
  mkVisualizer (m_array v) (m_steps v) (m_currentAlgorithm v)
    (m_targetValue v) (m_currentStep v) (m_isRunning v) (m_isComplete v)
    (m_targetFound v) (m_foundIndex v) (m_comparisons v)
    (m_animationSpeed v) t (m_performanceCallback v)
    (m_searchStartTime v) (m_totalComparisons v).

Definition set_searchStartTime (t : Z) (v : Visualizer) : Visualizer :=
  mkVisualizer (m_array v) (m_steps v) (m_currentAlgorithm v)
    (m_targetValue v) (m_currentStep v) (m_isRunning v) (m_isComplete v)
    (m_targetFound v) (m_foundIndex v) (m_comparisons v)
    (m_animationSpeed v) (m_lastStepTime v) (m_performanceCallback v)
    t (m_totalComparisons v).

Definition set_totalComparisons (c : Z) (v : Visualizer) : Visualizer :=
  mkVisualizer (m_array v) (m_steps v) (m_currentAlgorithm v)
    (m_targetValue v) (m_currentStep v) (m_isRunning v) (m_isComplete v)
    (m_targetFound v) (m_foundIndex v) (m_comparisons v)
    (m_animationSpeed v) (m_lastStepTime v) (m_performanceCallback v)
    (m_searchStartTime v) c.

Definition GetAlgorithmName (a : SearchAlgorithm) : string :=
  match a with
  | LinearSearchAlg => "Linear Search"
  | BinarySearchAlg => "Binary Search"
  | InterpolationSearchAlg => "Interpolation Search"
  | ExponentialSearchAlg => "Exponential Search"
  | JumpSearchAlg => "Jump Search"
  end.

(** [m_array[i]] for an [int] index. *)
Definition at_ (v : Visualizer) (i : Z) : Z := m_array v !!! Z.to_nat i.

(** [static_cast<int>(m_array.size())]. *)
Definition size (v : Visualizer) : Z := Z.of_nat (length (m_array v)).

Definition push (s : SearchStep) (v : Visualizer) : Visualizer :=
  set_steps (m_steps v ++ [s]) v.

Definition RecordStep (desc : string) (cur low high : Z) (cmp : bool)
    (v : Visualizer) : Visualizer :=
  push (mkStep desc cur low high (-1) cmp false) v.

(** [v'] is [v] with more steps pushed and nothing else changed. *)
Definition grown (v v' : Visualizer) : Prop :=
  exists extra, v' = set_steps (m_steps v ++ extra) v.

(** The step every executor but [LinearSearch] pushes last on success. *)
Definition found_step (desc : string) (i : Z) : SearchStep :=
  mkStep desc (-1) (-1) (-1) i false true.

(** [CompleteSearch]: it changes no member; its only effect is the
    callback invocation, with [fin] the clock reading it takes. *)
Definition CompleteSearch (fin : Z) (v : Visualizer) : list PerfCall :=
  if m_performanceCallback v
  then [mkPerfCall (GetAlgorithmName (m_currentAlgorithm v))
          (fin - m_searchStartTime v) (m_totalComparisons v) 0]
  else [].

Definition ResetSearch (v : Visualizer) : Visualizer :=
  let v := set_steps [] v in
  let v := set_currentStep 0%nat v in
  let v := set_isRunning false v in
  let v := set_isComplete false v in
  let v := set_targetFound false v in
  let v := set_foundIndex (-1) v in
  set_comparisons 0 v.

(** An executor run: the visualizer it leaves and the callback
    invocations it made.  Loops carry a fuel; [None] is an exhausted
    fuel. *)
Definition Run : Type := Visualizer * list PerfCall.

(** [LinearSearch]: [cnt] iterations remain, [i] is the loop index. *)
Fixpoint LinearSearch_loop (cnt : nat) (i : Z) (target fin : Z)
    (v : Visualizer) : Run :=
  match cnt with
  | O =>
      let v := push (mkStep "Target not found in array"
                       (-1) (-1) (-1) (-1) false false) v in
      (v, CompleteSearch fin v)
  | S cnt' =>
      let v := push (mkStep ("Checking element at index " +:+ pretty i +:+
                             ": " +:+ pretty (at_ v i))
                       i (-1) (-1) (-1) true false) v in
      let v := set_totalComparisons (m_totalComparisons v + 1) v in
      if at_ v i =? target then
        let v := push (mkStep ("Found target " +:+ pretty target +:+
                               " at index " +:+ pretty i)
                         i (-1) (-1) i true true) v in
        (v, CompleteSearch fin v)
      else LinearSearch_loop cnt' (i + 1) target fin v
  end.

Definition LinearSearch (target fin : Z) (v : Visualizer) : Run :=
  LinearSearch_loop (length (m_array v)) 0 target fin v.

(** The success exit shared by the executors that halve or probe: a
    step announcing the index, the found step, the report. *)
Definition found_exit (i low high : Z) (target fin : Z) (v : Visualizer)
    : Run :=
  let v := RecordStep ("Found target " +:+ pretty target +:+ " at index "
                       +:+ pretty i +:+ "!") i low high false v in
  let v := push (found_step "Search completed successfully!" i) v in
  (v, CompleteSearch fin v).

Fixpoint BinarySearch_loop (fuel : nat) (low high : Z) (target fin : Z)
    (v : Visualizer) : option Run :=
  match fuel with
  | O => None
  | S fuel' =>
      if low <=? high then
        let mid := low + (high - low) `quot` 2 in
        let v := RecordStep ("Checking middle element at index " +:+
                             pretty mid +:+ " (value: " +:+
                             pretty (at_ v mid) +:+ ")")
                   mid low high true v in
        if at_ v mid =? target then
          Some (found_exit mid low high target fin v)
        else if at_ v mid <? target then
          let v := RecordStep ("Target is greater than " +:+
                               pretty (at_ v mid) +:+
                               ", searching right half")
                     mid low high false v in
          BinarySearch_loop fuel' (mid + 1) high target fin v
        else
          let v := RecordStep ("Target is less than " +:+
                               pretty (at_ v mid) +:+
                               ", searching left half")
                     mid low high false v in
          BinarySearch_loop fuel' low (mid - 1) target fin v
      else Some (v, CompleteSearch fin v)
  end.

(** Fuel for a loop over the index window [low..high]. *)
Definition window (low high : Z) : nat := S (Z.to_nat (high - low + 1)).

Definition BinarySearch (target fin : Z) (v : Visualizer) : Run :=
  let low := 0 in
  let high := size v - 1 in
  let v := RecordStep "Starting Binary Search" (-1) low high false v in
  default (v, []) (BinarySearch_loop (window low high) low high target fin v).

(** The binary phase of [ExponentialSearch]; unlike [BinarySearch] it
    records no step when it narrows. *)
Fixpoint Exponential_binary (fuel : nat) (low high : Z) (target fin : Z)
    (v : Visualizer) : option Run :=
  match fuel with
  | O => None
  | S fuel' =>
      if low <=? high then
        let mid := low + (high - low) `quot` 2 in
        let v := RecordStep ("Binary search: checking index " +:+
                             pretty mid +:+ " (value: " +:+
                             pretty (at_ v mid) +:+ ")")
                   mid low high true v in
        if at_ v mid =? target then
          Some (found_exit mid low high target fin v)
        else if at_ v mid <? target then
          Exponential_binary fuel' (mid + 1) high target fin v
        else
          Exponential_binary fuel' low (mid - 1) target fin v
      else Some (v, CompleteSearch fin v)
  end.

(** The doubling phase: it returns the bound it stops at. *)
Fixpoint Exponential_bound (fuel : nat) (bound : Z) (target : Z)
    (v : Visualizer) : option (Z * Visualizer) :=
  match fuel with
  | O => None
  | S fuel' =>
      if (bound <? size v) && (at_ v bound <? target) then
        let v := RecordStep ("Checking bound at index " +:+ pretty bound
                             +:+ " (value: " +:+ pretty (at_ v bound)
                             +:+ ")") bound (-1) (-1) true v in
        Exponential_bound fuel' (bound * 2) target v
      else Some (bound, v)
  end.

Definition ExponentialSearch (target fin : Z) (v : Visualizer) : Run :=
  let v := RecordStep "Starting Exponential Search" (-1) (-1) (-1) false v in
  if at_ v 0 =? target then
    let v := RecordStep "Found target at index 0!" 0 (-1) (-1) false v in
    let v := push (found_step "Search completed successfully!" 0) v in
    (v, CompleteSearch fin v)
  else
    match Exponential_bound (S (length (m_array v))) 1 target v with
    | None => (v, [])
    | Some (bound, v) =>
        let low := bound `quot` 2 in
        let high := Z.min bound (size v - 1) in
        let v := RecordStep ("Found range [" +:+ pretty low +:+ ".." +:+
                             pretty high +:+ "], starting binary search")
                   (-1) low high false v in
        default (v, [])
          (Exponential_binary (window low high) low high target fin v)
    end.

(** [JumpSearch].  [static_cast<int>(std::sqrt(n))] is the integer square
    root.  [last_of step] is [std::min(step, n) - 1]. *)
Definition last_of (v : Visualizer) (step : Z) : Z :=
  Z.min step (size v) - 1.

Definition not_found_exit (fin : Z) (v : Visualizer) : Run :=
  let v := RecordStep "Target not found in array" (-1) (-1) (-1) false v in
  (v, CompleteSearch fin v).

(** The block-finding loop: [inl] is the early return, [inr] carries
    [prev] and [step] out of the loop. *)
Fixpoint Jump_blocks (fuel : nat) (prev step : Z) (target fin : Z)
    (v : Visualizer) : option (Run + (Z * Z * Visualizer)) :=
  match fuel with
  | O => None
  | S fuel' =>
      if at_ v (last_of v step) <? target then
        let v := RecordStep ("Jumping to index " +:+
                             pretty (last_of v step) +:+ " (value: " +:+
                             pretty (at_ v (last_of v step)) +:+ ")")
                   (last_of v step) (-1) (-1) true v in
        let prev := step in
        let step := step + Z.sqrt (size v) in
        if size v <=? prev then Some (inl (not_found_exit fin v))
        else Jump_blocks fuel' prev step target fin v
      else Some (inr (prev, step, v))
  end.

(** The linear scan inside the block. *)
Fixpoint Jump_scan (fuel : nat) (prev step : Z) (target fin : Z)
    (v : Visualizer) : option (Run + (Z * Visualizer)) :=
  match fuel with
  | O => None
  | S fuel' =>
      if at_ v prev <? target then
        let v := RecordStep ("Linear search: checking index " +:+
                             pretty prev +:+ " (value: " +:+
                             pretty (at_ v prev) +:+ ")")
                   prev (-1) (-1) true v in
        let prev := prev + 1 in
        if prev =? Z.min step (size v) then
          Some (inl (not_found_exit fin v))
        else Jump_scan fuel' prev step target fin v
      else Some (inr (prev, v))
  end.

Definition JumpSearch (target fin : Z) (v : Visualizer) : Run :=
  let step := Z.sqrt (size v) in
  let prev := 0 in
  let v := RecordStep ("Starting Jump Search with step size " +:+
                       pretty step) (-1) (-1) (-1) false v in
  match Jump_blocks (S (length (m_array v))) prev step target fin v with
  | None => (v, [])
  | Some (inl r) => r
  | Some (inr (prev, step, v)) =>
      let v := RecordStep ("Found potential block [" +:+ pretty prev +:+
                           ".." +:+ pretty (last_of v step) +:+
                           "], linear searching")
                 (-1) prev (last_of v step) false v in
      match Jump_scan (S (length (m_array v))) prev step target fin v with
      | None => (v, [])
      | Some (inl r) => r
      | Some (inr (prev, v)) =>
          if at_ v prev =? target then
            let v := RecordStep ("Found target " +:+ pretty target +:+
                                 " at index " +:+ pretty prev +:+ "!")
                       prev (-1) (-1) false v in
            let v := push (found_step "Search completed successfully!" prev) v in
            (v, CompleteSearch fin v)
          else not_found_exit fin v
      end
  end.

Section Control.

(** [InterpolationSearch] estimates the probe in [double] arithmetic:
    [low + ((double)(target - a[low]) / (a[high] - a[low])) * (high - low)],
    converted to [int].  The estimate is a parameter,
    [probe low high target a_low a_high]; the clamp into [low..high]
    that follows it is integer code and is written out. *)
Variable probe : Z -> Z -> Z -> Z -> Z -> Z.

Fixpoint Interpolation_loop (fuel : nat) (low high : Z) (target fin : Z)
    (v : Visualizer) : option Run :=
  match fuel with
  | O => None
  | S fuel' =>
      if (low <=? high) && (at_ v low <=? target)
         && (target <=? at_ v high) then
        if low =? high then
          let v := RecordStep ("Single element remaining at index " +:+
                               pretty low) low low high true v in
          if at_ v low =? target then
            let v := push (found_step "Found target!" low) v in
            Some (v, CompleteSearch fin v)
          else Some (v, [])
        else
          let pos := probe low high target (at_ v low) (at_ v high) in
          let pos := Z.max low (Z.min pos high) in
          let v := RecordStep ("Interpolating position: " +:+ pretty pos
                               +:+ " (value: " +:+ pretty (at_ v pos)
                               +:+ ")") pos low high true v in
          if at_ v pos =? target then
            Some (found_exit pos low high target fin v)
          else if at_ v pos <? target then
            let v := RecordStep ("Target is greater than " +:+
                                 pretty (at_ v pos) +:+
                                 ", searching right")
                       pos low high false v in
            Interpolation_loop fuel' (pos + 1) high target fin v
          else
            let v := RecordStep ("Target is less than " +:+
                                 pretty (at_ v pos) +:+
                                 ", searching left")
                       pos low high false v in
            Interpolation_loop fuel' low (pos - 1) target fin v
      else Some (v, CompleteSearch fin v)
  end.

Definition InterpolationSearch (target fin : Z) (v : Visualizer) : Run :=
  let low := 0 in
  let high := size v - 1 in
  let v := RecordStep "Starting Interpolation Search" (-1) low high false v in
  default (v, [])
    (Interpolation_loop (window low high) low high target fin v).

(** [StartSearch]; [now] is the reading of [high_resolution_clock] it
    takes, [fin] the reading of [steady_clock] that [CompleteSearch]
    takes. *)
Definition StartSearch (now fin : Z) (v : Visualizer) : Run :=
  let v := ResetSearch v in
  let v := set_lastStepTime now v in
  let '(v, calls) :=
    match m_currentAlgorithm v with
    | LinearSearchAlg => LinearSearch (m_targetValue v) fin v
    | BinarySearchAlg => BinarySearch (m_targetValue v) fin v
    | InterpolationSearchAlg => InterpolationSearch (m_targetValue v) fin v
    | ExponentialSearchAlg => ExponentialSearch (m_targetValue v) fin v
    | JumpSearchAlg => JumpSearch (m_targetValue v) fin v
    end in
  (if bool_decide (m_steps v = []) then v else set_isRunning true v,
   calls).

(** The handler of the "Start Search" button in [RenderControls], the
    only caller of [StartSearch]; [now] is the reading of [steady_clock]
    it takes, [tick] the reading of [high_resolution_clock] that
    [StartSearch] takes. *)
Definition ClickStartSearch (now tick fin : Z) (v : Visualizer) : Run :=
  if negb (m_targetValue v =? -1) then
    let v := set_searchStartTime now v in
    let v := set_totalComparisons 0 v in
    let v := ResetSearch v in
    StartSearch tick fin v
  else (v, []).

End Control.

Definition StepSearch (v : Visualizer) : Visualizer :=
  match m_steps v !! m_currentStep v with
  | Some step =>
      let v := if isComparison step
               then set_comparisons (m_comparisons v + 1) v else v in
      let v := if isFound step
               then set_isRunning false
                      (set_isComplete true
                         (set_foundIndex (foundIndex step)
                            (set_targetFound true v)))
               else v in
      let v := set_currentStep (S (m_currentStep v)) v in
      if bool_decide (length (m_steps v) <= m_currentStep v)%nat
      then set_isRunning false (set_isComplete true v)
      else v
  | None => v
  end.

(** [elapsed.count() >= (1000 / m_animationSpeed)]: the count of
    milliseconds is converted to [float] and compared with the float
    quotient.  At speed [0.0f] (for which [0] stands) the quotient is
    plus infinity, which no count reaches; for a speed so small that the
    quotient overflows, the unbounded quotient here is beyond every
    64-bit count as well. *)
Definition step_due (speed : Q) (elapsed : Z) : bool :=
  if Qeq_bool speed 0 then false
  else Qle_bool (Float32.div 1000 speed) (Float32.of_int elapsed).

(** [Update]; [now] is the reading of [high_resolution_clock], the clock
    of [m_lastStepTime]. *)
Definition Update (now : Z) (v : Visualizer) : Visualizer :=
  if m_isRunning v && negb (m_isComplete v) then
    if step_due (m_animationSpeed v) (now - m_lastStepTime v)
    then set_lastStepTime now (StepSearch v)
    else v
  else v.

(** The handler of the "Step" button. *)
Definition ClickStep (v : Visualizer) : Visualizer :=
  if negb (m_isRunning v) && negb (m_isComplete v)
     && negb (bool_decide (m_steps v = []))
  then StepSearch v else v.

(** What a run of an executor that counts nothing looks like: steps were
    pushed, and the callback was invoked at most once, through
    [CompleteSearch]. *)
Definition quiet_run (fin : Z) (v : Visualizer) (r : Run) : Prop :=
  grown v (fst r) /\
  (snd r = [] \/ snd r = CompleteSearch fin v).

(** The same, with the callback invoked exactly as [CompleteSearch]
    does. *)
Definition reported_run (fin : Z) (v : Visualizer) (r : Run) : Prop :=
  grown v (fst r) /\ snd r = CompleteSearch fin v.

End Search.

Module Pathfinding.

Inductive CellType :=
| TEmpty | TWall | TStart | TEnd | TPath | TVisited | TFrontier.

(** A [GridCell*] into [m_grid]: the row and column it points at;
    [None] is [nullptr]. *)
Definition CellRef : Type := nat * nat.

Record GridCell := mkCell {
  x : Z;
  y : Z;
  type : CellType;
  gCost : Q;
  hCost : Q;
  fCost : Q;
  parent : option CellRef
}.

Inductive Algorithm := AStar | Dijkstra | BreadthFirst | DepthFirst.

Inductive AnimationState := Stopped | Running | Paused | Completed.

(** The members of [PathfindingVisualizer]; the [float] costs of a cell
    are rationals, [m_closedSet] is the [std::unordered_set] of the
    source. *)
Record Visualizer := mkVisualizer {
  m_grid : list (list GridCell);
  m_startCell : option CellRef;
  m_endCell : option CellRef;
  m_currentAlgorithm : Algorithm;
  m_state : AnimationState;
  m_animationSteps : list CellRef;
  m_currentStepIndex : nat;
  m_lastUpdate : Z;
  m_stepDelay : Z;
  m_openSet : list CellRef;
  m_closedSet : gset CellRef;
  m_finalPath : list CellRef;
  m_cellsExplored : Z;
  m_pathLength : Z;
  m_algorithmGenerationTime : Z;
  m_currentSearchTime : Z;
  m_searchStartTime : Z;
  m_isSearchTimingActive : bool
}.

Definition GetState (v : Visualizer) : AnimationState := m_state v.
Definition GetAlgorithm (v : Visualizer) : Algorithm := m_currentAlgorithm v.

Definition reset_cell (c : GridCell) : GridCell :=
  mkCell (x c) (y c)
    (match type c with
     | TVisited | TFrontier | TPath => TEmpty
     | t => t
     end)
    0 0 0 None.

Definition ResetGridForSearch (v : Visualizer) : Visualizer :=
  mkVisualizer (map (map reset_cell) (m_grid v))
    (m_startCell v) (m_endCell v) (m_currentAlgorithm v) (m_state v)
    [] (m_currentStepIndex v) (m_lastUpdate v) (m_stepDelay v)
    [] ∅ [] 0 0
    (m_algorithmGenerationTime v) (m_currentSearchTime v)
    (m_searchStartTime v) (m_isSearchTimingActive v).

(** The members [StartPathfinding] writes before it runs the executor. *)
Definition arm (now : Z) (v : Visualizer) : Visualizer :=
  mkVisualizer (m_grid v) (m_startCell v) (m_endCell v)
    (m_currentAlgorithm v) Running (m_animationSteps v)
    (m_currentStepIndex v) now (m_stepDelay v)
    (m_openSet v) (m_closedSet v) (m_finalPath v)
    (m_cellsExplored v) (m_pathLength v)
    (m_algorithmGenerationTime v) 0 now true.

(** The members it writes after the executor returned. *)
Definition finish (elapsed : Z) (v : Visualizer) : Visualizer :=
  mkVisualizer (m_grid v) (m_startCell v) (m_endCell v)
    (m_currentAlgorithm v) (m_state v) (m_animationSteps v)
    0%nat (m_lastUpdate v) (m_stepDelay v)
    (m_openSet v) (m_closedSet v) (m_finalPath v)
    (m_cellsExplored v) (m_pathLength v)
    elapsed (m_currentSearchTime v)
    (m_searchStartTime v) (m_isSearchTimingActive v).

Section Control.

(** The four executors ([ExecuteAStar], [ExecuteDijkstra], [ExecuteBFS],
    [ExecuteDFS]) are a parameter: what is proved about the guard of
    [StartPathfinding] holds whatever they do. *)
Variable Execute : Algorithm -> Visualizer -> Visualizer.

(** [void StartPathfinding()].  The first component is what the call
    hands back to its caller; the method is [void], so it is [unit].
    [now] and [after] are the clock readings before and after the
    executor ran. *)
Definition StartPathfinding (now after : Z) (v : Visualizer)
    : unit * Visualizer :=
  match m_startCell v, m_endCell v with
  | Some _, Some _ =>
      let v := ResetGridForSearch v in
      let v := arm now v in
      let v := Execute (m_currentAlgorithm v) v in
      (tt, finish (after - now) v)
  | _, _ => (tt, v)
  end.

End Control.

End Pathfinding.

Module App.

Inductive VisualizationMode :=
| ModeSorting | ModePathfinding | ModeGraph | ModeSearch | ModeTree.

Record AlgorithmPerformance := mkPerf {
  name : string;
  executionTime : Z;
  comparisons : Z;
  swaps : Z;
  memoryUsage : Z;
  timestamp : string
}.

Record Application := mkApp {
  m_performanceHistory : list AlgorithmPerformance;
  m_currentVisualizer : VisualizationMode
}.

(** [{:02d}] of a field of [std::tm]; the fields are never negative. *)
Definition two_digits (n : Z) : string :=
  if n <? 10 then "0" +:+ pretty n else pretty n.

(** The timestamp of a record: [wall] is the reading of
    [system_clock::now()] as local civil time in seconds, and the text is
    the hour, minute and second of the day. *)
Definition format_timestamp (wall : Z) : string :=
  two_digits ((wall `div` 3600) `mod` 24) +:+ ":" +:+
  two_digits ((wall `div` 60) `mod` 60) +:+ ":" +:+
  two_digits (wall `mod` 60).

(** The number of seconds in a day. *)
Definition day : Z := 86400.

(** The check behind the order of two-digit fields: over the values a
    field of the time of day takes, the text has two characters and orders
    as the number does. *)
Definition comparison_eqb (a b : comparison) : bool :=
  match a, b with
  | Eq, Eq | Lt, Lt | Gt, Gt => true
  | _, _ => false
  end.

Definition two_digits_ordered (n m : Z) : bool :=
  Nat.eqb (String.length (two_digits n)) 2
  && comparison_eqb (String.compare (two_digits n) (two_digits m)) (n ?= m).

(** The memory estimate; [arraySize] is
    [m_sortingVisualizer->GetArray().size()] and [sizeof(int)] is 4. *)
Definition memory_estimate (mode : VisualizationMode) (arraySize : Z) : Z :=
  match mode with
  | ModeSorting => (arraySize * 4) `quot` 1024 + arraySize * 2
  | ModeSearch => (1000 * 4) `quot` 1024
  | ModeTree => 50
  | _ => 10
  end.

(** The bound of the history, the literal 50 of
    [RecordAlgorithmPerformance]. *)
Definition capacity : nat := 50.

(** [push_back] then, past the bound, [erase(begin())]. *)
Definition insert_bounded (perf : AlgorithmPerformance)
    (h : list AlgorithmPerformance) : list AlgorithmPerformance :=
  let h := h ++ [perf] in
  if bool_decide (capacity < length h)%nat then drop 1 h else h.

Definition RecordAlgorithmPerformance (wall arraySize : Z) (c : PerfCall)
    (a : Application) : Application :=
  let perf := mkPerf (pc_name c) (pc_time c) (pc_comparisons c)
                (pc_swaps c)
                (memory_estimate (m_currentVisualizer a) arraySize)
                (format_timestamp wall) in
  mkApp (insert_bounded perf (m_performanceHistory a))
        (m_currentVisualizer a).

Definition ReportAlgorithmPerformance (wall arraySize : Z) (c : PerfCall)
    (a : Application) : Application :=
  RecordAlgorithmPerformance wall arraySize c a.

(** The "Clear History" button. *)
Definition ClearHistory (a : Application) : Application :=
  mkApp [] (m_currentVisualizer a).

(** The record an invocation leaves in the history. *)
Definition perf_of (mode : VisualizationMode) (r : Z * Z * PerfCall)
    : AlgorithmPerformance :=
  let '(wall, arraySize, c) := r in
  mkPerf (pc_name c) (pc_time c) (pc_comparisons c) (pc_swaps c)
    (memory_estimate mode arraySize) (format_timestamp wall).

(** The two things that write the history. *)
Inductive HistoryOp :=
| HRecord (r : Z * Z * PerfCall)
| HClear.

Definition history_step (a : Application) (op : HistoryOp) : Application :=
  match op with
  | HRecord (wall, arraySize, c) =>
      ReportAlgorithmPerformance wall arraySize c a
  | HClear => ClearHistory a
  end.

(** The application as constructed: an empty history. *)
Definition initial (mode : VisualizationMode) : Application := mkApp [] mode.

(** The callbacks registered in [Application::Initialize] forward every
    invocation to [ReportAlgorithmPerformance]. *)
Definition deliver (wall arraySize : Z) (calls : list PerfCall)
    (a : Application) : Application :=
  foldl (fun a c => ReportAlgorithmPerformance wall arraySize c a) a calls.

End App.

(** ** The host driving the sorting visualizer

    One [Event] is one thing the host does to the sorting visualizer in a
    frame: a click on a control or the per-frame [Update].  [ev_now] is the
    steady clock and [ev_wall] the wall clock at that moment. *)
Module Host.

Inductive Op :=
| OpStart | OpPause | OpReset | OpStepForward | OpStepBackward
| OpSetSpeed (speed : Q) | OpUpdate
| OpSetAlgorithm (a : Sorting.SortingAlgorithm)
| OpGenerate (arr : list Z).

Record Event := mkEvent {
  ev_op : Op;
  ev_now : Z;
  ev_wall : Z
}.

Section Drive.

Variable OtherSort : Sorting.SortingAlgorithm -> list Z -> Sorting.Recording.

(** One operation on the visualizer, with the callback invocations it
    made. *)
Definition apply_op (e : Event) (v : Sorting.Visualizer)
    : Sorting.Visualizer * list PerfCall :=
  match ev_op e with
  | OpStart => (Sorting.StartSorting OtherSort (ev_now e) v, [])
  | OpPause => (Sorting.PauseSorting v, [])
  | OpReset => (Sorting.ResetArray v, [])
  | OpStepForward => Sorting.StepForward (ev_now e) v
  | OpStepBackward => (Sorting.StepBackward v, [])
  | OpSetSpeed q => (Sorting.SetAnimationSpeed q v, [])
  | OpUpdate => Sorting.Update (ev_now e) v
  | OpSetAlgorithm a => (Sorting.SetAlgorithm a v, [])
  | OpGenerate arr => (Sorting.GenerateArray arr v, [])
  end.

Definition World : Type := App.Application * Sorting.Visualizer.

Definition step (w : World) (e : Event) : World :=
  let '(a, v) := w in
  let '(v', calls) := apply_op e v in
  (App.deliver (ev_wall e) (Z.of_nat (length (Sorting.m_array v'))) calls a,
   v').

Definition run (es : list Event) (w : World) : World := foldl step w es.

(** The visualizer alone, with the invocations in the order made. *)
Fixpoint play (es : list Event) (v : Sorting.Visualizer)
    : Sorting.Visualizer * list PerfCall :=
  match es with
  | [] => (v, [])
  | e :: es' =>
      let '(v', calls) := apply_op e v in
      let '(v'', calls') := play es' v' in
      (v'', calls ++ calls')
  end.

(** The invocations made along [es], each with the wall clock and the
    array size that [ReportAlgorithmPerformance] reads when it runs. *)
Fixpoint records (es : list Event) (v : Sorting.Visualizer)
    : list (Z * Z * PerfCall) :=
  match es with
  | [] => []
  | e :: es' =>
      let '(v', calls) := apply_op e v in
      map (fun c => (ev_wall e, Z.of_nat (length (Sorting.m_array v')), c))
          calls
      ++ records es' v'
  end.

End Drive.

(** Playback operations: the tick, the two manual steps, pause, resume
    and the speed slider. *)
Definition is_playback (e : Event) : bool :=
  match ev_op e with
  | OpStart | OpPause | OpStepForward | OpStepBackward
  | OpSetSpeed _ | OpUpdate => true
  | OpReset | OpSetAlgorithm _ | OpGenerate _ => false
  end.

Definition is_update (e : Event) : bool :=
  match ev_op e with
  | OpUpdate => true
  | _ => false
  end.

(** Playback that never steps back. *)
Definition is_forward (e : Event) : bool :=
  match ev_op e with
  | OpStart | OpPause | OpStepForward | OpSetSpeed _ | OpUpdate => true
  | OpStepBackward | OpReset | OpSetAlgorithm _ | OpGenerate _ => false
  end.

(** The cursor is an index into the log, or one past its end. *)
Definition cursor_ok (v : Sorting.Visualizer) : Prop :=
  (Sorting.m_currentStepIndex v <= length (Sorting.m_sortingSteps v))%nat.

(** The cursor stands at the end of the log. *)
Definition at_end (v : Sorting.Visualizer) : bool :=
  bool_decide (Sorting.m_currentStepIndex v
               = length (Sorting.m_sortingSteps v)).

(** What a run fixes when it is generated: the log, the two counters,
    and what the report is built from. *)
Definition same_run (v v' : Sorting.Visualizer) : Prop :=
  Sorting.m_sortingSteps v' = Sorting.m_sortingSteps v /\
  Sorting.m_comparisons v' = Sorting.m_comparisons v /\
  Sorting.m_swaps v' = Sorting.m_swaps v /\
  Sorting.m_performanceCallback v' = Sorting.m_performanceCallback v /\
  Sorting.m_currentAlgorithm v' = Sorting.m_currentAlgorithm v /\
  Sorting.m_sortStartTime v' = Sorting.m_sortStartTime v.

(** What the report is built from, apart from the counters. *)
Definition same_controls (v v' : Sorting.Visualizer) : Prop :=
  Sorting.m_performanceCallback v' = Sorting.m_performanceCallback v /\
  Sorting.m_currentAlgorithm v' = Sorting.m_currentAlgorithm v /\
  Sorting.m_sortStartTime v' = Sorting.m_sortStartTime v.

(** [rs] is exactly one record, reporting the run of [v]. *)
Definition one_report (v : Sorting.Visualizer) (rs : list (Z * Z * PerfCall))
    : Prop :=
  exists wall n now,
    rs = [(wall, n,
           mkPerfCall (Sorting.GetAlgorithmName (Sorting.m_currentAlgorithm v))
             (now - Sorting.m_sortStartTime v)
             (Sorting.m_comparisons v) (Sorting.m_swaps v))].

(** The invocation [StepForward] makes when it completes the log. *)
Definition report_of (now : Z) (v : Sorting.Visualizer) : PerfCall :=
  mkPerfCall (Sorting.GetAlgorithmName (Sorting.m_currentAlgorithm v))
    (now - Sorting.m_sortStartTime v)
    (Sorting.m_comparisons v) (Sorting.m_swaps v).

End Host.

(** ** Scenarios *)
Module Scenario.

(** Bubble Sort armed on [[3,1,2]]. *)
Definition sort_312 : Sorting.Visualizer := Sorting.fresh [3; 1; 2].

(** The log [BubbleSort] records for it. *)
Definition log_312 : list Sorting.SortingStep :=
  [ Sorting.mkStep [3; 1; 2] 0 1 (-1) false
      "Comparing elements at positions 0 and 1";
    Sorting.mkStep [1; 3; 2] 0 1 (-1) true
      "Swapping elements at positions 0 and 1";
    Sorting.mkStep [1; 3; 2] 1 2 (-1) false
      "Comparing elements at positions 1 and 2";
    Sorting.mkStep [1; 2; 3] 1 2 (-1) true
      "Swapping elements at positions 1 and 2";
    Sorting.mkStep [1; 2; 3] 0 1 (-1) false
      "Comparing elements at positions 0 and 1";
    Sorting.mkStep [1; 2; 3] (-1) (-1) (-1) false
      "Bubble sort completed!" ].

(** No executor but [BubbleSort] runs in the scenarios. *)
Definition no_other : Sorting.SortingAlgorithm -> list Z -> Sorting.Recording :=
  fun _ _ => Sorting.mkRecording [] 0 0.

(** A stand-in for the eight other executors that records the closing
    step each of them ends with. *)
Definition closing_only : Sorting.SortingAlgorithm -> list Z -> Sorting.Recording :=
  fun a arr =>
    Sorting.mkRecording
      [Sorting.mkStep arr (-1) (-1) (-1) false "completed!"] 0 0.

(** The run started at time 0, and the same run one step in. *)
Definition started_312 : Sorting.Visualizer :=
  Sorting.StartSorting no_other 0 sort_312.

Definition at_cursor_1 : Sorting.Visualizer :=
  fst (Sorting.StepForward 1 started_312).

(** The search visualizer with array [arr], target [t] and algorithm
    [a], nothing started yet, the callback registered. *)
Definition search_on (a : Search.SearchAlgorithm) (arr : list Z) (t : Z)
    : Search.Visualizer :=
  Search.mkVisualizer arr [] a t 0%nat false false false (-1) 0 1 0 true 0 0.

Definition binary_7 : Search.Visualizer :=
  search_on Search.BinarySearchAlg [1; 3; 5; 7; 9] 7.

Definition log_binary_7 : list Search.SearchStep :=
  [ Search.mkStep "Starting Binary Search" (-1) 0 4 (-1) false false;
    Search.mkStep "Checking middle element at index 2 (value: 5)"
      2 0 4 (-1) true false;
    Search.mkStep "Target is greater than 5, searching right half"
      2 0 4 (-1) false false;
    Search.mkStep "Checking middle element at index 3 (value: 7)"
      3 3 4 (-1) true false;
    Search.mkStep "Found target 7 at index 3!" 3 3 4 (-1) false false;
    Search.mkStep "Search completed successfully!"
      (-1) (-1) (-1) 3 false true ].

(** The binary search just started: clock 10 at the click, 12 when the
    executor reports. *)
Definition binary_started : Search.Visualizer :=
  fst (Search.ClickStartSearch (fun _ _ _ _ _ => 0) 10 10 12 binary_7).

Definition interpolation_7 : Search.Visualizer :=
  search_on Search.InterpolationSearchAlg [1; 3; 5; 7; 9] 7.

Definition linear_3 : Search.Visualizer :=
  search_on Search.LinearSearchAlg [4; 8; 15] 15.

Definition linear_empty : Search.Visualizer :=
  search_on Search.LinearSearchAlg [] 7.

Definition not_found_step : Search.SearchStep :=
  Search.mkStep "Target not found in array" (-1) (-1) (-1) (-1) false false.

(** The double-precision estimate is not needed by the scenarios. *)
Definition no_probe : Z -> Z -> Z -> Z -> Z -> Z := fun _ _ _ _ _ => 0.

(** A pathfinding visualizer over a one-row grid; [s] and [e] are the
    start and end pointers, [st] the playback state. *)
Definition path_on (s e : option Pathfinding.CellRef)
    (st : Pathfinding.AnimationState) : Pathfinding.Visualizer :=
  Pathfinding.mkVisualizer
    [[ Pathfinding.mkCell 0 0 Pathfinding.TStart 0 0 0 None;
       Pathfinding.mkCell 1 0 Pathfinding.TVisited 0 0 0 None;
       Pathfinding.mkCell 2 0 Pathfinding.TEnd 0 0 0 None ]]
    s e Pathfinding.AStar st [] 0%nat 0 50 [] ∅ [] 0 0 0 0 0 false.

(** An executor that records one step, to stand for the four. *)
Definition one_step_executor (a : Pathfinding.Algorithm)
    (v : Pathfinding.Visualizer) : Pathfinding.Visualizer :=
  Pathfinding.mkVisualizer (Pathfinding.m_grid v)
    (Pathfinding.m_startCell v) (Pathfinding.m_endCell v)
    (Pathfinding.m_currentAlgorithm v) (Pathfinding.m_state v)
    (Pathfinding.m_animationSteps v ++ [(0%nat, 0%nat)])
    (Pathfinding.m_currentStepIndex v) (Pathfinding.m_lastUpdate v)
    (Pathfinding.m_stepDelay v) (Pathfinding.m_openSet v)
    (Pathfinding.m_closedSet v) (Pathfinding.m_finalPath v)
    (Pathfinding.m_cellsExplored v + 1) (Pathfinding.m_pathLength v)
    (Pathfinding.m_algorithmGenerationTime v)
    (Pathfinding.m_currentSearchTime v)
    (Pathfinding.m_searchStartTime v)
    (Pathfinding.m_isSearchTimingActive v).

Definition click (op : Host.Op) (now : Z) : Host.Event :=
  Host.mkEvent op now 0.

(** Two playback schedules for one generated log. *)
Definition schedule_a : list Host.Event :=
  [click Host.OpStepForward 1; click Host.OpStepForward 2;
   click Host.OpStepBackward 3; click (Host.OpSetSpeed 2) 4;
   click Host.OpUpdate 500].

Definition schedule_b : list Host.Event :=
  [click Host.OpPause 1; click Host.OpStart 2].

(** One run of Bubble Sort on [[3,1,2]]: started once, stepped to the end,
    one step back, one step forward.  The wall clock reads 50 when the run
    first completes and 60 when it completes again. *)
Definition replayed_end : list Host.Event :=
  [Host.mkEvent Host.OpStart 0 40;
   Host.mkEvent Host.OpStepForward 1 41;
   Host.mkEvent Host.OpStepForward 2 42;
   Host.mkEvent Host.OpStepForward 3 43;
   Host.mkEvent Host.OpStepForward 4 44;
   Host.mkEvent Host.OpStepForward 5 45;
   Host.mkEvent Host.OpStepForward 6 50;
   Host.mkEvent Host.OpStepBackward 7 55;
   Host.mkEvent Host.OpStepForward 8 60].

(** The same run played forward to its end, once. *)
Definition start_event : Host.Event := Host.mkEvent Host.OpStart 0 40.

Definition six_steps : list Host.Event :=
  [Host.mkEvent Host.OpStepForward 1 41;
   Host.mkEvent Host.OpStepForward 2 42;
   Host.mkEvent Host.OpStepForward 3 43;
   Host.mkEvent Host.OpStepForward 4 44;
   Host.mkEvent Host.OpStepForward 5 45;
   Host.mkEvent Host.OpStepForward 6 50].

Definition two_ticks : list Host.Event :=
  [click Host.OpUpdate 100; click Host.OpUpdate 200].

Definition third_tick : list Host.Event := [click Host.OpUpdate 300].

End Scenario.

(** Case analysis on every test a loop body makes, in a hypothesis that
    unfolds one iteration. *)
Ltac split_run H :=
  repeat match type of H with
         | context [if ?c then _ else _] => destruct c eqn:?
         end.

Module Executors.
Import Sorting.

(** The body of the inner loop of [SelectionSort], for one value of [j];
    the loop carries [min_idx] and leaves [arr] alone. *)
Definition SelectionSort_body (arr : list Z) (j : nat)
    (st : nat * Visualizer) : nat * Visualizer :=
  let '(min_idx, v) := st in
  let zj := Z.of_nat j in
  let v := RecordStep arr zj (Z.of_nat min_idx) (-1) false
             ("Comparing element at " +:+ pretty zj +:+
              " with current minimum at " +:+ pretty (Z.of_nat min_idx)) v in
  let v := set_comparisons (m_comparisons v + 1) v in
  if at_ arr j <? at_ arr min_idx then
    (j, RecordStep arr zj zj (-1) false
          ("New minimum found at position " +:+ pretty zj) v)
  else (min_idx, v).

Fixpoint SelectionSort_inner (arr : list Z) (cnt from : nat)
    (st : nat * Visualizer) : nat * Visualizer :=
  match cnt with
  | O => st
  | S cnt' =>
      SelectionSort_inner arr cnt' (S from) (SelectionSort_body arr from st)
  end.

(** One iteration of the outer loop of [SelectionSort], for one [i]. *)
Definition SelectionSort_pass (n i : nat) (st : list Z * Visualizer)
    : list Z * Visualizer :=
  let '(arr, v) := st in
  let zi := Z.of_nat i in
  let v := RecordStep arr zi zi (-1) false
             ("Finding minimum element from position " +:+ pretty zi) v in
  let '(min_idx, v) := SelectionSort_inner arr (n - S i) (S i) (i, v) in
  if bool_decide (min_idx <> i) then
    let arr := swap arr i min_idx in
    let v := set_swaps (m_swaps v + 1) v in
    (arr, RecordStep arr zi (Z.of_nat min_idx) (-1) true
            ("Swapping minimum element to position " +:+ pretty zi) v)
  else (arr, v).

Fixpoint SelectionSort_outer (n cnt from : nat) (st : list Z * Visualizer)
    : list Z * Visualizer :=
  match cnt with
  | O => st
  | S cnt' => SelectionSort_outer n cnt' (S from) (SelectionSort_pass n from st)
  end.

Definition SelectionSort (v : Visualizer) : Visualizer :=
  let arr := m_array v in
  let n := length arr in
  let '(arr, v) := SelectionSort_outer n (n - 1) 0 (arr, v) in
  RecordStep arr (-1) (-1) (-1) false "Selection sort completed!" v.

(** [while (j >= 0 && arr[j] > key)] of [InsertionSort]: the argument
    [k] is [j + 1], so that [j >= 0] is [k = S j]; the result carries
    the value of [j + 1] at the exit. *)
Fixpoint InsertionSort_while (k : nat) (key : Z) (st : list Z * Visualizer)
    : nat * (list Z * Visualizer) :=
  match k with
  | O => (O, st)
  | S j =>
      let '(arr, v) := st in
      if key <? at_ arr j then
        let zj := Z.of_nat j in
        let v := RecordStep arr zj (zj + 1) (-1) false
                   ("Comparing " +:+ pretty (at_ arr j) +:+
                    " with " +:+ pretty key) v in
        let v := set_comparisons (m_comparisons v + 1) v in
        let arr := <[S j := at_ arr j]> arr in
        let v := RecordStep arr zj (zj + 1) (-1) true
                   ("Shifting element " +:+ pretty (at_ arr j) +:+
                    " to the right") v in
        InsertionSort_while j key (arr, v)
      else (k, st)
  end.

(** One iteration of the outer loop of [InsertionSort], for one [i]. *)
Definition InsertionSort_pass (i : nat) (st : list Z * Visualizer)
    : list Z * Visualizer :=
  let '(arr, v) := st in
  let key := at_ arr i in
  let v := RecordStep arr (Z.of_nat i) (-1) (-1) false
             ("Inserting element " +:+ pretty key +:+
              " into sorted portion") v in
  let '(k, (arr, v)) := InsertionSort_while i key (arr, v) in
  let arr := <[k := key]> arr in
  (arr, RecordStep arr (Z.of_nat k) (-1) (-1) false
          ("Placed " +:+ pretty key +:+ " at position " +:+
           pretty (Z.of_nat k)) v).

Fixpoint InsertionSort_outer (cnt from : nat) (st : list Z * Visualizer)
    : list Z * Visualizer :=
  match cnt with
  | O => st
  | S cnt' => InsertionSort_outer cnt' (S from) (InsertionSort_pass from st)
  end.

Definition InsertionSort (v : Visualizer) : Visualizer :=
  let arr := m_array v in
  let n := length arr in
  let '(arr, v) := InsertionSort_outer (n - 1) 1 (arr, v) in
  RecordStep arr (-1) (-1) (-1) false "Insertion sort completed!" v.

(** What an executor records on [arr], read off a run that starts from
    an empty log and zeroed counters. *)
Definition recording (f : Visualizer -> Visualizer) (arr : list Z)
    : Recording :=
  let w := f (fresh arr) in
  mkRecording (m_sortingSteps w) (m_comparisons w) (m_swaps w).

(** Recordings one after the other. *)
Definition rec_app (r1 r2 : Recording) : Recording :=
  mkRecording (rec_steps r1 ++ rec_steps r2)
    (rec_comparisons r1 + rec_comparisons r2)
    (rec_swaps r1 + rec_swaps r2).

(** [arr] is in ascending order between the indices [lo] and [hi]. *)
Definition ascending_on (lo hi : nat) (arr : list Z) : Prop :=
  forall a b : nat, (lo <= a)%nat -> (a <= b)%nat -> (b < hi)%nat ->
    arr !!! a <= arr !!! b.

(** Below [hi], no element before [m] exceeds one from [m] on. *)
Definition split_at (m hi : nat) (arr : list Z) : Prop :=
  forall a b : nat, (a < m)%nat -> (m <= b)%nat -> (b < hi)%nat ->
    arr !!! a <= arr !!! b.

(** What every loop of [BubbleSort] and [SelectionSort] keeps of a
    recording made on [arr0]: [c] comparisons, at most [smax] swaps, and
    snapshots that hold the elements of [arr0]. *)
Definition tally (arr0 : list Z) (c smax : Z) (r : Recording) : Prop :=
  rec_comparisons r = c /\
  0 <= rec_swaps r <= smax /\
  Forall (fun s => array s ≡ₚ arr0) (rec_steps r).

(** One step for each comparison and one for each swap. *)
Definition paired (r : Recording) : Prop :=
  Z.of_nat (length (rec_steps r)) = rec_comparisons r + rec_swaps r.

(** What the loops of [InsertionSort] keep of a recording made on
    [arr0]: [c] comparisons, no counted swap, two steps for each
    comparison and [e] more, [c] steps flagged as swaps, and snapshots
    as long as [arr0]. *)
Definition shifting (arr0 : list Z) (c e : Z) (r : Recording) : Prop :=
  rec_comparisons r = c /\
  rec_swaps r = 0 /\
  Z.of_nat (length (rec_steps r)) = 2 * c + e /\
  Z.of_nat (length (filter (fun s => swapped s = true) (rec_steps r))) = c /\
  Forall (fun s => length (array s) = length arr0) (rec_steps r).

(** The state of the [while] loop of [InsertionSort] with the hole at
    [k]: up to [i] the array is ascending when the hole is skipped, and
    everything right of the hole is greater than [key]. *)
Definition hole_inv (i k : nat) (key : Z) (arr : list Z) : Prop :=
  (forall a b : nat, (a <= b)%nat -> (b <= i)%nat -> a <> k -> b <> k ->
     arr !!! a <= arr !!! b) /\
  (forall b : nat, (k < b)%nat -> (b <= i)%nat -> key < arr !!! b).

(** The steps that [v'] has beyond the log of [v]. *)
Definition new_steps (v v' : Visualizer) : list SortingStep :=
  drop (length (m_sortingSteps v)) (m_sortingSteps v').

(** The parameter of [RunExecutor] with the two executors above in
    place; [rest] stands for the six others. *)
Definition executors (rest : SortingAlgorithm -> list Z -> Recording)
    (a : SortingAlgorithm) (arr : list Z) : Recording :=
  match a with
  | SelectionSortAlg => recording SelectionSort arr
  | InsertionSortAlg => recording InsertionSort arr
  | _ => rest a arr
  end.

(** The algorithms whose executor is written out. *)
Definition modelled (a : SortingAlgorithm) : bool :=
  match a with
  | BubbleSortAlg | SelectionSortAlg | InsertionSortAlg => true
  | _ => false
  end.

(** The array on display is the snapshot of the step before the
    cursor. *)
Definition shows_previous (v : Visualizer) : Prop :=
  m_currentStepIndex v = 0%nat \/
  exists s, m_sortingSteps v !! pred (m_currentStepIndex v) = Some s /\
            m_array v = array s.

(** [k] clicks on Step Forward. *)
Definition forward_n (now : Z) (k : nat) (v : Visualizer) : Visualizer :=
  Nat.iter k (fun v => fst (StepForward now v)) v.

End Executors.

Module Replay.

(** Every operation but generating a new array. *)
Definition keeps_array (e : Host.Event) : bool :=
  match Host.ev_op e with
  | Host.OpGenerate _ => false
  | _ => true
  end.

Definition selection_213 : Sorting.Visualizer :=
  Sorting.set_algorithm Sorting.SelectionSortAlg (Sorting.fresh [2; 1; 3]).

Definition forward_clicks (k : nat) : list Host.Event :=
  replicate k (Host.mkEvent Host.OpStepForward 1 41).

Definition busy_schedule : list Host.Event :=
  [Host.mkEvent Host.OpStart 0 40;
   Host.mkEvent Host.OpStepForward 1 41;
   Host.mkEvent (Host.OpSetAlgorithm Sorting.InsertionSortAlg) 2 42;
   Host.mkEvent Host.OpStepBackward 3 43;
   Host.mkEvent Host.OpReset 4 44;
   Host.mkEvent Host.OpStart 5 45;
   Host.mkEvent Host.OpUpdate 200 46].

End Replay.

Ltac solve_tally :=
  repeat match goal with
         | H : Executors.tally _ _ _ _ |- _ => destruct H as (? & ? & ?)
         end;
  unfold Executors.tally; simpl; split; [lia|split; [lia|]];
  repeat match goal with
         | |- Forall _ (_ ++ _) => apply Forall_app; split
         | |- Forall _ (_ :: _) => constructor
         | |- Forall _ [] => constructor
         | |- _ => first [assumption | reflexivity]
         end.

Ltac solve_shifting :=
  repeat match goal with
         | H : Executors.shifting _ _ _ _ |- _ =>
             destruct H as (? & ? & ? & ? & ?)
         end;
  unfold Executors.shifting; simpl;
  split; [lia|split; [lia|split; [rewrite ?length_app; simpl; lia|]]];
  split; [repeat first [rewrite filter_app | rewrite filter_nil
                       | rewrite filter_cons, decide_False
                           by (cbn; discriminate)
                       | rewrite filter_cons, decide_True
                           by reflexivity];
          rewrite ?length_app; cbn [length]; lia|];
  repeat match goal with
         | |- Forall _ (_ ++ _) => apply Forall_app; split
         | |- Forall _ (_ :: _) => constructor
         | |- Forall _ [] => constructor
         | |- _ => first [assumption | reflexivity
                         | simpl; rewrite ?length_insert; congruence]
         end.

Module Lookup.
Import Search.

(** [v] with the steps [extra] pushed and [c] added to
    [m_totalComparisons]; all an executor does to the visualizer. *)
Definition extended (extra : list SearchStep) (c : Z) (v : Visualizer)
    : Visualizer :=
  set_totalComparisons (m_totalComparisons v + c)
    (set_steps (m_steps v ++ extra) v).

(** The step [LinearSearch] pushes when it looks at index [i]. *)
Definition linear_check (arr : list Z) (i : nat) : SearchStep :=
  mkStep ("Checking element at index " +:+ pretty (Z.of_nat i) +:+ ": " +:+
          pretty (arr !!! i)) (Z.of_nat i) (-1) (-1) (-1) true false.

(** The step [LinearSearch] pushes last when it finds [target] at
    index [i]. *)
Definition linear_found (target : Z) (i : nat) : SearchStep :=
  mkStep ("Found target " +:+ pretty target +:+ " at index " +:+
          pretty (Z.of_nat i)) (Z.of_nat i) (-1) (-1) (Z.of_nat i) true true.

(** What a linear search from index [k] is expected to record, by the
    first occurrence of [target] from [k] on: a check of every index up
    to it and the found step, or a check of every index and the
    not-found step. *)
Definition linear_trace (target : Z) (arr : list Z) (k : nat)
    : list SearchStep :=
  match list_find (fun x => x = target) (drop k arr) with
  | Some (j, _) =>
      map (linear_check arr) (seq k (S j)) ++ [linear_found target (k + j)]
  | None =>
      map (linear_check arr) (seq k (length arr - k)) ++ [Scenario.not_found_step]
  end.

(** The visualizer as the "Start Search" click leaves it before the
    executor runs. *)
Definition armed (now tick : Z) (v : Visualizer) : Visualizer :=
  set_lastStepTime tick
    (ResetSearch
       (ResetSearch (set_totalComparisons 0 (set_searchStartTime now v)))).

(** The comparisons it is expected to count. *)
Definition linear_count (target : Z) (arr : list Z) (k : nat) : Z :=
  match list_find (fun x => x = target) (drop k arr) with
  | Some (j, _) => Z.of_nat j + 1
  | None => Z.of_nat (length arr - k)
  end.

(** The steps that [v'] has beyond the log of [v]. *)
Definition new_steps (v v' : Visualizer) : list SearchStep :=
  drop (length (m_steps v)) (m_steps v').

(** The step the halving executors push last on success. *)
Definition completed (i : Z) : SearchStep :=
  found_step "Search completed successfully!" i.

(** How many of [steps] are flagged as comparisons. *)
Definition comparison_steps (steps : list SearchStep) : Z :=
  Z.of_nat (length (filter (fun s => isComparison s = true) steps)).

(** [k] calls of [StepSearch]. *)
Definition step_n (k : nat) (v : Visualizer) : Visualizer :=
  Nat.iter k StepSearch v.

End Lookup.

Module PathControl.
Import Pathfinding.

Definition GRID_WIDTH : Z := 40.
Definition GRID_HEIGHT : Z := 25.

Definition IsValidPosition (x y : Z) : bool :=
  (0 <=? x) && (x <? GRID_WIDTH) && (0 <=? y) && (y <? GRID_HEIGHT).

(** [&m_grid[y][x]]. *)
Definition ref (x y : Z) : CellRef := (Z.to_nat y, Z.to_nat x).

Definition GetCell (x y : Z) : option CellRef :=
  if IsValidPosition x y then Some (ref x y) else None.

(** The cell a pointer refers to. *)
Definition cell_at (g : list (list GridCell)) (r : CellRef)
    : option GridCell :=
  g !! r.1 ≫= (fun row => row !! r.2).

(** A write through a pointer. *)
Definition alter_cell (f : GridCell -> GridCell) (r : CellRef)
    (g : list (list GridCell)) : list (list GridCell) :=
  alter (alter f r.2) r.1 g.

Definition with_type (t : CellType) (c : GridCell) : GridCell :=
  mkCell (x c) (y c) t (gCost c) (hCost c) (fCost c) (parent c).

Definition set_grid (g : list (list GridCell)) (v : Visualizer)
    : Visualizer :=
  mkVisualizer g (m_startCell v) (m_endCell v) (m_currentAlgorithm v)
    (m_state v) (m_animationSteps v) (m_currentStepIndex v)
    (m_lastUpdate v) (m_stepDelay v) (m_openSet v) (m_closedSet v)
    (m_finalPath v) (m_cellsExplored v) (m_pathLength v)
    (m_algorithmGenerationTime v) (m_currentSearchTime v)
    (m_searchStartTime v) (m_isSearchTimingActive v).

Definition set_state (s : AnimationState) (v : Visualizer) : Visualizer :=
  mkVisualizer (m_grid v) (m_startCell v) (m_endCell v)
    (m_currentAlgorithm v) s (m_animationSteps v) (m_currentStepIndex v)
    (m_lastUpdate v) (m_stepDelay v) (m_openSet v) (m_closedSet v)
    (m_finalPath v) (m_cellsExplored v) (m_pathLength v)
    (m_algorithmGenerationTime v) (m_currentSearchTime v)
    (m_searchStartTime v) (m_isSearchTimingActive v).

Definition set_index (i : nat) (v : Visualizer) : Visualizer :=
  mkVisualizer (m_grid v) (m_startCell v) (m_endCell v)
    (m_currentAlgorithm v) (m_state v) (m_animationSteps v) i
    (m_lastUpdate v) (m_stepDelay v) (m_openSet v) (m_closedSet v)
    (m_finalPath v) (m_cellsExplored v) (m_pathLength v)
    (m_algorithmGenerationTime v) (m_currentSearchTime v)
    (m_searchStartTime v) (m_isSearchTimingActive v).

Definition set_lastUpdate (t : Z) (v : Visualizer) : Visualizer :=
  mkVisualizer (m_grid v) (m_startCell v) (m_endCell v)
    (m_currentAlgorithm v) (m_state v) (m_animationSteps v)
    (m_currentStepIndex v) t (m_stepDelay v) (m_openSet v) (m_closedSet v)
    (m_finalPath v) (m_cellsExplored v) (m_pathLength v)
    (m_algorithmGenerationTime v) (m_currentSearchTime v)
    (m_searchStartTime v) (m_isSearchTimingActive v).

Definition set_timing (b : bool) (v : Visualizer) : Visualizer :=
  mkVisualizer (m_grid v) (m_startCell v) (m_endCell v)
    (m_currentAlgorithm v) (m_state v) (m_animationSteps v)
    (m_currentStepIndex v) (m_lastUpdate v) (m_stepDelay v)
    (m_openSet v) (m_closedSet v)
    (m_finalPath v) (m_cellsExplored v) (m_pathLength v)
    (m_algorithmGenerationTime v) (m_currentSearchTime v)
    (m_searchStartTime v) b.

Definition SetCellType (x y : Z) (t : CellType) (v : Visualizer)
    : Visualizer :=
  if IsValidPosition x y
  then set_grid (alter_cell (with_type t) (ref x y) (m_grid v)) v
  else v.

(** The four directions, in the order of the source. *)
Definition directions : list (Z * Z) := [(0, 1); (1, 0); (0, -1); (-1, 0)].

Definition GetNeighbors (c : GridCell) : list CellRef :=
  omap (fun d => GetCell (x c + d.1) (y c + d.2)) directions.

Definition state_eqb (a b : AnimationState) : bool :=
  match a, b with
  | Stopped, Stopped | Running, Running
  | Paused, Paused | Completed, Completed => true
  | _, _ => false
  end.

Definition is_endpoint (c : GridCell) : bool :=
  match type c with
  | TStart | TEnd => true
  | _ => false
  end.

(** [if (cell->type != Start && cell->type != End) cell->type = t]. *)
Definition mark (t : CellType) (c : GridCell) : GridCell :=
  if is_endpoint c then c else with_type t c.

Definition ExecuteCurrentStep (v : Visualizer) : Visualizer :=
  match m_animationSteps v !! m_currentStepIndex v with
  | Some r => set_grid (alter_cell (mark TVisited) r (m_grid v)) v
  | None => v
  end.

(** The loop over [m_finalPath] that shows the path. *)
Definition show_path (path : list CellRef) (g : list (list GridCell))
    : list (list GridCell) :=
  foldl (fun g r => alter_cell (mark TPath) r g) g path.

Definition StepForward (v : Visualizer) : Visualizer :=
  if bool_decide (m_currentStepIndex v < length (m_animationSteps v))%nat
  then set_index (S (m_currentStepIndex v)) (ExecuteCurrentStep v)
  else if negb (bool_decide (m_finalPath v = []))
  then set_state Completed (set_grid (show_path (m_finalPath v) (m_grid v)) v)
  else set_timing false (set_state Completed v).

Definition Update (now : Z) (v : Visualizer) : Visualizer :=
  if state_eqb (m_state v) Running then
    if m_stepDelay v <=? now - m_lastUpdate v
    then set_lastUpdate now (StepForward v)
    else v
  else v.

Definition PausePathfinding (v : Visualizer) : Visualizer :=
  if state_eqb (m_state v) Running
  then set_timing false (set_state Paused v)
  else v.

Definition ResetGrid (v : Visualizer) : Visualizer :=
  mkVisualizer (map (map reset_cell) (m_grid v))
    (m_startCell v) (m_endCell v) (m_currentAlgorithm v) Stopped
    [] 0%nat (m_lastUpdate v) (m_stepDelay v)
    (m_openSet v) (m_closedSet v) [] 0 0 0 0
    (m_searchStartTime v) false.

Definition clear_mark (c : GridCell) : GridCell :=
  match type c with
  | TVisited | TFrontier | TPath => with_type TEmpty c
  | _ => c
  end.

Definition ClearPath (v : Visualizer) : Visualizer :=
  mkVisualizer (map (map clear_mark) (m_grid v))
    (m_startCell v) (m_endCell v) (m_currentAlgorithm v) (m_state v)
    (m_animationSteps v) (m_currentStepIndex v) (m_lastUpdate v)
    (m_stepDelay v) (m_openSet v) (m_closedSet v) [] (m_cellsExplored v) 0
    (m_algorithmGenerationTime v) (m_currentSearchTime v)
    (m_searchStartTime v) (m_isSearchTimingActive v).

Definition clear_wall (c : GridCell) : GridCell :=
  match type c with
  | TWall => with_type TEmpty c
  | _ => c
  end.

Definition ClearWalls (v : Visualizer) : Visualizer :=
  set_grid (map (map clear_wall) (m_grid v)) v.

(** [InitializeGrid]: every cell empty and carrying its own
    coordinates, then the default start and end. *)
Definition blank_row (y : nat) : list GridCell :=
  map (fun x => mkCell (Z.of_nat x) (Z.of_nat y) TEmpty 0 0 0 None)
      (seq 0 (Z.to_nat GRID_WIDTH)).

Definition InitializeGrid : list (list GridCell) :=
  let g := map blank_row (seq 0 (Z.to_nat GRID_HEIGHT)) in
  let g := alter_cell (with_type TStart)
             (Z.to_nat (GRID_HEIGHT `quot` 2), 5%nat) g in
  alter_cell (with_type TEnd)
    (Z.to_nat (GRID_HEIGHT `quot` 2), Z.to_nat (GRID_WIDTH - 6)) g.

(** The visualizer as the constructor leaves it. *)
Definition initial : Visualizer :=
  mkVisualizer InitializeGrid
    (Some (Z.to_nat (GRID_HEIGHT `quot` 2), 5%nat))
    (Some (Z.to_nat (GRID_HEIGHT `quot` 2), Z.to_nat (GRID_WIDTH - 6)))
    AStar Stopped [] 0%nat 0 50 [] ∅ [] 0 0 0 0 0 false.

(** [k] clicks on Step. *)
Definition step_n (k : nat) (v : Visualizer) : Visualizer :=
  Nat.iter k StepForward v.

(** What playback may do to a cell: coordinates, costs and parent
    stay, a start or end cell keeps its type, and any other type stays
    or becomes Visited or Path. *)
Definition painted (c c' : GridCell) : Prop :=
  x c' = x c /\ y c' = y c /\
  gCost c' = gCost c /\ hCost c' = hCost c /\ fCost c' = fCost c /\
  parent c' = parent c /\
  (is_endpoint c = true -> type c' = type c) /\
  (type c' = type c \/ type c' = TVisited \/ type c' = TPath) /\
  is_endpoint c' = is_endpoint c.

(** The same, cell by cell, for two grids of one shape. *)
Definition repainted (g g' : list (list GridCell)) : Prop :=
  forall r : CellRef,
    match cell_at g r, cell_at g' r with
    | Some c, Some c' => painted c c'
    | None, None => True
    | _, _ => False
    end.

(** The grid has [GRID_HEIGHT] rows of [GRID_WIDTH] cells and every
    cell carries its own column and row in [x] and [y]. *)
Fixpoint cells_ok (i j : nat) (row : list GridCell) : bool :=
  match row with
  | [] => true
  | c :: row =>
      (x c =? Z.of_nat j) && (y c =? Z.of_nat i) && cells_ok i (S j) row
  end.

Fixpoint rows_ok (i : nat) (g : list (list GridCell)) : bool :=
  match g with
  | [] => true
  | row :: g =>
      (length row =? Z.to_nat GRID_WIDTH)%nat && cells_ok i 0 row
      && rows_ok (S i) g
  end.

Definition shaped (g : list (list GridCell)) : bool :=
  (length g =? Z.to_nat GRID_HEIGHT)%nat && rows_ok 0 g.

(** A function on cells that leaves the coordinates alone. *)
Definition keeps_place (f : GridCell -> GridCell) : Prop :=
  forall c, x (f c) = x c /\ y (f c) = y c.

End PathControl.

(** ** The stopwatch (utils/Timer)

    The two time points are clock readings in milliseconds; a
    default-constructed time point is the epoch, 0. *)
Module Timer.

Record Timer := mkTimer {
  m_startTime : Z;
  m_endTime : Z;
  m_running : bool
}.

(** [Timer() = default]. *)
Definition fresh : Timer := mkTimer 0 0 false.

Definition Start (now : Z) (t : Timer) : Timer :=
  mkTimer now (m_endTime t) true.

Definition Stop (now : Z) (t : Timer) : Timer :=
  if m_running t then mkTimer (m_startTime t) now false else t.

Definition Reset (t : Timer) : Timer := mkTimer 0 0 false.

Definition GetElapsed (now : Z) (t : Timer) : Z :=
  if m_running t then now - m_startTime t
  else m_endTime t - m_startTime t.

Definition IsRunning (t : Timer) : bool := m_running t.

Inductive Call := CStart | CStop | CReset.

(** One call, made when the clock reads [now]. *)
Definition call (t : Timer) (c : Call * Z) : Timer :=
  match c.1 with
  | CStart => Start c.2 t
  | CStop => Stop c.2 t
  | CReset => Reset t
  end.

Definition calls (cs : list (Call * Z)) (t : Timer) : Timer :=
  foldl call t cs.

(** The readings of a clock that never runs backwards, none before
    [from]. *)
Fixpoint monotone (from : Z) (cs : list (Call * Z)) : bool :=
  match cs with
  | [] => true
  | c :: cs => (from <=? c.2) && monotone c.2 cs
  end.

(** The last reading of [cs], or [from] if there is none. *)
Definition last_reading (from : Z) (cs : list (Call * Z)) : Z :=
  foldl (fun _ c => c.2) from cs.

(** What the calls keep true of a timer at clock reading [now]. *)
Definition sane (now : Z) (t : Timer) : Prop :=
  0 <= m_startTime t <= now /\
  (m_running t = false -> m_startTime t <= m_endTime t <= now).

Definition morning : list (Call * Z) :=
  [(CStart, 5); (CStop, 9); (CStop, 12); (CStart, 20); (CReset, 21);
   (CStop, 22); (CStart, 30)].

End Timer.

(** ** The tree visualizer (src/algorithms/TreeVisualizer.cpp)

    A [std::shared_ptr<TreeNode>] is a tree: [nullptr] is [Null].  The
    operations update nodes in place and hand the root back, which is
    the functional update written here.  Of a node only [value] and
    the two children are kept; the display flags, the position and the
    AVL and red-black fields, which no operation reads, are left out.
    A [TreeStep] is kept as its description. *)
Module Tree.

Inductive TreeAlgorithm :=
| BinarySearchTree | AVLTree | MinHeap | MaxHeap | RedBlackTree.

Inductive TreeNode :=
| Null
| Node (left : TreeNode) (value : Z) (right : TreeNode).

Record Visualizer := mkVisualizer {
  m_root : TreeNode;
  m_heap : list Z;
  m_steps : list string;
  m_currentAlgorithm : TreeAlgorithm;
  m_currentStep : nat;
  m_isRunning : bool;
  m_isComplete : bool;
  m_nodeCount : Z;
  m_comparisons : Z;
  m_traversalResult : list Z
}.

Definition set_root (t : TreeNode) (v : Visualizer) : Visualizer :=
  mkVisualizer t (m_heap v) (m_steps v) (m_currentAlgorithm v)
    (m_currentStep v) (m_isRunning v) (m_isComplete v) (m_nodeCount v)
    (m_comparisons v) (m_traversalResult v).

Definition set_heap (h : list Z) (v : Visualizer) : Visualizer :=
  mkVisualizer (m_root v) h (m_steps v) (m_currentAlgorithm v)
    (m_currentStep v) (m_isRunning v) (m_isComplete v) (m_nodeCount v)
    (m_comparisons v) (m_traversalResult v).

Definition set_steps (l : list string) (v : Visualizer) : Visualizer :=
  mkVisualizer (m_root v) (m_heap v) l (m_currentAlgorithm v)
    (m_currentStep v) (m_isRunning v) (m_isComplete v) (m_nodeCount v)
    (m_comparisons v) (m_traversalResult v).

Definition set_nodeCount (n : Z) (v : Visualizer) : Visualizer :=
  mkVisualizer (m_root v) (m_heap v) (m_steps v) (m_currentAlgorithm v)
    (m_currentStep v) (m_isRunning v) (m_isComplete v) n
    (m_comparisons v) (m_traversalResult v).

Definition set_comparisons (n : Z) (v : Visualizer) : Visualizer :=
  mkVisualizer (m_root v) (m_heap v) (m_steps v) (m_currentAlgorithm v)
    (m_currentStep v) (m_isRunning v) (m_isComplete v) (m_nodeCount v)
    n (m_traversalResult v).

Definition set_traversalResult (l : list Z) (v : Visualizer) : Visualizer :=
  mkVisualizer (m_root v) (m_heap v) (m_steps v) (m_currentAlgorithm v)
    (m_currentStep v) (m_isRunning v) (m_isComplete v) (m_nodeCount v)
    (m_comparisons v) l.

Definition RecordStep (description : string) (v : Visualizer) : Visualizer :=
  set_steps (m_steps v ++ [description]) v.

Definition count (v : Visualizer) : Visualizer :=
  set_comparisons (m_comparisons v + 1) v.

Definition ResetVisualization (v : Visualizer) : Visualizer :=
  mkVisualizer (m_root v) (m_heap v) [] (m_currentAlgorithm v)
    0%nat false false (m_nodeCount v) (m_comparisons v)
    (m_traversalResult v).

Definition ClearTree (v : Visualizer) : Visualizer :=
  mkVisualizer Null [] (m_steps v) (m_currentAlgorithm v)
    (m_currentStep v) (m_isRunning v) (m_isComplete v) 0 0 [].

Fixpoint BSTInsert (root : TreeNode) (value : Z) (v : Visualizer)
    : TreeNode * Visualizer :=
  match root with
  | Null =>
      (Node Null value Null,
       RecordStep ("Creating new node with value " +:+ pretty value) v)
  | Node l x r =>
      let v := RecordStep ("Comparing " +:+ pretty value +:+ " with " +:+
                           pretty x) v in
      let v := count v in
      if value <? x then
        let v := RecordStep (pretty value +:+ " < " +:+ pretty x +:+
                             ", going left") v in
        let '(l, v) := BSTInsert l value v in
        (Node l x r, v)
      else if x <? value then
        let v := RecordStep (pretty value +:+ " > " +:+ pretty x +:+
                             ", going right") v in
        let '(r, v) := BSTInsert r value v in
        (Node l x r, v)
      else (Node l x r, v)
  end.

(** [while (temp->left) temp = temp->left;] and the value it ends on;
    [x] is the value of the node the loop starts from. *)
Fixpoint leftmost (l : TreeNode) (x : Z) : Z :=
  match l with
  | Null => x
  | Node l' x' _ => leftmost l' x'
  end.

Fixpoint BSTDelete (root : TreeNode) (value : Z) (v : Visualizer)
    : TreeNode * Visualizer :=
  match root with
  | Null =>
      (Null, RecordStep ("Value " +:+ pretty value +:+ " not found") v)
  | Node l x r =>
      let v := RecordStep ("Comparing " +:+ pretty value +:+ " with " +:+
                           pretty x) v in
      let v := count v in
      if value <? x then
        let '(l, v) := BSTDelete l value v in
        (Node l x r, v)
      else if x <? value then
        let '(r, v) := BSTDelete r value v in
        (Node l x r, v)
      else
        let v := RecordStep ("Found node to delete: " +:+ pretty value) v in
        match l, r with
        | Null, _ => (r, v)
        | _, Null => (l, v)
        | _, Node rl rx rr =>
            let m := leftmost rl rx in
            let '(r, v) := BSTDelete r m v in
            (Node l m r, v)
        end
  end.

Fixpoint BSTSearch (root : TreeNode) (value : Z) (v : Visualizer)
    : TreeNode * Visualizer :=
  match root with
  | Null => (Null, v)
  | Node l x r =>
      if x =? value then
        (root, RecordStep ("Found value " +:+ pretty value) v)
      else
        let v := RecordStep ("Comparing " +:+ pretty value +:+ " with " +:+
                             pretty x) v in
        let v := count v in
        if value <? x then
          let v := RecordStep (pretty value +:+ " < " +:+ pretty x +:+
                               ", searching left") v in
          BSTSearch l value v
        else
          let v := RecordStep (pretty value +:+ " > " +:+ pretty x +:+
                               ", searching right") v in
          BSTSearch r value v
  end.

(** [result] is the vector passed by reference. *)
Fixpoint InorderTraversal (node : TreeNode) (st : list Z * Visualizer)
    : list Z * Visualizer :=
  match node with
  | Null => st
  | Node l x r =>
      let '(result, v) := InorderTraversal l st in
      let result := result ++ [x] in
      let v := RecordStep ("Visiting node " +:+ pretty x) v in
      InorderTraversal r (result, v)
  end.

Definition is_heap (a : TreeAlgorithm) : bool :=
  match a with
  | MinHeap | MaxHeap => true
  | _ => false
  end.

(** [std::swap(m_heap[i], m_heap[j])], as in the sorting executors. *)
Definition swap (h : list Z) (i j : nat) : list Z := Sorting.swap h i j.

(** [HeapifyUp] calls itself on the parent; [fuel] bounds the depth of
    the recursion, and [None] is an exhausted fuel. *)
Fixpoint HeapifyUp (fuel : nat) (index : nat) (v : Visualizer)
    : option Visualizer :=
  match fuel with
  | O => None
  | S fuel =>
      if (index =? 0)%nat then Some v
      else
        let parent := ((index - 1) / 2)%nat in
        let shouldSwap :=
          match m_currentAlgorithm v with
          | MinHeap => m_heap v !!! index <? m_heap v !!! parent
          | _ => m_heap v !!! parent <? m_heap v !!! index
          end in
        if shouldSwap then
          let v := RecordStep ("Swapping " +:+ pretty (m_heap v !!! index)
                               +:+ " with parent " +:+
                               pretty (m_heap v !!! parent)) v in
          let v := set_heap (swap (m_heap v) index parent) v in
          HeapifyUp fuel parent v
        else Some v
  end.

Definition HeapInsert (value : Z) (v : Visualizer) : option Visualizer :=
  let v := RecordStep ("Inserting " +:+ pretty value +:+ " into heap") v in
  let v := set_heap (m_heap v ++ [value]) v in
  v ← HeapifyUp (length (m_heap v)) (length (m_heap v) - 1) v;
  Some (RecordStep ("Inserted " +:+ pretty value +:+ " successfully") v).

(** The child [HeapifyDown] picks, or [index] itself. *)
Definition pick (a : TreeAlgorithm) (h : list Z) (index : nat) : nat :=
  let size := length h in
  let target := index in
  let left := (2 * index + 1)%nat in
  let right := (2 * index + 2)%nat in
  match a with
  | MinHeap =>
      let target :=
        if bool_decide (left < size)%nat && (h !!! left <? h !!! target)
        then left else target in
      if bool_decide (right < size)%nat && (h !!! right <? h !!! target)
      then right else target
  | _ =>
      let target :=
        if bool_decide (left < size)%nat && (h !!! target <? h !!! left)
        then left else target in
      if bool_decide (right < size)%nat && (h !!! target <? h !!! right)
      then right else target
  end.

Fixpoint HeapifyDown (fuel : nat) (index : nat) (v : Visualizer)
    : option Visualizer :=
  match fuel with
  | O => None
  | S fuel =>
      let target := pick (m_currentAlgorithm v) (m_heap v) index in
      if bool_decide (target <> index) then
        let v := RecordStep ("Swapping " +:+ pretty (m_heap v !!! index)
                             +:+ " with " +:+ pretty (m_heap v !!! target))
                   v in
        let v := set_heap (swap (m_heap v) index target) v in
        HeapifyDown fuel target v
      else Some v
  end.

(** [m_heap.back()] and [m_heap.pop_back()]. *)
Definition back (h : list Z) : Z := h !!! (length h - 1)%nat.
Definition pop_back (h : list Z) : list Z := take (length h - 1) h.

Definition HeapExtract (v : Visualizer) : option Visualizer :=
  match m_heap v with
  | [] => Some (RecordStep "Heap is empty, cannot extract" v)
  | extracted :: _ =>
      let v := RecordStep ("Extracting root element: " +:+ pretty extracted)
                 v in
      let v := set_heap (<[0%nat := back (m_heap v)]> (m_heap v)) v in
      let v := set_heap (pop_back (m_heap v)) v in
      v ← (if bool_decide (m_heap v <> [])
           then HeapifyDown (S (length (m_heap v))) 0 v else Some v);
      Some (RecordStep ("Extracted " +:+ pretty extracted +:+
                        " successfully") v)
  end.

(** [InsertValue] and [DeleteValue]; the operation time they measure is
    a [double] shown in the panel and is left out. *)
Definition InsertValue (value : Z) (v : Visualizer) : option Visualizer :=
  if is_heap (m_currentAlgorithm v) then HeapInsert value v
  else
    let '(root, v) := BSTInsert (m_root v) value v in
    let v := set_root root v in
    Some (set_nodeCount (m_nodeCount v + 1) v).

Definition DeleteValue (value : Z) (v : Visualizer) : option Visualizer :=
  if is_heap (m_currentAlgorithm v) then HeapExtract v
  else
    let '(root, v) := BSTDelete (m_root v) value v in
    let v := set_root root v in
    Some (if 0 <? m_nodeCount v
          then set_nodeCount (m_nodeCount v - 1) v else v).

(** The second component is [result], the pointer [BSTSearch] hands
    back. *)
Definition SearchValue (value : Z) (v : Visualizer)
    : Visualizer * TreeNode :=
  let v := set_comparisons 0 v in
  let v := ResetVisualization v in
  let v := RecordStep ("Searching for value " +:+ pretty value) v in
  let '(result, v) := BSTSearch (m_root v) value v in
  match result with
  | Node _ _ _ =>
      (RecordStep ("Found value " +:+ pretty value +:+ " in tree!") v,
       result)
  | Null =>
      (RecordStep ("Value " +:+ pretty value +:+ " not found in tree") v,
       result)
  end.

Definition TraverseTree (v : Visualizer) : Visualizer :=
  let v := set_traversalResult [] v in
  let v := ResetVisualization v in
  match m_root v with
  | Null => v
  | root =>
      let v := RecordStep "Starting in-order traversal" v in
      let '(result, v) := InorderTraversal root (m_traversalResult v, v) in
      let v := set_traversalResult result v in
      RecordStep "Traversal completed" v
  end.

(** The constructor's visualizer. *)
Definition fresh : Visualizer :=
  mkVisualizer Null [] [] BinarySearchTree 0%nat false false 0 0 [].

(** The values of a tree, left to right. *)
Fixpoint elements (t : TreeNode) : list Z :=
  match t with
  | Null => []
  | Node l x r => elements l ++ x :: elements r
  end.

(** The search-tree order: everything left of a node is smaller,
    everything right of it greater. *)
Fixpoint bst (t : TreeNode) : Prop :=
  match t with
  | Null => True
  | Node l x r =>
      bst l /\ bst r /\
      Forall (fun z => z < x) (elements l) /\
      Forall (fun z => x < z) (elements r)
  end.

Fixpoint height (t : TreeNode) : Z :=
  match t with
  | Null => 0
  | Node l _ r => 1 + Z.max (height l) (height r)
  end.

(** The order of a heap between a parent [p] and a child [c]: the
    least on top for a min-heap, the greatest otherwise. *)
Definition in_order (a : TreeAlgorithm) (p c : Z) : Prop :=
  match a with
  | MinHeap => p <= c
  | _ => c <= p
  end.

Definition parent_of (i : nat) : nat := ((i - 1) / 2)%nat.

(** Every element but the root is in order with its parent. *)
Definition heap_ok (a : TreeAlgorithm) (h : list Z) : Prop :=
  forall i : nat, (0 < i)%nat -> (i < length h)%nat ->
    in_order a (h !!! parent_of i) (h !!! i).

(** The heap order but for the element at [k] and its parent, with the
    children of [k] in order with the parent of [k]: the state of
    [HeapifyUp] at [k]. *)
Definition rising (a : TreeAlgorithm) (h : list Z) (k : nat) : Prop :=
  (forall i : nat, (0 < i)%nat -> (i < length h)%nat -> i <> k ->
     in_order a (h !!! parent_of i) (h !!! i)) /\
  (forall i : nat, (0 < i)%nat -> (i < length h)%nat -> (0 < k)%nat ->
     parent_of i = k ->
     in_order a (h !!! parent_of k) (h !!! i)).

(** The heap order but for [k] and its children, with the children of
    [k] in order with the parent of [k]: the state of [HeapifyDown] at
    [k]. *)
Definition sinking (a : TreeAlgorithm) (h : list Z) (k : nat) : Prop :=
  (forall i : nat, (0 < i)%nat -> (i < length h)%nat -> parent_of i <> k ->
     in_order a (h !!! parent_of i) (h !!! i)) /\
  (forall i : nat, (0 < i)%nat -> (i < length h)%nat -> (0 < k)%nat ->
     parent_of i = k ->
     in_order a (h !!! parent_of k) (h !!! i)).

(** A min-heap of three elements. *)
Definition small_heap : Visualizer :=
  mkVisualizer Null [2; 5; 3] [] MinHeap 0%nat false false 0 0 [].

(** A tree of one node. *)
Definition seven : Visualizer :=
  mkVisualizer (Node Null 7 Null) [] [] BinarySearchTree 0%nat false false
    1 0 [].

(** A search tree of five nodes: 5 over 3, which has the children 2 and
    4, and 8. *)
Definition five : Visualizer :=
  mkVisualizer
    (Node (Node (Node Null 2 Null) 3 (Node Null 4 Null)) 5 (Node Null 8 Null))
    [] [] BinarySearchTree 0%nat false false 5 0 [].

(** [v] with the steps [extra] pushed and [k] added to
    [m_comparisons]: all that the tree operations do to the visualizer
    besides handing back a root. *)
Definition logged (extra : list string) (k : Z) (v : Visualizer)
    : Visualizer :=
  set_comparisons (m_comparisons v + k) (set_steps (m_steps v ++ extra) v).

(** The least value of a tree, if it has one. *)
Definition minimum (t : TreeNode) : option Z := head (elements t).

End Tree.



(** * Theorems *)

(** ** Bubble Sort on [[3,1,2]] *)

(** C3.  Started on the array [[3,1,2]], the Bubble Sort executor records,
    in order: the comparison of positions (0,1); a swap step whose snapshot
    is [[1,3,2]]; the comparison of (1,2); a swap step whose snapshot is
    [[1,2,3]]; the comparison of (0,1), followed by no swap; the closing
    step.  The counters end at 3 comparisons and 2 swaps. *)
Theorem bubble_sort_312 :
  forall (OtherSort : Sorting.SortingAlgorithm -> list Z -> Sorting.Recording)
         (now : Z),
    let v := Sorting.StartSorting OtherSort now Scenario.sort_312 in
    Sorting.m_sortingSteps v = Scenario.log_312 /\
    Sorting.m_comparisons v = 3 /\
    Sorting.m_swaps v = 2 /\
    Sorting.m_currentStepIndex v = 0%nat /\
    Sorting.m_state v = Sorting.Running.
Proof.
  intros OtherSort now v. subst v.
  repeat split; vm_compute; reflexivity.
Qed.

(** ** The bounded performance history *)

Lemma insert_bounded_length (p : App.AlgorithmPerformance)
    (h : list App.AlgorithmPerformance) :
  (length h <= App.capacity)%nat ->
  (length (App.insert_bounded p h) <= App.capacity)%nat.
Proof.
  intros Hh. unfold App.insert_bounded.
  case_bool_decide as Hc.
  - rewrite length_drop, length_app. simpl. lia.
  - lia.
Qed.

Lemma insert_bounded_full (p : App.AlgorithmPerformance)
    (h : list App.AlgorithmPerformance) :
  length h = App.capacity ->
  App.insert_bounded p h = drop 1 h ++ [p].
Proof.
  intros Hh. unfold App.insert_bounded.
  rewrite bool_decide_eq_true_2 by (rewrite length_app; simpl; lia).
  rewrite drop_app_le; [reflexivity|].
  rewrite Hh. unfold App.capacity. lia.
Qed.

Lemma insert_bounded_room (p : App.AlgorithmPerformance)
    (h : list App.AlgorithmPerformance) :
  (length h < App.capacity)%nat ->
  App.insert_bounded p h = h ++ [p].
Proof.
  intros Hh. unfold App.insert_bounded.
  rewrite bool_decide_eq_false_2; [reflexivity|].
  rewrite length_app. simpl. lia.
Qed.

Lemma history_step_mode (a : App.Application) (op : App.HistoryOp) :
  App.m_currentVisualizer (App.history_step a op) = App.m_currentVisualizer a.
Proof. destruct op as [[[w n] c]|]; reflexivity. Qed.

Lemma history_bounded_any (ops : list App.HistoryOp) (a : App.Application) :
  (length (App.m_performanceHistory a) <= App.capacity)%nat ->
  (length (App.m_performanceHistory (foldl App.history_step a ops))
   <= App.capacity)%nat.
Proof.
  revert a. induction ops as [|op ops IH]; intros a Ha; simpl; [exact Ha|].
  apply IH. destruct op as [[[w n] c]|]; simpl.
  - apply insert_bounded_length, Ha.
  - unfold App.capacity. lia.
Qed.

Lemma history_last_records (mode : App.VisualizationMode)
    (rs : list (Z * Z * PerfCall)) :
  foldl App.history_step (App.initial mode) (map App.HRecord rs)
  = App.mkApp (drop (length rs - App.capacity) (map (App.perf_of mode) rs))
              mode.
Proof.
  induction rs as [|r rs IH] using rev_ind; [reflexivity|].
  rewrite map_app, foldl_app, IH. simpl.
  destruct r as [[w n] c]. simpl.
  unfold App.ReportAlgorithmPerformance, App.RecordAlgorithmPerformance.
  simpl. f_equal.
  rewrite map_app, length_app. simpl.
  set (L := map (App.perf_of mode) rs).
  assert (HL : length L = length rs) by (subst L; apply length_map).
  destruct (decide (length rs < App.capacity)%nat) as [Hlt|Hge].
  - replace (length rs - App.capacity)%nat with 0%nat by lia.
    replace (length rs + 1 - App.capacity)%nat with 0%nat by lia.
    rewrite !drop_0. apply insert_bounded_room. lia.
  - rewrite insert_bounded_full
      by (rewrite length_drop, HL; unfold App.capacity in *; lia).
    rewrite drop_drop.
    replace (length rs + 1 - App.capacity)%nat
      with (length rs - App.capacity + 1)%nat by lia.
    rewrite drop_app_le by (unfold App.capacity in *; lia). reflexivity.
Qed.

(** C9.  The history is bounded by a fixed capacity, 50: whatever is
    recorded or cleared, starting from the empty history, its size never
    exceeds the capacity; it holds the last 50 records in the order they
    were inserted; and an insertion into a full history evicts exactly the
    oldest record and keeps the others in order. *)
Theorem history_bounded_fifo :
  App.capacity = 50%nat /\
  (forall mode ops,
     (length (App.m_performanceHistory
                (foldl App.history_step (App.initial mode) ops))
      <= App.capacity)%nat) /\
  (forall mode rs,
     App.m_performanceHistory
       (foldl App.history_step (App.initial mode) (map App.HRecord rs))
     = drop (length rs - App.capacity) (map (App.perf_of mode) rs)) /\
  (forall a wall arraySize c,
     length (App.m_performanceHistory a) = App.capacity ->
     let a' := App.ReportAlgorithmPerformance wall arraySize c a in
     App.m_performanceHistory a'
     = drop 1 (App.m_performanceHistory a)
       ++ [App.perf_of (App.m_currentVisualizer a) (wall, arraySize, c)] /\
     length (App.m_performanceHistory a') = App.capacity).
Proof.
  split; [reflexivity|]. split; [|split].
  - intros mode ops. apply history_bounded_any. simpl. lia.
  - intros mode rs. rewrite history_last_records. reflexivity.
  - intros a wall arraySize c Hfull a'. subst a'. simpl.
    rewrite insert_bounded_full by exact Hfull. split; [reflexivity|].
    rewrite length_app, length_drop, Hfull. reflexivity.
Qed.

(** A full history: fifty copies of one record. *)
Lemma history_bounded_fifo_witness :
  length (App.m_performanceHistory
            (App.mkApp (replicate 50 (App.mkPerf "Bubble Sort" 1 3 2 0 "00:00:01"))
               App.ModeSorting)) = App.capacity /\
  length (App.m_performanceHistory
            (App.ReportAlgorithmPerformance 2 3
               (mkPerfCall "Quick Sort" 5 4 1)
               (App.mkApp
                  (replicate 50 (App.mkPerf "Bubble Sort" 1 3 2 0 "00:00:01"))
                  App.ModeSorting))) = App.capacity.
Proof.
  destruct history_bounded_fifo as (_ & _ & _ & H).
  split; [reflexivity|].
  apply (H (App.mkApp
              (replicate 50 (App.mkPerf "Bubble Sort" 1 3 2 0 "00:00:01"))
              App.ModeSorting) 2 3 (mkPerfCall "Quick Sort" 5 4 1)).
  reflexivity.
Defined.

(** ** The guard of [StartPathfinding] *)

(** C8, as amended.  A [StartPathfinding] with the start cell or the end
    cell unset returns at its guard: whatever the executors are, none is
    run, and the playback state, the grid and every other member are left
    as they were.  The method is [void]: the call hands nothing back.
    What the host can read afterwards is the playback state, which a
    start with both cells set leaves [Running] (no executor writes
    [m_state]) and a rejected start leaves as it was. *)
Theorem start_pathfinding_rejected :
  forall (Execute : Pathfinding.Algorithm -> Pathfinding.Visualizer ->
                    Pathfinding.Visualizer)
         (now after : Z) (v : Pathfinding.Visualizer),
    (Pathfinding.m_startCell v = None \/ Pathfinding.m_endCell v = None ->
     Pathfinding.StartPathfinding Execute now after v = (tt, v)) /\
    (Pathfinding.m_startCell v <> None ->
     Pathfinding.m_endCell v <> None ->
     (forall a w, Pathfinding.m_state (Execute a w) = Pathfinding.m_state w) ->
     Pathfinding.GetState
       (snd (Pathfinding.StartPathfinding Execute now after v))
     = Pathfinding.Running).
Proof.
  intros Execute now after v. split.
  - intros [H|H]; unfold Pathfinding.StartPathfinding;
      rewrite H; [reflexivity|].
    destruct (Pathfinding.m_startCell v); reflexivity.
  - intros Hs He Hkeep. unfold Pathfinding.StartPathfinding.
    destruct (Pathfinding.m_startCell v) as [s|]; [|contradiction].
    destruct (Pathfinding.m_endCell v) as [e|]; [|contradiction].
    unfold Pathfinding.GetState. cbn [snd].
    change (Pathfinding.m_state (Pathfinding.finish (after - now) ?w))
      with (Pathfinding.m_state w).
    rewrite Hkeep. reflexivity.
Qed.

Lemma start_pathfinding_rejected_witness :
  Pathfinding.StartPathfinding Scenario.one_step_executor 5 6
    (Scenario.path_on None (Some (0, 2)%nat) Pathfinding.Stopped)
  = (tt, Scenario.path_on None (Some (0, 2)%nat) Pathfinding.Stopped) /\
  Pathfinding.GetState
    (snd (Pathfinding.StartPathfinding Scenario.one_step_executor 5 6
            (Scenario.path_on (Some (0, 0)%nat) (Some (0, 2)%nat)
               Pathfinding.Stopped)))
  = Pathfinding.Running.
Proof.
  split.
  - apply (start_pathfinding_rejected Scenario.one_step_executor 5 6
             (Scenario.path_on None (Some (0, 2)%nat) Pathfinding.Stopped)).
    left; reflexivity.
  - apply (start_pathfinding_rejected Scenario.one_step_executor 5 6
             (Scenario.path_on (Some (0, 0)%nat) (Some (0, 2)%nat)
                Pathfinding.Stopped)).
    + discriminate.
    + discriminate.
    + intros a w. reflexivity.
Defined.

(** C8, the claim as stated fails: the rejection is not reported.  For
    the stopped controller without a start cell, a rejected start hands
    back the unit value and leaves every member as it found it, so no
    boolean computed from what the call returns and from the controller
    as it leaves it tells the rejected call from no call at all. *)
Lemma start_pathfinding_rejection_unreported :
  ~ exists report : unit * Pathfinding.Visualizer -> bool,
      report
        (Pathfinding.StartPathfinding Scenario.one_step_executor 5 6
           (Scenario.path_on None (Some (0, 2)%nat) Pathfinding.Stopped))
      = false /\
      report (tt, Scenario.path_on None (Some (0, 2)%nat) Pathfinding.Stopped)
      = true.
Proof.
  intros [report [Hrej Hidle]].
  change (Pathfinding.StartPathfinding Scenario.one_step_executor 5 6
            (Scenario.path_on None (Some (0, 2)%nat) Pathfinding.Stopped))
    with (tt, Scenario.path_on None (Some (0, 2)%nat) Pathfinding.Stopped)
    in Hrej.
  congruence.
Qed.

(** ** Linear Search on the empty array *)

(** C5, as amended.  On an empty array the Linear Search executor records
    exactly one step, the closing "not found" step, and [StartSearch]
    leaves the controller running with the cursor on that step; the first
    playback step after it completes the search, with nothing found. *)
Theorem linear_search_empty_array :
  forall (probe : Z -> Z -> Z -> Z -> Z -> Z) (now fin : Z)
         (v : Search.Visualizer),
    Search.m_array v = [] ->
    Search.m_currentAlgorithm v = Search.LinearSearchAlg ->
    let v' := fst (Search.StartSearch probe now fin v) in
    Search.m_steps v' = [Scenario.not_found_step] /\
    Search.m_currentStep v' = 0%nat /\
    Search.m_isRunning v' = true /\
    Search.m_isComplete v' = false /\
    Search.m_isComplete (Search.StepSearch v') = true /\
    Search.m_isRunning (Search.StepSearch v') = false /\
    Search.m_targetFound (Search.StepSearch v') = false.
Proof.
  intros probe now fin v Harr Halg v'. subst v'.
  destruct v; simpl in Harr, Halg; subst.
  repeat split; reflexivity.
Qed.

Lemma linear_search_empty_array_witness :
  Search.m_array Scenario.linear_empty = [] /\
  Search.m_currentAlgorithm Scenario.linear_empty = Search.LinearSearchAlg /\
  Search.m_steps
    (fst (Search.StartSearch Scenario.no_probe 10 12 Scenario.linear_empty))
  = [Scenario.not_found_step].
Proof.
  split; [reflexivity|]. split; [reflexivity|].
  apply (linear_search_empty_array Scenario.no_probe 10 12
           Scenario.linear_empty); reflexivity.
Defined.

(** C5, the claim as stated fails: after the first start on the empty
    array the controller is not completed; it is running. *)
Lemma linear_search_empty_not_completed :
  ~ (Search.m_isComplete
       (fst (Search.StartSearch Scenario.no_probe 10 12
               Scenario.linear_empty)) = true /\
     Search.m_isRunning
       (fst (Search.StartSearch Scenario.no_probe 10 12
               Scenario.linear_empty)) = false).
Proof. vm_compute. intros [H _]. discriminate H. Qed.

(** ** Binary Search for 7 in [[1,3,5,7,9]] *)

(** C4, as amended.  Started for target 7 on [[1,3,5,7,9]], the Binary
    Search executor records six steps, among them, in this order: a
    comparison step at index 2 (value 5), the step that narrows to the
    right half, a comparison step at index 3 (value 7) and, last, the
    found step for index 3; exactly 2 of the recorded steps are comparison
    steps.  The displayed comparison counter is counted by playback, not
    by the executor: it is 0 when the executor returns and 2 once the six
    steps have been played. *)
Theorem binary_search_7 :
  forall (probe : Z -> Z -> Z -> Z -> Z -> Z) (now tick fin : Z),
    let r := Search.ClickStartSearch probe now tick fin Scenario.binary_7 in
    let played := Nat.iter 6 Search.StepSearch (fst r) in
    Search.m_steps (fst r) = Scenario.log_binary_7 /\
    length (filter (fun s => Search.isComparison s = true)
              (Search.m_steps (fst r))) = 2%nat /\
    Search.m_comparisons (fst r) = 0 /\
    Search.m_comparisons played = 2 /\
    Search.m_isComplete played = true /\
    Search.m_targetFound played = true /\
    Search.m_foundIndex played = 3.
Proof.
  intros probe now tick fin r played. subst played r.
  repeat split; reflexivity.
Qed.

(** C4, the claim as stated fails: when the Binary Search executor has
    run, the comparison count is not 2; both counters are 0. *)
Lemma binary_search_counts_nothing :
  Search.m_comparisons
    (fst (Search.ClickStartSearch Scenario.no_probe 10 10 12 Scenario.binary_7))
  <> 2 /\
  Search.m_totalComparisons
    (fst (Search.ClickStartSearch Scenario.no_probe 10 10 12 Scenario.binary_7))
  <> 2 /\
  map pc_comparisons
    (snd (Search.ClickStartSearch Scenario.no_probe 10 10 12 Scenario.binary_7))
  = [0].
Proof. vm_compute. repeat split; discriminate. Qed.

(** ** Stepping forward, then backward *)

Lemma execute_current_step_at (v : Sorting.Visualizer)
    (step : Sorting.SortingStep) :
  Sorting.m_sortingSteps v !! Sorting.m_currentStepIndex v = Some step ->
  Sorting.ExecuteCurrentStep v = Sorting.set_array (Sorting.array step) v.
Proof. intros H. unfold Sorting.ExecuteCurrentStep. rewrite H. reflexivity. Qed.

Lemma step_forward_enabled (now : Z) (v : Sorting.Visualizer)
    (step : Sorting.SortingStep) :
  Sorting.m_sortingSteps v !! Sorting.m_currentStepIndex v = Some step ->
  let v' := fst (Sorting.StepForward now v) in
  Sorting.m_currentStepIndex v' = S (Sorting.m_currentStepIndex v) /\
  Sorting.m_sortingSteps v' = Sorting.m_sortingSteps v /\
  Sorting.m_array v' = Sorting.array step.
Proof.
  intros H v'. subst v'.
  pose proof (lookup_lt_Some _ _ _ H) as Hlt.
  unfold Sorting.StepForward.
  rewrite (bool_decide_eq_true_2 _ Hlt).
  rewrite bool_decide_eq_false_2
    by (intros E; rewrite E in Hlt; simpl in Hlt; lia).
  simpl. rewrite (execute_current_step_at _ _ H).
  case_bool_decide; simpl; auto.
Qed.

(** C6, as amended.  At a cursor where [StepForward] is enabled (a step is
    recorded there), [StepForward] followed by [StepBackward] returns the
    cursor to its prior value and leaves the log untouched; the visible
    array is then the snapshot of the step recorded at that cursor. *)
Theorem step_forward_then_backward :
  forall (now : Z) (v : Sorting.Visualizer) (step : Sorting.SortingStep),
    Sorting.m_sortingSteps v !! Sorting.m_currentStepIndex v = Some step ->
    let v' := Sorting.StepBackward (fst (Sorting.StepForward now v)) in
    Sorting.m_currentStepIndex v' = Sorting.m_currentStepIndex v /\
    Sorting.m_sortingSteps v' = Sorting.m_sortingSteps v /\
    Sorting.m_array v' = Sorting.array step.
Proof.
  intros now v step H v'. subst v'.
  destruct (step_forward_enabled now v step H) as (Hi & Hs & Ha).
  set (w := fst (Sorting.StepForward now v)) in *.
  unfold Sorting.StepBackward.
  rewrite bool_decide_eq_true_2 by (rewrite Hi; lia).
  assert (Hw : Sorting.m_sortingSteps
                 (Sorting.set_index (Nat.pred (Sorting.m_currentStepIndex w)) w)
               !! Sorting.m_currentStepIndex
                    (Sorting.set_index (Nat.pred (Sorting.m_currentStepIndex w)) w)
               = Some step).
  { simpl. rewrite Hi, Hs. simpl. exact H. }
  rewrite (execute_current_step_at _ _ Hw).
  destruct (Sorting.state_eqb _ _); simpl; rewrite Hi, Hs; auto.
Qed.

Lemma step_forward_then_backward_witness :
  Sorting.m_sortingSteps Scenario.started_312
    !! Sorting.m_currentStepIndex Scenario.started_312
  = Some (Sorting.mkStep [3; 1; 2] 0 1 (-1) false
            "Comparing elements at positions 0 and 1") /\
  Sorting.m_currentStepIndex
    (Sorting.StepBackward (fst (Sorting.StepForward 7 Scenario.started_312)))
  = Sorting.m_currentStepIndex Scenario.started_312.
Proof.
  assert (H : Sorting.m_sortingSteps Scenario.started_312
                !! Sorting.m_currentStepIndex Scenario.started_312
              = Some (Sorting.mkStep [3; 1; 2] 0 1 (-1) false
                        "Comparing elements at positions 0 and 1"))
    by reflexivity.
  split; [exact H|].
  apply (step_forward_then_backward 7 Scenario.started_312 _ H).
Defined.

(** C6, the claim as stated fails: with the Bubble Sort log of [[3,1,2]]
    and the cursor at 1, the array on display is [[3,1,2]]; after
    [StepForward] and [StepBackward] the cursor is 1 again but the array
    on display is [[1,3,2]]. *)
Lemma step_back_shows_recorded_snapshot :
  Sorting.m_currentStepIndex Scenario.at_cursor_1 = 1%nat /\
  Sorting.m_array Scenario.at_cursor_1 = [3; 1; 2] /\
  Sorting.m_currentStepIndex
    (Sorting.StepBackward (fst (Sorting.StepForward 2 Scenario.at_cursor_1)))
  = 1%nat /\
  Sorting.m_array
    (Sorting.StepBackward (fst (Sorting.StepForward 2 Scenario.at_cursor_1)))
  = [1; 3; 2] /\
  Sorting.m_array
    (Sorting.StepBackward (fst (Sorting.StepForward 2 Scenario.at_cursor_1)))
  <> Sorting.m_array Scenario.at_cursor_1.
Proof. vm_compute. repeat split; discriminate. Qed.

(** ** Playback of the sorting log *)

Lemma same_run_refl (v : Sorting.Visualizer) : Host.same_run v v.
Proof. repeat split. Qed.

Lemma same_run_trans (a b c : Sorting.Visualizer) :
  Host.same_run a b -> Host.same_run b c -> Host.same_run a c.
Proof.
  unfold Host.same_run.
  intros (H1 & H2 & H3 & H4 & H5 & H6) (K1 & K2 & K3 & K4 & K5 & K6).
  repeat split; congruence.
Qed.

Lemma step_forward_idle (now : Z) (v : Sorting.Visualizer) :
  ~ (Sorting.m_currentStepIndex v < length (Sorting.m_sortingSteps v))%nat ->
  Sorting.StepForward now v = (v, []).
Proof.
  intros H. unfold Sorting.StepForward.
  rewrite (bool_decide_eq_false_2 _ H), andb_false_r. reflexivity.
Qed.

Lemma step_forward_spec (now : Z) (v : Sorting.Visualizer) :
  (Sorting.m_currentStepIndex v < length (Sorting.m_sortingSteps v))%nat ->
  let v' := fst (Sorting.StepForward now v) in
  Sorting.m_currentStepIndex v' = S (Sorting.m_currentStepIndex v) /\
  Host.same_run v v' /\
  Sorting.m_state v'
  = (if bool_decide (S (Sorting.m_currentStepIndex v)
                     = length (Sorting.m_sortingSteps v))
     then Sorting.Completed else Sorting.m_state v) /\
  snd (Sorting.StepForward now v)
  = (if bool_decide (S (Sorting.m_currentStepIndex v)
                     = length (Sorting.m_sortingSteps v))
        && Sorting.m_performanceCallback v
     then [Host.report_of now v] else []).
Proof.
  intros Hlt v'. subst v'.
  destruct (lookup_lt_is_Some_2 _ _ Hlt) as [step Hstep].
  unfold Sorting.StepForward.
  rewrite (bool_decide_eq_true_2 _ Hlt).
  rewrite bool_decide_eq_false_2
    by (intros E; rewrite E in Hlt; simpl in Hlt; lia).
  simpl. rewrite (execute_current_step_at _ _ Hstep). simpl.
  case_bool_decide as Hend.
  - rewrite bool_decide_eq_true_2 by lia. simpl.
    repeat split.
  - rewrite bool_decide_eq_false_2 by lia. simpl.
    repeat split.
Qed.

Section SortingPlayback.

Variable OtherSort : Sorting.SortingAlgorithm -> list Z -> Sorting.Recording.

Local Abbreviation apply_op := (Host.apply_op OtherSort).
Local Abbreviation play := (Host.play OtherSort).

Lemma play_app (es1 es2 : list Host.Event) (v : Sorting.Visualizer) :
  play (es1 ++ es2) v
  = (fst (play es2 (fst (play es1 v))),
     snd (play es1 v) ++ snd (play es2 (fst (play es1 v)))).
Proof.
  revert v. induction es1 as [|e es1 IH]; intros v; simpl.
  - destruct (play es2 v); reflexivity.
  - destruct (apply_op e v) as [v1 c1]. rewrite IH.
    destruct (play es1 v1) as [v2 c2]. simpl.
    rewrite app_assoc. reflexivity.
Qed.

Lemma update_spec (now : Z) (v : Sorting.Visualizer) :
  Sorting.Update now v = (v, []) \/
  (Sorting.m_state v = Sorting.Running /\
   Sorting.Update now v
   = (Sorting.set_lastUpdate now (fst (Sorting.StepForward now v)),
      snd (Sorting.StepForward now v))).
Proof.
  unfold Sorting.Update.
  destruct (Sorting.m_state v) eqn:Hst; simpl; auto.
  destruct (Sorting.m_stepDelay v <=? now - Sorting.m_lastUpdate v); auto.
  right. split; [reflexivity|].
  destruct (Sorting.StepForward now v); reflexivity.
Qed.

(** Every operation keeps the cursor inside the log or at its end. *)
Lemma apply_op_cursor_ok (e : Host.Event) (v : Sorting.Visualizer) :
  Host.cursor_ok v -> Host.cursor_ok (fst (apply_op e v)).
Proof.
  unfold Host.cursor_ok, Host.apply_op. intros Hok.
  destruct (Host.ev_op e) eqn:Hop; simpl.
  - unfold Sorting.StartSorting.
    destruct (Sorting.state_eqb _ _); simpl; [lia|exact Hok].
  - unfold Sorting.PauseSorting.
    destruct (Sorting.state_eqb _ _); simpl; exact Hok.
  - lia.
  - destruct (decide (Sorting.m_currentStepIndex v
                      < length (Sorting.m_sortingSteps v))%nat) as [Hlt|Hge].
    + destruct (step_forward_spec (Host.ev_now e) v Hlt)
        as (Hi & (Hs & _) & _).
      rewrite Hi, Hs. lia.
    + rewrite step_forward_idle by exact Hge. exact Hok.
  - unfold Sorting.StepBackward. case_bool_decide; [|exact Hok].
    unfold Sorting.ExecuteCurrentStep. simpl.
    destruct (Sorting.m_sortingSteps v !! _); simpl;
      destruct (Sorting.state_eqb _ _); simpl; lia.
  - exact Hok.
  - destruct (update_spec (Host.ev_now e) v) as [->|[_ ->]]; [exact Hok|].
    simpl.
    destruct (decide (Sorting.m_currentStepIndex v
                      < length (Sorting.m_sortingSteps v))%nat) as [Hlt|Hge].
    + destruct (step_forward_spec (Host.ev_now e) v Hlt)
        as (Hi & (Hs & _) & _).
      rewrite Hi, Hs. lia.
    + rewrite step_forward_idle by exact Hge. exact Hok.
  - exact Hok.
  - exact Hok.
Qed.

Lemma play_cursor_ok (es : list Host.Event) (v : Sorting.Visualizer) :
  Host.cursor_ok v -> Host.cursor_ok (fst (play es v)).
Proof.
  revert v. induction es as [|e es IH]; intros v Hok; simpl; [exact Hok|].
  pose proof (apply_op_cursor_ok e v Hok) as H1.
  destruct (apply_op e v) as [v1 c1]. simpl in H1.
  specialize (IH v1 H1). destruct (play es v1). exact IH.
Qed.

(** A tick never moves the cursor back. *)
Lemma update_cursor_mono (e : Host.Event) (v : Sorting.Visualizer) :
  Host.is_update e = true ->
  (Sorting.m_currentStepIndex v
   <= Sorting.m_currentStepIndex (fst (apply_op e v)))%nat.
Proof.
  unfold Host.is_update, Host.apply_op.
  destruct (Host.ev_op e); try discriminate. intros _.
  destruct (update_spec (Host.ev_now e) v) as [->|[_ ->]]; [simpl; lia|].
  simpl.
  destruct (decide (Sorting.m_currentStepIndex v
                    < length (Sorting.m_sortingSteps v))%nat) as [Hlt|Hge].
  - destruct (step_forward_spec (Host.ev_now e) v Hlt) as (Hi & _).
    rewrite Hi. lia.
  - rewrite step_forward_idle by exact Hge. simpl. lia.
Qed.

Lemma ticks_cursor_mono (ticks : list Host.Event) (v : Sorting.Visualizer) :
  forallb Host.is_update ticks = true ->
  (Sorting.m_currentStepIndex v
   <= Sorting.m_currentStepIndex (fst (play ticks v)))%nat.
Proof.
  revert v. induction ticks as [|e es IH]; intros v Hall; simpl; [lia|].
  simpl in Hall. apply andb_true_iff in Hall as [He Hes].
  pose proof (update_cursor_mono e v He) as H1.
  destruct (apply_op e v) as [v1 c1]. simpl in H1.
  specialize (IH v1 Hes). destruct (play es v1). simpl in *. lia.
Qed.

End SortingPlayback.

(** C7.  Under time-driven ticks the cursor never decreases: along any
    sequence of ticks it is at least what it was after any earlier part of
    the sequence.  And after every operation (tick, manual step forward or
    backward, reset, start, pause, speed, algorithm or array change) the
    cursor lies between 0 and the length of the log. *)
Theorem cursor_monotone_and_in_range :
  forall (OtherSort : Sorting.SortingAlgorithm -> list Z -> Sorting.Recording),
    (forall (arr : list Z) (es : list Host.Event),
       Host.cursor_ok (fst (Host.play OtherSort es (Sorting.fresh arr)))) /\
    (forall (v : Sorting.Visualizer) (es : list Host.Event),
       Host.cursor_ok v -> Host.cursor_ok (fst (Host.play OtherSort es v))) /\
    (forall (v : Sorting.Visualizer) (ticks more : list Host.Event),
       forallb Host.is_update (ticks ++ more) = true ->
       (Sorting.m_currentStepIndex (fst (Host.play OtherSort ticks v))
        <= Sorting.m_currentStepIndex
             (fst (Host.play OtherSort (ticks ++ more) v)))%nat).
Proof.
  intros OtherSort. split; [|split].
  - intros arr es. apply play_cursor_ok. unfold Host.cursor_ok. simpl. lia.
  - intros v es. apply play_cursor_ok.
  - intros v ticks more Hall.
    rewrite forallb_app in Hall. apply andb_true_iff in Hall as [_ Hmore].
    rewrite play_app. simpl. apply ticks_cursor_mono, Hmore.
Qed.

Lemma cursor_monotone_and_in_range_witness :
  Host.cursor_ok Scenario.started_312 /\
  forallb Host.is_update (Scenario.two_ticks ++ Scenario.third_tick) = true /\
  Host.cursor_ok
    (fst (Host.play Scenario.no_other Scenario.two_ticks Scenario.started_312)) /\
  (Sorting.m_currentStepIndex
     (fst (Host.play Scenario.no_other Scenario.two_ticks
             Scenario.started_312))
   <= Sorting.m_currentStepIndex
        (fst (Host.play Scenario.no_other
                (Scenario.two_ticks ++ Scenario.third_tick)
                Scenario.started_312)))%nat.
Proof.
  assert (Hok : Host.cursor_ok Scenario.started_312)
    by (unfold Host.cursor_ok; vm_compute; lia).
  assert (Hall : forallb Host.is_update
                   (Scenario.two_ticks ++ Scenario.third_tick) = true)
    by reflexivity.
  destruct (cursor_monotone_and_in_range Scenario.no_other) as (_ & H2 & H3).
  split; [exact Hok|]. split; [exact Hall|]. split.
  - apply (H2 Scenario.started_312 Scenario.two_ticks Hok).
  - apply (H3 Scenario.started_312 Scenario.two_ticks Scenario.third_tick Hall).
Defined.

(** ** The search executors *)

Lemma grown_refl (v : Search.Visualizer) : Search.grown v v.
Proof. exists []. destruct v; unfold Search.set_steps; simpl. rewrite app_nil_r. reflexivity. Qed.

Lemma grown_trans (a b c : Search.Visualizer) :
  Search.grown a b -> Search.grown b c -> Search.grown a c.
Proof.
  intros [x ->] [y ->]. exists (x ++ y).
  unfold Search.set_steps; simpl. rewrite app_assoc. reflexivity.
Qed.

Lemma grown_push (s : Search.SearchStep) (v : Search.Visualizer) :
  Search.grown v (Search.push s v).
Proof. exists [s]. reflexivity. Qed.

Lemma grown_record (d : string) (c l h : Z) (b : bool) (v : Search.Visualizer) :
  Search.grown v (Search.RecordStep d c l h b v).
Proof. apply grown_push. Qed.

Lemma grown_complete (fin : Z) (v v' : Search.Visualizer) :
  Search.grown v v' -> Search.CompleteSearch fin v' = Search.CompleteSearch fin v.
Proof. intros [x ->]. reflexivity. Qed.

Lemma grown_at (v v' : Search.Visualizer) (i : Z) :
  Search.grown v v' -> Search.at_ v' i = Search.at_ v i.
Proof. intros [x ->]. reflexivity. Qed.

Lemma grown_size (v v' : Search.Visualizer) :
  Search.grown v v' -> Search.size v' = Search.size v.
Proof. intros [x ->]. reflexivity. Qed.

Lemma grown_counters (v v' : Search.Visualizer) :
  Search.grown v v' ->
  Search.m_comparisons v' = Search.m_comparisons v /\
  Search.m_totalComparisons v' = Search.m_totalComparisons v.
Proof. intros [x ->]. split; reflexivity. Qed.

Lemma grown_complete_flag (v v' : Search.Visualizer) :
  Search.grown v v' -> Search.m_isComplete v' = Search.m_isComplete v.
Proof. intros [x ->]. reflexivity. Qed.

Lemma reported_quiet (fin : Z) (v : Search.Visualizer) (r : Search.Run) :
  Search.reported_run fin v r -> Search.quiet_run fin v r.
Proof. intros [H1 H2]. split; auto. Qed.

Lemma reported_step (fin : Z) (v v' : Search.Visualizer) (r : Search.Run) :
  Search.grown v v' -> Search.reported_run fin v' r -> Search.reported_run fin v r.
Proof.
  intros Hg [H1 H2]. split.
  - eapply grown_trans; eauto.
  - rewrite H2. apply grown_complete, Hg.
Qed.

Lemma quiet_step (fin : Z) (v v' : Search.Visualizer) (r : Search.Run) :
  Search.grown v v' -> Search.quiet_run fin v' r -> Search.quiet_run fin v r.
Proof.
  intros Hg [H1 H2]. split.
  - eapply grown_trans; eauto.
  - destruct H2 as [H2|H2]; [left; exact H2|right].
    rewrite H2. apply grown_complete, Hg.
Qed.

Lemma reported_here (fin : Z) (v v' : Search.Visualizer) :
  Search.grown v v' -> Search.reported_run fin v (v', Search.CompleteSearch fin v').
Proof. intros Hg. split; [exact Hg|]. simpl. apply grown_complete, Hg. Qed.

Lemma found_exit_reported (i low high target fin : Z) (v : Search.Visualizer) :
  Search.reported_run fin v (Search.found_exit i low high target fin v).
Proof.
  unfold Search.found_exit. apply reported_here.
  eapply grown_trans; [apply grown_record|apply grown_push].
Qed.

Lemma not_found_exit_reported (fin : Z) (v : Search.Visualizer) :
  Search.reported_run fin v (Search.not_found_exit fin v).
Proof. unfold Search.not_found_exit. apply reported_here, grown_record. Qed.

(** The probe of a halving loop stays inside its window. *)
Lemma mid_in_window (low high : Z) :
  low <= high ->
  low <= low + (high - low) `quot` 2 <= high.
Proof.
  intros H. rewrite Z.quot_div_nonneg by lia.
  assert (0 <= (high - low) `div` 2 <= high - low); [|lia].
  split; [apply Z.div_pos; lia|].
  apply Z.div_le_upper_bound; lia.
Qed.

Section SearchLoops.

Variables (target fin : Z).

Lemma binary_loop_reported (fuel : nat) :
  forall low high v r,
    Search.BinarySearch_loop fuel low high target fin v = Some r ->
    Search.reported_run fin v r.
Proof.
  induction fuel as [|fuel IH]; intros low high v r H; [discriminate|].
  cbn [Search.BinarySearch_loop] in H. split_run H.
  - injection H as <-.
    eapply reported_step; [apply grown_record|apply found_exit_reported].
  - apply IH in H. eapply reported_step; [|exact H].
    eapply grown_trans; apply grown_record.
  - apply IH in H. eapply reported_step; [|exact H].
    eapply grown_trans; apply grown_record.
  - injection H as <-. apply reported_here, grown_refl.
Qed.

Lemma binary_loop_total (fuel : nat) :
  forall low high v,
    (Z.to_nat (high - low + 1) < fuel)%nat ->
    is_Some (Search.BinarySearch_loop fuel low high target fin v).
Proof.
  induction fuel as [|fuel IH]; intros low high v Hf; [lia|].
  cbn [Search.BinarySearch_loop].
  destruct (low <=? high) eqn:Hle; [|eauto].
  apply Z.leb_le in Hle. pose proof (mid_in_window low high Hle) as Hm.
  repeat case_match; eauto; apply IH; lia.
Qed.

Lemma exponential_binary_reported (fuel : nat) :
  forall low high v r,
    Search.Exponential_binary fuel low high target fin v = Some r ->
    Search.reported_run fin v r.
Proof.
  induction fuel as [|fuel IH]; intros low high v r H; [discriminate|].
  cbn [Search.Exponential_binary] in H. split_run H.
  - injection H as <-.
    eapply reported_step; [apply grown_record|apply found_exit_reported].
  - apply IH in H. eapply reported_step; [apply grown_record|exact H].
  - apply IH in H. eapply reported_step; [apply grown_record|exact H].
  - injection H as <-. apply reported_here, grown_refl.
Qed.

Lemma exponential_binary_total (fuel : nat) :
  forall low high v,
    (Z.to_nat (high - low + 1) < fuel)%nat ->
    is_Some (Search.Exponential_binary fuel low high target fin v).
Proof.
  induction fuel as [|fuel IH]; intros low high v Hf; [lia|].
  cbn [Search.Exponential_binary].
  destruct (low <=? high) eqn:Hle; [|eauto].
  apply Z.leb_le in Hle. pose proof (mid_in_window low high Hle) as Hm.
  repeat case_match; eauto; apply IH; lia.
Qed.

Lemma exponential_bound_grown (fuel : nat) :
  forall bound v b' v',
    Search.Exponential_bound fuel bound target v = Some (b', v') ->
    Search.grown v v'.
Proof.
  induction fuel as [|fuel IH]; intros bound v b' v' H; [discriminate|].
  cbn [Search.Exponential_bound] in H. split_run H.
  - apply IH in H. eapply grown_trans; [apply grown_record|exact H].
  - injection H as _ <-. apply grown_refl.
Qed.

Lemma exponential_bound_total (fuel : nat) :
  forall bound v,
    1 <= bound ->
    (Z.to_nat (Search.size v - bound) < fuel)%nat ->
    is_Some (Search.Exponential_bound fuel bound target v).
Proof.
  induction fuel as [|fuel IH]; intros bound v Hb Hf; [lia|].
  cbn [Search.Exponential_bound].
  destruct (bound <? Search.size v) eqn:Hlt; simpl; [|eauto].
  apply Z.ltb_lt in Hlt.
  destruct (Search.at_ v bound <? target); [|eauto].
  apply IH; [lia|].
  rewrite (grown_size v) by apply grown_record. lia.
Qed.

Lemma jump_blocks_spec (fuel : nat) :
  forall prev step v res,
    Search.Jump_blocks fuel prev step target fin v = Some res ->
    match res with
    | inl r => Search.reported_run fin v r
    | inr (_, _, v') => Search.grown v v'
    end.
Proof.
  induction fuel as [|fuel IH]; intros prev step v res H; [discriminate|].
  cbn [Search.Jump_blocks] in H. split_run H.
  - injection H as <-.
    eapply reported_step; [apply grown_record|apply not_found_exit_reported].
  - apply IH in H. destruct res as [r|[[p s] v']].
    + eapply reported_step; [apply grown_record|exact H].
    + eapply grown_trans; [apply grown_record|exact H].
  - injection H as <-. apply grown_refl.
Qed.

Lemma jump_blocks_total (fuel : nat) :
  forall prev step v,
    0 < Z.sqrt (Search.size v) ->
    prev < step ->
    (Z.to_nat (Search.size v - prev) < fuel)%nat ->
    is_Some (Search.Jump_blocks fuel prev step target fin v).
Proof.
  induction fuel as [|fuel IH]; intros prev step v Hr Hps Hf; [lia|].
  cbn [Search.Jump_blocks].
  destruct (Search.at_ v (Search.last_of v step) <? target); [|eauto].
  set (v1 := Search.RecordStep _ _ _ _ _ v).
  assert (Hs : Search.size v1 = Search.size v)
    by (apply grown_size, grown_record).
  rewrite Hs.
  destruct (Search.size v <=? step) eqn:Hle; [eauto|].
  apply Z.leb_gt in Hle. apply IH; rewrite ?Hs; lia.
Qed.

(** Where the block loop hands over to the scan, the scan index is
    inside the array and before the end of the block. *)
Lemma jump_blocks_handover (fuel : nat) :
  forall prev step v p s v',
    0 < Z.sqrt (Search.size v) ->
    0 <= prev < step -> prev < Search.size v ->
    Search.Jump_blocks fuel prev step target fin v = Some (inr (p, s, v')) ->
    0 <= p < s /\ p < Search.size v.
Proof.
  induction fuel as [|fuel IH]; intros prev step v p s v' Hr Hps Hpn H;
    [discriminate|].
  cbn [Search.Jump_blocks] in H.
  destruct (Search.at_ v (Search.last_of v step) <? target).
  - set (v1 := Search.RecordStep _ _ _ _ _ v) in H.
    assert (Hs : Search.size v1 = Search.size v)
      by (apply grown_size, grown_record).
    rewrite Hs in H.
    destruct (Search.size v <=? step) eqn:Hle; [discriminate|].
    apply Z.leb_gt in Hle.
    apply IH in H; rewrite ?Hs; lia.
  - injection H as <- <- <-. lia.
Qed.

Lemma jump_scan_spec (fuel : nat) :
  forall prev step v res,
    Search.Jump_scan fuel prev step target fin v = Some res ->
    match res with
    | inl r => Search.reported_run fin v r
    | inr (_, v') => Search.grown v v'
    end.
Proof.
  induction fuel as [|fuel IH]; intros prev step v res H; [discriminate|].
  cbn [Search.Jump_scan] in H. split_run H.
  - injection H as <-.
    eapply reported_step; [apply grown_record|apply not_found_exit_reported].
  - apply IH in H. destruct res as [r|[p v']].
    + eapply reported_step; [apply grown_record|exact H].
    + eapply grown_trans; [apply grown_record|exact H].
  - injection H as <-. apply grown_refl.
Qed.

Lemma jump_scan_total (fuel : nat) :
  forall prev step v,
    prev < Z.min step (Search.size v) ->
    (Z.to_nat (Search.size v - prev) < fuel)%nat ->
    is_Some (Search.Jump_scan fuel prev step target fin v).
Proof.
  induction fuel as [|fuel IH]; intros prev step v Hp Hf; [lia|].
  cbn [Search.Jump_scan].
  destruct (Search.at_ v prev <? target); [|eauto].
  set (v1 := Search.RecordStep _ _ _ _ _ v).
  assert (Hs : Search.size v1 = Search.size v)
    by (apply grown_size, grown_record).
  rewrite Hs.
  destruct (prev + 1 =? Z.min step (Search.size v)) eqn:He; [eauto|].
  apply Z.eqb_neq in He. apply IH; rewrite ?Hs; lia.
Qed.

Lemma linear_loop_spec (cnt : nat) :
  forall i v,
    Search.m_performanceCallback
      (fst (Search.LinearSearch_loop cnt i target fin v))
    = Search.m_performanceCallback v /\
    Search.m_comparisons (fst (Search.LinearSearch_loop cnt i target fin v))
    = Search.m_comparisons v /\
    snd (Search.LinearSearch_loop cnt i target fin v)
    = Search.CompleteSearch fin
        (fst (Search.LinearSearch_loop cnt i target fin v)) /\
    Search.m_totalComparisons v
    <= Search.m_totalComparisons
         (fst (Search.LinearSearch_loop cnt i target fin v)) /\
    (cnt <> 0%nat ->
     Search.m_totalComparisons v
     < Search.m_totalComparisons
         (fst (Search.LinearSearch_loop cnt i target fin v))) /\
    Search.m_isComplete (fst (Search.LinearSearch_loop cnt i target fin v))
    = Search.m_isComplete v.
Proof.
  induction cnt as [|cnt IH]; intros i v.
  - simpl. repeat split; lia.
  - cbn [Search.LinearSearch_loop]. case_match.
    + simpl. repeat split; try lia.
    + match goal with
      | |- context [Search.LinearSearch_loop cnt ?j target fin ?w] =>
          pose proof (IH j w) as IHw;
          assert (Hw : Search.m_performanceCallback w
                       = Search.m_performanceCallback v /\
                       Search.m_comparisons w = Search.m_comparisons v /\
                       Search.m_totalComparisons w
                       = Search.m_totalComparisons v + 1 /\
                       Search.m_isComplete w = Search.m_isComplete v)
            by (repeat split);
          generalize dependent w
      end.
      intros w0 _ IHw Hw.
      destruct IHw as (H1 & H2 & H3 & H4 & _ & H6).
      destruct Hw as (W1 & W2 & W3 & W4).
      repeat split;
        [congruence|congruence|exact H3|lia|intros; lia|congruence].
Qed.

End SearchLoops.

Lemma size_length (v : Search.Visualizer) :
  Search.size v = Z.of_nat (length (Search.m_array v)).
Proof. reflexivity. Qed.

Lemma run_default_quiet (fin : Z) (v : Search.Visualizer)
    (o : option Search.Run) :
  (forall r, o = Some r -> Search.quiet_run fin v r) ->
  Search.quiet_run fin v (default (v, []) o).
Proof.
  intros H. destruct o as [r|]; simpl; [apply H; reflexivity|].
  split; [apply grown_refl|left; reflexivity].
Qed.

Lemma BinarySearch_reported (target fin : Z) (v : Search.Visualizer) :
  Search.reported_run fin v (Search.BinarySearch target fin v).
Proof.
  unfold Search.BinarySearch.
  set (v1 := Search.RecordStep _ _ _ _ _ v).
  destruct (binary_loop_total target fin (Search.window 0 (Search.size v - 1))
              0 (Search.size v - 1) v1) as [r Hr];
    [unfold Search.window; lia|].
  rewrite Hr. simpl.
  eapply reported_step; [apply grown_record|].
  eapply binary_loop_reported, Hr.
Qed.

Lemma ExponentialSearch_reported (target fin : Z) (v : Search.Visualizer) :
  Search.reported_run fin v (Search.ExponentialSearch target fin v).
Proof.
  unfold Search.ExponentialSearch.
  set (v1 := Search.RecordStep _ _ _ _ _ v).
  assert (G1 : Search.grown v v1) by apply grown_record.
  destruct (Search.at_ v1 0 =? target).
  - apply reported_here.
    eapply grown_trans; [exact G1|].
    eapply grown_trans; [apply grown_record|apply grown_push].
  - destruct (exponential_bound_total target (S (length (Search.m_array v1)))
                1 v1) as [[b v2] Hb]; [lia|rewrite size_length; lia|].
    rewrite Hb.
    pose proof (exponential_bound_grown _ _ _ _ _ _ Hb) as G2.
    set (low := b `quot` 2).
    set (high := Z.min b (Search.size v2 - 1)).
    set (v3 := Search.RecordStep _ _ _ _ _ v2).
    destruct (exponential_binary_total target fin (Search.window low high)
                low high v3) as [r Hr]; [unfold Search.window; lia|].
    rewrite Hr. simpl.
    eapply reported_step; [exact G1|].
    eapply reported_step; [exact G2|].
    eapply reported_step; [apply grown_record|].
    eapply exponential_binary_reported, Hr.
Qed.

Lemma JumpSearch_quiet (target fin : Z) (v : Search.Visualizer) :
  Search.quiet_run fin v (Search.JumpSearch target fin v).
Proof.
  unfold Search.JumpSearch.
  set (v1 := Search.RecordStep _ _ _ _ _ v).
  assert (G1 : Search.grown v v1) by apply grown_record.
  destruct (Search.Jump_blocks _ _ _ _ _ v1) as [res|] eqn:Hres;
    [|split; [exact G1|left; reflexivity]].
  apply jump_blocks_spec in Hres.
  destruct res as [r|[[p s] v2]].
  { apply reported_quiet. eapply reported_step; eauto. }
  set (v3 := Search.RecordStep _ _ _ _ _ v2).
  assert (G3 : Search.grown v v3).
  { eapply grown_trans; [exact G1|].
    eapply grown_trans; [exact Hres|apply grown_record]. }
  destruct (Search.Jump_scan _ _ _ _ _ v3) as [res2|] eqn:Hres2;
    [|split; [exact G3|left; reflexivity]].
  apply jump_scan_spec in Hres2.
  destruct res2 as [r|[p' v4]].
  { apply reported_quiet. eapply reported_step; eauto. }
  apply reported_quiet. eapply reported_step; [exact G3|].
  eapply reported_step; [exact Hres2|].
  destruct (Search.at_ v4 p' =? target).
  - apply reported_here.
    eapply grown_trans; [apply grown_record|apply grown_push].
  - apply not_found_exit_reported.
Qed.

Lemma JumpSearch_reported (target fin : Z) (v : Search.Visualizer) :
  Search.m_array v <> [] ->
  Search.reported_run fin v (Search.JumpSearch target fin v).
Proof.
  intros Hne.
  assert (Hn : 0 < Search.size v).
  { rewrite size_length. destruct (Search.m_array v); [congruence|].
    simpl. lia. }
  unfold Search.JumpSearch.
  set (v1 := Search.RecordStep _ _ _ _ _ v).
  assert (G1 : Search.grown v v1) by apply grown_record.
  assert (S1 : Search.size v1 = Search.size v) by (apply grown_size, G1).
  assert (Hsq : 0 < Z.sqrt (Search.size v1))
    by (rewrite S1; apply Z.sqrt_pos, Hn).
  destruct (jump_blocks_total target fin (S (length (Search.m_array v1)))
              0 (Z.sqrt (Search.size v)) v1) as [res Hres];
    [exact Hsq|rewrite <- S1; exact Hsq|rewrite size_length; lia|].
  rewrite Hres.
  pose proof (jump_blocks_spec _ _ _ _ _ _ _ Hres) as Hspec.
  destruct res as [r|[[p s] v2]].
  { eapply reported_step; eauto. }
  apply jump_blocks_handover in Hres;
    [|exact Hsq|rewrite <- S1; lia|lia].
  destruct Hres as [Hps Hpn].
  set (v3 := Search.RecordStep _ _ _ _ _ v2).
  assert (G3 : Search.grown v1 v3).
  { eapply grown_trans; [exact Hspec|apply grown_record]. }
  assert (S3 : Search.size v3 = Search.size v1) by (apply grown_size, G3).
  destruct (jump_scan_total target fin (S (length (Search.m_array v3)))
              p s v3) as [res2 Hres2];
    [rewrite S3; lia|pose proof (size_length v3); lia|].
  rewrite Hres2.
  apply jump_scan_spec in Hres2.
  eapply reported_step; [exact G1|].
  eapply reported_step; [exact G3|].
  destruct res2 as [r|[p' v4]]; [exact Hres2|].
  eapply reported_step; [exact Hres2|].
  destruct (Search.at_ v4 p' =? target).
  - apply reported_here.
    eapply grown_trans; [apply grown_record|apply grown_push].
  - apply not_found_exit_reported.
Qed.

Section Interpolation.

Variable probe : Z -> Z -> Z -> Z -> Z -> Z.
Variables (target fin : Z).

Lemma interpolation_loop_quiet (fuel : nat) :
  forall low high v r,
    Search.Interpolation_loop probe fuel low high target fin v = Some r ->
    Search.quiet_run fin v r.
Proof.
  induction fuel as [|fuel IH]; intros low high v r H; [discriminate|].
  cbn [Search.Interpolation_loop] in H. split_run H.
  - injection H as <-. apply reported_quiet.
    eapply reported_step; [apply grown_record|].
    apply reported_here, grown_push.
  - injection H as <-. split; [apply grown_record|left; reflexivity].
  - injection H as <-. apply reported_quiet.
    eapply reported_step; [apply grown_record|apply found_exit_reported].
  - apply IH in H. eapply quiet_step; [|exact H].
    eapply grown_trans; apply grown_record.
  - apply IH in H. eapply quiet_step; [|exact H].
    eapply grown_trans; apply grown_record.
  - injection H as <-. apply reported_quiet, reported_here, grown_refl.
Qed.

(** The fuel of the interpolation loop is never exhausted: the clamped
    probe lies in the window, which shrinks at every turn. *)
Lemma interpolation_loop_total (fuel : nat) :
  forall low high v,
    (Z.to_nat (high - low + 1) < fuel)%nat ->
    is_Some (Search.Interpolation_loop probe fuel low high target fin v).
Proof.
  induction fuel as [|fuel IH]; intros low high v Hf; [lia|].
  cbn [Search.Interpolation_loop].
  destruct (low <=? high) eqn:Hle; simpl; [|eauto].
  apply Z.leb_le in Hle.
  destruct ((Search.at_ v low <=? target) && (target <=? Search.at_ v high));
    [|eauto].
  destruct (low =? high); [repeat case_match; eauto|].
  set (pos := Z.max low (Z.min _ high)).
  assert (Hpos : low <= pos <= high) by (subst pos; lia).
  repeat case_match; eauto; apply IH; lia.
Qed.

Lemma InterpolationSearch_quiet (v : Search.Visualizer) :
  Search.quiet_run fin v (Search.InterpolationSearch probe target fin v).
Proof.
  unfold Search.InterpolationSearch.
  set (v1 := Search.RecordStep _ _ _ _ _ v).
  eapply quiet_step; [apply grown_record|].
  apply run_default_quiet. intros r Hr.
  eapply interpolation_loop_quiet, Hr.
Qed.

(** The exit of the single-element branch that does not report is never
    taken: the loop condition has [a[low] <= target <= a[high]], so with
    [low = high] the element is the target.  Every other exit reports. *)
Lemma interpolation_loop_reported (fuel : nat) :
  forall low high v r,
    Search.Interpolation_loop probe fuel low high target fin v = Some r ->
    Search.reported_run fin v r.
Proof.
  induction fuel as [|fuel IH]; intros low high v r H; [discriminate|].
  cbn [Search.Interpolation_loop] in H.
  destruct ((low <=? high) && (Search.at_ v low <=? target)
            && (target <=? Search.at_ v high)) eqn:Hcond.
  - apply andb_prop in Hcond as [Hcond Hhi].
    apply andb_prop in Hcond as [_ Hlo].
    apply Z.leb_le in Hlo, Hhi.
    destruct (low =? high) eqn:Heq.
    + apply Z.eqb_eq in Heq. subst high.
      change (Search.at_ (Search.RecordStep _ low low low true v) low)
        with (Search.at_ v low) in H.
      rewrite (proj2 (Z.eqb_eq (Search.at_ v low) target)) in H by lia.
      injection H as <-.
      eapply reported_step; [apply grown_record|].
      apply reported_here, grown_push.
    + split_run H.
      * injection H as <-.
        eapply reported_step; [apply grown_record|apply found_exit_reported].
      * apply IH in H. eapply reported_step; [|exact H].
        eapply grown_trans; apply grown_record.
      * apply IH in H. eapply reported_step; [|exact H].
        eapply grown_trans; apply grown_record.
  - injection H as <-. apply reported_here, grown_refl.
Qed.

Lemma InterpolationSearch_reported (v : Search.Visualizer) :
  Search.reported_run fin v (Search.InterpolationSearch probe target fin v).
Proof.
  unfold Search.InterpolationSearch.
  set (v1 := Search.RecordStep _ _ _ _ _ v).
  destruct (interpolation_loop_total
              (Search.window 0 (Search.size v - 1)) 0 (Search.size v - 1) v1)
    as [r Hr]; [unfold Search.window; lia|].
  rewrite Hr. simpl.
  eapply reported_step; [apply grown_record|].
  eapply interpolation_loop_reported, Hr.
Qed.

End Interpolation.

(** ** What [StartSearch] reports *)

Section StartSearch.

Variable probe : Z -> Z -> Z -> Z -> Z -> Z.
Variables (now fin : Z).

(** The visualizer the executor is run on. *)
Local Abbreviation armed v := (Search.set_lastStepTime now (Search.ResetSearch v)).

Lemma start_search_split (v : Search.Visualizer) :
  exists r,
    r = match Search.m_currentAlgorithm v with
        | Search.LinearSearchAlg =>
            Search.LinearSearch (Search.m_targetValue v) fin (armed v)
        | Search.BinarySearchAlg =>
            Search.BinarySearch (Search.m_targetValue v) fin (armed v)
        | Search.InterpolationSearchAlg =>
            Search.InterpolationSearch probe (Search.m_targetValue v) fin
              (armed v)
        | Search.ExponentialSearchAlg =>
            Search.ExponentialSearch (Search.m_targetValue v) fin (armed v)
        | Search.JumpSearchAlg =>
            Search.JumpSearch (Search.m_targetValue v) fin (armed v)
        end /\
    Search.StartSearch probe now fin v
    = (if bool_decide (Search.m_steps (fst r) = [])
       then fst r else Search.set_isRunning true (fst r),
       snd r).
Proof.
  eexists. split; [reflexivity|].
  unfold Search.StartSearch. simpl.
  destruct (Search.m_currentAlgorithm v);
    match goal with
    | |- context [let '(_, _) := ?e in _] => destruct e
    end; reflexivity.
Qed.

(** An executor other than Linear Search leaves the reported counter
    alone and reports, if at all, what [CompleteSearch] builds from the
    members as they were on entry. *)
Lemma start_search_quiet (v : Search.Visualizer) :
  Search.m_currentAlgorithm v <> Search.LinearSearchAlg ->
  Search.m_totalComparisons (fst (Search.StartSearch probe now fin v))
  = Search.m_totalComparisons v /\
  Search.m_comparisons (fst (Search.StartSearch probe now fin v)) = 0 /\
  (snd (Search.StartSearch probe now fin v) = [] \/
   snd (Search.StartSearch probe now fin v) = Search.CompleteSearch fin v) /\
  Search.m_isComplete (fst (Search.StartSearch probe now fin v)) = false.
Proof.
  intros Halg.
  destruct (start_search_split v) as (r & Hr & ->). simpl.
  assert (Hq : Search.quiet_run fin (armed v) r).
  { subst r. destruct (Search.m_currentAlgorithm v); [congruence| | | |].
    - apply reported_quiet, BinarySearch_reported.
    - apply InterpolationSearch_quiet.
    - apply reported_quiet, ExponentialSearch_reported.
    - apply JumpSearch_quiet. }
  destruct Hq as [Hg Hc].
  destruct (grown_counters _ _ Hg) as [Hc1 Hc2].
  pose proof (grown_complete_flag _ _ Hg) as Hc3.
  repeat split.
  - case_bool_decide; simpl; rewrite Hc2; reflexivity.
  - case_bool_decide; simpl; rewrite Hc1; reflexivity.
  - exact Hc.
  - case_bool_decide; simpl; rewrite Hc3; reflexivity.
Qed.

(** Binary, Exponential and Jump Search report exactly as
    [CompleteSearch] does; Jump Search needs an element to read. *)
Lemma start_search_reported (v : Search.Visualizer) :
  Search.m_currentAlgorithm v = Search.BinarySearchAlg \/
  Search.m_currentAlgorithm v = Search.ExponentialSearchAlg \/
  (Search.m_currentAlgorithm v = Search.JumpSearchAlg /\
   Search.m_array v <> []) ->
  snd (Search.StartSearch probe now fin v) = Search.CompleteSearch fin v.
Proof.
  intros Halg.
  destruct (start_search_split v) as (r & Hr & ->). simpl.
  assert (Hq : Search.reported_run fin (armed v) r).
  { subst r. destruct Halg as [->|[->|[-> Hne]]].
    - apply BinarySearch_reported.
    - apply ExponentialSearch_reported.
    - apply JumpSearch_reported. exact Hne. }
  destruct Hq as [_ Hc]. exact Hc.
Qed.

(** Interpolation Search reports exactly as [CompleteSearch] does. *)
Lemma start_search_interpolation_reported (v : Search.Visualizer) :
  Search.m_currentAlgorithm v = Search.InterpolationSearchAlg ->
  snd (Search.StartSearch probe now fin v) = Search.CompleteSearch fin v.
Proof.
  intros Halg.
  destruct (start_search_split v) as (r & Hr & ->). simpl.
  assert (Hq : Search.reported_run fin (armed v) r).
  { subst r. rewrite Halg. apply InterpolationSearch_reported. }
  destruct Hq as [_ Hc]. exact Hc.
Qed.

Lemma start_search_linear (v : Search.Visualizer) :
  Search.m_currentAlgorithm v = Search.LinearSearchAlg ->
  Search.m_comparisons (fst (Search.StartSearch probe now fin v)) = 0 /\
  Search.m_performanceCallback (fst (Search.StartSearch probe now fin v))
  = Search.m_performanceCallback v /\
  snd (Search.StartSearch probe now fin v)
  = Search.CompleteSearch fin (fst (Search.StartSearch probe now fin v)) /\
  Search.m_totalComparisons v
  <= Search.m_totalComparisons (fst (Search.StartSearch probe now fin v)) /\
  (Search.m_array v <> [] ->
   Search.m_totalComparisons v
   < Search.m_totalComparisons (fst (Search.StartSearch probe now fin v))) /\
  Search.m_isComplete (fst (Search.StartSearch probe now fin v)) = false.
Proof.
  intros Halg.
  destruct (start_search_split v) as (r & Hr & ->).
  assert (Hr' : r = Search.LinearSearch_loop
                      (length (Search.m_array (armed v))) 0
                      (Search.m_targetValue v) fin (armed v))
    by (rewrite Hr, Halg; reflexivity).
  clear Hr.
  destruct (linear_loop_spec (Search.m_targetValue v) fin
              (length (Search.m_array (armed v))) 0 (armed v))
    as (H1 & H2 & H3 & H4 & H5 & H6).
  rewrite <- Hr' in H1, H2, H3, H4, H5, H6. clear Hr'.
  assert (Hlen : Search.m_array v <> [] ->
                 length (Search.m_array (armed v)) <> 0%nat)
    by (simpl; destruct (Search.m_array v); simpl; congruence).
  destruct r as [v' calls]. simpl in *.
  case_bool_decide; simpl; repeat split; auto.
Qed.

End StartSearch.

Lemma click_start_search_armed (probe : Z -> Z -> Z -> Z -> Z -> Z)
    (now tick fin : Z) (v : Search.Visualizer) :
  Search.m_targetValue v <> -1 ->
  Search.ClickStartSearch probe now tick fin v
  = Search.StartSearch probe tick fin
      (Search.ResetSearch
         (Search.set_totalComparisons 0 (Search.set_searchStartTime now v))).
Proof.
  intros Ht. unfold Search.ClickStartSearch.
  destruct (Search.m_targetValue v =? -1) eqn:E; [|reflexivity].
  apply Z.eqb_eq in E. contradiction.
Qed.

(** C10.  Started from its button, a search other than Linear Search
    (Binary, Interpolation, Exponential, Jump) hands the callback a
    comparison count of 0 whenever it invokes it, and it does invoke it,
    exactly once, with 0: Binary and Interpolation Search on any array,
    Exponential and Jump Search on any array they can read an element
    of.  Linear Search on a non-empty array hands it a positive count:
    only its executor increments the counter that is reported. *)
Theorem only_linear_search_reports_comparisons :
  (forall probe now tick fin v,
     Search.m_currentAlgorithm v <> Search.LinearSearchAlg ->
     Forall (fun c => pc_comparisons c = 0)
            (snd (Search.ClickStartSearch probe now tick fin v))) /\
  (forall probe now tick fin v,
     Search.m_currentAlgorithm v = Search.BinarySearchAlg \/
     Search.m_currentAlgorithm v = Search.InterpolationSearchAlg \/
     ((Search.m_currentAlgorithm v = Search.ExponentialSearchAlg \/
       Search.m_currentAlgorithm v = Search.JumpSearchAlg) /\
      Search.m_array v <> []) ->
     Search.m_performanceCallback v = true ->
     Search.m_targetValue v <> -1 ->
     snd (Search.ClickStartSearch probe now tick fin v)
     = [mkPerfCall (Search.GetAlgorithmName (Search.m_currentAlgorithm v))
          (fin - now) 0 0]) /\
  (forall probe now tick fin v,
     Search.m_currentAlgorithm v = Search.LinearSearchAlg ->
     Search.m_array v <> [] ->
     Search.m_performanceCallback v = true ->
     Search.m_targetValue v <> -1 ->
     exists c,
       snd (Search.ClickStartSearch probe now tick fin v) = [c] /\
       0 < pc_comparisons c).
Proof.
  split; [|split].
  - intros probe now tick fin v Halg.
    destruct (decide (Search.m_targetValue v = -1)) as [Ht|Ht].
    + unfold Search.ClickStartSearch. rewrite Ht. simpl. constructor.
    + rewrite click_start_search_armed by exact Ht.
      match goal with
      | |- context [Search.StartSearch probe tick fin ?w] =>
          destruct (start_search_quiet probe tick fin w Halg)
            as (_ & _ & [H|H] & _)
      end; rewrite H; [constructor|].
      unfold Search.CompleteSearch. simpl.
      destruct (Search.m_performanceCallback v); repeat constructor.
  - intros probe now tick fin v Halg Hcb Ht.
    rewrite click_start_search_armed by exact Ht.
    assert (Hrep :
      snd (Search.StartSearch probe tick fin
             (Search.ResetSearch
                (Search.set_totalComparisons 0
                   (Search.set_searchStartTime now v))))
      = Search.CompleteSearch fin
          (Search.ResetSearch
             (Search.set_totalComparisons 0
                (Search.set_searchStartTime now v)))).
    { destruct Halg as [Hb|[Hi|[[He|Hj] Hne]]].
      - apply start_search_reported. left. exact Hb.
      - apply start_search_interpolation_reported. exact Hi.
      - apply start_search_reported. right. left. exact He.
      - apply start_search_reported. right. right. split; assumption. }
    rewrite Hrep.
    unfold Search.CompleteSearch. simpl. rewrite Hcb. reflexivity.
  - intros probe now tick fin v Halg Hne Hcb Ht.
    rewrite click_start_search_armed by exact Ht.
    match goal with
    | |- context [Search.StartSearch probe tick fin ?w] =>
        destruct (start_search_linear probe tick fin w Halg)
          as (_ & H2 & H3 & _ & H5 & _)
    end.
    simpl in H2, H5. specialize (H5 Hne).
    rewrite H3. unfold Search.CompleteSearch. rewrite H2, Hcb.
    eexists. split; [reflexivity|]. simpl. lia.
Qed.

Lemma only_linear_search_reports_comparisons_witness :
  Search.m_currentAlgorithm Scenario.binary_7 <> Search.LinearSearchAlg /\
  Forall (fun c => pc_comparisons c = 0)
    (snd (Search.ClickStartSearch Scenario.no_probe 10 10 12 Scenario.binary_7)) /\
  snd (Search.ClickStartSearch Scenario.no_probe 10 10 12
         Scenario.interpolation_7)
  = [mkPerfCall "Interpolation Search" 2 0 0] /\
  Search.m_currentAlgorithm Scenario.linear_3 = Search.LinearSearchAlg /\
  Search.m_array Scenario.linear_3 <> [] /\
  Search.m_performanceCallback Scenario.linear_3 = true /\
  Search.m_targetValue Scenario.linear_3 <> -1 /\
  exists c,
    snd (Search.ClickStartSearch Scenario.no_probe 10 10 12 Scenario.linear_3)
    = [c] /\ 0 < pc_comparisons c.
Proof.
  destruct only_linear_search_reports_comparisons as (H1 & H2 & H3).
  assert (Ha : Search.m_currentAlgorithm Scenario.binary_7
               <> Search.LinearSearchAlg) by discriminate.
  assert (Hb : Search.m_array Scenario.linear_3 <> []) by discriminate.
  assert (Hc : Search.m_targetValue Scenario.linear_3 <> -1) by discriminate.
  assert (Hd : Search.m_targetValue Scenario.interpolation_7 <> -1)
    by discriminate.
  split; [exact Ha|]. split; [apply (H1 _ _ _ _ _ Ha)|].
  split; [apply (H2 Scenario.no_probe 10 10 12 Scenario.interpolation_7
                    (or_intror (or_introl eq_refl)) eq_refl Hd)|].
  split; [reflexivity|]. split; [exact Hb|]. split; [reflexivity|].
  split; [exact Hc|].
  apply (H3 Scenario.no_probe 10 10 12 Scenario.linear_3
           eq_refl Hb eq_refl Hc).
Defined.

(** ** Counters and playback *)

Section SortingCounters.

Variable OtherSort : Sorting.SortingAlgorithm -> list Z -> Sorting.Recording.

(** A playback operation on a run that was started leaves the run as it
    was generated, and never takes the controller back to [Stopped]. *)
Lemma playback_keeps_run (e : Host.Event) (v : Sorting.Visualizer) :
  Host.is_playback e = true ->
  Sorting.m_state v <> Sorting.Stopped ->
  Sorting.m_state (fst (Host.apply_op OtherSort e v)) <> Sorting.Stopped /\
  Host.same_run v (fst (Host.apply_op OtherSort e v)).
Proof.
  unfold Host.is_playback, Host.apply_op. intros Hp Hst.
  destruct (Host.ev_op e) eqn:Hop; try discriminate; simpl.
  - unfold Sorting.StartSorting.
    destruct (Sorting.m_state v) eqn:Es; try congruence; simpl;
      (split; [discriminate|repeat split]).
  - unfold Sorting.PauseSorting.
    destruct (Sorting.m_state v) eqn:Es; try congruence; simpl;
      (split; [rewrite ?Es; discriminate|repeat split]).
  - destruct (decide (Sorting.m_currentStepIndex v
                      < length (Sorting.m_sortingSteps v))%nat) as [Hlt|Hge].
    + destruct (step_forward_spec (Host.ev_now e) v Hlt) as (_ & Hs & Hstate & _).
      split; [|exact Hs]. rewrite Hstate. case_bool_decide; congruence.
    + rewrite step_forward_idle by exact Hge. split; [exact Hst|apply same_run_refl].
  - unfold Sorting.StepBackward. case_bool_decide;
      [|split; [exact Hst|apply same_run_refl]].
    unfold Sorting.ExecuteCurrentStep. simpl.
    destruct (Sorting.m_sortingSteps v !! _); simpl;
      destruct (Sorting.m_state v) eqn:Es; try congruence; simpl;
      (split; [rewrite ?Es; discriminate|repeat split]).
  - split; [exact Hst|repeat split].
  - destruct (update_spec (Host.ev_now e) v) as [->|[_ ->]];
      [split; [exact Hst|apply same_run_refl]|]. simpl.
    destruct (decide (Sorting.m_currentStepIndex v
                      < length (Sorting.m_sortingSteps v))%nat) as [Hlt|Hge].
    + destruct (step_forward_spec (Host.ev_now e) v Hlt) as (_ & Hs & Hstate & _).
      split; [|exact Hs]. rewrite Hstate. case_bool_decide; congruence.
    + rewrite step_forward_idle by exact Hge. simpl.
      split; [exact Hst|repeat split].
Qed.

Lemma playback_keeps_run_all (es : list Host.Event) (v : Sorting.Visualizer) :
  forallb Host.is_playback es = true ->
  Sorting.m_state v <> Sorting.Stopped ->
  Sorting.m_state (fst (Host.play OtherSort es v)) <> Sorting.Stopped /\
  Host.same_run v (fst (Host.play OtherSort es v)).
Proof.
  revert v. induction es as [|e es IH]; intros v Hall Hst; simpl.
  - split; [exact Hst|apply same_run_refl].
  - simpl in Hall. apply andb_true_iff in Hall as [He Hes].
    destruct (playback_keeps_run e v He Hst) as [H1 H2].
    destruct (Host.apply_op OtherSort e v) as [v1 c1]. simpl in H1, H2.
    destruct (IH v1 Hes H1) as [H3 H4].
    destruct (Host.play OtherSort es v1) as [v2 c2]. simpl in *.
    split; [exact H3|eapply same_run_trans; eauto].
Qed.

Lemma start_sorting_not_stopped (now : Z) (v : Sorting.Visualizer) :
  Sorting.m_state (Sorting.StartSorting OtherSort now v) = Sorting.Running.
Proof. unfold Sorting.StartSorting. destruct (Sorting.state_eqb _ _); reflexivity. Qed.

End SortingCounters.

Lemma step_search_counter (v : Search.Visualizer) (step : Search.SearchStep) :
  Search.m_steps v !! Search.m_currentStep v = Some step ->
  Search.m_comparisons (Search.StepSearch v)
  = Search.m_comparisons v + (if Search.isComparison step then 1 else 0).
Proof.
  intros H. unfold Search.StepSearch. rewrite H.
  destruct (Search.isComparison step), (Search.isFound step);
    case_bool_decide; simpl; lia.
Qed.




(** ** The performance callback *)

Lemma same_controls_refl (v : Sorting.Visualizer) : Host.same_controls v v.
Proof. repeat split. Qed.

Lemma same_controls_trans (a b c : Sorting.Visualizer) :
  Host.same_controls a b -> Host.same_controls b c -> Host.same_controls a c.
Proof.
  unfold Host.same_controls. intros (H1 & H2 & H3) (K1 & K2 & K3).
  repeat split; congruence.
Qed.

Lemma bubble_body_controls (j : nat) (st : list Z * Sorting.Visualizer) :
  Host.same_controls (snd st) (snd (Sorting.BubbleSort_body j st)).
Proof.
  destruct st as [arr v]. unfold Sorting.BubbleSort_body.
  destruct (_ <? _); simpl; repeat split.
Qed.

Lemma bubble_inner_controls (cnt : nat) :
  forall from st,
    Host.same_controls (snd st) (snd (Sorting.BubbleSort_inner cnt from st)).
Proof.
  induction cnt as [|cnt IH]; intros from st; simpl.
  - apply same_controls_refl.
  - eapply same_controls_trans; [apply bubble_body_controls|apply IH].
Qed.

Lemma bubble_outer_controls (n cnt : nat) :
  forall from st,
    Host.same_controls (snd st) (snd (Sorting.BubbleSort_outer n cnt from st)).
Proof.
  induction cnt as [|cnt IH]; intros from st; simpl.
  - apply same_controls_refl.
  - eapply same_controls_trans; [apply bubble_inner_controls|apply IH].
Qed.

Lemma bubble_sort_controls (v : Sorting.Visualizer) :
  Host.same_controls v (Sorting.BubbleSort v).
Proof.
  unfold Sorting.BubbleSort.
  pose proof (bubble_outer_controls (length (Sorting.m_array v))
                (length (Sorting.m_array v) - 1) 0 (Sorting.m_array v, v)) as H.
  destruct (Sorting.BubbleSort_outer _ _ _ _) as [arr w]. simpl in H.
  eapply same_controls_trans; [exact H|]. repeat split.
Qed.

Lemma bubble_sort_records (v : Sorting.Visualizer) :
  Sorting.m_sortingSteps (Sorting.BubbleSort v) <> [].
Proof.
  unfold Sorting.BubbleSort.
  destruct (Sorting.BubbleSort_outer _ _ _ _) as [arr w].
  unfold Sorting.RecordStep. simpl.
  intros E. apply app_eq_nil in E as [_ E]. discriminate E.
Qed.

Section Reports.

Variable OtherSort : Sorting.SortingAlgorithm -> list Z -> Sorting.Recording.

(** Every executor ends by recording a closing step, so no log is empty. *)
Hypothesis OtherSort_records :
  forall a arr, Sorting.rec_steps (OtherSort a arr) <> [].

Local Abbreviation apply_op := (Host.apply_op OtherSort).
Local Abbreviation play := (Host.play OtherSort).
Local Abbreviation records := (Host.records OtherSort).
Local Abbreviation run := (Host.run OtherSort).

Lemma run_executor_records (v : Sorting.Visualizer) :
  Sorting.m_sortingSteps v = [] ->
  Sorting.m_sortingSteps (Sorting.RunExecutor OtherSort v) <> [].
Proof.
  intros Hv. unfold Sorting.RunExecutor.
  destruct (Sorting.m_currentAlgorithm v) eqn:Ea;
    try apply bubble_sort_records;
    unfold Sorting.absorb; simpl; rewrite Hv; simpl;
    apply OtherSort_records.
Qed.

Lemma run_executor_controls (v : Sorting.Visualizer) :
  Host.same_controls v (Sorting.RunExecutor OtherSort v).
Proof.
  unfold Sorting.RunExecutor.
  destruct (Sorting.m_currentAlgorithm v) eqn:Ea;
    try apply bubble_sort_controls; repeat split; simpl; auto.
Qed.

(** A start from [Stopped] arms a non-empty log with the cursor on its
    first step. *)
Lemma start_sorting_armed (now : Z) (v : Sorting.Visualizer) :
  Sorting.m_state v = Sorting.Stopped ->
  Sorting.m_currentStepIndex (Sorting.StartSorting OtherSort now v) = 0%nat /\
  Sorting.m_sortingSteps (Sorting.StartSorting OtherSort now v) <> [] /\
  Sorting.m_performanceCallback (Sorting.StartSorting OtherSort now v)
  = Sorting.m_performanceCallback v /\
  Sorting.m_currentAlgorithm (Sorting.StartSorting OtherSort now v)
  = Sorting.m_currentAlgorithm v /\
  Sorting.m_sortStartTime (Sorting.StartSorting OtherSort now v) = now.
Proof.
  intros Hst. unfold Sorting.StartSorting. rewrite Hst. simpl.
  split; [reflexivity|]. split; [apply run_executor_records; reflexivity|].
  match goal with
  | |- context [Sorting.RunExecutor OtherSort ?w] =>
      destruct (run_executor_controls w) as (H1 & H2 & H3)
  end.
  simpl in H1, H2, H3. auto.
Qed.

Lemma at_end_stays (v v' : Sorting.Visualizer) :
  Host.same_run v v' -> Host.cursor_ok v' ->
  (Sorting.m_currentStepIndex v <= Sorting.m_currentStepIndex v')%nat ->
  Host.at_end v = true -> Host.at_end v' = true.
Proof.
  unfold Host.at_end, Host.cursor_ok. intros (Hs & _) Hok Hle H.
  apply bool_decide_eq_true in H. apply bool_decide_eq_true.
  rewrite Hs in *. lia.
Qed.

Lemma one_report_same_run (v v' : Sorting.Visualizer)
    (rs : list (Z * Z * PerfCall)) :
  Host.same_run v v' -> Host.one_report v' rs -> Host.one_report v rs.
Proof.
  intros (_ & Hc & Hs & _ & Ha & Ht) (wall & n & now & ->).
  exists wall, n, now. rewrite Hc, Hs, Ha, Ht. reflexivity.
Qed.

(** One forward operation: it reports exactly when it takes the cursor
    onto the end of the log, and then once. *)
Lemma forward_op (e : Host.Event) (v : Sorting.Visualizer) :
  Host.is_forward e = true ->
  Sorting.m_state v <> Sorting.Stopped ->
  Host.cursor_ok v ->
  Sorting.m_state (fst (apply_op e v)) <> Sorting.Stopped /\
  Host.same_run v (fst (apply_op e v)) /\
  Host.cursor_ok (fst (apply_op e v)) /\
  (Sorting.m_currentStepIndex v
   <= Sorting.m_currentStepIndex (fst (apply_op e v)))%nat /\
  snd (apply_op e v)
  = (if Host.at_end (fst (apply_op e v)) && negb (Host.at_end v)
        && Sorting.m_performanceCallback v
     then [Host.report_of (Host.ev_now e) v] else []).
Proof.
  intros Hf Hst Hok.
  assert (Hp : Host.is_playback e = true)
    by (unfold Host.is_forward, Host.is_playback in *;
        destruct (Host.ev_op e); congruence).
  destruct (playback_keeps_run OtherSort e v Hp Hst) as [H1 H2].
  pose proof (apply_op_cursor_ok OtherSort e v Hok) as H3.
  split; [exact H1|]. split; [exact H2|]. split; [exact H3|].
  clear H1 H2 H3 Hp.
  assert (Hsame : forall w : Sorting.Visualizer,
            Sorting.m_currentStepIndex w = Sorting.m_currentStepIndex v ->
            Sorting.m_sortingSteps w = Sorting.m_sortingSteps v ->
            (Sorting.m_currentStepIndex v <= Sorting.m_currentStepIndex w)%nat /\
            @nil PerfCall
            = (if Host.at_end w && negb (Host.at_end v)
                  && Sorting.m_performanceCallback v
               then [Host.report_of (Host.ev_now e) v] else [])).
  { intros w Hi Hs. split; [lia|]. unfold Host.at_end. rewrite Hi, Hs.
    destruct (bool_decide _); reflexivity. }
  assert (Hfwd : (Sorting.m_currentStepIndex v
                  <= Sorting.m_currentStepIndex
                       (fst (Sorting.StepForward (Host.ev_now e) v)))%nat /\
                 snd (Sorting.StepForward (Host.ev_now e) v)
                 = (if Host.at_end (fst (Sorting.StepForward (Host.ev_now e) v))
                       && negb (Host.at_end v)
                       && Sorting.m_performanceCallback v
                    then [Host.report_of (Host.ev_now e) v] else [])).
  { destruct (decide (Sorting.m_currentStepIndex v
                      < length (Sorting.m_sortingSteps v))%nat) as [Hlt|Hge].
    - destruct (step_forward_spec (Host.ev_now e) v Hlt)
        as (Hi & (Hs & _) & _ & Hc).
      split; [lia|]. rewrite Hc. unfold Host.at_end. rewrite Hi, Hs.
      rewrite (bool_decide_eq_false_2
                 (Sorting.m_currentStepIndex v
                  = length (Sorting.m_sortingSteps v))) by lia.
      simpl. rewrite andb_true_r. reflexivity.
    - rewrite step_forward_idle by exact Hge. simpl. apply Hsame; reflexivity. }
  unfold Host.is_forward in Hf. unfold Host.apply_op.
  destruct (Host.ev_op e) eqn:Hop; try discriminate; cbn [fst snd].
  - apply Hsame; unfold Sorting.StartSorting;
      destruct (Sorting.m_state v); try congruence; reflexivity.
  - apply Hsame; unfold Sorting.PauseSorting;
      destruct (Sorting.state_eqb _ _); reflexivity.
  - exact Hfwd.
  - apply Hsame; reflexivity.
  - destruct (update_spec (Host.ev_now e) v) as [->|[_ ->]];
      cbn [fst snd]; [apply Hsame; reflexivity|exact Hfwd].
Qed.

Lemma records_calls (es : list Host.Event) (v : Sorting.Visualizer) :
  map snd (records es v) = snd (play es v).
Proof.
  revert v. induction es as [|e es IH]; intros v; simpl; [reflexivity|].
  destruct (apply_op e v) as [v1 c1]. specialize (IH v1).
  destruct (play es v1) as [v2 c2]. simpl in *.
  rewrite map_app, IH, map_map. simpl. rewrite map_id. reflexivity.
Qed.

(** Forward playback of a started run reports at most once: once if it
    takes the cursor onto the end of the log, not at all otherwise. *)
Lemma forward_play (es : list Host.Event) :
  forall v,
    forallb Host.is_forward es = true ->
    Sorting.m_state v <> Sorting.Stopped ->
    Host.cursor_ok v ->
    Sorting.m_state (fst (play es v)) <> Sorting.Stopped /\
    Host.same_run v (fst (play es v)) /\
    Host.cursor_ok (fst (play es v)) /\
    (Sorting.m_currentStepIndex v
     <= Sorting.m_currentStepIndex (fst (play es v)))%nat /\
    (if Host.at_end (fst (play es v)) && negb (Host.at_end v)
        && Sorting.m_performanceCallback v
     then Host.one_report v (records es v)
     else records es v = []).
Proof.
  induction es as [|e es IH]; intros v Hall Hst Hok; simpl.
  - split; [exact Hst|]. split; [apply same_run_refl|]. split; [exact Hok|].
    split; [lia|]. destruct (Host.at_end v); reflexivity.
  - simpl in Hall. apply andb_true_iff in Hall as [He Hes].
    destruct (forward_op e v He Hst Hok) as (F1 & F2 & F3 & F4 & F5).
    destruct (apply_op e v) as [v1 c1]. simpl in F1, F2, F3, F4, F5.
    destruct (IH v1 Hes F1 F3) as (G1 & G2 & G3 & G4 & G5).
    destruct (play es v1) as [v2 c2]. simpl in G1, G2, G3, G4, G5. simpl.
    split; [exact G1|]. split; [eapply same_run_trans; eauto|].
    split; [exact G3|]. split; [lia|].
    assert (Hcb : Sorting.m_performanceCallback v1
                  = Sorting.m_performanceCallback v) by apply F2.
    rewrite Hcb in G5. subst c1.
    pose proof (at_end_stays v v1 F2 F3 F4) as M1.
    pose proof (at_end_stays v1 v2 G2 G3 G4) as M2.
    destruct (Host.at_end v) eqn:A0.
    + rewrite (M1 eq_refl) in *. rewrite (M2 eq_refl) in *. simpl in *.
      rewrite G5. reflexivity.
    + destruct (Host.at_end v1) eqn:A1.
      * rewrite (M2 eq_refl) in *. simpl in *.
        destruct (Sorting.m_performanceCallback v); simpl.
        -- rewrite G5. eexists _, _, _. reflexivity.
        -- rewrite G5. reflexivity.
      * destruct (Host.at_end v2), (Sorting.m_performanceCallback v);
          simpl in *; try exact G5.
        eapply one_report_same_run; eauto.
Qed.

Lemma deliver_records (wall n : Z) (calls : list PerfCall)
    (a : App.Application) :
  App.deliver wall n calls a
  = foldl App.history_step a
      (map App.HRecord (map (fun c => (wall, n, c)) calls)).
Proof.
  revert a. induction calls as [|c calls IH]; intros a; simpl; [reflexivity|].
  apply IH.
Qed.

(** The history after a sequence of events is the history before it with
    the records of the invocations made, inserted in the order made. *)
Lemma run_records (es : list Host.Event) :
  forall a v,
    run es (a, v)
    = (foldl App.history_step a (map App.HRecord (records es v)),
       fst (play es v)).
Proof.
  unfold Host.run.
  induction es as [|e es IH]; intros a v; simpl; [reflexivity|].
  destruct (apply_op e v) as [v1 c1]. rewrite IH.
  destruct (play es v1) as [v2 c2]. simpl.
  rewrite deliver_records, map_app, foldl_app. reflexivity.
Qed.

Lemma play_start (s : Host.Event) (es : list Host.Event)
    (v : Sorting.Visualizer) :
  Host.ev_op s = Host.OpStart ->
  play (s :: es) v = play es (Sorting.StartSorting OtherSort (Host.ev_now s) v) /\
  records (s :: es) v
  = records es (Sorting.StartSorting OtherSort (Host.ev_now s) v).
Proof.
  intros Hs. cbn [Host.play Host.records]. unfold Host.apply_op. rewrite Hs.
  destruct (play es _); split; reflexivity.
Qed.

Lemma play_reset (s : Host.Event) (es : list Host.Event)
    (v : Sorting.Visualizer) :
  Host.ev_op s = Host.OpReset ->
  play (s :: es) v = play es (Sorting.ResetArray v) /\
  records (s :: es) v = records es (Sorting.ResetArray v).
Proof.
  intros Hs. cbn [Host.play Host.records]. unfold Host.apply_op. rewrite Hs.
  destruct (play es _); split; reflexivity.
Qed.

(** A run from [Stopped], played forward to the end of its log. *)
Lemma complete_run_records (s : Host.Event) (es : list Host.Event)
    (v : Sorting.Visualizer) :
  Host.ev_op s = Host.OpStart ->
  forallb Host.is_forward es = true ->
  Sorting.m_state v = Sorting.Stopped ->
  Sorting.m_performanceCallback v = true ->
  Host.at_end (fst (play (s :: es) v)) = true ->
  Host.one_report (fst (play (s :: es) v)) (records (s :: es) v) /\
  Sorting.m_performanceCallback (fst (play (s :: es) v)) = true.
Proof.
  intros Hs Hes Hst Hcb.
  destruct (play_start s es v Hs) as [-> ->].
  set (v1 := Sorting.StartSorting OtherSort (Host.ev_now s) v).
  intros Hend.
  destruct (start_sorting_armed (Host.ev_now s) v Hst)
    as (Hi & Hne & Hc & _).
  fold v1 in Hi, Hne, Hc.
  assert (Hst1 : Sorting.m_state v1 <> Sorting.Stopped)
    by (subst v1; rewrite start_sorting_not_stopped; discriminate).
  assert (Hok1 : Host.cursor_ok v1)
    by (unfold Host.cursor_ok; rewrite Hi; lia).
  assert (Hne1 : Host.at_end v1 = false).
  { unfold Host.at_end. apply bool_decide_eq_false. rewrite Hi.
    destruct (Sorting.m_sortingSteps v1); [congruence|simpl; lia]. }
  destruct (forward_play es v1 Hes Hst1 Hok1) as (_ & G2 & _ & _ & G5).
  rewrite Hend, Hne1, Hc, Hcb in G5. simpl in G5.
  split.
  - destruct G5 as (wall & n & now & ->).
    destruct G2 as (_ & E1 & E2 & _ & E4 & E5).
    exists wall, n, now. rewrite E1, E2, E4, E5. reflexivity.
  - destruct G2 as (_ & _ & _ & E3 & _). rewrite E3, Hc. exact Hcb.
Qed.

Lemma history_step_record (a : App.Application) (r : Z * Z * PerfCall) :
  App.m_performanceHistory (App.history_step a (App.HRecord r))
  = App.insert_bounded (App.perf_of (App.m_currentVisualizer a) r)
      (App.m_performanceHistory a) /\
  App.m_currentVisualizer (App.history_step a (App.HRecord r))
  = App.m_currentVisualizer a.
Proof. destruct r as [[w n] c]. split; reflexivity. Qed.

(** Only [StepForward], by hand or through [Update], invokes the
    callback. *)
Lemma only_forward_reports (e : Host.Event) (v : Sorting.Visualizer) :
  match Host.ev_op e with
  | Host.OpStepForward | Host.OpUpdate => True
  | _ => snd (apply_op e v) = []
  end.
Proof. unfold Host.apply_op. destruct (Host.ev_op e); simpl; auto. Qed.

Lemma step_forward_report (now : Z) (v : Sorting.Visualizer) (c : PerfCall) :
  c ∈ snd (Sorting.StepForward now v) ->
  snd (Sorting.StepForward now v) = [c] /\
  c = Host.report_of now v /\
  Sorting.m_state (fst (Sorting.StepForward now v)) = Sorting.Completed /\
  Host.at_end v = false /\
  Host.at_end (fst (Sorting.StepForward now v)) = true.
Proof.
  destruct (decide (Sorting.m_currentStepIndex v
                    < length (Sorting.m_sortingSteps v))%nat) as [Hlt|Hge].
  - destruct (step_forward_spec now v Hlt) as (Hi & (Hs & _) & Hst & Hc).
    rewrite Hc, Hst. unfold Host.at_end. rewrite Hi, Hs.
    case_bool_decide as Hend; simpl.
    + destruct (Sorting.m_performanceCallback v);
        [|intros H; apply elem_of_nil in H; contradiction].
      intros H. apply list_elem_of_singleton in H. subst c.
      repeat split. apply bool_decide_eq_false. lia.
    + intros H. apply elem_of_nil in H. contradiction.
  - rewrite step_forward_idle by exact Hge. simpl.
    intros H. apply elem_of_nil in H. contradiction.
Qed.

(** An invocation is made only by the operation that takes the cursor
    onto the end of the log and the state into [Completed]. *)
Lemma report_on_completion (e : Host.Event) (v : Sorting.Visualizer)
    (c : PerfCall) :
  c ∈ snd (apply_op e v) ->
  snd (apply_op e v) = [c] /\
  c = Host.report_of (Host.ev_now e) v /\
  Sorting.m_state (fst (apply_op e v)) = Sorting.Completed /\
  Host.at_end v = false /\
  Host.at_end (fst (apply_op e v)) = true.
Proof.
  pose proof (only_forward_reports e v) as Hq.
  unfold Host.apply_op in *.
  destruct (Host.ev_op e);
    try (rewrite Hq; intros H; apply elem_of_nil in H; contradiction).
  - apply step_forward_report.
  - destruct (update_spec (Host.ev_now e) v) as [->|[_ ->]]; cbn [fst snd].
    + intros H. apply elem_of_nil in H. contradiction.
    + apply step_forward_report.
Qed.

Lemma completion_reports (now : Z) (v : Sorting.Visualizer) :
  Sorting.m_performanceCallback v = true ->
  Host.at_end v = false ->
  Host.at_end (fst (Sorting.StepForward now v)) = true ->
  snd (Sorting.StepForward now v) = [Host.report_of now v] /\
  Sorting.m_state (fst (Sorting.StepForward now v)) = Sorting.Completed.
Proof.
  intros Hcb H0 H1.
  destruct (decide (Sorting.m_currentStepIndex v
                    < length (Sorting.m_sortingSteps v))%nat) as [Hlt|Hge].
  - destruct (step_forward_spec now v Hlt) as (Hi & (Hs & _) & Hst & Hc).
    unfold Host.at_end in H1. rewrite Hi, Hs in H1.
    rewrite Hc, Hst, H1, Hcb. split; reflexivity.
  - rewrite step_forward_idle in H1 by exact Hge. simpl in H1. congruence.
Qed.

(** A run started from [Stopped] and played forward reports once if it
    reaches the end of its log and not at all if it does not. *)
Lemma forward_run_reports_once (s : Host.Event) (es : list Host.Event)
    (v : Sorting.Visualizer) :
  Host.ev_op s = Host.OpStart ->
  forallb Host.is_forward es = true ->
  Sorting.m_state v = Sorting.Stopped ->
  Sorting.m_performanceCallback v = true ->
  length (snd (play (s :: es) v))
  = (if Host.at_end (fst (play (s :: es) v)) then 1 else 0)%nat.
Proof.
  intros Hs Hes Hst Hcb.
  rewrite <- records_calls, length_map.
  destruct (play_start s es v Hs) as [-> ->].
  set (v1 := Sorting.StartSorting OtherSort (Host.ev_now s) v).
  destruct (start_sorting_armed (Host.ev_now s) v Hst)
    as (Hi & Hne & Hc & _).
  fold v1 in Hi, Hne, Hc.
  assert (Hst1 : Sorting.m_state v1 <> Sorting.Stopped)
    by (subst v1; rewrite start_sorting_not_stopped; discriminate).
  assert (Hok1 : Host.cursor_ok v1)
    by (unfold Host.cursor_ok; rewrite Hi; lia).
  assert (Hne1 : Host.at_end v1 = false).
  { unfold Host.at_end. apply bool_decide_eq_false. rewrite Hi.
    destruct (Sorting.m_sortingSteps v1); [congruence|simpl; lia]. }
  destruct (forward_play es v1 Hes Hst1 Hok1) as (_ & _ & _ & _ & G5).
  rewrite Hne1, Hc, Hcb in G5. simpl in G5.
  destruct (Host.at_end (fst (play es v1))); simpl in G5.
  - destruct G5 as (wall & n & now & ->). reflexivity.
  - rewrite G5. reflexivity.
Qed.

(** Two runs, each started from [Stopped] and played forward to the end
    of its log, leave two records in the history, the first run's before
    the second's. *)
Lemma two_runs_two_records (a : App.Application) (v : Sorting.Visualizer)
    (s1 rs s2 : Host.Event) (es1 es2 : list Host.Event) :
  Sorting.m_performanceCallback v = true ->
  Sorting.m_state v = Sorting.Stopped ->
  Host.ev_op s1 = Host.OpStart -> forallb Host.is_forward es1 = true ->
  Host.ev_op rs = Host.OpReset ->
  Host.ev_op s2 = Host.OpStart -> forallb Host.is_forward es2 = true ->
  Host.at_end (snd (run (s1 :: es1) (a, v))) = true ->
  Host.at_end (snd (run (rs :: s2 :: es2) (run (s1 :: es1) (a, v)))) = true ->
  exists r1 r2,
    Host.one_report (snd (run (s1 :: es1) (a, v))) [r1] /\
    Host.one_report
      (snd (run (rs :: s2 :: es2) (run (s1 :: es1) (a, v)))) [r2] /\
    App.m_performanceHistory (fst (run (s1 :: es1) (a, v)))
    = App.insert_bounded (App.perf_of (App.m_currentVisualizer a) r1)
        (App.m_performanceHistory a) /\
    App.m_performanceHistory
      (fst (run (rs :: s2 :: es2) (run (s1 :: es1) (a, v))))
    = App.insert_bounded (App.perf_of (App.m_currentVisualizer a) r2)
        (App.insert_bounded (App.perf_of (App.m_currentVisualizer a) r1)
           (App.m_performanceHistory a)).
Proof.
  intros Hcb Hst Hs1 Hes1 Hrs Hs2 Hes2.
  rewrite (run_records (s1 :: es1) a v). cbn [fst snd].
  intros Hend1.
  destruct (complete_run_records s1 es1 v Hs1 Hes1 Hst Hcb Hend1)
    as [Hone1 Hcb1].
  set (v1 := fst (play (s1 :: es1) v)) in *.
  assert (R1 : exists r1, records (s1 :: es1) v = [r1]).
  { destruct Hone1 as (w & n & t & ->). eexists. reflexivity. }
  destruct R1 as [r1 R1]. rewrite R1 in *. cbn [map foldl].
  set (a1 := App.history_step a (App.HRecord r1)).
  destruct (history_step_record a r1) as [Hh1 Hm1]. fold a1 in Hh1, Hm1.
  rewrite (run_records (rs :: s2 :: es2) a1 v1). cbn [fst snd].
  destruct (play_reset rs (s2 :: es2) v1 Hrs) as [-> ->].
  intros Hend2.
  assert (Hst2 : Sorting.m_state (Sorting.ResetArray v1) = Sorting.Stopped)
    by reflexivity.
  assert (Hcb2 : Sorting.m_performanceCallback (Sorting.ResetArray v1) = true)
    by exact Hcb1.
  destruct (complete_run_records s2 es2 _ Hs2 Hes2 Hst2 Hcb2 Hend2)
    as [Hone2 _].
  assert (R2 : exists r2, records (s2 :: es2) (Sorting.ResetArray v1) = [r2]).
  { destruct Hone2 as (w & n & t & ->). eexists. reflexivity. }
  destruct R2 as [r2 R2]. rewrite R2 in *. cbn [map foldl].
  destruct (history_step_record a1 r2) as [Hh2 _].
  exists r1, r2. split; [exact Hone1|]. split; [exact Hone2|].
  split; [exact Hh1|]. rewrite Hh2, Hm1, Hh1. reflexivity.
Qed.

End Reports.

(** ** Timestamps *)

Lemma compare_append (s1 : string) :
  forall s2 r1 r2,
    String.length s1 = String.length s2 ->
    String.compare (s1 +:+ r1) (s2 +:+ r2)
    = match String.compare s1 s2 with
      | Eq => String.compare r1 r2
      | c => c
      end.
Proof.
  induction s1 as [|a s1 IH]; intros [|b s2] r1 r2 Hlen;
    try discriminate; [reflexivity|].
  change (String.compare (String a s1 +:+ r1) (String b s2 +:+ r2))
    with (match Ascii.compare a b with
          | Eq => String.compare (s1 +:+ r1) (s2 +:+ r2)
          | ne => ne
          end).
  change (String.compare (String a s1) (String b s2))
    with (match Ascii.compare a b with
          | Eq => String.compare s1 s2
          | ne => ne
          end).
  destruct (Ascii.compare a b); try reflexivity.
  apply IH. simpl in Hlen. congruence.
Qed.

Lemma two_digits_table :
  forallb (fun n => forallb (App.two_digits_ordered n) (seqZ 0 60))
          (seqZ 0 60) = true.
Proof. vm_compute. reflexivity. Qed.

Lemma two_digits_order (n m : Z) :
  0 <= n < 60 -> 0 <= m < 60 ->
  String.length (App.two_digits n) = 2%nat /\
  String.compare (App.two_digits n) (App.two_digits m) = (n ?= m).
Proof.
  intros Hn Hm.
  pose proof two_digits_table as T.
  rewrite forallb_forall in T.
  assert (In n (seqZ 0 60)) as Hin
    by (apply list_elem_of_In, elem_of_seqZ; lia).
  specialize (T n Hin). rewrite forallb_forall in T.
  assert (In m (seqZ 0 60)) as Him
    by (apply list_elem_of_In, elem_of_seqZ; lia).
  specialize (T m Him). unfold App.two_digits_ordered in T.
  apply andb_true_iff in T as [T1 T2].
  apply Nat.eqb_eq in T1. split; [exact T1|].
  destruct (String.compare _ _), (n ?= m); simpl in T2; congruence.
Qed.

(** Two readings of the wall clock on the same day, the second not before
    the first, give timestamps in order. *)
Lemma timestamps_same_day (w1 w2 : Z) :
  0 <= w1 <= w2 ->
  w1 `div` App.day = w2 `div` App.day ->
  String.compare (App.format_timestamp w1) (App.format_timestamp w2) <> Gt.
Proof.
  unfold App.day, App.format_timestamp. intros Hw Hday.
  set (h1 := (w1 `div` 3600) `mod` 24). set (h2 := (w2 `div` 3600) `mod` 24).
  set (m1 := (w1 `div` 60) `mod` 60). set (m2 := (w2 `div` 60) `mod` 60).
  set (s1 := w1 `mod` 60). set (s2 := w2 `mod` 60).
  assert (B : (0 <= h1 < 24 /\ 0 <= h2 < 24) /\ (0 <= m1 < 60 /\ 0 <= m2 < 60)
              /\ (0 <= s1 < 60 /\ 0 <= s2 < 60))
    by (subst h1 h2 m1 m2 s1 s2; repeat split; apply Z.mod_pos_bound; lia).
  destruct B as ((Bh1 & Bh2) & (Bm1 & Bm2) & (Bs1 & Bs2)).
  destruct (two_digits_order h1 h2) as [Lh Ch]; [lia|lia|].
  destruct (two_digits_order h2 h1) as [Lh' _]; [lia|lia|].
  destruct (two_digits_order m1 m2) as [Lm Cm]; [lia|lia|].
  destruct (two_digits_order m2 m1) as [Lm' _]; [lia|lia|].
  destruct (two_digits_order s1 s2) as [_ Cs]; [lia|lia|].
  rewrite compare_append by congruence. rewrite Ch.
  change (String.compare (":" +:+ ?a) (":" +:+ ?b))
    with (String.compare a b).
  rewrite compare_append by congruence. rewrite Cm.
  change (String.compare (":" +:+ ?a) (":" +:+ ?b))
    with (String.compare a b).
  rewrite Cs.
  assert (E1 : w1 = 86400 * (w1 `div` 86400) + 3600 * h1 + 60 * m1 + s1)
    by (subst h1 m1 s1; Z.div_mod_to_equations; lia).
  assert (E2 : w2 = 86400 * (w2 `div` 86400) + 3600 * h2 + 60 * m2 + s2)
    by (subst h2 m2 s2; Z.div_mod_to_equations; lia).
  rewrite Hday in E1.
  destruct (Z.compare_spec h1 h2); [|discriminate|lia].
  destruct (Z.compare_spec m1 m2); [|discriminate|lia].
  destruct (Z.compare_spec s1 s2); [discriminate|discriminate|lia].
Qed.

(** The search executors report while the log is being generated: the
    callback has been invoked when [StartSearch] returns, and the
    controller is not completed then. *)
Lemma search_reports_at_generation (probe : Z -> Z -> Z -> Z -> Z -> Z)
    (now tick fin : Z) (v : Search.Visualizer) :
  Search.m_performanceCallback v = true ->
  Search.m_targetValue v <> -1 ->
  Search.m_currentAlgorithm v = Search.LinearSearchAlg \/
  Search.m_currentAlgorithm v = Search.BinarySearchAlg \/
  Search.m_currentAlgorithm v = Search.InterpolationSearchAlg \/
  Search.m_currentAlgorithm v = Search.ExponentialSearchAlg \/
  (Search.m_currentAlgorithm v = Search.JumpSearchAlg /\
   Search.m_array v <> []) ->
  length (snd (Search.ClickStartSearch probe now tick fin v)) = 1%nat /\
  Search.m_isComplete (fst (Search.ClickStartSearch probe now tick fin v)) = false.
Proof.
  intros Hcb Ht Halg.
  rewrite click_start_search_armed by exact Ht.
  set (w := Search.ResetSearch _).
  assert (Hw : Search.m_performanceCallback w = true) by exact Hcb.
  destruct Halg as [Hl|Hrest].
  - destruct (start_search_linear probe tick fin w Hl)
      as (_ & H2 & H3 & _ & _ & H6).
    split; [|exact H6].
    rewrite H3. unfold Search.CompleteSearch. rewrite H2, Hw. reflexivity.
  - assert (Hnl : Search.m_currentAlgorithm w <> Search.LinearSearchAlg).
    { change (Search.m_currentAlgorithm v <> Search.LinearSearchAlg).
      destruct Hrest as [->|[->|[->|[-> _]]]]; discriminate. }
    destruct (start_search_quiet probe tick fin w Hnl) as (_ & _ & _ & H4).
    split; [|exact H4].
    assert (Hrep : snd (Search.StartSearch probe tick fin w)
                   = Search.CompleteSearch fin w).
    { destruct Hrest as [Hb|[Hi|Hrest]].
      - apply start_search_reported. left. exact Hb.
      - apply start_search_interpolation_reported. exact Hi.
      - apply start_search_reported. right. exact Hrest. }
    rewrite Hrep.
    unfold Search.CompleteSearch. rewrite Hw. reflexivity.
Qed.




Lemma visualizer_ext (v w : Sorting.Visualizer) :
  Sorting.m_array v = Sorting.m_array w ->
  Sorting.m_originalArray v = Sorting.m_originalArray w ->
  Sorting.m_sortingSteps v = Sorting.m_sortingSteps w ->
  Sorting.m_currentAlgorithm v = Sorting.m_currentAlgorithm w ->
  Sorting.m_state v = Sorting.m_state w ->
  Sorting.m_currentStepIndex v = Sorting.m_currentStepIndex w ->
  Sorting.m_stepDelay v = Sorting.m_stepDelay w ->
  Sorting.m_lastUpdate v = Sorting.m_lastUpdate w ->
  Sorting.m_sortStartTime v = Sorting.m_sortStartTime w ->
  Sorting.m_comparisons v = Sorting.m_comparisons w ->
  Sorting.m_swaps v = Sorting.m_swaps w ->
  Sorting.m_performanceCallback v = Sorting.m_performanceCallback w ->
  v = w.
Proof.
  destruct v, w. simpl. intros. subst. reflexivity.
Qed.

Lemma absorb_nil (v : Sorting.Visualizer) :
  Sorting.absorb (Sorting.mkRecording [] 0 0) v = v.
Proof.
  apply visualizer_ext; try reflexivity.
  - apply app_nil_r.
  - apply Z.add_0_r.
  - apply Z.add_0_r.
Qed.

Lemma absorb_app (r1 r2 : Sorting.Recording) (v : Sorting.Visualizer) :
  Sorting.absorb r2 (Sorting.absorb r1 v)
  = Sorting.absorb (Executors.rec_app r1 r2) v.
Proof.
  apply visualizer_ext; try reflexivity.
  - symmetry. apply app_assoc.
  - symmetry. apply Z.add_assoc.
  - symmetry. apply Z.add_assoc.
Qed.

Lemma record_step_absorb arr c1 c2 p sw d (v : Sorting.Visualizer) :
  Sorting.RecordStep arr c1 c2 p sw d v
  = Sorting.absorb (Sorting.mkRecording [Sorting.mkStep arr c1 c2 p sw d] 0 0) v.
Proof.
  apply visualizer_ext; try reflexivity.
  - symmetry. apply Z.add_0_r.
  - symmetry. apply Z.add_0_r.
Qed.

Lemma bump_comparisons_absorb (v : Sorting.Visualizer) :
  Sorting.set_comparisons (Sorting.m_comparisons v + 1) v
  = Sorting.absorb (Sorting.mkRecording [] 1 0) v.
Proof.
  apply visualizer_ext; try reflexivity.
  - symmetry. apply app_nil_r.
  - symmetry. apply Z.add_0_r.
Qed.

Lemma bump_swaps_absorb (v : Sorting.Visualizer) :
  Sorting.set_swaps (Sorting.m_swaps v + 1) v
  = Sorting.absorb (Sorting.mkRecording [] 0 1) v.
Proof.
  apply visualizer_ext; try reflexivity.
  - symmetry. apply app_nil_r.
  - symmetry. apply Z.add_0_r.
Qed.

Lemma absorb_fields (r : Sorting.Recording) (v : Sorting.Visualizer) :
  Sorting.m_sortingSteps (Sorting.absorb r v)
  = Sorting.m_sortingSteps v ++ Sorting.rec_steps r /\
  Sorting.m_comparisons (Sorting.absorb r v)
  = Sorting.m_comparisons v + Sorting.rec_comparisons r /\
  Sorting.m_swaps (Sorting.absorb r v)
  = Sorting.m_swaps v + Sorting.rec_swaps r /\
  Sorting.m_array (Sorting.absorb r v) = Sorting.m_array v.
Proof. repeat split. Qed.

Lemma new_steps_absorb (r : Sorting.Recording) (v : Sorting.Visualizer) :
  Executors.new_steps v (Sorting.absorb r v) = Sorting.rec_steps r.
Proof.
  unfold Executors.new_steps. simpl. apply drop_app_length.
Qed.

(** ** Exchanging two elements *)

Lemma swap_length (arr : list Z) (j k : nat) :
  length (Sorting.swap arr j k) = length arr.
Proof. unfold Sorting.swap. rewrite !length_insert. reflexivity. Qed.

Lemma swap_total (arr : list Z) (j k a : nat) :
  (j < length arr)%nat -> (k < length arr)%nat ->
  Sorting.swap arr j k !!! a
  = if decide (a = j) then arr !!! k
    else if decide (a = k) then arr !!! j else arr !!! a.
Proof.
  intros Hj Hk. unfold Sorting.swap, Sorting.at_.
  rewrite !list_lookup_total_insert, length_insert.
  repeat case_decide; try reflexivity; try lia; subst; try reflexivity.
  all: try (exfalso; naive_solver lia).
Qed.

Lemma insert_head_perm (arr : list Z) :
  forall (k : nat) (a : Z),
    (k < length arr)%nat ->
    (arr !!! k) :: <[k := a]> arr ≡ₚ a :: arr.
Proof.
  induction arr as [|b arr IH]; intros k a Hk; simpl in Hk; [lia|].
  destruct k as [|k]; simpl.
  - apply perm_swap.
  - change ((b :: arr) !!! S k) with (arr !!! k).
    rewrite perm_swap. rewrite (IH k a) by lia. apply perm_swap.
Qed.

Lemma swap_perm (arr : list Z) :
  forall j k : nat,
    (j < length arr)%nat -> (k < length arr)%nat ->
    Sorting.swap arr j k ≡ₚ arr.
Proof.
  induction arr as [|x arr IH]; intros j k Hj Hk; simpl in *; [lia|].
  unfold Sorting.swap, Sorting.at_ in *.
  destruct j as [|j], k as [|k]; simpl.
  - reflexivity.
  - change ((x :: arr) !!! S k) with (arr !!! k).
    change ((x :: arr) !!! 0%nat) with x.
    apply insert_head_perm. lia.
  - change ((x :: arr) !!! S j) with (arr !!! j).
    change ((x :: arr) !!! 0%nat) with x.
    apply insert_head_perm. lia.
  - change ((x :: arr) !!! S k) with (arr !!! k).
    change ((x :: arr) !!! S j) with (arr !!! j).
    constructor. apply IH; lia.
Qed.

Lemma ascending_sorted (arr : list Z) :
  Executors.ascending_on 0 (length arr) arr -> StronglySorted Z.le arr.
Proof.
  induction arr as [|x arr IH]; intros H; constructor.
  - apply IH. intros a b Ha Hab Hb.
    apply (H (S a) (S b)); simpl; lia.
  - apply Forall_lookup. intros i y Hi.
    pose proof (lookup_lt_Some _ _ _ Hi) as Hlt.
    specialize (H 0%nat (S i) ltac:(lia) ltac:(lia) ltac:(simpl; lia)).
    change ((x :: arr) !!! 0%nat) with x in H.
    change ((x :: arr) !!! S i) with (arr !!! i) in H.
    rewrite (list_lookup_total_correct _ _ _ Hi) in H. exact H.
Qed.

Lemma tally_app (arr0 arr1 : list Z) (c1 s1 c2 s2 : Z)
    (r1 r2 : Sorting.Recording) :
  arr1 ≡ₚ arr0 ->
  Executors.tally arr0 c1 s1 r1 -> Executors.tally arr1 c2 s2 r2 ->
  Executors.tally arr0 (c1 + c2) (s1 + s2) (Executors.rec_app r1 r2).
Proof.
  intros Hp (C1 & S1 & F1) (C2 & S2 & F2). repeat split; simpl; try lia.
  apply Forall_app. split; [exact F1|].
  eapply Forall_impl; [exact F2|]. simpl. intros s Hs.
  etransitivity; eassumption.
Qed.

Lemma paired_app (r1 r2 : Sorting.Recording) :
  Executors.paired r1 -> Executors.paired r2 ->
  Executors.paired (Executors.rec_app r1 r2).
Proof.
  unfold Executors.paired. simpl. rewrite length_app. lia.
Qed.

(** ** Bubble sort *)

Lemma bubble_body_run (j : nat) (arr : list Z) :
  (S j < length arr)%nat ->
  exists arr' r,
    (forall v, Sorting.BubbleSort_body j (arr, v)
               = (arr', Sorting.absorb r v)) /\
    arr' = (if arr !!! S j <? arr !!! j then Sorting.swap arr j (S j)
            else arr) /\
    arr' ≡ₚ arr /\
    Executors.tally arr 1 1 r /\ Executors.paired r.
Proof.
  intros Hj. unfold Sorting.BubbleSort_body, Sorting.at_.
  destruct (arr !!! S j <? arr !!! j) eqn:E.
  - eexists _, _. split; [|split; [reflexivity|]].
    + intros v. rewrite !record_step_absorb, bump_swaps_absorb,
        bump_comparisons_absorb, !absorb_app. reflexivity.
    + assert (Hp : Sorting.swap arr j (S j) ≡ₚ arr)
        by (apply swap_perm; lia).
      split; [exact Hp|]. split; [|reflexivity].
      repeat split; simpl; try lia.
      repeat constructor; simpl; [reflexivity|exact Hp].
  - eexists _, _. split; [|split; [reflexivity|]].
    + intros v. rewrite !record_step_absorb,
        bump_comparisons_absorb, !absorb_app. reflexivity.
    + split; [reflexivity|]. split; [|reflexivity].
      repeat split; simpl; try lia. repeat constructor; reflexivity.
Qed.

Lemma bubble_inner_run (cnt : nat) :
  forall (from : nat) (arr : list Z),
    (from + cnt < length arr)%nat ->
    (forall k, (k < from)%nat -> arr !!! k <= arr !!! from) ->
    exists arr' r,
      (forall v, Sorting.BubbleSort_inner cnt from (arr, v)
                 = (arr', Sorting.absorb r v)) /\
      arr' ≡ₚ arr /\
      Executors.tally arr (Z.of_nat cnt) (Z.of_nat cnt) r /\
      Executors.paired r /\
      (forall k, (k < from + cnt)%nat ->
                 arr' !!! k <= arr' !!! (from + cnt)%nat) /\
      (forall k, (from + cnt < k)%nat -> arr' !!! k = arr !!! k) /\
      (forall x, (forall k, (k <= from + cnt)%nat -> arr !!! k <= x) ->
                 forall k, (k <= from + cnt)%nat -> arr' !!! k <= x).
Proof.
  induction cnt as [|cnt IH]; intros from arr Hlen Hmax.
  - exists arr, (Sorting.mkRecording [] 0 0).
    replace (from + 0)%nat with from by lia.
    split; [intros v; simpl; rewrite absorb_nil; reflexivity|].
    split; [reflexivity|].
    split; [repeat split; simpl; try lia; constructor|].
    split; [reflexivity|]. auto.
  - destruct (bubble_body_run from arr ltac:(lia))
      as (arr1 & r1 & Hrun1 & Harr1 & Hp1 & Ht1 & Hq1).
    assert (Hlen1 : length arr1 = length arr)
      by (apply Permutation_length; exact Hp1).
    assert (Hat : forall a : nat,
               arr1 !!! a
               = if arr !!! S from <? arr !!! from
                 then (if decide (a = from) then arr !!! S from
                       else if decide (a = S from) then arr !!! from
                       else arr !!! a)
                 else arr !!! a).
    { intros a. rewrite Harr1. destruct (_ <? _); [|reflexivity].
      apply swap_total; lia. }
    destruct (IH (S from) arr1) as (arr' & r2 & Hrun2 & Hp2 & Ht2 & Hq2
                                     & Hmax2 & Hrest2 & Hbound2).
    { lia. }
    { intros k Hk. rewrite !Hat.
      destruct (arr !!! S from <? arr !!! from) eqn:E;
        repeat case_decide; subst; try lia.
      - apply Z.ltb_lt in E. specialize (Hmax k ltac:(lia)). lia.
      - apply Z.ltb_ge in E. destruct (decide (k = from)) as [->|Hne];
          [exact E|]. specialize (Hmax k ltac:(lia)). lia. }
    replace (from + S cnt)%nat with (S from + cnt)%nat by lia.
    exists arr', (Executors.rec_app r1 r2).
    split.
    { intros v. cbn [Sorting.BubbleSort_inner].
      rewrite Hrun1, Hrun2, absorb_app. reflexivity. }
    split; [etransitivity; eassumption|].
    split.
    { replace (Z.of_nat (S cnt)) with (1 + Z.of_nat cnt) by lia.
      eapply tally_app; eassumption. }
    split; [apply paired_app; assumption|].
    split; [exact Hmax2|].
    split.
    { intros k Hk. rewrite Hrest2 by lia. rewrite Hat.
      destruct (_ <? _); repeat case_decide; subst; try lia; reflexivity. }
    intros x Hx. apply Hbound2. intros k Hk. rewrite Hat.
    destruct (_ <? _); repeat case_decide; subst; apply Hx; lia.
Qed.

Lemma bubble_outer_run (cnt : nat) :
  forall (from : nat) (arr : list Z),
    S (from + cnt) = length arr ->
    Executors.ascending_on (length arr - from) (length arr) arr ->
    Executors.split_at (length arr - from) (length arr) arr ->
    exists arr' r,
      (forall v, Sorting.BubbleSort_outer (length arr) cnt from (arr, v)
                 = (arr', Sorting.absorb r v)) /\
      arr' ≡ₚ arr /\
      Executors.tally arr (Sorting.rec_comparisons r)
        (Sorting.rec_comparisons r) r /\
      2 * Sorting.rec_comparisons r = Z.of_nat cnt * (Z.of_nat cnt + 1) /\
      Executors.paired r /\
      Executors.ascending_on 0 (length arr) arr'.
Proof.
  induction cnt as [|cnt IH]; intros from arr Hn Hasc Hsplit.
  - exists arr, (Sorting.mkRecording [] 0 0).
    split; [intros v; simpl; rewrite absorb_nil; reflexivity|].
    split; [reflexivity|].
    split; [repeat split; simpl; try lia; constructor|].
    split; [reflexivity|]. split; [reflexivity|].
    replace (length arr - from)%nat with 1%nat in * by lia.
    intros a b Ha Hab Hb.
    destruct (decide (a = b)) as [->|Hne]; [lia|].
    destruct (decide (a = 0%nat)) as [->|Ha0].
    + apply Hsplit; lia.
    + apply Hasc; lia.
  - set (n := length arr) in *.
    destruct (bubble_inner_run (n - from - 1) 0 arr)
      as (arr1 & r1 & Hrun1 & Hp1 & Ht1 & Hq1 & Hmax1 & Hrest1 & Hbound1).
    { simpl. lia. } { intros k Hk. lia. }
    simpl in Hmax1, Hrest1, Hbound1.
    assert (Hlen1 : length arr1 = n)
      by (apply Permutation_length; exact Hp1).
    destruct (IH (S from) arr1) as (arr' & r2 & Hrun2 & Hp2 & Ht2
                                     & Hc2 & Hq2 & Hasc2).
    { lia. }
    { rewrite Hlen1. intros a b Ha Hab Hb.
      destruct (decide (a = b)) as [->|Hne]; [lia|].
      destruct (decide (a = (n - from - 1)%nat)) as [->|Ha'].
      - rewrite (Hrest1 b) by lia. apply Hbound1; [|lia].
        intros k Hk. apply Hsplit; lia.
      - rewrite (Hrest1 a), (Hrest1 b) by lia. apply Hasc; lia. }
    { rewrite Hlen1. intros a b Ha Hab Hb.
      destruct (decide (b = (n - from - 1)%nat)) as [->|Hb'].
      - apply Hmax1. lia.
      - rewrite (Hrest1 b) by lia. apply Hbound1; [|lia].
        intros k Hk. apply Hsplit; lia. }
    rewrite Hlen1 in *.
    exists arr', (Executors.rec_app r1 r2).
    split.
    { intros v. cbn [Sorting.BubbleSort_outer].
      rewrite Hrun1, Hrun2, absorb_app. reflexivity. }
    split; [etransitivity; eassumption|].
    destruct Ht1 as (C1 & S1 & F1). pose proof Ht2 as (C2 & S2 & F2).
    split.
    { replace (Sorting.rec_comparisons (Executors.rec_app r1 r2))
        with (Z.of_nat (n - from - 1) + Sorting.rec_comparisons r2)
        by (simpl; lia).
      eapply tally_app; [exact Hp1| |exact Ht2]. repeat split; try lia.
      exact F1. }
    split; [simpl; nia|].
    split; [apply paired_app; assumption|]. exact Hasc2.
Qed.

Lemma recording_of_run (f : Sorting.Visualizer -> Sorting.Visualizer)
    (arr : list Z) (r : Sorting.Recording) :
  (forall v, Sorting.m_array v = arr -> f v = Sorting.absorb r v) ->
  Executors.recording f arr = r.
Proof.
  intros H. unfold Executors.recording.
  rewrite (H (Sorting.fresh arr) eq_refl). destruct r; simpl.
  rewrite !Z.add_0_l. reflexivity.
Qed.

Lemma bubble_sort_run (arr : list Z) :
  exists final r,
    (forall v, Sorting.m_array v = arr ->
       Sorting.BubbleSort v
       = Sorting.absorb
           (Executors.rec_app r
              (Sorting.mkRecording
                 [Sorting.mkStep final (-1) (-1) (-1) false
                    "Bubble sort completed!"] 0 0)) v) /\
    final ≡ₚ arr /\ StronglySorted Z.le final /\
    Executors.tally arr (Sorting.rec_comparisons r)
      (Sorting.rec_comparisons r) r /\
    2 * Sorting.rec_comparisons r
    = Z.of_nat (length arr) * (Z.of_nat (length arr) - 1) /\
    Executors.paired r.
Proof.
  destruct (decide (length arr = 0%nat)) as [H0|H0].
  - exists arr, (Sorting.mkRecording [] 0 0).
    split.
    { intros v Hv. unfold Sorting.BubbleSort. rewrite Hv, H0. simpl.
      rewrite record_step_absorb. reflexivity. }
    split; [reflexivity|].
    split; [destruct arr; [constructor|discriminate]|].
    split; [repeat split; simpl; try lia; constructor|].
    split; [rewrite H0; reflexivity|reflexivity].
  - destruct (bubble_outer_run (length arr - 1) 0 arr)
      as (final & r & Hrun & Hp & Ht & Hc & Hq & Hasc).
    { lia. } { intros a b Ha Hab Hb. lia. } { intros a b Ha Hab Hb. lia. }
    exists final, r. split.
    { intros v Hv. unfold Sorting.BubbleSort. rewrite Hv, Hrun.
      rewrite record_step_absorb, absorb_app. reflexivity. }
    split; [exact Hp|]. split.
    { apply ascending_sorted.
      rewrite (Permutation_length Hp). exact Hasc. }
    split; [exact Ht|]. split; [|exact Hq]. rewrite Hc.
    replace (Z.of_nat (length arr - 1)) with (Z.of_nat (length arr) - 1)
      by lia. ring.
Qed.

(** ** Selection sort *)

Lemma selection_body_run (arr : list Z) (j mi : nat) :
  exists mi' r,
    (forall v, Executors.SelectionSort_body arr j (mi, v)
               = (mi', Sorting.absorb r v)) /\
    mi' = (if arr !!! j <? arr !!! mi then j else mi) /\
    Executors.tally arr 1 0 r.
Proof.
  unfold Executors.SelectionSort_body, Sorting.at_.
  destruct (arr !!! j <? arr !!! mi) eqn:E.
  - eexists _, _. split; [|split; [reflexivity|]].
    + intros v. rewrite !record_step_absorb,
        bump_comparisons_absorb, !absorb_app. reflexivity.
    + repeat split; simpl; try lia. repeat constructor; reflexivity.
  - eexists _, _. split; [|split; [reflexivity|]].
    + intros v. rewrite !record_step_absorb,
        bump_comparisons_absorb, !absorb_app. reflexivity.
    + repeat split; simpl; try lia. repeat constructor; reflexivity.
Qed.

Lemma selection_inner_run (arr : list Z) (i : nat) (cnt : nat) :
  forall (from mi : nat),
    (i <= mi)%nat -> (mi < from)%nat ->
    (forall k, (i <= k)%nat -> (k < from)%nat -> arr !!! mi <= arr !!! k) ->
    exists mi' r,
      (forall v, Executors.SelectionSort_inner arr cnt from (mi, v)
                 = (mi', Sorting.absorb r v)) /\
      Executors.tally arr (Z.of_nat cnt) 0 r /\
      (i <= mi')%nat /\ (mi' < from + cnt)%nat /\
      (forall k, (i <= k)%nat -> (k < from + cnt)%nat ->
                 arr !!! mi' <= arr !!! k).
Proof.
  induction cnt as [|cnt IH]; intros from mi Hi Hlt Hmin.
  - exists mi, (Sorting.mkRecording [] 0 0).
    replace (from + 0)%nat with from by lia.
    split; [intros v; simpl; rewrite absorb_nil; reflexivity|].
    split; [repeat split; simpl; try lia; constructor|]. auto.
  - destruct (selection_body_run arr from mi) as (mi1 & r1 & Hrun1 & Hmi1 & Ht1).
    destruct (IH (S from) mi1) as (mi' & r2 & Hrun2 & Ht2 & Hi2 & Hlt2 & Hmin2).
    { rewrite Hmi1. destruct (_ <? _); lia. }
    { rewrite Hmi1. destruct (_ <? _); lia. }
    { intros k Hk1 Hk2. rewrite Hmi1.
      destruct (arr !!! from <? arr !!! mi) eqn:E.
      - apply Z.ltb_lt in E. destruct (decide (k = from)) as [->|Hne]; [lia|].
        specialize (Hmin k ltac:(lia) ltac:(lia)). lia.
      - apply Z.ltb_ge in E. destruct (decide (k = from)) as [->|Hne]; [lia|].
        apply Hmin; lia. }
    replace (from + S cnt)%nat with (S from + cnt)%nat by lia.
    exists mi', (Executors.rec_app r1 r2). split.
    { intros v. cbn [Executors.SelectionSort_inner].
      rewrite Hrun1, Hrun2, absorb_app. reflexivity. }
    split.
    { replace (Z.of_nat (S cnt)) with (1 + Z.of_nat cnt) by lia.
      change 0 with (0 + 0) at 1.
      eapply tally_app; [reflexivity|eassumption..]. }
    auto.
Qed.

Lemma selection_pass_run (arr : list Z) (i : nat) :
  (S i < length arr)%nat ->
  Executors.ascending_on 0 i arr ->
  Executors.split_at i (length arr) arr ->
  exists arr' r,
    (forall v, Executors.SelectionSort_pass (length arr) i (arr, v)
               = (arr', Sorting.absorb r v)) /\
    arr' ≡ₚ arr /\
    Executors.tally arr (Z.of_nat (length arr - S i)) 1 r /\
    Executors.ascending_on 0 (S i) arr' /\
    Executors.split_at (S i) (length arr) arr'.
Proof.
  intros Hi Hasc Hsplit.
  destruct (selection_inner_run arr i (length arr - S i) (S i) i)
    as (mi & r1 & Hrun1 & Ht1 & Hmi1 & Hmi2 & Hmin); [lia|lia| |].
  { intros k Hk1 Hk2. replace k with i by lia. lia. }
  replace (S i + (length arr - S i))%nat with (length arr) in * by lia.
  unfold Executors.SelectionSort_pass.
  destruct (decide (mi = i)) as [->|Hne].
  - eexists arr, _. split.
    { intros v. rewrite record_step_absorb, Hrun1.
      rewrite bool_decide_eq_false_2 by (intros H; apply H; reflexivity).
      rewrite absorb_app. reflexivity. }
    split; [reflexivity|]. split.
    { solve_tally. }
    split.
    + intros a b Ha Hab Hb. destruct (decide (a = b)) as [->|Hab']; [lia|].
      destruct (decide (b = i)) as [->|Hb'].
      * apply Hsplit; lia.
      * apply Hasc; lia.
    + intros a b Ha Hab Hb. destruct (decide (a = i)) as [->|Ha'].
      * apply Hmin; lia.
      * apply Hsplit; lia.
  - assert (Hp : Sorting.swap arr i mi ≡ₚ arr) by (apply swap_perm; lia).
    eexists (Sorting.swap arr i mi), _. split.
    { intros v. rewrite record_step_absorb, Hrun1.
      rewrite bool_decide_eq_true_2 by exact Hne.
      rewrite record_step_absorb, bump_swaps_absorb, !absorb_app.
      reflexivity. }
    split; [exact Hp|]. split.
    { solve_tally. }
    assert (Hat : forall a : nat,
               Sorting.swap arr i mi !!! a
               = if decide (a = i) then arr !!! mi
                 else if decide (a = mi) then arr !!! i else arr !!! a)
      by (intros a; apply swap_total; lia).
    split.
    + intros a b Ha Hab Hb. rewrite !Hat.
      repeat case_decide; subst; try lia.
      * apply Hsplit; lia.
      * apply Hasc; lia.
    + intros a b Ha Hab Hb. rewrite !Hat.
      repeat case_decide; subst; try lia.
      * apply Hmin; lia.
      * apply Hmin; lia.
      * apply Hsplit; lia.
      * apply Hsplit; lia.
Qed.

Lemma selection_outer_run (cnt : nat) :
  forall (from : nat) (arr : list Z),
    S (from + cnt) = length arr ->
    Executors.ascending_on 0 from arr ->
    Executors.split_at from (length arr) arr ->
    exists arr' r,
      (forall v, Executors.SelectionSort_outer (length arr) cnt from (arr, v)
                 = (arr', Sorting.absorb r v)) /\
      arr' ≡ₚ arr /\
      Executors.tally arr (Sorting.rec_comparisons r) (Z.of_nat cnt) r /\
      2 * Sorting.rec_comparisons r = Z.of_nat cnt * (Z.of_nat cnt + 1) /\
      Executors.ascending_on 0 (length arr) arr'.
Proof.
  induction cnt as [|cnt IH]; intros from arr Hn Hasc Hsplit.
  - exists arr, (Sorting.mkRecording [] 0 0).
    split; [intros v; simpl; rewrite absorb_nil; reflexivity|].
    split; [reflexivity|].
    split; [repeat split; simpl; try lia; constructor|].
    split; [reflexivity|].
    intros a b Ha Hab Hb.
    destruct (decide (a = b)) as [->|Hne]; [lia|].
    destruct (decide (b = from)) as [->|Hb'].
    + apply Hsplit; lia.
    + apply Hasc; lia.
  - destruct (selection_pass_run arr from ltac:(lia) Hasc Hsplit)
      as (arr1 & r1 & Hrun1 & Hp1 & Ht1 & Hasc1 & Hsplit1).
    assert (Hlen1 : length arr1 = length arr)
      by (apply Permutation_length; exact Hp1).
    destruct (IH (S from) arr1) as (arr' & r2 & Hrun2 & Hp2 & Ht2 & Hc2 & Hasc2).
    { lia. } { exact Hasc1. } { rewrite Hlen1. exact Hsplit1. }
    rewrite Hlen1 in *.
    exists arr', (Executors.rec_app r1 r2). split.
    { intros v. cbn [Executors.SelectionSort_outer].
      rewrite Hrun1, Hrun2, absorb_app. reflexivity. }
    split; [etransitivity; eassumption|].
    pose proof Ht1 as (C1 & S1 & F1). pose proof Ht2 as (C2 & S2 & F2).
    split.
    { replace (Sorting.rec_comparisons (Executors.rec_app r1 r2))
        with (Z.of_nat (length arr - S from) + Sorting.rec_comparisons r2)
        by (simpl; lia).
      replace (Z.of_nat (S cnt)) with (1 + Z.of_nat cnt) by lia.
      eapply tally_app; eassumption. }
    split; [simpl; nia|]. exact Hasc2.
Qed.

Lemma selection_sort_run (arr : list Z) :
  exists final r,
    (forall v, Sorting.m_array v = arr ->
       Executors.SelectionSort v
       = Sorting.absorb
           (Executors.rec_app r
              (Sorting.mkRecording
                 [Sorting.mkStep final (-1) (-1) (-1) false
                    "Selection sort completed!"] 0 0)) v) /\
    final ≡ₚ arr /\ StronglySorted Z.le final /\
    Executors.tally arr (Sorting.rec_comparisons r)
      (Z.of_nat (length arr - 1)) r /\
    2 * Sorting.rec_comparisons r
    = Z.of_nat (length arr) * (Z.of_nat (length arr) - 1).
Proof.
  destruct (decide (length arr = 0%nat)) as [H0|H0].
  - exists arr, (Sorting.mkRecording [] 0 0).
    split.
    { intros v Hv. unfold Executors.SelectionSort. rewrite Hv, H0. simpl.
      rewrite record_step_absorb. reflexivity. }
    split; [reflexivity|].
    split; [destruct arr; [constructor|discriminate]|].
    split; [repeat split; simpl; try lia; constructor|].
    rewrite H0; reflexivity.
  - destruct (selection_outer_run (length arr - 1) 0 arr)
      as (final & r & Hrun & Hp & Ht & Hc & Hasc).
    { lia. } { intros a b Ha Hab Hb. lia. } { intros a b Ha Hab Hb. lia. }
    exists final, r. split.
    { intros v Hv. unfold Executors.SelectionSort. rewrite Hv, Hrun.
      rewrite record_step_absorb, absorb_app. reflexivity. }
    split; [exact Hp|]. split.
    { apply ascending_sorted.
      rewrite (Permutation_length Hp). exact Hasc. }
    split; [exact Ht|]. rewrite Hc.
    replace (Z.of_nat (length arr - 1)) with (Z.of_nat (length arr) - 1)
      by lia. ring.
Qed.

(** ** Insertion sort *)

Lemma shift_perm (arr : list Z) (j : nat) (key : Z) :
  (S j < length arr)%nat ->
  <[j := key]> (<[S j := arr !!! j]> arr) ≡ₚ <[S j := key]> arr.
Proof.
  intros Hj.
  assert (E : <[j := key]> (<[S j := arr !!! j]> arr)
              = Sorting.swap (<[S j := key]> arr) j (S j)).
  { unfold Sorting.swap, Sorting.at_.
    rewrite list_lookup_total_insert_eq by lia.
    rewrite list_lookup_total_insert_ne by lia.
    rewrite list_insert_insert_eq. reflexivity. }
  rewrite E. apply swap_perm; rewrite length_insert; lia.
Qed.

Lemma shifting_forall (arr0 arr1 : list Z) (c e : Z) (r : Sorting.Recording) :
  length arr1 = length arr0 ->
  Executors.shifting arr1 c e r -> Executors.shifting arr0 c e r.
Proof.
  intros Hl (C & S & L & W & F). repeat split; try assumption.
  rewrite <- Hl. exact F.
Qed.

Lemma insertion_while_run (i : nat) (key : Z) (k : nat) :
  forall arr : list Z,
    (k <= i)%nat -> (i < length arr)%nat ->
    Executors.hole_inv i k key arr ->
    exists p arr' r,
      (forall v, Executors.InsertionSort_while k key (arr, v)
                 = (p, (arr', Sorting.absorb r v))) /\
      (p <= k)%nat /\ length arr' = length arr /\
      Executors.hole_inv i p key arr' /\
      (forall a : nat, (a < p)%nat -> arr' !!! a <= key) /\
      <[p := key]> arr' ≡ₚ <[k := key]> arr /\
      Executors.shifting arr (Z.of_nat k - Z.of_nat p) 0 r.
Proof.
  induction k as [|j IH]; intros arr Hk Hi Hinv.
  - exists 0%nat, arr, (Sorting.mkRecording [] 0 0).
    split; [intros v; simpl; rewrite absorb_nil; reflexivity|].
    split; [lia|]. split; [reflexivity|]. split; [exact Hinv|].
    split; [intros a Ha; lia|]. split; [reflexivity|]. solve_shifting.
  - destruct Hinv as [Hord Hgt].
    cbn [Executors.InsertionSort_while]. unfold Sorting.at_.
    destruct (key <? arr !!! j) eqn:E.
    + apply Z.ltb_lt in E.
      set (arr1 := <[S j := arr !!! j]> arr).
      assert (Hat : forall a : nat,
                 arr1 !!! a = if decide (a = S j) then arr !!! j
                              else arr !!! a).
      { intros a. unfold arr1. destruct (decide (a = S j)) as [->|Hne].
        - rewrite list_lookup_total_insert_eq by lia. reflexivity.
        - rewrite list_lookup_total_insert_ne by lia. reflexivity. }
      destruct (IH arr1) as (p & arr' & r & Hrun & Hp & Hlen & Hinv'
                             & Hle & Hperm & Hsh).
      { lia. } { unfold arr1. rewrite length_insert. lia. }
      { split.
        - intros a b Hab Hb Ha' Hb'. rewrite !Hat.
          repeat case_decide; subst; try lia; apply Hord; lia.
        - intros b Hjb Hb. rewrite Hat.
          case_decide; subst; [exact E|]. apply Hgt; lia. }
      assert (Hlen1 : length arr1 = length arr)
        by (unfold arr1; rewrite length_insert; reflexivity).
      eexists p, arr', _. split.
      { intros v. fold arr1. rewrite !record_step_absorb,
          bump_comparisons_absorb, !absorb_app, Hrun, absorb_app.
        reflexivity. }
      split; [lia|]. split; [congruence|]. split; [exact Hinv'|].
      split; [exact Hle|]. split.
      { rewrite Hperm. apply shift_perm. lia. }
      apply (shifting_forall arr arr1) in Hsh; [|exact Hlen1].
      fold arr1. solve_shifting.
    + apply Z.ltb_ge in E.
      exists (S j), arr, (Sorting.mkRecording [] 0 0).
      split; [intros v; rewrite absorb_nil; reflexivity|].
      split; [lia|]. split; [reflexivity|]. split; [split; assumption|].
      split.
      { intros a Ha. destruct (decide (a = j)) as [->|Hne]; [exact E|].
        specialize (Hord a j ltac:(lia) ltac:(lia) ltac:(lia) ltac:(lia)).
        lia. }
      split; [reflexivity|]. solve_shifting.
Qed.

Lemma insertion_pass_run (arr : list Z) (i : nat) :
  (i < length arr)%nat ->
  Executors.ascending_on 0 i arr ->
  exists arr' r c,
    (forall v, Executors.InsertionSort_pass i (arr, v)
               = (arr', Sorting.absorb r v)) /\
    arr' ≡ₚ arr /\
    Executors.shifting arr c 2 r /\ 0 <= c <= Z.of_nat i /\
    Executors.ascending_on 0 (S i) arr'.
Proof.
  intros Hi Hasc.
  destruct (insertion_while_run i (arr !!! i) i arr)
    as (p & arr1 & r & Hrun & Hp & Hlen & [Hord Hgt] & Hle & Hperm & Hsh).
  { lia. } { exact Hi. }
  { split.
    - intros a b Hab Hb Ha' Hb'. apply Hasc; lia.
    - intros b Hb1 Hb2. lia. }
  rewrite (list_insert_id arr i) in Hperm
    by (apply list_lookup_lookup_total_lt; exact Hi).
  unfold Executors.InsertionSort_pass, Sorting.at_.
  eexists (<[p := arr !!! i]> arr1), _, (Z.of_nat i - Z.of_nat p). split.
  { intros v. rewrite record_step_absorb, Hrun.
    rewrite record_step_absorb, !absorb_app. reflexivity. }
  split; [exact Hperm|]. split.
  { assert (Hl : length (<[p := arr !!! i]> arr1) = length arr)
      by (rewrite length_insert; exact Hlen).
    solve_shifting. }
  split; [lia|].
  intros a b Ha Hab Hb.
  destruct (decide (a = p)) as [->|Hna], (decide (b = p)) as [->|Hnb].
  - lia.
  - rewrite list_lookup_total_insert_eq by lia.
    rewrite list_lookup_total_insert_ne by lia. 
    specialize (Hgt b ltac:(lia) ltac:(lia)). lia.
  - rewrite list_lookup_total_insert_eq by lia.
    rewrite list_lookup_total_insert_ne by lia.
    apply Hle. lia.
  - rewrite !list_lookup_total_insert_ne by lia. apply Hord; lia.
Qed.

Lemma insertion_outer_run (cnt : nat) :
  forall (from : nat) (arr : list Z),
    (from + cnt)%nat = length arr ->
    Executors.ascending_on 0 from arr ->
    exists arr' r c,
      (forall v, Executors.InsertionSort_outer cnt from (arr, v)
                 = (arr', Sorting.absorb r v)) /\
      arr' ≡ₚ arr /\
      Executors.shifting arr c (2 * Z.of_nat cnt) r /\
      0 <= c /\
      2 * c <= 2 * Z.of_nat cnt * Z.of_nat from
               + Z.of_nat cnt * (Z.of_nat cnt - 1) /\
      Executors.ascending_on 0 (length arr) arr'.
Proof.
  induction cnt as [|cnt IH]; intros from arr Hn Hasc.
  - exists arr, (Sorting.mkRecording [] 0 0), 0.
    split; [intros v; simpl; rewrite absorb_nil; reflexivity|].
    split; [reflexivity|]. split; [solve_shifting|].
    split; [lia|]. split; [lia|].
    replace (length arr) with from by lia. exact Hasc.
  - destruct (insertion_pass_run arr from ltac:(lia) Hasc)
      as (arr1 & r1 & c1 & Hrun1 & Hp1 & Hsh1 & Hc1 & Hasc1).
    assert (Hlen1 : length arr1 = length arr)
      by (apply Permutation_length; exact Hp1).
    destruct (IH (S from) arr1 ltac:(lia) Hasc1)
      as (arr' & r2 & c2 & Hrun2 & Hp2 & Hsh2 & Hc2 & Hb2 & Hasc2).
    rewrite Hlen1 in Hasc2.
    apply (shifting_forall arr arr1) in Hsh2; [|exact Hlen1].
    exists arr', (Executors.rec_app r1 r2), (c1 + c2). split.
    { intros v. cbn [Executors.InsertionSort_outer].
      rewrite Hrun1, Hrun2, absorb_app. reflexivity. }
    split; [etransitivity; eassumption|].
    split; [solve_shifting|]. split; [lia|]. split; [nia|]. exact Hasc2.
Qed.

Lemma insertion_sort_run (arr : list Z) :
  exists final r c,
    (forall v, Sorting.m_array v = arr ->
       Executors.InsertionSort v
       = Sorting.absorb
           (Executors.rec_app r
              (Sorting.mkRecording
                 [Sorting.mkStep final (-1) (-1) (-1) false
                    "Insertion sort completed!"] 0 0)) v) /\
    final ≡ₚ arr /\ StronglySorted Z.le final /\
    Executors.shifting arr c (2 * Z.of_nat (length arr - 1)) r /\
    0 <= c /\
    2 * c <= Z.of_nat (length arr) * (Z.of_nat (length arr) - 1).
Proof.
  destruct (decide (length arr = 0%nat)) as [H0|H0].
  - exists arr, (Sorting.mkRecording [] 0 0), 0.
    split.
    { intros v Hv. unfold Executors.InsertionSort. rewrite Hv, H0. simpl.
      rewrite record_step_absorb. reflexivity. }
    split; [reflexivity|].
    split; [destruct arr; [constructor|discriminate]|].
    split; [rewrite H0; solve_shifting|]. rewrite H0. lia.
  - destruct (insertion_outer_run (length arr - 1) 1 arr)
      as (final & r & c & Hrun & Hp & Hsh & Hc & Hb & Hasc).
    { lia. } { intros a b Ha Hab Hb. replace b with a by lia. lia. }
    exists final, r, c. split.
    { intros v Hv. unfold Executors.InsertionSort. rewrite Hv, Hrun.
      rewrite record_step_absorb, absorb_app. reflexivity. }
    split; [exact Hp|]. split.
    { apply ascending_sorted.
      rewrite (Permutation_length Hp). exact Hasc. }
    split; [exact Hsh|]. split; [exact Hc|].
    replace (Z.of_nat (length arr - 1)) with (Z.of_nat (length arr) - 1)
      in Hb by lia. nia.
Qed.

(** ** What the executors leave in the visualizer *)

(** X1. [BubbleSort] on an array of [n] elements adds exactly
    [n (n - 1) / 2] comparisons whatever the order of the input, counts
    no more swaps than comparisons, and pushes one step for each
    comparison, one for each swap, and the closing step. *)
Theorem bubble_sort_accounting (v : Sorting.Visualizer) :
  2 * (Sorting.m_comparisons (Sorting.BubbleSort v) - Sorting.m_comparisons v)
  = Z.of_nat (length (Sorting.m_array v))
    * (Z.of_nat (length (Sorting.m_array v)) - 1) /\
  0 <= Sorting.m_swaps (Sorting.BubbleSort v) - Sorting.m_swaps v
    <= Sorting.m_comparisons (Sorting.BubbleSort v) - Sorting.m_comparisons v /\
  Z.of_nat (length (Executors.new_steps v (Sorting.BubbleSort v)))
  = (Sorting.m_comparisons (Sorting.BubbleSort v) - Sorting.m_comparisons v)
    + (Sorting.m_swaps (Sorting.BubbleSort v) - Sorting.m_swaps v) + 1.
Proof.
  destruct (bubble_sort_run (Sorting.m_array v))
    as (final & r & Hrun & _ & _ & (C & S & _) & Hc & Hq).
  rewrite (Hrun v eq_refl), new_steps_absorb.
  unfold Executors.paired in Hq. simpl. rewrite length_app. simpl. lia.
Qed.

(** X2. The last step [BubbleSort] pushes holds the input in ascending
    order, and every snapshot it pushes is a rearrangement of the
    input. *)
Theorem bubble_sort_sorts (v : Sorting.Visualizer) :
  exists final,
    last (Sorting.m_sortingSteps (Sorting.BubbleSort v)) = Some final /\
    StronglySorted Z.le (Sorting.array final) /\
    Sorting.array final ≡ₚ Sorting.m_array v /\
    Forall (fun s => Sorting.array s ≡ₚ Sorting.m_array v)
      (Executors.new_steps v (Sorting.BubbleSort v)).
Proof.
  destruct (bubble_sort_run (Sorting.m_array v))
    as (final & r & Hrun & Hp & Hs & (_ & _ & F) & _ & _).
  rewrite (Hrun v eq_refl), new_steps_absorb. eexists. split.
  { simpl. rewrite app_assoc. apply last_snoc. }
  simpl. split; [exact Hs|]. split; [exact Hp|].
  apply Forall_app. split; [exact F|]. repeat constructor. exact Hp.
Qed.

(** X3. [SelectionSort] ends on the input in ascending order, pushes
    only rearrangements of the input, makes [n (n - 1) / 2] comparisons
    and counts at most [n - 1] swaps. *)
Theorem selection_sort_sorts (v : Sorting.Visualizer) :
  exists final,
    last (Sorting.m_sortingSteps (Executors.SelectionSort v)) = Some final /\
    StronglySorted Z.le (Sorting.array final) /\
    Sorting.array final ≡ₚ Sorting.m_array v /\
    Forall (fun s => Sorting.array s ≡ₚ Sorting.m_array v)
      (Executors.new_steps v (Executors.SelectionSort v)) /\
    2 * (Sorting.m_comparisons (Executors.SelectionSort v)
         - Sorting.m_comparisons v)
    = Z.of_nat (length (Sorting.m_array v))
      * (Z.of_nat (length (Sorting.m_array v)) - 1) /\
    0 <= Sorting.m_swaps (Executors.SelectionSort v) - Sorting.m_swaps v
      <= Z.of_nat (length (Sorting.m_array v) - 1).
Proof.
  destruct (selection_sort_run (Sorting.m_array v))
    as (final & r & Hrun & Hp & Hs & (C & S & F) & Hc).
  rewrite (Hrun v eq_refl), new_steps_absorb. eexists. split.
  { simpl. rewrite app_assoc. apply last_snoc. }
  simpl. split; [exact Hs|]. split; [exact Hp|]. split.
  { apply Forall_app. split; [exact F|]. repeat constructor. exact Hp. }
  lia.
Qed.

(** X4. [InsertionSort] ends on the input in ascending order.  It never
    touches [m_swaps], although it pushes a step flagged as a swap for
    every comparison it counts; it counts at most [n (n - 1) / 2]
    comparisons, and pushes two steps for each of them, two for each of
    the [n - 1] insertions, and the closing step. *)
Theorem insertion_sort_sorts (v : Sorting.Visualizer) :
  exists final,
    last (Sorting.m_sortingSteps (Executors.InsertionSort v)) = Some final /\
    StronglySorted Z.le (Sorting.array final) /\
    Sorting.array final ≡ₚ Sorting.m_array v /\
    Sorting.m_swaps (Executors.InsertionSort v) = Sorting.m_swaps v /\
    Z.of_nat (length (filter (fun s => Sorting.swapped s = true)
                        (Executors.new_steps v (Executors.InsertionSort v))))
    = Sorting.m_comparisons (Executors.InsertionSort v)
      - Sorting.m_comparisons v /\
    0 <= 2 * (Sorting.m_comparisons (Executors.InsertionSort v)
              - Sorting.m_comparisons v)
      <= Z.of_nat (length (Sorting.m_array v))
         * (Z.of_nat (length (Sorting.m_array v)) - 1) /\
    Z.of_nat (length (Executors.new_steps v (Executors.InsertionSort v)))
    = 2 * (Sorting.m_comparisons (Executors.InsertionSort v)
           - Sorting.m_comparisons v)
      + 2 * Z.of_nat (length (Sorting.m_array v) - 1) + 1.
Proof.
  destruct (insertion_sort_run (Sorting.m_array v))
    as (final & r & c & Hrun & Hp & Hs & (C & S & L & W & F) & Hc & Hb).
  rewrite (Hrun v eq_refl), new_steps_absorb. eexists. split.
  { simpl. rewrite app_assoc. apply last_snoc. }
  simpl. rewrite filter_app, !length_app. simpl.
  split; [exact Hs|]. split; [exact Hp|]. lia.
Qed.

(** X5. The three executors read nothing of the visualizer but
    [m_array], and write nothing but the log, to which they append, and
    the two counters, to which they add: each is [absorb] of what it
    records on [m_array]. *)
Theorem executors_append_only (v : Sorting.Visualizer) :
  Sorting.BubbleSort v
  = Sorting.absorb (Executors.recording Sorting.BubbleSort (Sorting.m_array v)) v /\
  Executors.SelectionSort v
  = Sorting.absorb
      (Executors.recording Executors.SelectionSort (Sorting.m_array v)) v /\
  Executors.InsertionSort v
  = Sorting.absorb
      (Executors.recording Executors.InsertionSort (Sorting.m_array v)) v.
Proof.
  split; [|split].
  - destruct (bubble_sort_run (Sorting.m_array v)) as (final & r & Hrun & _).
    rewrite (recording_of_run _ _ _ Hrun). apply Hrun. reflexivity.
  - destruct (selection_sort_run (Sorting.m_array v)) as (final & r & Hrun & _).
    rewrite (recording_of_run _ _ _ Hrun). apply Hrun. reflexivity.
  - destruct (insertion_sort_run (Sorting.m_array v))
      as (final & r & c & Hrun & _).
    rewrite (recording_of_run _ _ _ Hrun). apply Hrun. reflexivity.
Qed.

(** ** Playback of what the executors recorded *)

Lemma modelled_run (rest : Sorting.SortingAlgorithm -> list Z -> Sorting.Recording)
    (v : Sorting.Visualizer) :
  Executors.modelled (Sorting.m_currentAlgorithm v) = true ->
  exists r s,
    Sorting.RunExecutor (Executors.executors rest) v
    = Sorting.absorb (Executors.rec_app r (Sorting.mkRecording [s] 0 0)) v /\
    StronglySorted Z.le (Sorting.array s) /\
    Sorting.array s ≡ₚ Sorting.m_array v.
Proof.
  intros Hm. unfold Sorting.RunExecutor.
  destruct (Sorting.m_currentAlgorithm v); try discriminate Hm.
  - destruct (bubble_sort_run (Sorting.m_array v))
      as (final & r & Hrun & Hp & Hs & _).
    eexists r, _. split; [apply Hrun; reflexivity|]. split; assumption.
  - destruct (selection_sort_run (Sorting.m_array v))
      as (final & r & Hrun & Hp & Hs & _).
    eexists r, _. split.
    { unfold Executors.executors.
      rewrite (recording_of_run _ _ _ Hrun). reflexivity. }
    split; [exact Hs|exact Hp].
  - destruct (insertion_sort_run (Sorting.m_array v))
      as (final & r & c & Hrun & Hp & Hs & _).
    eexists r, _. split.
    { unfold Executors.executors.
      rewrite (recording_of_run _ _ _ Hrun). reflexivity. }
    split; [exact Hs|exact Hp].
Qed.

Lemma step_forward_shows (now : Z) (v : Sorting.Visualizer) :
  Executors.shows_previous v ->
  Executors.shows_previous (fst (Sorting.StepForward now v)).
Proof.
  intros Hs.
  destruct (decide (Sorting.m_currentStepIndex v
                    < length (Sorting.m_sortingSteps v))%nat) as [Hlt|Hge].
  - destruct (lookup_lt_is_Some_2 _ _ Hlt) as [step Hstep].
    destruct (step_forward_enabled now v step Hstep) as (Hi & Hl & Ha).
    right. exists step. rewrite Hi, Hl. simpl. split; assumption.
  - rewrite step_forward_idle by exact Hge. exact Hs.
Qed.

Section ForwardPlayback.

Variable OtherSort : Sorting.SortingAlgorithm -> list Z -> Sorting.Recording.

Lemma forward_op_shows (e : Host.Event) (v : Sorting.Visualizer) :
  Host.is_forward e = true ->
  Executors.shows_previous v ->
  Executors.shows_previous (fst (Host.apply_op OtherSort e v)).
Proof.
  unfold Host.is_forward, Host.apply_op. intros Hf Hs.
  destruct (Host.ev_op e) eqn:Hop; try discriminate; simpl.
  - unfold Sorting.StartSorting.
    destruct (Sorting.state_eqb (Sorting.m_state v) Sorting.Stopped).
    + left. reflexivity.
    + exact Hs.
  - unfold Sorting.PauseSorting.
    destruct (Sorting.state_eqb _ _); exact Hs.
  - apply step_forward_shows. exact Hs.
  - exact Hs.
  - destruct (update_spec (Host.ev_now e) v) as [->|[_ ->]]; [exact Hs|].
    apply (step_forward_shows (Host.ev_now e)) in Hs. exact Hs.
Qed.

Lemma forward_play_shows (es : list Host.Event) :
  forall v,
    forallb Host.is_forward es = true ->
    Executors.shows_previous v ->
    Executors.shows_previous (fst (Host.play OtherSort es v)).
Proof.
  induction es as [|e es IH]; intros v Hf Hs; [exact Hs|].
  simpl in Hf. apply andb_prop in Hf as [He Hes].
  simpl. pose proof (forward_op_shows e v He Hs) as H1.
  destruct (Host.apply_op OtherSort e v) as [v1 c1]. simpl in H1.
  specialize (IH v1 Hes H1).
  destruct (Host.play OtherSort es v1) as [v2 c2]. exact IH.
Qed.

Lemma op_keeps_original (e : Host.Event) (v : Sorting.Visualizer) :
  Replay.keeps_array e = true ->
  Sorting.m_originalArray (fst (Host.apply_op OtherSort e v))
  = Sorting.m_originalArray v.
Proof.
  unfold Replay.keeps_array, Host.apply_op. intros Hk.
  assert (Hfw : forall now w,
             Sorting.m_originalArray (fst (Sorting.StepForward now w))
             = Sorting.m_originalArray w).
  { intros now w. unfold Sorting.StepForward, Sorting.ExecuteCurrentStep.
    destruct (_ && _); [|reflexivity].
    destruct (Sorting.m_sortingSteps w !! _); simpl;
      destruct (bool_decide _); reflexivity. }
  destruct (Host.ev_op e) eqn:Hop; try discriminate; simpl;
    try reflexivity.
  - unfold Sorting.StartSorting.
    destruct (Sorting.state_eqb _ _); [|reflexivity]. simpl.
    unfold Sorting.RunExecutor. simpl.
    destruct (Sorting.m_currentAlgorithm v); try reflexivity.
    match goal with
    | |- context [Sorting.BubbleSort ?w] =>
        destruct (bubble_sort_run (Sorting.m_array w)) as (f & r & Hrun & _);
        rewrite (Hrun w eq_refl)
    end. reflexivity.
  - unfold Sorting.PauseSorting. destruct (Sorting.state_eqb _ _); reflexivity.
  - apply Hfw.
  - unfold Sorting.StepBackward, Sorting.ExecuteCurrentStep.
    destruct (bool_decide _); [|reflexivity]. simpl.
    destruct (Sorting.m_sortingSteps v !! _); simpl;
      destruct (Sorting.state_eqb _ _); reflexivity.
  - destruct (update_spec (Host.ev_now e) v) as [->|[_ ->]]; [reflexivity|].
    simpl. apply Hfw.
Qed.

Lemma play_keeps_original (es : list Host.Event) :
  forall v,
    forallb Replay.keeps_array es = true ->
    Sorting.m_originalArray (fst (Host.play OtherSort es v))
    = Sorting.m_originalArray v.
Proof.
  induction es as [|e es IH]; intros v Hk; [reflexivity|].
  simpl in Hk. apply andb_prop in Hk as [He Hes].
  simpl. pose proof (op_keeps_original e v He) as H1.
  destruct (Host.apply_op OtherSort e v) as [v1 c1]. simpl in H1.
  specialize (IH v1 Hes).
  destruct (Host.play OtherSort es v1) as [v2 c2]. simpl in *. congruence.
Qed.

(** X7. Whatever is done between generating an array and Reset, short
    of generating another one, Reset puts the generated array back on
    display, with an empty log, the cursor at 0, both counters at 0 and
    the state Stopped. *)
Theorem reset_restores_generated (arr : list Z) (es : list Host.Event)
    (v : Sorting.Visualizer) :
  forallb Replay.keeps_array es = true ->
  Sorting.m_array
    (Sorting.ResetArray
       (fst (Host.play OtherSort es (Sorting.GenerateArray arr v)))) = arr /\
  Sorting.m_sortingSteps
    (Sorting.ResetArray
       (fst (Host.play OtherSort es (Sorting.GenerateArray arr v)))) = [] /\
  Sorting.m_currentStepIndex
    (Sorting.ResetArray
       (fst (Host.play OtherSort es (Sorting.GenerateArray arr v)))) = 0%nat /\
  Sorting.m_comparisons
    (Sorting.ResetArray
       (fst (Host.play OtherSort es (Sorting.GenerateArray arr v)))) = 0 /\
  Sorting.m_swaps
    (Sorting.ResetArray
       (fst (Host.play OtherSort es (Sorting.GenerateArray arr v)))) = 0 /\
  Sorting.m_state
    (Sorting.ResetArray
       (fst (Host.play OtherSort es (Sorting.GenerateArray arr v))))
  = Sorting.Stopped.
Proof.
  intros Hk.
  pose proof (play_keeps_original es (Sorting.GenerateArray arr v) Hk) as H.
  repeat split. simpl. exact H.
Qed.

End ForwardPlayback.

(** X6. A run of Bubble, Selection or Insertion Sort that is started
    and played forward to the end of its log, by clicks or by due ticks,
    leaves on display the array it started from in ascending order. *)
Theorem playback_ends_sorted
    (rest : Sorting.SortingAlgorithm -> list Z -> Sorting.Recording)
    (s : Host.Event) (es : list Host.Event) (v : Sorting.Visualizer) :
  Host.ev_op s = Host.OpStart ->
  forallb Host.is_forward es = true ->
  Sorting.m_state v = Sorting.Stopped ->
  Executors.modelled (Sorting.m_currentAlgorithm v) = true ->
  Host.at_end (fst (Host.play (Executors.executors rest) (s :: es) v)) = true ->
  StronglySorted Z.le
    (Sorting.m_array (fst (Host.play (Executors.executors rest) (s :: es) v))) /\
  Sorting.m_array (fst (Host.play (Executors.executors rest) (s :: es) v))
  ≡ₚ Sorting.m_array v.
Proof.
  intros Hs Hf Hst Hm Hend.
  destruct (play_start (Executors.executors rest) s es v Hs) as [Hplay _].
  rewrite Hplay in *. clear Hplay.
  set (v1 := Sorting.StartSorting (Executors.executors rest) (Host.ev_now s) v)
    in *.
  set (w := Sorting.set_swaps 0
              (Sorting.set_comparisons 0
                 (Sorting.ClearSteps
                    (Sorting.set_sortStartTime (Host.ev_now s) v)))).
  destruct (modelled_run rest w Hm) as (r & fin & Hrun & Hsorted & Hperm).
  assert (Hsteps : Sorting.m_sortingSteps v1 = Sorting.rec_steps r ++ [fin]).
  { unfold v1, Sorting.StartSorting. rewrite Hst. simpl. fold w.
    rewrite Hrun. reflexivity. }
  assert (Hidx : Sorting.m_currentStepIndex v1 = 0%nat).
  { unfold v1, Sorting.StartSorting. rewrite Hst. reflexivity. }
  assert (Hrunning : Sorting.m_state v1 <> Sorting.Stopped).
  { unfold v1, Sorting.StartSorting. rewrite Hst. simpl. discriminate. }
  assert (Hok : Host.cursor_ok v1).
  { unfold Host.cursor_ok. rewrite Hidx. lia. }
  destruct (forward_play (Executors.executors rest) es v1 Hf Hrunning Hok)
    as (_ & (Hlog & _) & _ & _ & _).
  pose proof (forward_play_shows (Executors.executors rest) es v1 Hf
                (or_introl Hidx)) as Hshow.
  unfold Host.at_end in Hend. apply bool_decide_eq_true in Hend.
  rewrite Hlog, Hsteps in Hend.
  destruct Hshow as [H0|(s' & Hlook & Harr)].
  { rewrite H0, length_app in Hend. simpl in Hend. lia. }
  rewrite Hlog, Hsteps, Hend, length_app in Hlook. simpl in Hlook.
  replace (pred (length (Sorting.rec_steps r) + 1))
    with (length (Sorting.rec_steps r) + 0)%nat in Hlook by lia.
  rewrite lookup_app_r in Hlook by lia.
  replace (length (Sorting.rec_steps r) + 0 - length (Sorting.rec_steps r))%nat
    with 0%nat in Hlook by lia.
  simpl in Hlook. injection Hlook as <-. rewrite Harr.
  split; [exact Hsorted|exact Hperm].
Qed.

Lemma playback_ends_sorted_witness :
  StronglySorted Z.le
    (Sorting.m_array
       (fst (Host.play (Executors.executors Scenario.no_other)
               (Scenario.start_event :: Replay.forward_clicks 8)
               Replay.selection_213))) /\
  Sorting.m_array
    (fst (Host.play (Executors.executors Scenario.no_other)
            (Scenario.start_event :: Replay.forward_clicks 8)
            Replay.selection_213))
  ≡ₚ [2; 1; 3].
Proof.
  apply (playback_ends_sorted Scenario.no_other Scenario.start_event
           (Replay.forward_clicks 8) Replay.selection_213);
    vm_compute; reflexivity.
Defined.

Lemma reset_restores_generated_witness :
  Sorting.m_array
    (Sorting.ResetArray
       (fst (Host.play Scenario.no_other Replay.busy_schedule
               (Sorting.GenerateArray [3; 1; 2] Scenario.sort_312))))
  = [3; 1; 2].
Proof.
  apply (reset_restores_generated Scenario.no_other [3; 1; 2]
           Replay.busy_schedule Scenario.sort_312).
  vm_compute. reflexivity.
Defined.

(** ** Speed and stepping *)

Lemma clampQ_bounds (lo hi x : Q) :
  (lo <= hi)%Q ->
  (lo <= Sorting.clampQ lo hi x)%Q /\ (Sorting.clampQ lo hi x <= hi)%Q.
Proof.
  intros Hlh. unfold Sorting.clampQ.
  destruct (Qle_bool x lo) eqn:E1.
  - split; [apply Qle_refl|exact Hlh].
  - destruct (Qle_bool hi x) eqn:E2.
    + split; [exact Hlh|apply Qle_refl].
    + split.
      * apply Qlt_le_weak, Qnot_le_lt. intros H.
        apply Qle_bool_iff in H. congruence.
      * apply Qlt_le_weak, Qnot_le_lt. intros H.
        apply Qle_bool_iff in H. congruence.
Qed.

Lemma clampQ_mono (lo hi x y : Q) :
  (lo <= hi)%Q -> (x <= y)%Q ->
  (Sorting.clampQ lo hi x <= Sorting.clampQ lo hi y)%Q.
Proof.
  intros Hlh Hxy. unfold Sorting.clampQ.
  destruct (Qle_bool x lo) eqn:X1.
  - destruct (clampQ_bounds lo hi y Hlh) as [H _]. exact H.
  - assert (Hx : (lo < x)%Q).
    { apply Qnot_le_lt. intros H. apply Qle_bool_iff in H. congruence. }
    destruct (Qle_bool y lo) eqn:Y1.
    { apply Qle_bool_iff in Y1. exfalso.
      apply (Qlt_irrefl lo).
      eapply Qlt_le_trans; [exact Hx|].
      eapply Qle_trans; eassumption. }
    destruct (Qle_bool hi x) eqn:X2.
    + apply Qle_bool_iff in X2.
      assert (Y2 : Qle_bool hi y = true)
        by (apply Qle_bool_iff; eapply Qle_trans; eassumption).
      rewrite Y2. apply Qle_refl.
    + destruct (Qle_bool hi y) eqn:Y2; [|exact Hxy].
      apply Qlt_le_weak, Qnot_le_lt. intros H.
      apply Qle_bool_iff in H. congruence.
Qed.

(** ** Single-precision rounding *)

Lemma rne_between (x : Q) : Qfloor x <= Float32.rne x <= Qfloor x + 1.
Proof.
  unfold Float32.rne.
  destruct (x - inject_Z (Qfloor x) ?= 1 # 2)%Q; [|lia|lia].
  destruct (Z.even (Qfloor x)); lia.
Qed.

Lemma rne_mono (x y : Q) : (x <= y)%Q -> Float32.rne x <= Float32.rne y.
Proof.
  intros Hxy.
  pose proof (Qfloor_resp_le x y Hxy) as Hf.
  destruct (decide (Qfloor x = Qfloor y)) as [He|Hne].
  - unfold Float32.rne. rewrite <- He.
    set (f := Qfloor x) in *.
    assert (Hr : (x - inject_Z f <= y - inject_Z f)%Q).
    { lra. }
    destruct (Qcompare_spec (x - inject_Z f) (1 # 2)) as [Hx|Hx|Hx];
      destruct (Qcompare_spec (y - inject_Z f) (1 # 2)) as [Hy|Hy|Hy];
      try (destruct (Z.even f)); try lia; exfalso; lra.
  - pose proof (rne_between x). pose proof (rne_between y). lia.
Qed.

Lemma rne_inject (n : Z) : Float32.rne (inject_Z n) = n.
Proof.
  unfold Float32.rne. rewrite Qfloor_Z.
  assert (H : (inject_Z n - inject_Z n ?= 1 # 2)%Q = Lt).
  { apply Qlt_alt.
    assert (E : (inject_Z n - inject_Z n == 0)%Q) by ring.
    rewrite E. reflexivity. }
  rewrite H. reflexivity.
Qed.

Lemma pow2_pos (k : Z) : (0 < 2 ^ k)%Q.
Proof. apply Qpower_0_lt. reflexivity. Qed.

Lemma pow2_add (a b : Z) : (2 ^ (a + b) == 2 ^ a * 2 ^ b)%Q.
Proof. apply Qpower_plus. discriminate. Qed.

Lemma pow2_inject (k : Z) : 0 <= k -> (inject_Z (2 ^ k) == 2 ^ k)%Q.
Proof. intros H. apply (Zpower_Qpower 2 k H). Qed.

(** The exponent of a number from 1 on. *)
Lemma ilog2_spec (x : Q) :
  (1 <= x)%Q ->
  0 <= Float32.ilog2 x /\
  (2 ^ Float32.ilog2 x <= x)%Q /\ (x < 2 ^ (Float32.ilog2 x + 1))%Q.
Proof.
  intros Hx. unfold Float32.ilog2.
  rewrite (proj2 (Qle_bool_iff 1 x) Hx).
  assert (Hf : 1 <= Qfloor x).
  { change 1 with (Qfloor 1). apply Qfloor_resp_le. exact Hx. }
  pose proof (Z.log2_spec (Qfloor x) ltac:(lia)) as [Hlo Hhi].
  pose proof (Z.log2_nonneg (Qfloor x)) as He.
  set (e := Z.log2 (Qfloor x)) in *.
  split; [exact He|]. split.
  - rewrite <- pow2_inject by exact He.
    eapply Qle_trans; [|apply Qfloor_le].
    rewrite <- Zle_Qle. exact Hlo.
  - rewrite <- pow2_inject by lia.
    eapply Qlt_le_trans; [apply Qlt_floor|].
    rewrite <- Zle_Qle. unfold Z.succ in Hhi. lia.
Qed.

Lemma ilog2_mono (x y : Q) :
  (1 <= x)%Q -> (x <= y)%Q -> Float32.ilog2 x <= Float32.ilog2 y.
Proof.
  intros Hx Hxy. unfold Float32.ilog2.
  rewrite (proj2 (Qle_bool_iff 1 x) Hx).
  rewrite (proj2 (Qle_bool_iff 1 y)) by (eapply Qle_trans; eassumption).
  apply Z.log2_le_mono, Qfloor_resp_le, Hxy.
Qed.

(** A number from 1 on is rounded inside its binade. *)
Lemma round_pos_binade (x : Q) :
  (1 <= x)%Q ->
  (2 ^ Float32.ilog2 x <= Float32.round_pos x)%Q /\
  (Float32.round_pos x <= 2 ^ (Float32.ilog2 x + 1))%Q.
Proof.
  intros Hx. destruct (ilog2_spec x Hx) as (He & Hlo & Hhi).
  unfold Float32.round_pos. set (e := Float32.ilog2 x) in *.
  pose proof (pow2_pos (23 - e)) as Hup.
  pose proof (pow2_pos (e - 23)) as Hdn.
  assert (H23 : (inject_Z (2 ^ 23) <= x * 2 ^ (23 - e))%Q).
  { rewrite pow2_inject by lia.
    replace 23 with (e + (23 - e)) at 1 by lia.
    rewrite pow2_add. apply Qmult_le_compat_r; [exact Hlo|].
    apply Qlt_le_weak, Hup. }
  assert (H24 : (x * 2 ^ (23 - e) <= inject_Z (2 ^ 24))%Q).
  { rewrite pow2_inject by lia.
    replace 24 with ((e + 1) + (23 - e)) by lia.
    rewrite pow2_add. apply Qmult_le_compat_r; [|apply Qlt_le_weak, Hup].
    apply Qlt_le_weak, Hhi. }
  apply rne_mono in H23, H24. rewrite rne_inject in H23, H24.
  split.
  - replace e with (23 + (e - 23)) at 1 by lia.
    rewrite (pow2_add 23 (e - 23)), <- (pow2_inject 23) by lia.
    apply Qmult_le_compat_r; [|apply Qlt_le_weak, Hdn].
    rewrite <- Zle_Qle. exact H23.
  - replace (e + 1) with (24 + (e - 23)) by lia.
    rewrite (pow2_add 24 (e - 23)), <- (pow2_inject 24) by lia.
    apply Qmult_le_compat_r; [|apply Qlt_le_weak, Hdn].
    rewrite <- Zle_Qle. exact H24.
Qed.

(** Rounding is monotone. *)
Lemma round_pos_mono (x y : Q) :
  (1 <= x)%Q -> (x <= y)%Q ->
  (Float32.round_pos x <= Float32.round_pos y)%Q.
Proof.
  intros Hx Hxy.
  assert (Hy : (1 <= y)%Q) by (eapply Qle_trans; eassumption).
  pose proof (ilog2_mono x y Hx Hxy) as He.
  destruct (decide (Float32.ilog2 x = Float32.ilog2 y)) as [Heq|Hne].
  - unfold Float32.round_pos. rewrite <- Heq.
    apply Qmult_le_compat_r; [|apply Qlt_le_weak, pow2_pos].
    rewrite <- Zle_Qle. apply rne_mono.
    apply Qmult_le_compat_r; [exact Hxy|apply Qlt_le_weak, pow2_pos].
  - destruct (round_pos_binade x Hx) as [_ Hux].
    destruct (round_pos_binade y Hy) as [Hly _].
    eapply Qle_trans; [exact Hux|].
    eapply Qle_trans; [|exact Hly].
    apply Qpower_le_compat_l; [lia|discriminate].
Qed.

Lemma round_positive (x : Q) :
  (0 < x)%Q -> Float32.round x = Float32.round_pos x.
Proof.
  intros Hx. unfold Float32.round.
  rewrite (proj1 (Qlt_alt 0 x) Hx). reflexivity.
Qed.

Lemma to_int_mono (x y : Q) :
  (x <= y)%Q -> Float32.to_int x <= Float32.to_int y.
Proof.
  intros Hxy. unfold Float32.to_int.
  destruct (Qle_bool 0 x) eqn:Hx, (Qle_bool 0 y) eqn:Hy.
  - apply Qfloor_resp_le, Hxy.
  - apply Qle_bool_iff in Hx.
    assert (Hn : ~ (0 <= y)%Q) by (rewrite <- Qle_bool_iff, Hy; discriminate).
    exfalso. apply Hn. eapply Qle_trans; eassumption.
  - apply Qle_bool_iff in Hy.
    assert (Hn : ~ (0 <= x)%Q) by (rewrite <- Qle_bool_iff, Hx; discriminate).
    apply Qnot_le_lt in Hn.
    assert (H1 : Qceiling x <= 0).
    { change 0 with (Qceiling 0). apply Qceiling_resp_le, Qlt_le_weak, Hn. }
    assert (H2 : 0 <= Qfloor y).
    { change 0 with (Qfloor 0). apply Qfloor_resp_le, Hy. }
    lia.
  - apply Qceiling_resp_le, Hxy.
Qed.

Lemma quotient_antitone (a b : Q) :
  (0 < a)%Q -> (a <= b)%Q -> (100 / b <= 100 / a)%Q.
Proof.
  intros Ha Hab.
  assert (Hb : (0 < b)%Q) by (eapply Qlt_le_trans; eassumption).
  apply Qle_shift_div_l; [exact Ha|].
  assert (E : (100 / b * a == 100 * a / b)%Q).
  { field. intros H0. rewrite H0 in Hb. discriminate Hb. }
  rewrite E. apply Qle_shift_div_r; [exact Hb|]. lra.
Qed.

(** The delay [static_cast<int>(100 / s)] is antitone in a speed [s]
    between [0.1f] and [10.0f]. *)
Lemma delay_antitone (a b : Q) :
  (Float32.tenth <= a)%Q -> (a <= b)%Q -> (b <= 10)%Q ->
  Float32.to_int (Float32.div 100 b) <= Float32.to_int (Float32.div 100 a).
Proof.
  intros Hlo Hab Hhi.
  assert (Ha : (0 < a)%Q) by (eapply Qlt_le_trans; [|exact Hlo]; reflexivity).
  assert (Hb : (0 < b)%Q) by (eapply Qlt_le_trans; eassumption).
  pose proof (quotient_antitone a b Ha Hab) as Hq.
  assert (H10 : (10 <= 100 / b)%Q).
  { apply Qle_shift_div_l; [exact Hb|]. lra. }
  assert (H1 : (1 <= 100 / b)%Q) by lra.
  apply to_int_mono. unfold Float32.div.
  rewrite !round_positive by lra.
  apply round_pos_mono; assumption.
Qed.

(** X8. Whatever number is asked for as the speed, [SetAnimationSpeed]
    leaves a step delay between 10 and 1000 milliseconds; the slowest
    speed, [0.1f], gives 1000 (the quotient [100.0f / 0.1f] is rounded up
    to [1000.0f]) and the fastest, [10.0f], gives 10. *)
Theorem step_delay_bounds (speed : Q) (v : Sorting.Visualizer) :
  10 <= Sorting.m_stepDelay (Sorting.SetAnimationSpeed speed v) <= 1000 /\
  Sorting.m_stepDelay (Sorting.SetAnimationSpeed Float32.tenth v) = 1000 /\
  Sorting.m_stepDelay (Sorting.SetAnimationSpeed 10 v) = 10.
Proof.
  split; [|split; reflexivity].
  assert (Hlh : (Float32.tenth <= 10)%Q) by (vm_compute; discriminate).
  assert (Hd : Sorting.m_stepDelay (Sorting.SetAnimationSpeed speed v)
               = Float32.to_int
                   (Float32.div 100 (Sorting.clampQ Float32.tenth 10 speed)))
    by reflexivity.
  rewrite Hd. clear Hd.
  destruct (clampQ_bounds Float32.tenth 10 speed Hlh) as [Hlo Hhi].
  set (s := Sorting.clampQ Float32.tenth 10 speed) in *.
  split.
  - change 10 with (Float32.to_int (Float32.div 100 10)) at 1.
    apply delay_antitone; [exact Hlo|exact Hhi|apply Qle_refl].
  - change 1000 with (Float32.to_int (Float32.div 100 Float32.tenth)).
    apply delay_antitone; [apply Qle_refl|exact Hlo|exact Hhi].
Qed.

(** X9. A higher speed never gives a longer step delay. *)
Theorem step_delay_antitone (speed faster : Q) (v : Sorting.Visualizer) :
  (speed <= faster)%Q ->
  Sorting.m_stepDelay (Sorting.SetAnimationSpeed faster v)
  <= Sorting.m_stepDelay (Sorting.SetAnimationSpeed speed v).
Proof.
  intros Hle.
  assert (Hlh : (Float32.tenth <= 10)%Q) by (vm_compute; discriminate).
  assert (Hd : forall q,
             Sorting.m_stepDelay (Sorting.SetAnimationSpeed q v)
             = Float32.to_int
                 (Float32.div 100 (Sorting.clampQ Float32.tenth 10 q)))
    by reflexivity.
  rewrite !Hd. clear Hd.
  destruct (clampQ_bounds Float32.tenth 10 speed Hlh) as [Hlo _].
  destruct (clampQ_bounds Float32.tenth 10 faster Hlh) as [_ Hhi].
  apply delay_antitone; [exact Hlo| |exact Hhi].
  apply clampQ_mono; assumption.
Qed.

Lemma step_delay_antitone_witness :
  Sorting.m_stepDelay (Sorting.SetAnimationSpeed 3 Scenario.sort_312)
  <= Sorting.m_stepDelay (Sorting.SetAnimationSpeed (1 # 2) Scenario.sort_312).
Proof.
  apply (step_delay_antitone (1 # 2) 3 Scenario.sort_312).
  vm_compute. discriminate.
Defined.

(** X10. [k] clicks on Step Forward move the cursor [k] steps on, but
    never past the end of the log; they leave the log and the counters
    alone, show the snapshot of the last step executed, and set the
    state to Completed exactly when they reach the end. *)
Theorem forward_clicks_stop_at_end (now : Z) (v : Sorting.Visualizer)
    (k : nat) :
  Host.cursor_ok v ->
  Sorting.m_currentStepIndex (Executors.forward_n now k v)
  = Nat.min (Sorting.m_currentStepIndex v + k)
      (length (Sorting.m_sortingSteps v)) /\
  Host.same_run v (Executors.forward_n now k v) /\
  Sorting.m_state (Executors.forward_n now k v)
  = (if bool_decide (0 < k)%nat
        && bool_decide (Sorting.m_currentStepIndex v
                        < length (Sorting.m_sortingSteps v))%nat
        && bool_decide (length (Sorting.m_sortingSteps v)
                        <= Sorting.m_currentStepIndex v + k)%nat
     then Sorting.Completed else Sorting.m_state v) /\
  ((0 < k)%nat ->
   (Sorting.m_currentStepIndex v < length (Sorting.m_sortingSteps v))%nat ->
   exists s,
     Sorting.m_sortingSteps v
       !! pred (Sorting.m_currentStepIndex (Executors.forward_n now k v))
     = Some s /\
     Sorting.m_array (Executors.forward_n now k v) = Sorting.array s).
Proof.
  intros Hok. unfold Host.cursor_ok in Hok.
  induction k as [|k IH].
  - simpl. split; [lia|]. split; [apply same_run_refl|].
    split; [reflexivity|]. intros H; lia.
  - destruct IH as (Hi & Hrun & Hst & Hshow).
    change (Executors.forward_n now (S k) v)
      with (fst (Sorting.StepForward now (Executors.forward_n now k v))).
    set (w := Executors.forward_n now k v) in *. clearbody w.
    pose proof Hrun as (Hlog & _).
    destruct (decide (Sorting.m_currentStepIndex w
                      < length (Sorting.m_sortingSteps w))%nat) as [Hlt|Hge].
    + destruct (lookup_lt_is_Some_2 _ _ Hlt) as [step Hstep].
      destruct (step_forward_enabled now w step Hstep) as (Hi' & Hl' & Ha').
      destruct (step_forward_spec now w Hlt) as (_ & Hrun' & Hst' & _).
      rewrite Hlog in Hlt.
      split; [rewrite Hi'; lia|].
      split; [eapply same_run_trans; eassumption|].
      split.
      { rewrite Hst', Hst, Hlog.
        repeat case_bool_decide; simpl; try reflexivity; lia. }
      intros _ _. exists step. rewrite Hi'. simpl.
      rewrite <- Hlog. split; [exact Hstep|exact Ha'].
    + rewrite step_forward_idle by exact Hge. cbn [fst].
      rewrite Hlog in Hge.
      split; [lia|]. split; [exact Hrun|].
      split.
      { rewrite Hst. repeat case_bool_decide; simpl; try reflexivity; lia. }
      intros _ Hlt. apply Hshow; [|exact Hlt].
      destruct k; [simpl in Hi; lia|lia].
Qed.

Lemma forward_clicks_stop_at_end_witness :
  Sorting.m_currentStepIndex
    (Executors.forward_n 1 9 Scenario.started_312) = 6%nat.
Proof.
  apply (forward_clicks_stop_at_end 1 Scenario.started_312 9).
  vm_compute. lia.
Defined.

Lemma search_visualizer_ext (v w : Search.Visualizer) :
  Search.m_array v = Search.m_array w ->
  Search.m_steps v = Search.m_steps w ->
  Search.m_currentAlgorithm v = Search.m_currentAlgorithm w ->
  Search.m_targetValue v = Search.m_targetValue w ->
  Search.m_currentStep v = Search.m_currentStep w ->
  Search.m_isRunning v = Search.m_isRunning w ->
  Search.m_isComplete v = Search.m_isComplete w ->
  Search.m_targetFound v = Search.m_targetFound w ->
  Search.m_foundIndex v = Search.m_foundIndex w ->
  Search.m_comparisons v = Search.m_comparisons w ->
  Search.m_animationSpeed v = Search.m_animationSpeed w ->
  Search.m_lastStepTime v = Search.m_lastStepTime w ->
  Search.m_performanceCallback v = Search.m_performanceCallback w ->
  Search.m_searchStartTime v = Search.m_searchStartTime w ->
  Search.m_totalComparisons v = Search.m_totalComparisons w ->
  v = w.
Proof.
  destruct v, w. simpl. intros. subst. reflexivity.
Qed.

Lemma extended_nil (v : Search.Visualizer) : Lookup.extended [] 0 v = v.
Proof.
  apply search_visualizer_ext; try reflexivity.
  - apply app_nil_r.
  - apply Z.add_0_r.
Qed.

Lemma extended_app (e1 e2 : list Search.SearchStep) (c1 c2 : Z)
    (v : Search.Visualizer) :
  Lookup.extended e2 c2 (Lookup.extended e1 c1 v)
  = Lookup.extended (e1 ++ e2) (c1 + c2) v.
Proof.
  apply search_visualizer_ext; try reflexivity.
  - symmetry. apply app_assoc.
  - symmetry. apply Z.add_assoc.
Qed.

Lemma push_extended (s : Search.SearchStep) (v : Search.Visualizer) :
  Search.push s v = Lookup.extended [s] 0 v.
Proof.
  apply search_visualizer_ext; try reflexivity.
  symmetry. apply Z.add_0_r.
Qed.

Lemma count_extended (v : Search.Visualizer) :
  Search.set_totalComparisons (Search.m_totalComparisons v + 1) v
  = Lookup.extended [] 1 v.
Proof.
  apply search_visualizer_ext; try reflexivity.
  symmetry. apply app_nil_r.
Qed.

Lemma linear_loop_trace (target fin : Z) (cnt : nat) :
  forall (k : nat) (v : Search.Visualizer),
    (k + cnt)%nat = length (Search.m_array v) ->
    fst (Search.LinearSearch_loop cnt (Z.of_nat k) target fin v)
    = Lookup.extended (Lookup.linear_trace target (Search.m_array v) k)
        (Lookup.linear_count target (Search.m_array v) k) v.
Proof.
  induction cnt as [|cnt IH]; intros k v Hlen.
  - unfold Lookup.linear_trace, Lookup.linear_count.
    rewrite drop_ge by lia. simpl.
    replace (length (Search.m_array v) - k)%nat with 0%nat by lia.
    simpl. apply push_extended.
  - assert (Hk : (k < length (Search.m_array v))%nat) by lia.
    destruct (lookup_lt_is_Some_2 _ _ Hk) as [x Hx].
    pose proof (list_lookup_total_correct _ _ _ Hx) as Hx'.
    unfold Lookup.linear_trace, Lookup.linear_count.
    rewrite (drop_S _ _ _ Hx).
    cbn [Search.LinearSearch_loop list_find].
    set (chk := Search.mkStep _ _ _ _ _ _ _).
    assert (Hchk : chk = Lookup.linear_check (Search.m_array v) k).
    { unfold chk, Lookup.linear_check, Search.at_. simpl.
      rewrite Nat2Z.id. reflexivity. }
    assert (Hat : Search.at_
                    (Search.set_totalComparisons
                       (Search.m_totalComparisons (Search.push chk v) + 1)
                       (Search.push chk v)) (Z.of_nat k) = x).
    { unfold Search.at_. simpl. rewrite Nat2Z.id. exact Hx'. }
    rewrite Hat.
    destruct (decide (x = target)) as [->|Hne].
    + rewrite Z.eqb_refl. cbn [fst].
      rewrite count_extended, !push_extended, !extended_app. simpl.
      rewrite Hchk. replace (k + 0)%nat with k by lia. reflexivity.
    + rewrite (proj2 (Z.eqb_neq x target) Hne).
      replace (Z.of_nat k + 1) with (Z.of_nat (S k)) by lia.
      rewrite IH by (simpl; lia).
      rewrite count_extended, !push_extended, !extended_app.
      change (Search.m_array (Lookup.extended _ _ v)) with (Search.m_array v).
      unfold Lookup.linear_trace, Lookup.linear_count.
      destruct (list_find (fun x => x = target)
                  (drop (S k) (Search.m_array v))) as [[j y]|]; simpl.
      * rewrite Hchk. replace (k + S j)%nat with (S (k + j))%nat by lia.
        f_equal. lia.
      * rewrite Hchk.
        replace (length (Search.m_array v) - k)%nat
          with (S (length (Search.m_array v) - S k))%nat by lia.
        simpl. f_equal. lia.
Qed.

(** ** Playing a search log *)

Lemma step_search_at (v : Search.Visualizer) (s : Search.SearchStep) :
  Search.m_steps v !! Search.m_currentStep v = Some s ->
  Search.m_currentStep (Search.StepSearch v) = S (Search.m_currentStep v) /\
  Search.m_steps (Search.StepSearch v) = Search.m_steps v /\
  Search.m_array (Search.StepSearch v) = Search.m_array v /\
  Search.m_totalComparisons (Search.StepSearch v)
  = Search.m_totalComparisons v /\
  Search.m_comparisons (Search.StepSearch v)
  = Search.m_comparisons v + (if Search.isComparison s then 1 else 0) /\
  Search.m_targetFound (Search.StepSearch v)
  = Search.m_targetFound v || Search.isFound s /\
  Search.m_isComplete (Search.StepSearch v)
  = Search.m_isComplete v || Search.isFound s
    || bool_decide (length (Search.m_steps v) <= S (Search.m_currentStep v))%nat /\
  Search.m_isRunning (Search.StepSearch v)
  = Search.m_isRunning v && negb (Search.isFound s)
    && negb (bool_decide
               (length (Search.m_steps v) <= S (Search.m_currentStep v))%nat).
Proof.
  intros Hs. unfold Search.StepSearch. rewrite Hs.
  destruct (Search.isComparison s), (Search.isFound s); simpl;
    case_bool_decide; simpl;
    rewrite ?orb_true_r, ?orb_false_r, ?andb_true_r, ?andb_false_r,
      ?Z.add_0_r; repeat split; reflexivity.
Qed.

Lemma step_search_idle (v : Search.Visualizer) :
  (length (Search.m_steps v) <= Search.m_currentStep v)%nat ->
  Search.StepSearch v = v.
Proof.
  intros H. unfold Search.StepSearch.
  rewrite (lookup_ge_None_2 _ _ H). reflexivity.
Qed.

Lemma comparison_steps_app (l1 l2 : list Search.SearchStep) :
  Lookup.comparison_steps (l1 ++ l2)
  = Lookup.comparison_steps l1 + Lookup.comparison_steps l2.
Proof.
  unfold Lookup.comparison_steps. rewrite filter_app, length_app. lia.
Qed.

Lemma comparison_steps_one (s : Search.SearchStep) :
  Lookup.comparison_steps [s] = if Search.isComparison s then 1 else 0.
Proof.
  unfold Lookup.comparison_steps. rewrite filter_cons, filter_nil.
  destruct (Search.isComparison s); reflexivity.
Qed.

Lemma step_n_spec (k : nat) (v : Search.Visualizer) :
  (Search.m_currentStep v <= length (Search.m_steps v))%nat ->
  Search.m_currentStep (Lookup.step_n k v)
  = Nat.min (Search.m_currentStep v + k) (length (Search.m_steps v)) /\
  Search.m_steps (Lookup.step_n k v) = Search.m_steps v /\
  Search.m_array (Lookup.step_n k v) = Search.m_array v /\
  Search.m_totalComparisons (Lookup.step_n k v)
  = Search.m_totalComparisons v /\
  Search.m_comparisons (Lookup.step_n k v)
  = Search.m_comparisons v
    + Lookup.comparison_steps
        (take k (drop (Search.m_currentStep v) (Search.m_steps v))) /\
  Search.m_targetFound (Lookup.step_n k v)
  = Search.m_targetFound v
    || existsb Search.isFound
         (take k (drop (Search.m_currentStep v) (Search.m_steps v))) /\
  ((0 < k)%nat ->
   (Search.m_currentStep v < length (Search.m_steps v))%nat ->
   (length (Search.m_steps v) <= Search.m_currentStep v + k)%nat ->
   Search.m_isComplete (Lookup.step_n k v) = true /\
   Search.m_isRunning (Lookup.step_n k v) = false).
Proof.
  intros Hok. induction k as [|k IH].
  - change (Lookup.step_n 0 v) with v. rewrite take_0.
    change (Lookup.comparison_steps []) with 0.
    change (existsb Search.isFound []) with false.
    rewrite orb_false_r, Z.add_0_r.
    split; [lia|]. do 5 (split; [reflexivity|]). intros H; lia.
  - destruct IH as (Hc & Hs & Ha & Ht & Hm & Hf & Hdone).
    change (Lookup.step_n (S k) v)
      with (Search.StepSearch (Lookup.step_n k v)).
    set (w := Lookup.step_n k v) in *. clearbody w.
    destruct (decide (Search.m_currentStep w
                      < length (Search.m_steps w))%nat) as [Hlt|Hge].
    + destruct (lookup_lt_is_Some_2 _ _ Hlt) as [s Hstep].
      destruct (step_search_at w s Hstep)
        as (Hc' & Hs' & Ha' & Ht' & Hm' & Hf' & Hd' & Hr').
      rewrite Hs in Hlt.
      assert (Hck : Search.m_currentStep w
                    = (Search.m_currentStep v + k)%nat) by lia.
      assert (Htake : take (S k) (drop (Search.m_currentStep v)
                                    (Search.m_steps v))
                      = take k (drop (Search.m_currentStep v)
                                  (Search.m_steps v)) ++ [s]).
      { apply take_S_r. rewrite lookup_drop, <- Hck, <- Hs. exact Hstep. }
      rewrite Htake, comparison_steps_app, comparison_steps_one,
        existsb_app. simpl. rewrite orb_false_r.
      split; [rewrite Hc'; lia|]. split; [congruence|].
      split; [congruence|]. split; [congruence|].
      split; [rewrite Hm', Hm; lia|].
      split; [rewrite Hf', Hf, orb_assoc; reflexivity|].
      intros _ _ Hend. rewrite Hd', Hr', Hs, Hck.
      rewrite bool_decide_eq_true_2 by lia.
      rewrite orb_true_r, andb_false_r. split; reflexivity.
    + rewrite step_search_idle by lia.
      rewrite Hs in Hge.
      assert (Hall : forall n : nat,
                 (length (Search.m_steps v)
                  <= Search.m_currentStep v + n)%nat ->
                 take n (drop (Search.m_currentStep v) (Search.m_steps v))
                 = drop (Search.m_currentStep v) (Search.m_steps v)).
      { intros n Hn. apply take_ge. rewrite length_drop. lia. }
      rewrite (Hall (S k)) by lia.
      rewrite (Hall k) in Hm, Hf by lia.
      split; [lia|]. split; [exact Hs|]. split; [exact Ha|].
      split; [exact Ht|]. split; [exact Hm|]. split; [exact Hf|].
      intros _ Hlt _. apply Hdone; lia.
Qed.

(** X12. [k] calls of [StepSearch] from a cursor within the log move
    the cursor to [min (cursor + k) (log length)], leave the log, the
    array and the reported counter alone, add to the displayed counter
    the number of comparison-flagged steps among the steps played, set
    [m_targetFound] if one of them is a found step, and complete the
    run when they reach the end of the log. *)
Theorem search_steps_played (k : nat) (v : Search.Visualizer) :
  (Search.m_currentStep v <= length (Search.m_steps v))%nat ->
  Search.m_currentStep (Lookup.step_n k v)
  = Nat.min (Search.m_currentStep v + k) (length (Search.m_steps v)) /\
  Search.m_steps (Lookup.step_n k v) = Search.m_steps v /\
  Search.m_array (Lookup.step_n k v) = Search.m_array v /\
  Search.m_totalComparisons (Lookup.step_n k v)
  = Search.m_totalComparisons v /\
  Search.m_comparisons (Lookup.step_n k v)
  = Search.m_comparisons v
    + Lookup.comparison_steps
        (take k (drop (Search.m_currentStep v) (Search.m_steps v))) /\
  Search.m_targetFound (Lookup.step_n k v)
  = Search.m_targetFound v
    || existsb Search.isFound
         (take k (drop (Search.m_currentStep v) (Search.m_steps v))) /\
  ((0 < k)%nat ->
   (Search.m_currentStep v < length (Search.m_steps v))%nat ->
   (length (Search.m_steps v) <= Search.m_currentStep v + k)%nat ->
   Search.m_isComplete (Lookup.step_n k v) = true /\
   Search.m_isRunning (Lookup.step_n k v) = false).
Proof. exact (step_n_spec k v). Qed.

Lemma search_steps_played_witness :
  Search.m_comparisons (Lookup.step_n 4 Scenario.binary_started) = 2.
Proof.
  destruct (search_steps_played 4 Scenario.binary_started)
    as (_ & _ & _ & _ & H & _).
  - vm_compute. lia.
  - exact H.
Defined.

(** ** Linear search *)

Lemma linear_search_fst (target fin : Z) (v : Search.Visualizer) :
  fst (Search.LinearSearch target fin v)
  = Lookup.extended (Lookup.linear_trace target (Search.m_array v) 0)
      (Lookup.linear_count target (Search.m_array v) 0) v.
Proof.
  exact (linear_loop_trace target fin (length (Search.m_array v)) 0 v eq_refl).
Qed.

(** X11. [LinearSearch] pushes a check of every index up to the first
    occurrence of the target and then the found step, or, when the
    target does not occur, a check of every index and the not-found
    step; it adds to [m_totalComparisons] the number of checks, and
    changes nothing else.  The report it makes carries that counter. *)
Theorem linear_search_trace (target fin : Z) (v : Search.Visualizer) :
  fst (Search.LinearSearch target fin v)
  = Lookup.extended (Lookup.linear_trace target (Search.m_array v) 0)
      (Lookup.linear_count target (Search.m_array v) 0) v /\
  snd (Search.LinearSearch target fin v)
  = (if Search.m_performanceCallback v
     then [mkPerfCall (Search.GetAlgorithmName (Search.m_currentAlgorithm v))
             (fin - Search.m_searchStartTime v)
             (Search.m_totalComparisons v
              + Lookup.linear_count target (Search.m_array v) 0) 0]
     else []).
Proof.
  pose proof (linear_search_fst target fin v) as Hfst.
  destruct (linear_loop_spec target fin (length (Search.m_array v)) 0 v)
    as (_ & _ & Hsnd & _).
  split; [exact Hfst|].
  unfold Search.LinearSearch in *. rewrite Hsnd, Hfst. reflexivity.
Qed.

Lemma linear_checks_flags (arr : list Z) (l : list nat) :
  Lookup.comparison_steps (map (Lookup.linear_check arr) l)
  = Z.of_nat (length l) /\
  existsb Search.isFound (map (Lookup.linear_check arr) l) = false.
Proof.
  induction l as [|i l [IH1 IH2]]; [split; reflexivity|].
  change (map (Lookup.linear_check arr) (i :: l))
    with ([Lookup.linear_check arr i] ++ map (Lookup.linear_check arr) l).
  rewrite comparison_steps_app, comparison_steps_one, existsb_app, IH1, IH2.
  simpl. split; [lia|reflexivity].
Qed.

Lemma linear_trace_flags (target : Z) (arr : list Z) :
  Lookup.comparison_steps (Lookup.linear_trace target arr 0)
  = Lookup.linear_count target arr 0
    + (if existsb Search.isFound (Lookup.linear_trace target arr 0)
       then 1 else 0) /\
  (existsb Search.isFound (Lookup.linear_trace target arr 0) = true
   <-> target ∈ arr).
Proof.
  unfold Lookup.linear_trace, Lookup.linear_count. rewrite drop_0.
  destruct (list_find (fun x => x = target) arr) as [[j y]|] eqn:E.
  - apply list_find_Some in E as (Hj & -> & _).
    rewrite comparison_steps_app, existsb_app, comparison_steps_one.
    destruct (linear_checks_flags arr (seq 0 (S j))) as [-> ->].
    rewrite length_seq. simpl. split; [lia|].
    split; [intros _|reflexivity].
    apply list_elem_of_lookup. exists j. exact Hj.
  - apply list_find_None in E.
    rewrite comparison_steps_app, existsb_app, comparison_steps_one.
    destruct (linear_checks_flags arr (seq 0 (length arr - 0))) as [-> ->].
    rewrite length_seq. simpl. split; [lia|].
    split; [discriminate|]. intros Hin.
    rewrite Forall_forall in E. exfalso. apply (E target Hin). reflexivity.
Qed.

Section LinearRun.

Variable probe : Z -> Z -> Z -> Z -> Z -> Z.
Variables now tick fin : Z.

Lemma click_linear (v : Search.Visualizer) :
  Search.m_currentAlgorithm v = Search.LinearSearchAlg ->
  Search.m_targetValue v <> -1 ->
  fst (Search.ClickStartSearch probe now tick fin v)
  = Search.set_isRunning true
      (Lookup.extended
         (Lookup.linear_trace (Search.m_targetValue v) (Search.m_array v) 0)
         (Lookup.linear_count (Search.m_targetValue v) (Search.m_array v) 0)
         (Lookup.armed now tick v)).
Proof.
  intros Halg Hne.
  pose proof (linear_search_fst (Search.m_targetValue v) fin
                (Lookup.armed now tick v)) as Hfst.
  unfold Search.ClickStartSearch.
  rewrite (proj2 (Z.eqb_neq _ _) Hne). cbn [negb].
  unfold Search.StartSearch. fold (Lookup.armed now tick v).
  change (Search.m_currentAlgorithm (Lookup.armed now tick v))
    with (Search.m_currentAlgorithm v).
  change (Search.m_targetValue (Lookup.armed now tick v))
    with (Search.m_targetValue v).
  rewrite Halg.
  destruct (Search.LinearSearch (Search.m_targetValue v) fin
              (Lookup.armed now tick v)) as [r calls].
  cbn [fst] in *. subst r.
  rewrite bool_decide_eq_false_2; [reflexivity|].
  assert (Hst : forall e c,
             Search.m_steps (Lookup.extended e c (Lookup.armed now tick v)) = e)
    by reflexivity.
  rewrite Hst. unfold Lookup.linear_trace.
  destruct (list_find _ _) as [[j y]|]; intros H;
    apply app_eq_nil in H as [_ H]; discriminate H.
Qed.

End LinearRun.

Section LinearPlayed.

Variable probe : Z -> Z -> Z -> Z -> Z -> Z.
Variables now tick fin : Z.

(** X13. A linear search started by the button and played to the end
    of its log is complete, has [m_targetFound] set exactly when the
    target occurs in the array, and displays one comparison more than
    it reported when the target was found, and as many when it was
    not: the found step is flagged as a comparison too. *)
Theorem linear_display_and_report (v : Search.Visualizer) :
  Search.m_currentAlgorithm v = Search.LinearSearchAlg ->
  Search.m_targetValue v <> -1 ->
  Search.m_isComplete
    (Lookup.step_n
       (length (Search.m_steps (fst (Search.ClickStartSearch probe now tick fin v))))
       (fst (Search.ClickStartSearch probe now tick fin v))) = true /\
  (Search.m_targetFound
     (Lookup.step_n
        (length (Search.m_steps (fst (Search.ClickStartSearch probe now tick fin v))))
        (fst (Search.ClickStartSearch probe now tick fin v))) = true
   <-> Search.m_targetValue v ∈ Search.m_array v) /\
  Search.m_comparisons
    (Lookup.step_n
       (length (Search.m_steps (fst (Search.ClickStartSearch probe now tick fin v))))
       (fst (Search.ClickStartSearch probe now tick fin v)))
  = Search.m_totalComparisons
      (Lookup.step_n
         (length (Search.m_steps (fst (Search.ClickStartSearch probe now tick fin v))))
         (fst (Search.ClickStartSearch probe now tick fin v)))
    + (if Search.m_targetFound
            (Lookup.step_n
               (length (Search.m_steps
                          (fst (Search.ClickStartSearch probe now tick fin v))))
               (fst (Search.ClickStartSearch probe now tick fin v)))
       then 1 else 0).
Proof.
  intros Halg Hne. rewrite (click_linear probe now tick fin v Halg Hne).
  set (trace := Lookup.linear_trace (Search.m_targetValue v)
                  (Search.m_array v) 0).
  set (count := Lookup.linear_count (Search.m_targetValue v)
                  (Search.m_array v) 0).
  set (v1 := Search.set_isRunning true
               (Lookup.extended trace count (Lookup.armed now tick v))).
  assert (Hsteps : Search.m_steps v1 = trace) by reflexivity.
  assert (Hcur : Search.m_currentStep v1 = 0%nat) by reflexivity.
  assert (Hcmp : Search.m_comparisons v1 = 0) by reflexivity.
  assert (Htot : Search.m_totalComparisons v1 = 0 + count) by reflexivity.
  assert (Hfound : Search.m_targetFound v1 = false) by reflexivity.
  assert (Hlen : (0 < length trace)%nat).
  { unfold trace, Lookup.linear_trace.
    destruct (list_find _ _) as [[j y]|]; rewrite length_app; simpl; lia. }
  destruct (step_n_spec (length (Search.m_steps v1)) v1)
    as (_ & _ & _ & Ht & Hm & Hf & Hdone).
  { rewrite Hcur. lia. }
  rewrite Hsteps, Hcur, drop_0, firstn_all in *.
  destruct (linear_trace_flags (Search.m_targetValue v) (Search.m_array v))
    as [Hflags Hin].
  fold trace count in Hflags, Hin.
  clearbody v1 trace count.
  destruct (Hdone Hlen Hlen ltac:(lia)) as [Hc _].
  split; [exact Hc|].
  rewrite Hf, Hfound, Ht, Htot, Hm, Hcmp. simpl.
  split; [exact Hin|]. lia.
Qed.

End LinearPlayed.

Lemma linear_display_and_report_witness :
  Search.m_comparisons
    (Lookup.step_n
       (length (Search.m_steps
                  (fst (Search.ClickStartSearch Scenario.no_probe 10 10 12
                          Scenario.linear_3))))
       (fst (Search.ClickStartSearch Scenario.no_probe 10 10 12
               Scenario.linear_3)))
  = Search.m_totalComparisons
      (Lookup.step_n
         (length (Search.m_steps
                    (fst (Search.ClickStartSearch Scenario.no_probe 10 10 12
                            Scenario.linear_3))))
         (fst (Search.ClickStartSearch Scenario.no_probe 10 10 12
                 Scenario.linear_3)))
    + (if Search.m_targetFound
            (Lookup.step_n
               (length (Search.m_steps
                          (fst (Search.ClickStartSearch Scenario.no_probe 10 10 12
                                  Scenario.linear_3))))
               (fst (Search.ClickStartSearch Scenario.no_probe 10 10 12
                       Scenario.linear_3)))
       then 1 else 0).
Proof.
  apply (linear_display_and_report Scenario.no_probe 10 10 12 Scenario.linear_3).
  - reflexivity.
  - vm_compute. discriminate.
Defined.

(** ** Binary search *)

Lemma sorted_lookup_total (l : list Z) :
  StronglySorted Z.le l ->
  forall a b : nat, (a <= b)%nat -> (b < length l)%nat -> l !!! a <= l !!! b.
Proof.
  induction 1 as [|x l Hs IH Hall]; intros a b Hab Hb; simpl in Hb; [lia|].
  destruct a as [|a], b as [|b]; try lia.
  - change ((x :: l) !!! 0%nat) with x.
    change ((x :: l) !!! S b) with (l !!! b).
    rewrite Forall_forall in Hall. apply Hall.
    apply list_elem_of_lookup_total_2. lia.
  - change ((x :: l) !!! S a) with (l !!! a).
    change ((x :: l) !!! S b) with (l !!! b).
    apply IH; lia.
Qed.

Lemma record_extended (d : string) (c l h : Z) (b : bool)
    (v : Search.Visualizer) :
  Search.RecordStep d c l h b v
  = Lookup.extended [Search.mkStep d c l h (-1) b false] 0 v.
Proof. apply push_extended. Qed.

Lemma found_exit_extended (i low high target fin : Z) (v : Search.Visualizer) :
  fst (Search.found_exit i low high target fin v)
  = Lookup.extended
      [Search.mkStep ("Found target " +:+ pretty target +:+ " at index "
                      +:+ pretty i +:+ "!") i low high (-1) false false;
       Lookup.completed i] 0 v.
Proof.
  unfold Search.found_exit. cbn [fst].
  rewrite record_extended, push_extended, extended_app. reflexivity.
Qed.

Lemma binary_loop_outcome (target fin : Z) (fuel : nat) :
  forall (low high : Z) (v : Search.Visualizer) (r : Search.Run),
    Search.BinarySearch_loop fuel low high target fin v = Some r ->
    0 <= low -> high < Search.size v ->
    exists extra,
      fst r = Lookup.extended extra 0 v /\
      (forall k, 0 <= k -> high - low + 1 < 2 ^ k ->
                 Lookup.comparison_steps extra <= k) /\
      ((exists i, low <= i <= high /\ Search.at_ v i = target /\
                  last extra = Some (Lookup.completed i)) \/
       (existsb Search.isFound extra = false /\
        (StronglySorted Z.le (Search.m_array v) ->
         (forall k, 0 <= k < low -> Search.at_ v k < target) ->
         (forall k, high < k < Search.size v -> target < Search.at_ v k) ->
         forall k, 0 <= k < Search.size v -> Search.at_ v k <> target))).
Proof.
  induction fuel as [|fuel IH]; intros low high v r Hr Hlow Hhigh;
    [discriminate|].
  cbn [Search.BinarySearch_loop] in Hr.
  destruct (low <=? high) eqn:Hle.
  - apply Z.leb_le in Hle.
    pose proof (mid_in_window low high Hle) as Hmid.
    assert (Hq : (high - low) `quot` 2 = (high - low) / 2)
      by (apply Z.quot_div_nonneg; lia).
    set (mid := low + (high - low) `quot` 2) in *.
    set (chk := Search.mkStep
                  ("Checking middle element at index " +:+ pretty mid +:+
                   " (value: " +:+ pretty (Search.at_ v mid) +:+ ")")
                  mid low high (-1) true false).
    assert (Hpow : forall k, 0 <= k -> high - low + 1 < 2 ^ k ->
                     1 <= k /\ 2 ^ k = 2 * 2 ^ (k - 1)).
    { intros k Hk Hw. destruct (decide (k = 0)) as [->|Hk0];
        [simpl in Hw; lia|].
      split; [lia|]. rewrite <- Z.pow_succ_r by lia. f_equal. lia. }
    change (Search.at_ (Search.RecordStep _ mid low high true v) mid)
      with (Search.at_ v mid) in Hr.
    destruct (Search.at_ v mid =? target) eqn:Heq.
    + apply Z.eqb_eq in Heq. injection Hr as <-.
      rewrite found_exit_extended, record_extended, extended_app.
      eexists. split; [reflexivity|]. split.
      * intros k Hk Hw. destruct (Hpow k Hk Hw) as [Hk1 _].
        rewrite !comparison_steps_app, !comparison_steps_one. simpl.
        change (Lookup.comparison_steps _) with 0. lia.
      * left. exists mid. split; [lia|]. split; [exact Heq|reflexivity].
    + apply Z.eqb_neq in Heq.
      destruct (Search.at_ v mid <? target) eqn:Hlt.
      * apply Z.ltb_lt in Hlt.
        apply IH in Hr as (extra & Hfst & Hbound & Hout);
          [|lia|exact Hhigh].
        rewrite Hfst, !record_extended, !extended_app.
        eexists. split; [reflexivity|]. split.
        { intros k Hk Hw. destruct (Hpow k Hk Hw) as [Hk1 Hp].
          rewrite !comparison_steps_app, !comparison_steps_one. simpl.
          specialize (Hbound (k - 1) ltac:(lia)).
          assert (high - (mid + 1) + 1 < 2 ^ (k - 1))
            by (unfold mid; rewrite Hq; Z.div_mod_to_equations; lia).
          specialize (Hbound ltac:(assumption)). lia. }
        destruct Hout as [(i & Hi & Hat & Hlast)|[Hnone Hcompl]].
        { left. exists i. split; [lia|]. split; [exact Hat|].
          rewrite !last_app, Hlast. reflexivity. }
        right. split.
        { rewrite !existsb_app, Hnone. reflexivity. }
        intros Hs Hlo Hhi. apply Hcompl; [exact Hs| |exact Hhi].
        intros k Hk.
        pose proof (sorted_lookup_total _ Hs (Z.to_nat k) (Z.to_nat mid)
                      ltac:(lia)
                      ltac:(unfold Search.size in Hhigh; lia)) as Hkm.
        unfold Search.at_ in *. simpl in *. lia.
      * apply Z.ltb_ge in Hlt.
        apply IH in Hr as (extra & Hfst & Hbound & Hout);
          [|exact Hlow|change (mid - 1 < Search.size v); lia].
        rewrite Hfst, !record_extended, !extended_app.
        eexists. split; [reflexivity|]. split.
        { intros k Hk Hw. destruct (Hpow k Hk Hw) as [Hk1 Hp].
          rewrite !comparison_steps_app, !comparison_steps_one. simpl.
          specialize (Hbound (k - 1) ltac:(lia)).
          assert (mid - 1 - low + 1 < 2 ^ (k - 1))
            by (unfold mid; rewrite Hq; Z.div_mod_to_equations; lia).
          specialize (Hbound ltac:(assumption)). lia. }
        destruct Hout as [(i & Hi & Hat & Hlast)|[Hnone Hcompl]].
        { left. exists i. split; [lia|]. split; [exact Hat|].
          rewrite !last_app, Hlast. reflexivity. }
        right. split.
        { rewrite !existsb_app, Hnone. reflexivity. }
        intros Hs Hlo Hhi. apply Hcompl; [exact Hs|exact Hlo|].
        intros k Hk. change (mid - 1 < k < Search.size v) in Hk.
        pose proof (sorted_lookup_total _ Hs (Z.to_nat mid) (Z.to_nat k)
                      ltac:(lia)
                      ltac:(unfold Search.size in Hk; lia)) as Hkm.
        unfold Search.at_ in *. simpl in *. lia.
  - apply Z.leb_gt in Hle. injection Hr as <-.
    exists []. split; [symmetry; apply extended_nil|]. split.
    + intros k Hk _. change (Lookup.comparison_steps []) with 0. lia.
    + right. split; [reflexivity|].
      intros Hs Hlo Hhi k Hk.
      destruct (decide (k < low)) as [Hkl|Hkl].
      * specialize (Hlo k ltac:(lia)). lia.
      * specialize (Hhi k ltac:(lia)). lia.
Qed.

Lemma new_steps_extended (extra : list Search.SearchStep) (c : Z)
    (v : Search.Visualizer) :
  Lookup.new_steps v (Lookup.extended extra c v) = extra.
Proof. unfold Lookup.new_steps. simpl. apply drop_app_length. Qed.

Lemma binary_search_outcome (target fin : Z) (v : Search.Visualizer) :
  exists extra,
    fst (Search.BinarySearch target fin v) = Lookup.extended extra 0 v /\
    (forall k, 0 <= k -> Search.size v < 2 ^ k ->
               Lookup.comparison_steps extra <= k) /\
    ((exists i, 0 <= i < Search.size v /\ Search.at_ v i = target /\
                last extra = Some (Lookup.completed i)) \/
     (existsb Search.isFound extra = false /\
      (StronglySorted Z.le (Search.m_array v) -> target ∉ Search.m_array v))).
Proof.
  unfold Search.BinarySearch.
  set (v1 := Search.RecordStep "Starting Binary Search" (-1) 0
               (Search.size v - 1) false v).
  destruct (binary_loop_total target fin
              (Search.window 0 (Search.size v - 1)) 0 (Search.size v - 1) v1)
    as [r Hr]; [unfold Search.window; lia|].
  rewrite Hr. cbn [default].
  destruct (binary_loop_outcome target fin _ _ _ _ _ Hr)
    as (extra & Hfst & Hbound & Hout).
  { lia. } { change (Search.size v - 1 < Search.size v). lia. }
  unfold v1 in Hfst. rewrite record_extended, extended_app in Hfst.
  eexists. split; [exact Hfst|]. split.
  - intros k Hk Hn. rewrite comparison_steps_app, comparison_steps_one.
    simpl. apply Hbound; [exact Hk|lia].
  - destruct Hout as [(i & Hi & Hat & Hlast)|[Hnone Hcompl]].
    + left. exists i. split; [lia|]. split; [exact Hat|].
      rewrite last_app, Hlast. reflexivity.
    + right. split; [rewrite existsb_app, Hnone; reflexivity|].
      intros Hs Hin.
      apply list_elem_of_lookup in Hin as [j Hj].
      pose proof (lookup_lt_Some _ _ _ Hj) as Hjlt.
      apply (Hcompl Hs) with (k := Z.of_nat j).
      * intros k Hk. lia.
      * intros k Hk. change (Search.size v - 1 < k < Search.size v) in Hk. lia.
      * change (0 <= Z.of_nat j < Search.size v). unfold Search.size. lia.
      * change (Search.at_ v (Z.of_nat j) = target). unfold Search.at_.
        rewrite Nat2Z.id. apply list_lookup_total_correct. exact Hj.
Qed.

(** X14. [BinarySearch] only pushes steps.  When it pushes a found
    step, that step is the last one and names an index inside the
    array that holds the target, sorted array or not. *)
Theorem binary_search_sound (target fin : Z) (v : Search.Visualizer) :
  fst (Search.BinarySearch target fin v)
  = Lookup.extended
      (Lookup.new_steps v (fst (Search.BinarySearch target fin v))) 0 v /\
  (existsb Search.isFound
     (Lookup.new_steps v (fst (Search.BinarySearch target fin v))) = true ->
   exists i,
     0 <= i < Search.size v /\
     Search.m_array v !! Z.to_nat i = Some target /\
     last (Search.m_steps (fst (Search.BinarySearch target fin v)))
     = Some (Lookup.completed i)).
Proof.
  destruct (binary_search_outcome target fin v)
    as (extra & Hfst & _ & Hout).
  rewrite Hfst, new_steps_extended. split; [reflexivity|].
  intros Hfound.
  destruct Hout as [(i & Hi & Hat & Hlast)|[Hnone _]]; [|congruence].
  exists i. split; [exact Hi|]. split.
  - unfold Search.at_ in Hat. rewrite <- Hat.
    apply list_lookup_lookup_total_lt. unfold Search.size in Hi. lia.
  - simpl. rewrite last_app, Hlast. reflexivity.
Qed.

(** X15. On an array of fewer than [2 ^ k] elements, [BinarySearch]
    pushes at most [k] steps flagged as comparisons. *)
Theorem binary_search_comparison_bound (target fin : Z)
    (v : Search.Visualizer) (k : Z) :
  0 <= k ->
  Search.size v < 2 ^ k ->
  Lookup.comparison_steps
    (Lookup.new_steps v (fst (Search.BinarySearch target fin v))) <= k.
Proof.
  intros Hk Hn.
  destruct (binary_search_outcome target fin v)
    as (extra & Hfst & Hbound & _).
  rewrite Hfst, new_steps_extended. apply Hbound; assumption.
Qed.

Lemma binary_search_comparison_bound_witness :
  Lookup.comparison_steps
    (Lookup.new_steps Scenario.binary_7
       (fst (Search.BinarySearch 7 12 Scenario.binary_7))) <= 3.
Proof.
  apply (binary_search_comparison_bound 7 12 Scenario.binary_7 3).
  - lia.
  - vm_compute. reflexivity.
Defined.

(** X16. On an array in ascending order, [BinarySearch] finds every
    target that occurs in it: its log then ends with the found step
    for an index that holds the target. *)
Theorem binary_search_complete (target fin : Z) (v : Search.Visualizer) :
  StronglySorted Z.le (Search.m_array v) ->
  target ∈ Search.m_array v ->
  exists i,
    0 <= i < Search.size v /\
    Search.m_array v !! Z.to_nat i = Some target /\
    last (Search.m_steps (fst (Search.BinarySearch target fin v)))
    = Some (Lookup.completed i).
Proof.
  intros Hs Hin.
  destruct (binary_search_outcome target fin v)
    as (extra & Hfst & _ & Hout).
  destruct Hout as [(i & Hi & Hat & Hlast)|[_ Hnot]];
    [|exfalso; apply (Hnot Hs Hin)].
  exists i. split; [exact Hi|]. split.
  - unfold Search.at_ in Hat. rewrite <- Hat.
    apply list_lookup_lookup_total_lt. unfold Search.size in Hi. lia.
  - rewrite Hfst. simpl. rewrite last_app, Hlast. reflexivity.
Qed.

Lemma binary_search_complete_witness :
  exists i,
    0 <= i < Search.size Scenario.binary_7 /\
    Search.m_array Scenario.binary_7 !! Z.to_nat i = Some 7 /\
    last (Search.m_steps (fst (Search.BinarySearch 7 12 Scenario.binary_7)))
    = Some (Lookup.completed i).
Proof.
  apply (binary_search_complete 7 12 Scenario.binary_7).
  - repeat constructor; lia.
  - repeat constructor.
Defined.

Lemma cell_at_alter (f : Pathfinding.GridCell -> Pathfinding.GridCell)
    (r r' : Pathfinding.CellRef) (g : list (list Pathfinding.GridCell)) :
  PathControl.cell_at (PathControl.alter_cell f r g) r'
  = if decide (r = r') then f <$> PathControl.cell_at g r'
    else PathControl.cell_at g r'.
Proof.
  unfold PathControl.cell_at, PathControl.alter_cell.
  destruct r as [i j], r' as [i' j']. simpl.
  destruct (decide (i = i')) as [->|Hi].
  - rewrite list_lookup_alter_eq.
    destruct (g !! i') as [row|]; simpl.
    + destruct (decide (j = j')) as [->|Hj].
      * rewrite list_lookup_alter_eq.
        rewrite decide_True by reflexivity. reflexivity.
      * rewrite list_lookup_alter_ne by exact Hj.
        rewrite decide_False by congruence. reflexivity.
    + case_decide; reflexivity.
  - rewrite list_lookup_alter_ne by exact Hi.
    rewrite decide_False by congruence. reflexivity.
Qed.

Lemma painted_refl (c : Pathfinding.GridCell) : PathControl.painted c c.
Proof. unfold PathControl.painted. repeat split; auto. Qed.

Lemma painted_trans (a b c : Pathfinding.GridCell) :
  PathControl.painted a b -> PathControl.painted b c ->
  PathControl.painted a c.
Proof.
  unfold PathControl.painted.
  intros (Hx1 & Hy1 & Hg1 & Hh1 & Hf1 & Hp1 & He1 & Ht1 & Hk1)
         (Hx2 & Hy2 & Hg2 & Hh2 & Hf2 & Hp2 & He2 & Ht2 & Hk2).
  repeat split; try congruence.
  - intros He. rewrite He2 by congruence. apply He1. exact He.
  - destruct Ht2 as [Ht2|[Ht2|Ht2]]; rewrite Ht2; auto.
Qed.

Lemma mark_painted (t : Pathfinding.CellType) (c : Pathfinding.GridCell) :
  t = Pathfinding.TVisited \/ t = Pathfinding.TPath ->
  PathControl.painted c (PathControl.mark t c).
Proof.
  intros Ht. unfold PathControl.mark.
  destruct (PathControl.is_endpoint c) eqn:E; [apply painted_refl|].
  unfold PathControl.painted, PathControl.is_endpoint in *. simpl.
  repeat split; try reflexivity.
  - rewrite E. discriminate.
  - destruct Ht as [-> | ->]; auto.
  - rewrite E. destruct Ht as [-> | ->]; reflexivity.
Qed.

Lemma repainted_refl (g : list (list Pathfinding.GridCell)) :
  PathControl.repainted g g.
Proof.
  intros r. destruct (PathControl.cell_at g r); [apply painted_refl|exact I].
Qed.

Lemma repainted_trans (g1 g2 g3 : list (list Pathfinding.GridCell)) :
  PathControl.repainted g1 g2 -> PathControl.repainted g2 g3 ->
  PathControl.repainted g1 g3.
Proof.
  intros H12 H23 r. specialize (H12 r). specialize (H23 r).
  destruct (PathControl.cell_at g1 r), (PathControl.cell_at g2 r),
    (PathControl.cell_at g3 r); try contradiction; try exact I.
  eapply painted_trans; eassumption.
Qed.

Lemma alter_mark_repainted (t : Pathfinding.CellType)
    (r : Pathfinding.CellRef) (g : list (list Pathfinding.GridCell)) :
  t = Pathfinding.TVisited \/ t = Pathfinding.TPath ->
  PathControl.repainted g (PathControl.alter_cell (PathControl.mark t) r g).
Proof.
  intros Ht r'. rewrite cell_at_alter.
  destruct (decide (r = r')) as [->|Hne];
    destruct (PathControl.cell_at g r') as [c|]; simpl; try exact I.
  - apply mark_painted. exact Ht.
  - apply painted_refl.
Qed.

Lemma show_path_repainted (path : list Pathfinding.CellRef) :
  forall g, PathControl.repainted g (PathControl.show_path path g).
Proof.
  induction path as [|r path IH]; intros g; [apply repainted_refl|].
  simpl. eapply repainted_trans; [|apply IH].
  apply alter_mark_repainted. right. reflexivity.
Qed.

Lemma step_forward_repainted (v : Pathfinding.Visualizer) :
  PathControl.repainted (Pathfinding.m_grid v)
    (Pathfinding.m_grid (PathControl.StepForward v)).
Proof.
  unfold PathControl.StepForward, PathControl.ExecuteCurrentStep.
  case_bool_decide.
  - destruct (Pathfinding.m_animationSteps v !! _); simpl.
    + apply alter_mark_repainted. left. reflexivity.
    + apply repainted_refl.
  - case_bool_decide; simpl.
    + apply repainted_refl.
    + apply show_path_repainted.
Qed.

Lemma step_n_repainted (k : nat) (v : Pathfinding.Visualizer) :
  PathControl.repainted (Pathfinding.m_grid v)
    (Pathfinding.m_grid (PathControl.step_n k v)).
Proof.
  induction k as [|k IH]; [apply repainted_refl|].
  change (PathControl.step_n (S k) v)
    with (PathControl.StepForward (PathControl.step_n k v)).
  eapply repainted_trans; [exact IH|apply step_forward_repainted].
Qed.

(** X17. Playback of a pathfinding log, by Step clicks or by ticks,
    keeps the shape of the grid and the coordinates, costs and parent
    of every cell; a start or end cell keeps its type, and any other
    cell keeps its type or becomes Visited or Path. *)
Theorem playback_repaints_only (k : nat) (now : Z)
    (v : Pathfinding.Visualizer) :
  PathControl.repainted (Pathfinding.m_grid v)
    (Pathfinding.m_grid (PathControl.step_n k v)) /\
  PathControl.repainted (Pathfinding.m_grid v)
    (Pathfinding.m_grid (PathControl.Update now v)).
Proof.
  split; [apply step_n_repainted|].
  unfold PathControl.Update.
  destruct (PathControl.state_eqb _ _); [|apply repainted_refl].
  destruct (_ <=? _); [|apply repainted_refl].
  apply step_forward_repainted.
Qed.

(** X18. [k] calls of [StepForward] from a cursor within the log move
    the cursor to [min (cursor + k) (log length)] and leave the log
    and the final path alone.  The state is untouched as long as the
    calls only execute steps: Completed is set by the first call made
    with the cursor already at the end, so a log of [n] steps takes
    [n + 1] calls to complete, and one call completes an empty log
    even in state Stopped. *)
Theorem path_steps_played (k : nat) (v : Pathfinding.Visualizer) :
  (Pathfinding.m_currentStepIndex v
   <= length (Pathfinding.m_animationSteps v))%nat ->
  Pathfinding.m_currentStepIndex (PathControl.step_n k v)
  = Nat.min (Pathfinding.m_currentStepIndex v + k)
      (length (Pathfinding.m_animationSteps v)) /\
  Pathfinding.m_animationSteps (PathControl.step_n k v)
  = Pathfinding.m_animationSteps v /\
  Pathfinding.m_finalPath (PathControl.step_n k v)
  = Pathfinding.m_finalPath v /\
  Pathfinding.m_state (PathControl.step_n k v)
  = (if bool_decide (length (Pathfinding.m_animationSteps v)
                     < Pathfinding.m_currentStepIndex v + k)%nat
     then Pathfinding.Completed else Pathfinding.m_state v).
Proof.
  intros Hok. induction k as [|k IH].
  - change (PathControl.step_n 0 v) with v.
    rewrite bool_decide_eq_false_2 by lia.
    repeat split; try reflexivity. lia.
  - destruct IH as (Hc & Hs & Hp & Hst).
    change (PathControl.step_n (S k) v)
      with (PathControl.StepForward (PathControl.step_n k v)).
    set (w := PathControl.step_n k v) in *. clearbody w.
    unfold PathControl.StepForward, PathControl.ExecuteCurrentStep.
    rewrite Hs, Hc, Hp.
    set (c := Pathfinding.m_currentStepIndex v) in *.
    set (n := length (Pathfinding.m_animationSteps v)) in *.
    destruct (decide (c + k < n)%nat) as [Hin|Hout].
    + rewrite (bool_decide_eq_true_2 (Nat.min (c + k) n < n)%nat) by lia.
      rewrite (bool_decide_eq_false_2 (n < c + k)%nat) in Hst by lia.
      rewrite (bool_decide_eq_false_2 (n < c + S k)%nat) by lia.
      destruct (Pathfinding.m_animationSteps v !! _); simpl;
        (split; [lia|]); repeat split; assumption.
    + rewrite (bool_decide_eq_false_2 (Nat.min (c + k) n < n)%nat) by lia.
      rewrite (bool_decide_eq_true_2 (n < c + S k)%nat) by lia.
      destruct (bool_decide (Pathfinding.m_finalPath v = [])); simpl;
        (split; [lia|]); repeat split; assumption.
Qed.

Lemma path_steps_played_witness :
  Pathfinding.m_state (PathControl.step_n 1 PathControl.initial)
  = Pathfinding.Completed.
Proof.
  destruct (path_steps_played 1 PathControl.initial) as (_ & _ & _ & H).
  - simpl. lia.
  - exact H.
Defined.

(** ** The grid *)

Lemma cells_ok_lookup (i : nat) (row : list Pathfinding.GridCell) :
  forall j0,
    PathControl.cells_ok i j0 row = true <->
    forall j c, row !! j = Some c ->
      Pathfinding.x c = Z.of_nat (j0 + j) /\ Pathfinding.y c = Z.of_nat i.
Proof.
  induction row as [|c row IH]; intros j0; simpl.
  - split; [intros _ j c H; discriminate H|reflexivity].
  - rewrite !andb_true_iff, !Z.eqb_eq, (IH (S j0)). split.
    + intros [[Hx Hy] Hrest] [|j] c' Hc; simpl in Hc.
      * injection Hc as <-. split; [rewrite Hx; f_equal; lia|exact Hy].
      * destruct (Hrest j c' Hc) as [Hx' Hy'].
        split; [rewrite Hx'; f_equal; lia|exact Hy'].
    + intros H. split; [split|].
      * destruct (H 0%nat c eq_refl) as [Hx _]. rewrite Hx. f_equal. lia.
      * destruct (H 0%nat c eq_refl) as [_ Hy]. exact Hy.
      * intros j c' Hc. destruct (H (S j) c' Hc) as [Hx Hy].
        split; [rewrite Hx; f_equal; lia|exact Hy].
Qed.

Lemma rows_ok_lookup (g : list (list Pathfinding.GridCell)) :
  forall i0,
    PathControl.rows_ok i0 g = true <->
    forall i row, g !! i = Some row ->
      length row = Z.to_nat PathControl.GRID_WIDTH /\
      PathControl.cells_ok (i0 + i) 0 row = true.
Proof.
  induction g as [|row g IH]; intros i0; simpl.
  - split; [intros _ i r H; discriminate H|reflexivity].
  - rewrite !andb_true_iff, Nat.eqb_eq, (IH (S i0)). split.
    + intros [[Hl Hc] Hrest] [|i] r Hr; simpl in Hr.
      * injection Hr as <-. replace (i0 + 0)%nat with i0 by lia. auto.
      * replace (i0 + S i)%nat with (S i0 + i)%nat by lia. apply Hrest, Hr.
    + intros H. split; [split|].
      * apply (H 0%nat row eq_refl).
      * destruct (H 0%nat row eq_refl) as [_ Hc].
        replace (i0 + 0)%nat with i0 in Hc by lia. exact Hc.
      * intros i r Hr. specialize (H (S i) r Hr).
        replace (i0 + S i)%nat with (S i0 + i)%nat in H by lia. exact H.
Qed.

Lemma shaped_cell (g : list (list Pathfinding.GridCell))
    (r : Pathfinding.CellRef) :
  PathControl.shaped g = true ->
  match PathControl.cell_at g r with
  | Some c =>
      (r.1 < Z.to_nat PathControl.GRID_HEIGHT)%nat /\
      (r.2 < Z.to_nat PathControl.GRID_WIDTH)%nat /\
      Pathfinding.x c = Z.of_nat r.2 /\ Pathfinding.y c = Z.of_nat r.1
  | None =>
      ~ ((r.1 < Z.to_nat PathControl.GRID_HEIGHT)%nat /\
         (r.2 < Z.to_nat PathControl.GRID_WIDTH)%nat)
  end.
Proof.
  unfold PathControl.shaped. rewrite andb_true_iff, Nat.eqb_eq.
  intros [Hlen Hrows]. destruct r as [i j]. simpl.
  pose proof (proj1 (rows_ok_lookup g 0) Hrows) as Hr.
  unfold PathControl.cell_at. simpl.
  destruct (g !! i) as [row|] eqn:Ei; simpl.
  - destruct (Hr i row Ei) as [Hl Hc].
    pose proof (lookup_lt_Some _ _ _ Ei) as Hi.
    destruct (row !! j) as [c|] eqn:Ej.
    + pose proof (lookup_lt_Some _ _ _ Ej) as Hj.
      destruct (proj1 (cells_ok_lookup _ row 0) Hc j c Ej) as [Hx Hy].
      simpl in Hx, Hy. repeat split; try lia; assumption.
    + apply lookup_ge_None in Ej. lia.
  - apply lookup_ge_None in Ei. lia.
Qed.

Lemma cells_ok_map (f : Pathfinding.GridCell -> Pathfinding.GridCell)
    (i : nat) (row : list Pathfinding.GridCell) :
  PathControl.keeps_place f ->
  forall j, PathControl.cells_ok i j (map f row) = PathControl.cells_ok i j row.
Proof.
  intros Hf. induction row as [|c row IH]; intros j; simpl; [reflexivity|].
  destruct (Hf c) as [-> ->]. rewrite IH. reflexivity.
Qed.

Lemma cells_ok_alter (f : Pathfinding.GridCell -> Pathfinding.GridCell)
    (i : nat) (row : list Pathfinding.GridCell) :
  PathControl.keeps_place f ->
  forall k j,
    PathControl.cells_ok i j (alter f k row) = PathControl.cells_ok i j row.
Proof.
  intros Hf. induction row as [|c row IH]; intros k j; [reflexivity|].
  destruct k as [|k].
  - change (alter f 0%nat (c :: row)) with (f c :: row). simpl.
    destruct (Hf c) as [-> ->]. reflexivity.
  - change (alter f (S k) (c :: row)) with (c :: alter f k row). simpl.
    rewrite IH. reflexivity.
Qed.

Lemma shaped_map (f : Pathfinding.GridCell -> Pathfinding.GridCell)
    (g : list (list Pathfinding.GridCell)) :
  PathControl.keeps_place f ->
  PathControl.shaped (map (map f) g) = PathControl.shaped g.
Proof.
  intros Hf. unfold PathControl.shaped. rewrite length_map. f_equal.
  generalize 0%nat. induction g as [|row g IH]; intros i; simpl;
    [reflexivity|].
  rewrite length_map, cells_ok_map, IH by exact Hf. reflexivity.
Qed.

Lemma shaped_alter (f : Pathfinding.GridCell -> Pathfinding.GridCell)
    (r : Pathfinding.CellRef) (g : list (list Pathfinding.GridCell)) :
  PathControl.keeps_place f ->
  PathControl.shaped (PathControl.alter_cell f r g) = PathControl.shaped g.
Proof.
  intros Hf. unfold PathControl.shaped, PathControl.alter_cell.
  rewrite length_alter. f_equal. destruct r as [k j]. simpl.
  generalize 0%nat. revert k.
  induction g as [|row g IH]; intros k i; [reflexivity|].
  destruct k as [|k].
  - change (alter (alter f j) 0%nat (row :: g)) with (alter f j row :: g).
    simpl. rewrite length_alter, cells_ok_alter by exact Hf. reflexivity.
  - change (alter (alter f j) (S k) (row :: g))
      with (row :: alter (alter f j) k g).
    simpl. rewrite IH. reflexivity.
Qed.

Lemma keeps_place_with_type (t : Pathfinding.CellType) :
  PathControl.keeps_place (PathControl.with_type t).
Proof. intros c. split; reflexivity. Qed.

Lemma keeps_place_mark (t : Pathfinding.CellType) :
  PathControl.keeps_place (PathControl.mark t).
Proof.
  intros c. unfold PathControl.mark.
  destruct (PathControl.is_endpoint c); split; reflexivity.
Qed.

Lemma keeps_place_reset : PathControl.keeps_place Pathfinding.reset_cell.
Proof. intros c. split; reflexivity. Qed.

Lemma keeps_place_clear_mark : PathControl.keeps_place PathControl.clear_mark.
Proof.
  intros c. unfold PathControl.clear_mark.
  destruct (Pathfinding.type c); split; reflexivity.
Qed.

Lemma keeps_place_clear_wall : PathControl.keeps_place PathControl.clear_wall.
Proof.
  intros c. unfold PathControl.clear_wall.
  destruct (Pathfinding.type c); split; reflexivity.
Qed.

Lemma shaped_show_path (path : list Pathfinding.CellRef) :
  forall g,
    PathControl.shaped (PathControl.show_path path g) = PathControl.shaped g.
Proof.
  induction path as [|r path IH]; intros g; [reflexivity|].
  simpl. rewrite IH. apply shaped_alter, keeps_place_mark.
Qed.

Lemma shaped_step_forward (v : Pathfinding.Visualizer) :
  PathControl.shaped (Pathfinding.m_grid (PathControl.StepForward v))
  = PathControl.shaped (Pathfinding.m_grid v).
Proof.
  unfold PathControl.StepForward, PathControl.ExecuteCurrentStep.
  case_bool_decide.
  - destruct (Pathfinding.m_animationSteps v !! _); simpl; [|reflexivity].
    apply shaped_alter, keeps_place_mark.
  - case_bool_decide; simpl; [reflexivity|]. apply shaped_show_path.
Qed.

(** X20. The constructor builds a grid of 25 rows of 40 cells, each
    carrying its own column and row, and no control operation changes
    that: stepping, ticking, pausing, the two resets, clearing the path
    or the walls, and setting a cell type all leave the shape and the
    coordinates as they are. *)
Theorem grid_shape_invariant (v : Pathfinding.Visualizer) (now x y : Z)
    (t : Pathfinding.CellType) :
  PathControl.shaped PathControl.InitializeGrid = true /\
  PathControl.shaped (Pathfinding.m_grid (PathControl.StepForward v))
  = PathControl.shaped (Pathfinding.m_grid v) /\
  PathControl.shaped (Pathfinding.m_grid (PathControl.Update now v))
  = PathControl.shaped (Pathfinding.m_grid v) /\
  PathControl.shaped (Pathfinding.m_grid (PathControl.PausePathfinding v))
  = PathControl.shaped (Pathfinding.m_grid v) /\
  PathControl.shaped (Pathfinding.m_grid (PathControl.ResetGrid v))
  = PathControl.shaped (Pathfinding.m_grid v) /\
  PathControl.shaped (Pathfinding.m_grid (Pathfinding.ResetGridForSearch v))
  = PathControl.shaped (Pathfinding.m_grid v) /\
  PathControl.shaped (Pathfinding.m_grid (PathControl.ClearPath v))
  = PathControl.shaped (Pathfinding.m_grid v) /\
  PathControl.shaped (Pathfinding.m_grid (PathControl.ClearWalls v))
  = PathControl.shaped (Pathfinding.m_grid v) /\
  PathControl.shaped (Pathfinding.m_grid (PathControl.SetCellType x y t v))
  = PathControl.shaped (Pathfinding.m_grid v).
Proof.
  split; [vm_compute; reflexivity|].
  split; [apply shaped_step_forward|].
  split.
  { unfold PathControl.Update.
    destruct (PathControl.state_eqb _ _); [|reflexivity].
    destruct (_ <=? _); [|reflexivity]. apply shaped_step_forward. }
  split.
  { unfold PathControl.PausePathfinding.
    destruct (PathControl.state_eqb _ _); reflexivity. }
  split; [apply shaped_map, keeps_place_reset|].
  split; [apply shaped_map, keeps_place_reset|].
  split; [apply shaped_map, keeps_place_clear_mark|].
  split; [apply shaped_map, keeps_place_clear_wall|].
  unfold PathControl.SetCellType.
  destruct (PathControl.IsValidPosition x y); [|reflexivity].
  apply shaped_alter, keeps_place_with_type.
Qed.

Lemma NoDup_omap_inj {A B : Type} (f : A -> option B) (l : list A) :
  (forall a b z, a ∈ l -> b ∈ l -> f a = Some z -> f b = Some z -> a = b) ->
  NoDup l -> NoDup (omap f l).
Proof.
  intros Hinj Hnd. induction Hnd as [|a l Hnotin Hnd IH]; simpl;
    [constructor|].
  assert (IH' : NoDup (omap f l)).
  { apply IH. intros a' b z Ha Hb. apply Hinj; constructor; assumption. }
  destruct (f a) as [z|] eqn:Ea; [|exact IH'].
  constructor; [|exact IH'].
  intros Hin. apply list_elem_of_omap in Hin as (b & Hb & Eb).
  assert (a = b).
  { apply (Hinj a b z); [constructor|constructor; exact Hb|exact Ea|exact Eb]. }
  subst b. contradiction.
Qed.

Lemma valid_bounds (x y : Z) :
  PathControl.IsValidPosition x y = true <->
  0 <= x < PathControl.GRID_WIDTH /\ 0 <= y < PathControl.GRID_HEIGHT.
Proof.
  unfold PathControl.IsValidPosition.
  rewrite !andb_true_iff, !Z.leb_le, !Z.ltb_lt. lia.
Qed.

(** X19. [GetNeighbors] returns exactly the valid positions at
    Manhattan distance 1 from the cell, each once, at most four; in a
    grid of the constructor's shape each of them is a cell of the
    grid. *)
Theorem get_neighbors_spec (c : Pathfinding.GridCell)
    (g : list (list Pathfinding.GridCell)) :
  (forall r,
     r ∈ PathControl.GetNeighbors c <->
     exists nx ny,
       r = PathControl.ref nx ny /\
       PathControl.IsValidPosition nx ny = true /\
       Z.abs (nx - Pathfinding.x c) + Z.abs (ny - Pathfinding.y c) = 1) /\
  NoDup (PathControl.GetNeighbors c) /\
  (length (PathControl.GetNeighbors c) <= 4)%nat /\
  (PathControl.shaped g = true ->
   forall r, r ∈ PathControl.GetNeighbors c ->
             is_Some (PathControl.cell_at g r)).
Proof.
  assert (Hspec : forall r,
     r ∈ PathControl.GetNeighbors c <->
     exists nx ny,
       r = PathControl.ref nx ny /\
       PathControl.IsValidPosition nx ny = true /\
       Z.abs (nx - Pathfinding.x c) + Z.abs (ny - Pathfinding.y c) = 1).
  { intros r. unfold PathControl.GetNeighbors. rewrite list_elem_of_omap.
    unfold PathControl.GetCell. split.
    - intros ([dx dy] & Hd & Hget). simpl in Hget.
      destruct (PathControl.IsValidPosition _ _) eqn:Hv; [|discriminate].
      injection Hget as <-. eexists _, _. split; [reflexivity|].
      split; [exact Hv|].
      unfold PathControl.directions in Hd.
      repeat (apply elem_of_cons in Hd as [Hd|Hd];
              [injection Hd as -> ->; lia|]).
      apply elem_of_nil in Hd. contradiction.
    - intros (nx & ny & -> & Hv & Hdist).
      exists (nx - Pathfinding.x c, ny - Pathfinding.y c). simpl.
      replace (Pathfinding.x c + (nx - Pathfinding.x c)) with nx by lia.
      replace (Pathfinding.y c + (ny - Pathfinding.y c)) with ny by lia.
      rewrite Hv. split; [|reflexivity].
      unfold PathControl.directions.
      assert (Hcases :
        (nx - Pathfinding.x c = 0 /\ ny - Pathfinding.y c = 1) \/
        (nx - Pathfinding.x c = 1 /\ ny - Pathfinding.y c = 0) \/
        (nx - Pathfinding.x c = 0 /\ ny - Pathfinding.y c = -1) \/
        (nx - Pathfinding.x c = -1 /\ ny - Pathfinding.y c = 0)) by lia.
      destruct Hcases as [[-> ->]|[[-> ->]|[[-> ->]|[-> ->]]]];
        repeat constructor. }
  split; [exact Hspec|]. split; [|split].
  - unfold PathControl.GetNeighbors. apply NoDup_omap_inj.
    + intros [dx dy] [dx' dy'] z _ _. unfold PathControl.GetCell. simpl.
      destruct (PathControl.IsValidPosition _ _) eqn:Hv; [|discriminate].
      destruct (PathControl.IsValidPosition
                  (Pathfinding.x c + dx') _) eqn:Hv'; [|discriminate].
      apply valid_bounds in Hv, Hv'.
      unfold PathControl.ref. intros H1 H2.
      injection H1 as <-. injection H2 as Hy Hx. f_equal; lia.
    + unfold PathControl.directions.
      repeat (constructor; [rewrite ?elem_of_cons, elem_of_nil;
                            intros H; intuition congruence|]).
      constructor.
  - unfold PathControl.GetNeighbors, PathControl.directions. simpl.
    repeat (destruct (PathControl.GetCell _ _)); simpl; lia.
  - intros Hs r Hr. apply Hspec in Hr as (nx & ny & -> & Hv & _).
    apply valid_bounds in Hv.
    pose proof (shaped_cell g (PathControl.ref nx ny) Hs) as H.
    destruct (PathControl.cell_at g _); [eexists; reflexivity|].
    exfalso. apply H. unfold PathControl.ref. simpl.
    unfold PathControl.GRID_WIDTH, PathControl.GRID_HEIGHT in *. lia.
Qed.

Lemma timer_call_sane (c : Timer.Call * Z) (now : Z) (t : Timer.Timer) :
  Timer.sane now t -> now <= c.2 -> Timer.sane c.2 (Timer.call t c).
Proof.
  unfold Timer.sane, Timer.call. intros [Hs He] Hle.
  destruct c as [[| |] at_]; simpl in *.
  - split; [lia|discriminate].
  - unfold Timer.Stop. destruct (Timer.m_running t) eqn:Er; simpl.
    + split; [lia|]. intros _. lia.
    + split; [lia|]. intros _. specialize (He eq_refl). lia.
  - split; [lia|]. intros _. lia.
Qed.

Lemma timer_calls_sane (cs : list (Timer.Call * Z)) :
  forall (from : Z) (t : Timer.Timer),
    Timer.sane from t -> Timer.monotone from cs = true ->
    Timer.sane (Timer.last_reading from cs) (Timer.calls cs t) /\
    from <= Timer.last_reading from cs.
Proof.
  induction cs as [|c cs IH]; intros from t Hs Hm; simpl.
  - split; [exact Hs|]. unfold Timer.last_reading. simpl. lia.
  - simpl in Hm. apply andb_prop in Hm as [Hle Hm]. apply Z.leb_le in Hle.
    destruct (IH c.2 (Timer.call t c) (timer_call_sane c from t Hs Hle) Hm)
      as [Hs' Hl'].
    unfold Timer.last_reading in *. simpl. split; [exact Hs'|lia].
Qed.

(** X21. Whatever calls of Start, Stop and Reset are made on a fresh
    timer, with a clock that starts at or after the epoch and never
    runs backwards, GetElapsed is not negative when read at or after
    the last call. *)
Theorem timer_elapsed_nonnegative (cs : list (Timer.Call * Z)) (now : Z) :
  Timer.monotone 0 cs = true ->
  Timer.last_reading 0 cs <= now ->
  0 <= Timer.GetElapsed now (Timer.calls cs Timer.fresh).
Proof.
  intros Hm Hnow.
  destruct (timer_calls_sane cs 0 Timer.fresh) as [[Hs He] _];
    [split; simpl; [lia|intros _; lia]|exact Hm|].
  unfold Timer.GetElapsed.
  destruct (Timer.m_running _); [lia|]. specialize (He eq_refl). lia.
Qed.

Lemma timer_elapsed_nonnegative_witness :
  0 <= Timer.GetElapsed 31 (Timer.calls Timer.morning Timer.fresh).
Proof.
  apply (timer_elapsed_nonnegative Timer.morning 31).
  - vm_compute. reflexivity.
  - vm_compute. discriminate.
Defined.

(** X22. Once Stop has been called, the reading is frozen: GetElapsed
    returns the same value whenever it is read, a second Stop changes
    nothing, and for a timer that was running the value is the time
    between its Start and that Stop. *)
Theorem timer_stop_freezes (t : Timer.Timer)
    (started stopped later now now' : Z) :
  Timer.GetElapsed now (Timer.Stop stopped t)
  = Timer.GetElapsed now' (Timer.Stop stopped t) /\
  Timer.Stop later (Timer.Stop stopped t) = Timer.Stop stopped t /\
  Timer.IsRunning (Timer.Stop stopped t) = false /\
  Timer.GetElapsed now (Timer.Stop stopped (Timer.Start started t))
  = stopped - started.
Proof.
  unfold Timer.GetElapsed, Timer.Stop, Timer.IsRunning, Timer.Start.
  destruct (Timer.m_running t) eqn:Er; simpl; rewrite ?Er; simpl;
    repeat split; try reflexivity; lia.
Qed.

(** ** Binary search tree *)

Lemma tree_visualizer_ext (v w : Tree.Visualizer) :
  Tree.m_root v = Tree.m_root w ->
  Tree.m_heap v = Tree.m_heap w ->
  Tree.m_steps v = Tree.m_steps w ->
  Tree.m_currentAlgorithm v = Tree.m_currentAlgorithm w ->
  Tree.m_currentStep v = Tree.m_currentStep w ->
  Tree.m_isRunning v = Tree.m_isRunning w ->
  Tree.m_isComplete v = Tree.m_isComplete w ->
  Tree.m_nodeCount v = Tree.m_nodeCount w ->
  Tree.m_comparisons v = Tree.m_comparisons w ->
  Tree.m_traversalResult v = Tree.m_traversalResult w ->
  v = w.
Proof. destruct v, w. simpl. intros. subst. reflexivity. Qed.

Lemma logged_nil (v : Tree.Visualizer) : Tree.logged [] 0 v = v.
Proof.
  apply tree_visualizer_ext; try reflexivity.
  - apply app_nil_r.
  - apply Z.add_0_r.
Qed.

Lemma logged_app (e1 e2 : list string) (k1 k2 : Z) (v : Tree.Visualizer) :
  Tree.logged e2 k2 (Tree.logged e1 k1 v) = Tree.logged (e1 ++ e2) (k1 + k2) v.
Proof.
  apply tree_visualizer_ext; try reflexivity.
  - symmetry. apply app_assoc.
  - symmetry. apply Z.add_assoc.
Qed.

Lemma record_logged (d : string) (v : Tree.Visualizer) :
  Tree.RecordStep d v = Tree.logged [d] 0 v.
Proof.
  apply tree_visualizer_ext; try reflexivity.
  symmetry. apply Z.add_0_r.
Qed.

Lemma count_logged (v : Tree.Visualizer) :
  Tree.count v = Tree.logged [] 1 v.
Proof.
  apply tree_visualizer_ext; try reflexivity.
  symmetry. apply app_nil_r.
Qed.

Lemma height_nonneg (t : Tree.TreeNode) : 0 <= Tree.height t.
Proof. induction t; simpl; lia. Qed.

Lemma bst_insert_spec (t : Tree.TreeNode) (value : Z) :
  forall v : Tree.Visualizer,
    exists extra k,
      snd (Tree.BSTInsert t value v) = Tree.logged extra k v /\
      0 <= k <= Tree.height t /\
      (forall z, z ∈ Tree.elements (fst (Tree.BSTInsert t value v))
                 <-> z = value \/ z ∈ Tree.elements t) /\
      (Tree.bst t -> Tree.bst (fst (Tree.BSTInsert t value v))) /\
      (value ∈ Tree.elements t -> Tree.bst t ->
       fst (Tree.BSTInsert t value v) = t).
Proof.
  induction t as [|l IHl x r IHr]; intros v.
  - simpl. eexists _, 0. split; [apply record_logged|].
    split; [lia|]. split; [|split].
    + intros z. rewrite list_elem_of_singleton, elem_of_nil. tauto.
    + intros _. repeat split; constructor.
    + intros H. apply elem_of_nil in H. contradiction.
  - cbn [Tree.BSTInsert].
    set (v1 := Tree.count (Tree.RecordStep _ v)).
    assert (Hv1 : exists d, v1 = Tree.logged [d] 1 v).
    { eexists. unfold v1. rewrite record_logged, count_logged, logged_app.
      reflexivity. }
    destruct Hv1 as [d Hv1]. clearbody v1.
    cbn [Tree.height Tree.elements Tree.bst].
    destruct (value <? x) eqn:Hlt.
    + apply Z.ltb_lt in Hlt.
      set (v2 := Tree.RecordStep _ v1).
      destruct (IHl v2) as (extra & k & Hsnd & Hk & Hmem & Hbst & Hsame).
      destruct (Tree.BSTInsert l value v2) as [l' v'] eqn:E.
      cbn [fst snd Tree.elements Tree.bst] in *.
      eexists _, _. split.
      { rewrite Hsnd. unfold v2. rewrite record_logged, Hv1, !logged_app.
        reflexivity. }
      split; [lia|]. split; [|split].
      * intros z. rewrite !elem_of_app, !elem_of_cons, Hmem. tauto.
      * intros (Bl & Br & Fl & Fr). repeat split; auto.
        apply Forall_forall. intros z Hz. apply Hmem in Hz as [->|Hz];
          [exact Hlt|]. rewrite Forall_forall in Fl. auto.
      * intros Hin (Bl & Br & Fl & Fr). f_equal. apply Hsame; [|exact Bl].
        apply elem_of_app in Hin as [Hin|Hin]; [exact Hin|].
        apply elem_of_cons in Hin as [->|Hin]; [lia|].
        rewrite Forall_forall in Fr. specialize (Fr _ Hin). lia.
    + apply Z.ltb_ge in Hlt.
      destruct (x <? value) eqn:Hgt.
      * apply Z.ltb_lt in Hgt.
        set (v2 := Tree.RecordStep _ v1).
        destruct (IHr v2) as (extra & k & Hsnd & Hk & Hmem & Hbst & Hsame).
        destruct (Tree.BSTInsert r value v2) as [r' v'] eqn:E.
        cbn [fst snd Tree.elements Tree.bst] in *.
        eexists _, _. split.
        { rewrite Hsnd. unfold v2. rewrite record_logged, Hv1, !logged_app.
          reflexivity. }
        split; [lia|]. split; [|split].
        -- intros z. rewrite !elem_of_app, !elem_of_cons, Hmem. tauto.
        -- intros (Bl & Br & Fl & Fr). repeat split; auto.
           apply Forall_forall. intros z Hz. apply Hmem in Hz as [->|Hz];
             [exact Hgt|]. rewrite Forall_forall in Fr. auto.
        -- intros Hin (Bl & Br & Fl & Fr). f_equal. apply Hsame; [|exact Br].
           apply elem_of_app in Hin as [Hin|Hin].
           { rewrite Forall_forall in Fl. specialize (Fl _ Hin). lia. }
           apply elem_of_cons in Hin as [->|Hin]; [lia|exact Hin].
      * apply Z.ltb_ge in Hgt. assert (value = x) as -> by lia.
        cbn [fst snd Tree.elements Tree.bst]. eexists _, _.
        split; [exact Hv1|].
        pose proof (height_nonneg l). pose proof (height_nonneg r).
        split; [cbn [Tree.height]; lia|]. split; [|split].
        -- intros z. rewrite !elem_of_app, !elem_of_cons. tauto.
        -- auto.
        -- reflexivity.
Qed.

Lemma leftmost_least (l : Tree.TreeNode) :
  forall (x : Z) (r : Tree.TreeNode),
    Tree.bst (Tree.Node l x r) ->
    Tree.leftmost l x ∈ Tree.elements (Tree.Node l x r) /\
    forall z, z ∈ Tree.elements (Tree.Node l x r) ->
              z = Tree.leftmost l x \/ Tree.leftmost l x < z.
Proof.
  induction l as [|l' IHl x' r' _]; intros x r (Bl & Br & Fl & Fr).
  - simpl. split; [constructor|].
    intros z Hz. apply elem_of_cons in Hz as [->|Hz]; [left; reflexivity|].
    right. rewrite Forall_forall in Fr. auto.
  - destruct (IHl x' r' Bl) as [Hin Hleast].
    cbn [Tree.leftmost]. cbn [Tree.elements] in *.
    rewrite Forall_forall in Fl, Fr.
    split; [apply elem_of_app; left; exact Hin|].
    intros z Hz. apply elem_of_app in Hz as [Hz|Hz]; [auto|].
    specialize (Fl _ Hin).
    apply elem_of_cons in Hz as [->|Hz]; [right; exact Fl|].
    specialize (Fr _ Hz). right. lia.
Qed.

Lemma bst_delete_spec (t : Tree.TreeNode) :
  forall (value : Z) (v : Tree.Visualizer),
    exists extra k,
      snd (Tree.BSTDelete t value v) = Tree.logged extra k v /\
      0 <= k <= Tree.height t /\
      (Tree.bst t ->
       Tree.bst (fst (Tree.BSTDelete t value v)) /\
       forall z, z ∈ Tree.elements (fst (Tree.BSTDelete t value v))
                 <-> z ∈ Tree.elements t /\ z <> value) /\
      (value ∉ Tree.elements t -> fst (Tree.BSTDelete t value v) = t).
Proof.
  induction t as [|l IHl x r IHr]; intros value v.
  - simpl. eexists _, 0. split; [apply record_logged|].
    split; [lia|]. split; [|reflexivity].
    intros _. split; [exact I|]. intros z. rewrite elem_of_nil. tauto.
  - cbn [Tree.BSTDelete].
    set (v1 := Tree.count (Tree.RecordStep _ v)).
    assert (Hv1 : exists d, v1 = Tree.logged [d] 1 v).
    { eexists. unfold v1. rewrite record_logged, count_logged, logged_app.
      reflexivity. }
    destruct Hv1 as [d Hv1]. clearbody v1.
    pose proof (height_nonneg l) as Hhl. pose proof (height_nonneg r) as Hhr.
    destruct (value <? x) eqn:Hlt.
    + apply Z.ltb_lt in Hlt.
      destruct (IHl value v1) as (extra & k & Hsnd & Hk & Hbst & Hsame).
      destruct (Tree.BSTDelete l value v1) as [l' v'] eqn:E.
      cbn [fst snd Tree.elements Tree.bst Tree.height] in *.
      eexists _, _. split; [rewrite Hsnd, Hv1, logged_app; reflexivity|].
      split; [lia|]. split.
      * intros (Bl & Br & Fl & Fr). destruct (Hbst Bl) as [Bl' Hmem].
        rewrite Forall_forall in Fl, Fr.
        split.
        { split; [exact Bl'|]. split; [exact Br|].
          split; apply Forall_forall; [|exact Fr].
          intros z Hz. apply Hmem in Hz as [Hz _]. auto. }
        intros z. rewrite !elem_of_app, !elem_of_cons, Hmem.
        assert (Hr : z ∈ Tree.elements r -> z <> value)
          by (intros Hz ->; specialize (Fr _ Hz); lia).
        assert (Hx : z = x -> z <> value) by lia.
        tauto.
      * intros Hnot. f_equal. apply Hsame. intros Hin. apply Hnot.
        apply elem_of_app. left. exact Hin.
    + apply Z.ltb_ge in Hlt.
      destruct (x <? value) eqn:Hgt.
      * apply Z.ltb_lt in Hgt.
        destruct (IHr value v1) as (extra & k & Hsnd & Hk & Hbst & Hsame).
        destruct (Tree.BSTDelete r value v1) as [r' v'] eqn:E.
        cbn [fst snd Tree.elements Tree.bst Tree.height] in *.
        eexists _, _. split; [rewrite Hsnd, Hv1, logged_app; reflexivity|].
        split; [lia|]. split.
        -- intros (Bl & Br & Fl & Fr). destruct (Hbst Br) as [Br' Hmem].
           rewrite Forall_forall in Fl, Fr.
           split.
           { split; [exact Bl|]. split; [exact Br'|].
             split; apply Forall_forall; [exact Fl|].
             intros z Hz. apply Hmem in Hz as [Hz _]. auto. }
           intros z. rewrite !elem_of_app, !elem_of_cons, Hmem.
           assert (Hl : z ∈ Tree.elements l -> z <> value)
             by (intros Hz ->; specialize (Fl _ Hz); lia).
           assert (Hx : z = x -> z <> value) by lia.
           tauto.
        -- intros Hnot. f_equal. apply Hsame. intros Hin. apply Hnot.
           apply elem_of_app. right. right. exact Hin.
      * apply Z.ltb_ge in Hgt. assert (value = x) as -> by lia.
        set (v2 := Tree.RecordStep _ v1).
        assert (Hv2 : exists d', v2 = Tree.logged [d; d'] 1 v).
        { eexists. unfold v2. rewrite record_logged, Hv1, logged_app.
          reflexivity. }
        destruct Hv2 as [d' Hv2]. clearbody v2.
        assert (Hgone : x ∉ Tree.elements (Tree.Node l x r) -> False).
        { intros H. apply H. cbn [Tree.elements].
          apply elem_of_app. right. left. }
        destruct l as [|ll lx lr].
        { cbn [fst snd]. eexists _, _. split; [exact Hv2|].
          cbn [Tree.height] in *. split; [lia|]. split.
          - intros (_ & Br & _ & Fr). split; [exact Br|].
            rewrite Forall_forall in Fr.
            intros z. cbn [Tree.elements]. rewrite app_nil_l, elem_of_cons.
            assert (Hr : z ∈ Tree.elements r -> z <> x)
              by (intros Hz ->; specialize (Fr _ Hz); lia).
            tauto.
          - intros H. exfalso. exact (Hgone H). }
        destruct r as [|rl rx rr].
        { cbn [fst snd]. eexists _, _. split; [exact Hv2|].
          cbn [Tree.height] in *. split; [lia|]. split.
          - intros (Bl & _ & Fl & _). split; [exact Bl|].
            rewrite Forall_forall in Fl.
            intros z.
            change (Tree.elements (Tree.Node (Tree.Node ll lx lr) x Tree.Null))
              with (Tree.elements (Tree.Node ll lx lr) ++ [x]).
            rewrite !elem_of_app, list_elem_of_singleton.
            assert (Hl : z ∈ Tree.elements (Tree.Node ll lx lr) -> z <> x)
              by (intros Hz ->; specialize (Fl _ Hz); lia).
            tauto.
          - intros H. exfalso. exact (Hgone H). }
        set (m := Tree.leftmost rl rx).
        set (rt := Tree.Node rl rx rr) in *.
        set (lt := Tree.Node ll lx lr) in *.
        destruct (IHr m v2) as (extra & k & Hsnd & Hk & Hbst & Hsame).
        destruct (Tree.BSTDelete rt m v2) as [r' v'] eqn:E.
        cbn [fst snd] in *.
        eexists _, _. split; [rewrite Hsnd, Hv2, logged_app; reflexivity|].
        split.
        { cbn [Tree.height]. fold lt rt. lia. }
        split.
        -- intros (Bl & Br & Fl & Fr). destruct (Hbst Br) as [Br' Hmem].
           destruct (leftmost_least rl rx rr Br) as [Hmin Hleast].
           fold m rt in Hmin, Hleast.
           rewrite Forall_forall in Fl, Fr.
           split.
           { cbn [Tree.bst]. split; [exact Bl|]. split; [exact Br'|].
             split; apply Forall_forall.
             - intros z Hz.
               specialize (Fl _ Hz). specialize (Fr _ Hmin). lia.
             - intros z Hz. apply Hmem in Hz as [Hz Hne].
               destruct (Hleast z Hz) as [->|Hlt'];
                 [contradiction|exact Hlt']. }
           intros z.
           change (Tree.elements (Tree.Node lt m r'))
             with (Tree.elements lt ++ m :: Tree.elements r').
           change (Tree.elements (Tree.Node lt x rt))
             with (Tree.elements lt ++ x :: Tree.elements rt).
           rewrite !elem_of_app, !elem_of_cons, Hmem.
           assert (Hl : z ∈ Tree.elements lt -> z <> x)
             by (intros Hz ->; specialize (Fl _ Hz); lia).
           assert (Hr : z ∈ Tree.elements rt -> z <> x)
             by (intros Hz ->; specialize (Fr _ Hz); lia).
           assert (Hm : z = m -> z ∈ Tree.elements rt) by (intros ->; exact Hmin).
           destruct (decide (z = m)) as [Hzm|Hzm]; tauto.
        -- intros H. exfalso. exact (Hgone H).
Qed.

Lemma bst_search_spec (t : Tree.TreeNode) (value : Z) :
  forall v : Tree.Visualizer,
    exists extra k,
      snd (Tree.BSTSearch t value v) = Tree.logged extra k v /\
      0 <= k <= Tree.height t /\
      match fst (Tree.BSTSearch t value v) with
      | Tree.Null => Tree.bst t -> value ∉ Tree.elements t
      | Tree.Node _ x _ => x = value /\ value ∈ Tree.elements t
      end.
Proof.
  induction t as [|l IHl x r IHr]; intros v.
  - simpl. exists [], 0. split; [symmetry; apply logged_nil|].
    split; [lia|]. intros _. apply not_elem_of_nil.
  - cbn [Tree.BSTSearch].
    pose proof (height_nonneg l) as Hhl. pose proof (height_nonneg r) as Hhr.
    destruct (x =? value) eqn:Heq.
    + apply Z.eqb_eq in Heq. subst x. cbn [fst snd].
      eexists _, 0. split; [apply record_logged|].
      split; [cbn [Tree.height]; lia|]. split; [reflexivity|].
      cbn [Tree.elements]. apply elem_of_app. right. left.
    + apply Z.eqb_neq in Heq.
      set (v1 := Tree.count (Tree.RecordStep _ v)).
      assert (Hv1 : exists d, v1 = Tree.logged [d] 1 v).
      { eexists. unfold v1. rewrite record_logged, count_logged, logged_app.
        reflexivity. }
      destruct Hv1 as [d Hv1]. clearbody v1.
      destruct (value <? x) eqn:Hlt.
      * apply Z.ltb_lt in Hlt.
        set (v2 := Tree.RecordStep _ v1).
        destruct (IHl v2) as (extra & k & Hsnd & Hk & Hres).
        eexists _, _. split.
        { rewrite Hsnd. unfold v2. rewrite record_logged, Hv1, !logged_app.
          reflexivity. }
        split; [cbn [Tree.height]; lia|].
        destruct (fst (Tree.BSTSearch l value v2)) as [|fl fx fr].
        -- intros (Bl & Br & Fl & Fr) Hin. cbn [Tree.elements] in Hin.
           rewrite Forall_forall in Fr.
           apply elem_of_app in Hin as [Hin|Hin]; [exact (Hres Bl Hin)|].
           apply elem_of_cons in Hin as [->|Hin]; [lia|].
           specialize (Fr _ Hin). lia.
        -- destruct Hres as [-> Hin]. split; [reflexivity|].
           cbn [Tree.elements]. apply elem_of_app. left. exact Hin.
      * apply Z.ltb_ge in Hlt.
        set (v2 := Tree.RecordStep _ v1).
        destruct (IHr v2) as (extra & k & Hsnd & Hk & Hres).
        eexists _, _. split.
        { rewrite Hsnd. unfold v2. rewrite record_logged, Hv1, !logged_app.
          reflexivity. }
        split; [cbn [Tree.height]; lia|].
        destruct (fst (Tree.BSTSearch r value v2)) as [|fl fx fr].
        -- intros (Bl & Br & Fl & Fr) Hin. cbn [Tree.elements] in Hin.
           rewrite Forall_forall in Fl.
           apply elem_of_app in Hin as [Hin|Hin];
             [specialize (Fl _ Hin); lia|].
           apply elem_of_cons in Hin as [->|Hin]; [lia|].
           exact (Hres Br Hin).
        -- destruct Hres as [-> Hin]. split; [reflexivity|].
           cbn [Tree.elements]. apply elem_of_app. right. right. exact Hin.
Qed.

Lemma inorder_spec (t : Tree.TreeNode) :
  forall (result : list Z) (v : Tree.Visualizer),
    Tree.InorderTraversal t (result, v)
    = (result ++ Tree.elements t,
       Tree.logged
         (map (fun x => "Visiting node " +:+ pretty x) (Tree.elements t)) 0 v).
Proof.
  induction t as [|l IHl x r IHr]; intros result v.
  - simpl. rewrite app_nil_r, logged_nil. reflexivity.
  - cbn [Tree.InorderTraversal Tree.elements].
    rewrite IHl, record_logged, logged_app, IHr, logged_app.
    rewrite map_app. simpl. rewrite <- !app_assoc. reflexivity.
Qed.

Lemma bst_sorted (t : Tree.TreeNode) :
  Tree.bst t -> StronglySorted Z.lt (Tree.elements t).
Proof.
  induction t as [|l IHl x r IHr]; [constructor|].
  intros (Bl & Br & Fl & Fr). cbn [Tree.elements].
  rewrite Forall_forall in Fl, Fr.
  apply StronglySorted_app_2.
  - intros a b Ha Hb. specialize (Fl _ Ha).
    apply elem_of_cons in Hb as [->|Hb]; [exact Fl|].
    specialize (Fr _ Hb). lia.
  - apply IHl, Bl.
  - constructor; [apply IHr, Br|]. apply Forall_forall. exact Fr.
Qed.

(** X23. On a search tree, [InsertValue] returns a search tree that
    holds the value and what the tree held before, and nothing else;
    it counts at most as many comparisons as the tree is high, and,
    besides pushing steps and incrementing [m_nodeCount], changes no
    other member. *)
Theorem insert_value_keeps_search_tree (value : Z) (v : Tree.Visualizer) :
  Tree.is_heap (Tree.m_currentAlgorithm v) = false ->
  Tree.bst (Tree.m_root v) ->
  exists root extra k,
    Tree.InsertValue value v
    = Some (Tree.set_nodeCount (Tree.m_nodeCount v + 1)
              (Tree.set_root root (Tree.logged extra k v))) /\
    Tree.bst root /\
    (forall z, z ∈ Tree.elements root
               <-> z = value \/ z ∈ Tree.elements (Tree.m_root v)) /\
    0 <= k <= Tree.height (Tree.m_root v).
Proof.
  intros Halg Hbst. unfold Tree.InsertValue. rewrite Halg.
  destruct (bst_insert_spec (Tree.m_root v) value v)
    as (extra & k & Hsnd & Hk & Hmem & Hb & _).
  destruct (Tree.BSTInsert (Tree.m_root v) value v) as [root v'].
  cbn [fst snd] in *. subst v'.
  exists root, extra, k. split; [reflexivity|]. auto.
Qed.

Lemma insert_value_keeps_search_tree_witness :
  exists root extra k,
    Tree.InsertValue 7 Tree.five
    = Some (Tree.set_nodeCount (Tree.m_nodeCount Tree.five + 1)
              (Tree.set_root root (Tree.logged extra k Tree.five))) /\
    Tree.bst root /\
    (forall z, z ∈ Tree.elements root
               <-> z = 7 \/ z ∈ Tree.elements (Tree.m_root Tree.five)) /\
    0 <= k <= Tree.height (Tree.m_root Tree.five).
Proof.
  apply (insert_value_keeps_search_tree 7 Tree.five).
  - reflexivity.
  - simpl. repeat split; repeat constructor.
Defined.

(** X24. On a search tree, [DeleteValue] returns a search tree that
    holds what the tree held before except the value; it counts at
    most as many comparisons as the tree is high. *)
Theorem delete_value_keeps_search_tree (value : Z) (v : Tree.Visualizer) :
  Tree.is_heap (Tree.m_currentAlgorithm v) = false ->
  Tree.bst (Tree.m_root v) ->
  exists v' extra k,
    Tree.DeleteValue value v = Some v' /\
    Tree.bst (Tree.m_root v') /\
    (forall z, z ∈ Tree.elements (Tree.m_root v')
               <-> z ∈ Tree.elements (Tree.m_root v) /\ z <> value) /\
    Tree.m_steps v' = Tree.m_steps v ++ extra /\
    Tree.m_comparisons v' = Tree.m_comparisons v + k /\
    0 <= k <= Tree.height (Tree.m_root v).
Proof.
  intros Halg Hbst. unfold Tree.DeleteValue. rewrite Halg.
  destruct (bst_delete_spec (Tree.m_root v) value v)
    as (extra & k & Hsnd & Hk & Hb & _).
  destruct (Hb Hbst) as [Hb' Hmem].
  destruct (Tree.BSTDelete (Tree.m_root v) value v) as [root v'].
  cbn [fst snd] in *. subst v'.
  eexists _, extra, k. split; [reflexivity|].
  destruct (0 <? _); simpl; auto.
Qed.

Lemma delete_value_keeps_search_tree_witness :
  exists v' extra k,
    Tree.DeleteValue 3 Tree.five = Some v' /\
    Tree.bst (Tree.m_root v') /\
    (forall z, z ∈ Tree.elements (Tree.m_root v')
               <-> z ∈ Tree.elements (Tree.m_root Tree.five) /\ z <> 3) /\
    Tree.m_steps v' = Tree.m_steps Tree.five ++ extra /\
    Tree.m_comparisons v' = Tree.m_comparisons Tree.five + k /\
    0 <= k <= Tree.height (Tree.m_root Tree.five).
Proof.
  apply (delete_value_keeps_search_tree 3 Tree.five).
  - reflexivity.
  - simpl. repeat split; repeat constructor.
Defined.

(** X25. [m_nodeCount] is not the number of nodes: inserting a value
    the search tree already holds leaves the tree as it is and still
    adds 1 to the counter, and deleting a value it does not hold
    leaves the tree as it is and still takes 1 off a positive
    counter. *)
Theorem node_count_drifts (value : Z) (v : Tree.Visualizer) :
  Tree.is_heap (Tree.m_currentAlgorithm v) = false ->
  Tree.bst (Tree.m_root v) ->
  (value ∈ Tree.elements (Tree.m_root v) ->
   exists v', Tree.InsertValue value v = Some v' /\
              Tree.m_root v' = Tree.m_root v /\
              Tree.m_nodeCount v' = Tree.m_nodeCount v + 1) /\
  (value ∉ Tree.elements (Tree.m_root v) ->
   exists v', Tree.DeleteValue value v = Some v' /\
              Tree.m_root v' = Tree.m_root v /\
              Tree.m_nodeCount v'
              = (if 0 <? Tree.m_nodeCount v
                 then Tree.m_nodeCount v - 1 else Tree.m_nodeCount v)).
Proof.
  intros Halg Hbst. split; intros Hin.
  - unfold Tree.InsertValue. rewrite Halg.
    destruct (bst_insert_spec (Tree.m_root v) value v)
      as (extra & k & Hsnd & _ & _ & _ & Hsame).
    specialize (Hsame Hin Hbst).
    destruct (Tree.BSTInsert (Tree.m_root v) value v) as [root v'].
    cbn [fst snd] in *. subst v' root.
    eexists. split; [reflexivity|]. split; reflexivity.
  - unfold Tree.DeleteValue. rewrite Halg.
    destruct (bst_delete_spec (Tree.m_root v) value v)
      as (extra & k & Hsnd & _ & _ & Hsame).
    specialize (Hsame Hin).
    destruct (Tree.BSTDelete (Tree.m_root v) value v) as [root v'].
    cbn [fst snd] in *. subst v' root.
    eexists. split; [reflexivity|].
    change (Tree.m_nodeCount (Tree.set_root _ (Tree.logged extra k v)))
      with (Tree.m_nodeCount v).
    destruct (0 <? Tree.m_nodeCount v) eqn:E1; split; reflexivity.
Qed.

Lemma node_count_drifts_witness :
  exists v', Tree.InsertValue 7 Tree.seven = Some v' /\
             Tree.m_root v' = Tree.m_root Tree.seven /\
             Tree.m_nodeCount v' = Tree.m_nodeCount Tree.seven + 1.
Proof.
  apply (node_count_drifts 7 Tree.seven).
  - reflexivity.
  - simpl. repeat split; constructor.
  - simpl. repeat constructor.
Defined.

(** X26. On a search tree, [SearchValue] hands back a node exactly
    when the tree holds the value, and that node carries the value;
    it starts from an empty log and a zeroed counter, counts at most
    as many comparisons as the tree is high, and ends the log with the
    matching verdict. *)
Theorem search_value_correct (value : Z) (v : Tree.Visualizer) :
  Tree.bst (Tree.m_root v) ->
  (match snd (Tree.SearchValue value v) with
   | Tree.Null =>
       (value ∉ Tree.elements (Tree.m_root v)) /\
       last (Tree.m_steps (fst (Tree.SearchValue value v)))
       = Some ("Value " +:+ pretty value +:+ " not found in tree")
   | Tree.Node _ x _ =>
       x = value /\ value ∈ Tree.elements (Tree.m_root v) /\
       last (Tree.m_steps (fst (Tree.SearchValue value v)))
       = Some ("Found value " +:+ pretty value +:+ " in tree!")
   end) /\
  head (Tree.m_steps (fst (Tree.SearchValue value v)))
  = Some ("Searching for value " +:+ pretty value) /\
  0 <= Tree.m_comparisons (fst (Tree.SearchValue value v))
    <= Tree.height (Tree.m_root v) /\
  Tree.m_root (fst (Tree.SearchValue value v)) = Tree.m_root v.
Proof.
  intros Hbst. unfold Tree.SearchValue.
  set (v0 := Tree.RecordStep _ _).
  change (Tree.m_root v0) with (Tree.m_root v).
  destruct (bst_search_spec (Tree.m_root v) value v0)
    as (extra & k & Hsnd & Hk & Hres).
  destruct (Tree.BSTSearch (Tree.m_root v) value v0) as [result v'].
  cbn [fst snd] in *. subst v'.
  destruct result as [|fl fx fr]; cbn [fst snd].
  - split; [split; [exact (Hres Hbst)|]|].
    + rewrite record_logged, logged_app. simpl. rewrite app_comm_cons.
      apply last_snoc.
    + split; [reflexivity|]. split; [simpl; lia|reflexivity].
  - destruct Hres as [-> Hin]. split; [split; [reflexivity|split; [exact Hin|]]|].
    + rewrite record_logged, logged_app. simpl. rewrite app_comm_cons.
      apply last_snoc.
    + split; [reflexivity|]. split; [simpl; lia|reflexivity].
Qed.

Lemma search_value_correct_witness :
  Tree.m_root (fst (Tree.SearchValue 7 Tree.seven)) = Tree.m_root Tree.seven.
Proof.
  apply (search_value_correct 7 Tree.seven).
  simpl. repeat split; constructor.
Defined.

(** X27. [TraverseTree] leaves in [m_traversalResult] the values of
    the tree from left to right, which for a search tree is strictly
    ascending order; on a non-empty tree it logs one step per node
    between an opening and a closing step, and on an empty tree
    nothing. *)
Theorem traverse_tree_in_order (v : Tree.Visualizer) :
  Tree.m_traversalResult (Tree.TraverseTree v) = Tree.elements (Tree.m_root v) /\
  (Tree.bst (Tree.m_root v) ->
   StronglySorted Z.lt (Tree.m_traversalResult (Tree.TraverseTree v))) /\
  Tree.m_steps (Tree.TraverseTree v)
  = (match Tree.m_root v with
     | Tree.Null => []
     | _ =>
         "Starting in-order traversal"
         :: map (fun x => "Visiting node " +:+ pretty x)
              (Tree.elements (Tree.m_root v))
         ++ ["Traversal completed"]
     end) /\
  Tree.m_root (Tree.TraverseTree v) = Tree.m_root v.
Proof.
  assert (H : Tree.m_traversalResult (Tree.TraverseTree v)
              = Tree.elements (Tree.m_root v) /\
              Tree.m_steps (Tree.TraverseTree v)
              = (match Tree.m_root v with
                 | Tree.Null => []
                 | _ =>
                     "Starting in-order traversal"
                     :: map (fun x => "Visiting node " +:+ pretty x)
                          (Tree.elements (Tree.m_root v))
                     ++ ["Traversal completed"]
                 end) /\
              Tree.m_root (Tree.TraverseTree v) = Tree.m_root v).
  { unfold Tree.TraverseTree.
    set (v0 := Tree.ResetVisualization (Tree.set_traversalResult [] v)).
    change (Tree.m_root v0) with (Tree.m_root v).
    destruct (Tree.m_root v) as [|l x r] eqn:Er.
    - repeat split. simpl. exact Er.
    - rewrite inorder_spec. cbn [fst snd].
      rewrite !record_logged, !logged_app.
      repeat split. simpl. exact Er. }
  destruct H as (Hres & Hsteps & Hroot).
  split; [exact Hres|]. split; [|split; assumption].
  intros Hbst. rewrite Hres. apply bst_sorted, Hbst.
Qed.


(** ** Heap *)

Lemma parent_lt (i : nat) : (0 < i)%nat -> (Tree.parent_of i < i)%nat.
Proof.
  intros. unfold Tree.parent_of.
  pose proof (Nat.div_mod (i - 1) 2 ltac:(lia)).
  pose proof (Nat.mod_upper_bound (i - 1) 2 ltac:(lia)). lia.
Qed.

Lemma parent_children (i k : nat) :
  (0 < i)%nat ->
  Tree.parent_of i = k <-> i = (2 * k + 1)%nat \/ i = (2 * k + 2)%nat.
Proof.
  intros. unfold Tree.parent_of.
  pose proof (Nat.div_mod (i - 1) 2 ltac:(lia)).
  pose proof (Nat.mod_upper_bound (i - 1) 2 ltac:(lia)). lia.
Qed.

Lemma in_order_trans (a : Tree.TreeAlgorithm) (x y z : Z) :
  Tree.in_order a x y -> Tree.in_order a y z -> Tree.in_order a x z.
Proof. unfold Tree.in_order. destruct a; lia. Qed.

Lemma in_order_refl (a : Tree.TreeAlgorithm) (x : Z) : Tree.in_order a x x.
Proof. unfold Tree.in_order. destruct a; lia. Qed.

Lemma heapify_up_spec (fuel : nat) :
  forall (index : nat) (v : Tree.Visualizer),
    (index < fuel)%nat ->
    (index < length (Tree.m_heap v))%nat ->
    Tree.rising (Tree.m_currentAlgorithm v) (Tree.m_heap v) index ->
    exists h extra,
      Tree.HeapifyUp fuel index v
      = Some (Tree.set_heap h (Tree.logged extra 0 v)) /\
      Tree.heap_ok (Tree.m_currentAlgorithm v) h /\
      h ≡ₚ Tree.m_heap v.
Proof.
  induction fuel as [|fuel IH]; intros index v Hfuel Hlen [Hrest Hkids];
    [lia|].
  cbn [Tree.HeapifyUp].
  destruct (index =? 0)%nat eqn:E0.
  - apply Nat.eqb_eq in E0. subst index.
    exists (Tree.m_heap v), []. split.
    { f_equal. apply tree_visualizer_ext; try reflexivity.
      - symmetry. apply app_nil_r.
      - symmetry. apply Z.add_0_r. }
    split; [|reflexivity].
    intros i Hi Hil. apply Hrest; lia.
  - apply Nat.eqb_neq in E0.
    fold (Tree.parent_of index).
    set (p := Tree.parent_of index) in *.
    assert (Hp : (p < index)%nat) by (apply parent_lt; lia).
    set (a := Tree.m_currentAlgorithm v) in *.
    set (h := Tree.m_heap v) in *.
    assert (Hswap :
      (match a with
       | Tree.MinHeap => h !!! index <? h !!! p
       | _ => h !!! p <? h !!! index
       end) = false -> Tree.in_order a (h !!! p) (h !!! index)).
    { unfold Tree.in_order. destruct a; intros H;
        apply Z.ltb_ge in H; lia. }
    assert (Hstrict :
      (match a with
       | Tree.MinHeap => h !!! index <? h !!! p
       | _ => h !!! p <? h !!! index
       end) = true -> Tree.in_order a (h !!! index) (h !!! p)).
    { unfold Tree.in_order. destruct a; intros H;
        apply Z.ltb_lt in H; lia. }
    destruct (match a with
              | Tree.MinHeap => h !!! index <? h !!! p
              | _ => h !!! p <? h !!! index
              end) eqn:Es.
    + specialize (Hstrict eq_refl).
      set (v1 := Tree.set_heap _ _).
      assert (Hat : forall i : nat,
                 Tree.m_heap v1 !!! i
                 = if decide (i = index) then h !!! p
                   else if decide (i = p) then h !!! index else h !!! i).
      { intros i. unfold v1, Tree.swap. simpl. fold h.
        apply swap_total; lia. }
      assert (Hl1 : length (Tree.m_heap v1) = length h).
      { unfold v1, Tree.swap. simpl. apply swap_length. }
      destruct (IH p v1) as (h' & extra & Hrun & Hok & Hperm).
      { lia. } { rewrite Hl1. lia. }
      { change (Tree.m_currentAlgorithm v1) with a. split.
        - intros i Hi Hil Hne. rewrite Hl1 in Hil.
          pose proof (parent_lt i Hi) as Hq.
          set (q := Tree.parent_of i) in *. rewrite !Hat.
          destruct (decide (i = index)) as [Hik|Hik].
          + assert (Hqp : q = p) by (unfold q, p; rewrite Hik; reflexivity).
            destruct (decide (q = index)) as [?|_]; [lia|].
            destruct (decide (q = p)) as [_|?]; [|contradiction].
            exact Hstrict.
          + destruct (decide (i = p)) as [?|_]; [contradiction|].
            destruct (decide (q = index)) as [Hqk|Hqk].
            * apply Hkids; lia.
            * destruct (decide (q = p)) as [Hqp|Hqp].
              -- eapply in_order_trans; [exact Hstrict|].
                 rewrite <- Hqp. apply Hrest; lia.
              -- apply Hrest; lia.
        - intros i Hi Hil Hp0 Hpar. rewrite Hl1 in Hil.
          pose proof (parent_lt p Hp0) as Hpp.
          pose proof (parent_lt i Hi) as Hq.
          set (pp := Tree.parent_of p) in *. rewrite !Hat.
          destruct (decide (pp = index)) as [?|_]; [lia|].
          destruct (decide (pp = p)) as [?|_]; [lia|].
          destruct (decide (i = index)) as [Hik|Hik].
          + apply Hrest; lia.
          + destruct (decide (i = p)) as [?|_]; [lia|].
            eapply in_order_trans; [apply (Hrest p); lia|].
            rewrite <- Hpar. apply Hrest; lia. }
      eexists h', (_ :: extra). split.
      { rewrite Hrun. f_equal. apply tree_visualizer_ext; try reflexivity.
        simpl. rewrite <- app_assoc. reflexivity. }
      split; [exact Hok|].
      rewrite Hperm. unfold v1, Tree.swap. simpl. fold h.
      apply swap_perm; lia.
    + specialize (Hswap eq_refl).
      exists h, []. split.
      { f_equal. apply tree_visualizer_ext; try reflexivity.
        - symmetry. apply app_nil_r.
        - symmetry. apply Z.add_0_r. }
      split; [|reflexivity].
      intros i Hi Hil. destruct (decide (i = index)) as [->|Hne].
      * exact Hswap.
      * apply Hrest; lia.
Qed.

Lemma pick_spec (a : Tree.TreeAlgorithm) (h : list Z) (index : nat) :
  (index < length h)%nat ->
  (Tree.pick a h index = index /\
   forall i : nat, (0 < i)%nat -> (i < length h)%nat ->
     Tree.parent_of i = index ->
     Tree.in_order a (h !!! index) (h !!! i)) \/
  (Tree.pick a h index <> index /\
   (Tree.pick a h index < length h)%nat /\
   Tree.parent_of (Tree.pick a h index) = index /\
   Tree.in_order a (h !!! Tree.pick a h index) (h !!! index) /\
   forall i : nat, (0 < i)%nat -> (i < length h)%nat ->
     Tree.parent_of i = index ->
     Tree.in_order a (h !!! Tree.pick a h index) (h !!! i)).
Proof.
  intros Hlen.
  assert (Hkids : forall i : nat, (0 < i)%nat -> Tree.parent_of i = index ->
                    i = (2 * index + 1)%nat \/ i = (2 * index + 2)%nat).
  { intros i Hi Hp. apply parent_children; assumption. }
  assert (Hl : Tree.parent_of (2 * index + 1) = index)
    by (apply parent_children; lia).
  assert (Hr : Tree.parent_of (2 * index + 2) = index)
    by (apply parent_children; lia).
  unfold Tree.pick.
  set (l := (2 * index + 1)%nat) in *. set (r := (2 * index + 2)%nat) in *.
  assert (Hlr : l <> index /\ r <> index /\ l <> r) by (unfold l, r; lia).
  assert (Hcase : forall i : nat, (0 < i)%nat -> (i < length h)%nat ->
            Tree.parent_of i = index ->
            (i = l /\ (l < length h)%nat) \/ (i = r /\ (r < length h)%nat)).
  { intros i Hi Hil Hp. destruct (Hkids i Hi Hp) as [-> | ->]; [left|right];
      split; trivial. }
  clearbody l r. clear Hkids.
  destruct (bool_decide_reflect (l < length h)%nat) as [Hll|Hll];
    destruct (bool_decide_reflect (r < length h)%nat) as [Hrl|Hrl];
    destruct a; unfold Tree.in_order; cbn [andb];
    repeat match goal with
    | |- context [if ?x <? ?y then _ else _] => destruct (Z.ltb_spec x y)
    | H : context [if ?x <? ?y then _ else _] |- _ =>
        destruct (Z.ltb_spec x y)
    end;
    first
      [ left; split; [reflexivity|];
        intros i Hi Hil Hp;
        destruct (Hcase i Hi Hil Hp) as [[-> ?] | [-> ?]]; lia
      | right; split; [lia|]; split; [lia|]; split; [assumption|];
        split; [lia|];
        intros i Hi Hil Hp;
        destruct (Hcase i Hi Hil Hp) as [[-> ?] | [-> ?]]; lia ].
Qed.

Lemma heapify_down_spec (fuel : nat) :
  forall (index : nat) (v : Tree.Visualizer),
    (length (Tree.m_heap v) - index < fuel)%nat ->
    (index < length (Tree.m_heap v))%nat ->
    Tree.sinking (Tree.m_currentAlgorithm v) (Tree.m_heap v) index ->
    exists h extra,
      Tree.HeapifyDown fuel index v
      = Some (Tree.set_heap h (Tree.logged extra 0 v)) /\
      Tree.heap_ok (Tree.m_currentAlgorithm v) h /\
      h ≡ₚ Tree.m_heap v.
Proof.
  induction fuel as [|fuel IH]; intros index v Hfuel Hlen [Hrest Hkids];
    [lia|].
  cbn [Tree.HeapifyDown].
  set (a := Tree.m_currentAlgorithm v) in *.
  set (h := Tree.m_heap v) in *.
  destruct (pick_spec a h index Hlen)
    as [[Ht Hbelow] | (Hne & Htl & Hpar & Hstrict & Hbelow)].
  - rewrite Ht, bool_decide_eq_false_2 by (intros H; apply H; reflexivity).
    exists h, []. split.
    { f_equal. apply tree_visualizer_ext; try reflexivity.
      - symmetry. apply app_nil_r.
      - symmetry. apply Z.add_0_r. }
    split; [|reflexivity].
    intros i Hi Hil.
    destruct (decide (Tree.parent_of i = index)) as [Hp|Hp].
    + rewrite Hp. apply Hbelow; assumption.
    + apply Hrest; assumption.
  - rewrite bool_decide_eq_true_2 by exact Hne.
    set (t := Tree.pick a h index) in *.
    assert (Ht0 : (0 < t)%nat).
    { destruct t; [|lia]. exfalso. apply Hne. rewrite <- Hpar. reflexivity. }
    assert (Hti : (index < t)%nat).
    { rewrite <- Hpar. apply parent_lt. exact Ht0. }
    set (v1 := Tree.set_heap _ _).
    assert (Hat : forall i : nat,
               Tree.m_heap v1 !!! i
               = if decide (i = index) then h !!! t
                 else if decide (i = t) then h !!! index else h !!! i).
    { intros i. unfold v1, Tree.swap. simpl. fold h.
      apply swap_total; lia. }
    assert (Hl1 : length (Tree.m_heap v1) = length h).
    { unfold v1, Tree.swap. simpl. apply swap_length. }
    destruct (IH t v1) as (h' & extra & Hrun & Hok & Hperm).
    { rewrite Hl1. lia. } { rewrite Hl1. lia. }
    { change (Tree.m_currentAlgorithm v1) with a. split.
      - intros i Hi Hil Hq. rewrite Hl1 in Hil.
        pose proof (parent_lt i Hi) as Hqi.
        set (q := Tree.parent_of i) in *. rewrite !Hat.
        destruct (decide (q = t)) as [?|_]; [contradiction|].
        destruct (decide (i = t)) as [Hit|Hit].
        + assert (Hqx : q = index) by (unfold q; rewrite Hit; exact Hpar).
          destruct (decide (i = index)) as [?|_]; [lia|].
          destruct (decide (q = index)) as [_|?]; [|contradiction].
          exact Hstrict.
        + destruct (decide (i = index)) as [Hii|Hii].
          * destruct (decide (q = index)) as [?|_]; [lia|].
            unfold q. rewrite Hii. apply Hkids; lia.
          * destruct (decide (q = index)) as [Hqx|Hqx].
            -- apply Hbelow; assumption.
            -- apply Hrest; assumption.
      - intros i Hi Hil _ Hq. rewrite Hl1 in Hil.
        pose proof (parent_lt i Hi) as Hqi. rewrite Hq in Hqi.
        rewrite Hpar, !Hat.
        destruct (decide (index = index)) as [_|?]; [|contradiction].
        destruct (decide (i = index)) as [?|_]; [lia|].
        destruct (decide (i = t)) as [?|_]; [lia|].
        rewrite <- Hq. apply Hrest; lia. }
    eexists h', (_ :: extra). split.
    { rewrite Hrun. f_equal. apply tree_visualizer_ext; try reflexivity.
      simpl. rewrite <- app_assoc. reflexivity. }
    split; [exact Hok|].
    rewrite Hperm. unfold v1, Tree.swap. simpl. fold h.
    apply swap_perm; lia.
Qed.

(** In a heap the root is in order with every element. *)
Lemma heap_root (a : Tree.TreeAlgorithm) (h : list Z) :
  Tree.heap_ok a h ->
  forall i : nat, (i < length h)%nat -> Tree.in_order a (h !!! 0%nat) (h !!! i).
Proof.
  intros Hok i. induction i as [i IH] using lt_wf_ind. intros Hil.
  destruct (decide (i = 0%nat)) as [->|Hi]; [apply in_order_refl|].
  pose proof (parent_lt i ltac:(lia)) as Hp.
  eapply in_order_trans; [apply (IH (Tree.parent_of i)); lia|].
  apply Hok; lia.
Qed.

Lemma pop_back_shape (x : Z) (rest : list Z) :
  rest <> [] ->
  Tree.pop_back (<[0%nat := Tree.back (x :: rest)]> (x :: rest))
  = rest !!! (length rest - 1)%nat :: take (length rest - 1) rest.
Proof.
  intros Hne. destruct rest as [|r rest]; [contradiction|].
  unfold Tree.pop_back, Tree.back. cbn [length].
  rewrite length_insert. cbn [length].
  replace (S (S (length rest)) - 1)%nat with (S (S (length rest) - 1))
    by lia.
  reflexivity.
Qed.

Lemma pop_back_perm (rest : list Z) :
  rest <> [] ->
  rest !!! (length rest - 1)%nat :: take (length rest - 1) rest ≡ₚ rest.
Proof.
  intros Hne.
  assert (Hlen : (length rest - 1 < length rest)%nat).
  { destruct rest; [contradiction|]. simpl. lia. }
  transitivity (take (S (length rest - 1)) rest).
  - rewrite (take_S_r rest (length rest - 1)
               (rest !!! (length rest - 1)%nat))
      by (apply list_lookup_lookup_total_lt; exact Hlen).
    rewrite Permutation_app_comm. reflexivity.
  - rewrite take_ge by lia. reflexivity.
Qed.

(** X28. On a heap, [InsertValue] returns: the heap then is in heap
    order (for the algorithm in force) and holds the old elements and the
    new value; the root pointer and [m_nodeCount] are left alone, and
    the log only grows, from "Inserting ..." to "Inserted ...". *)
Theorem heap_insert_keeps_heap (value : Z) (v : Tree.Visualizer) :
  Tree.is_heap (Tree.m_currentAlgorithm v) = true ->
  Tree.heap_ok (Tree.m_currentAlgorithm v) (Tree.m_heap v) ->
  exists (h : list Z) (swaps : list string),
    Tree.InsertValue value v
    = Some (Tree.set_heap h
              (Tree.logged
                 (("Inserting " +:+ pretty value +:+ " into heap") :: swaps
                  ++ ["Inserted " +:+ pretty value +:+ " successfully"])
                 0 v)) /\
    Tree.heap_ok (Tree.m_currentAlgorithm v) h /\
    h ≡ₚ value :: Tree.m_heap v.
Proof.
  intros Hheap Hok. unfold Tree.InsertValue. rewrite Hheap.
  unfold Tree.HeapInsert.
  set (v1 := Tree.set_heap _ (Tree.RecordStep _ v)).
  assert (Hh1 : Tree.m_heap v1 = Tree.m_heap v ++ [value]) by reflexivity.
  assert (Hl1 : length (Tree.m_heap v1) = S (length (Tree.m_heap v))).
  { rewrite Hh1, length_app. simpl. lia. }
  destruct (heapify_up_spec (length (Tree.m_heap v1))
              (length (Tree.m_heap v1) - 1) v1)
    as (h & extra & Hrun & Hok' & Hperm).
  { lia. } { lia. }
  { change (Tree.m_currentAlgorithm v1) with (Tree.m_currentAlgorithm v).
    rewrite Hl1, Hh1.
    replace (S (length (Tree.m_heap v)) - 1)%nat
      with (length (Tree.m_heap v)) by lia.
    split.
    - intros i Hi Hil Hne. rewrite length_app in Hil. simpl in Hil.
      pose proof (parent_lt i Hi).
      rewrite !lookup_total_app_l by lia. apply Hok; lia.
    - intros i Hi Hil _ Hpar. rewrite length_app in Hil. simpl in Hil.
      pose proof (parent_lt i Hi). lia. }
  exists h, extra. split.
  { rewrite Hrun. simpl. f_equal.
    apply tree_visualizer_ext; try reflexivity.
    simpl. rewrite <- !app_assoc. reflexivity. }
  split; [exact Hok'|].
  rewrite Hperm, Hh1. rewrite Permutation_app_comm. reflexivity.
Qed.

Lemma heap_insert_keeps_heap_witness :
  exists (h : list Z) (swaps : list string),
    Tree.InsertValue 1 Tree.small_heap
    = Some (Tree.set_heap h
              (Tree.logged
                 (("Inserting " +:+ pretty 1 +:+ " into heap") :: swaps
                  ++ ["Inserted " +:+ pretty 1 +:+ " successfully"])
                 0 Tree.small_heap)) /\
    Tree.heap_ok Tree.MinHeap h /\
    h ≡ₚ 1 :: Tree.m_heap Tree.small_heap.
Proof.
  apply (heap_insert_keeps_heap 1 Tree.small_heap).
  - reflexivity.
  - intros i Hi Hil. simpl in Hil.
    destruct i as [|[|[|i]]]; [lia | | | lia];
      vm_compute; discriminate.
Defined.

(** X29. On a heap in heap order, [DeleteValue] ignores its argument
    and extracts the root: on the empty heap it only logs that there is
    nothing to extract; otherwise the root was in order with every
    element (the least of a min-heap, the greatest otherwise), the heap
    left is in heap order and holds the other elements, and the log
    grows from "Extracting root element: ..." to "Extracted ...". *)
Theorem heap_extract_root (value : Z) (v : Tree.Visualizer) :
  Tree.is_heap (Tree.m_currentAlgorithm v) = true ->
  Tree.heap_ok (Tree.m_currentAlgorithm v) (Tree.m_heap v) ->
  (Tree.m_heap v = [] ->
   Tree.DeleteValue value v
   = Some (Tree.RecordStep "Heap is empty, cannot extract" v)) /\
  (forall (x : Z) (rest : list Z),
     Tree.m_heap v = x :: rest ->
     (forall y : Z, y ∈ Tree.m_heap v ->
        Tree.in_order (Tree.m_currentAlgorithm v) x y) /\
     exists (h : list Z) (swaps : list string),
       Tree.DeleteValue value v
       = Some (Tree.set_heap h
                 (Tree.logged
                    (("Extracting root element: " +:+ pretty x) :: swaps
                     ++ ["Extracted " +:+ pretty x +:+ " successfully"])
                    0 v)) /\
       Tree.heap_ok (Tree.m_currentAlgorithm v) h /\
       h ≡ₚ rest).
Proof.
  intros Hheap Hok. unfold Tree.DeleteValue. rewrite Hheap.
  unfold Tree.HeapExtract. split.
  { intros ->. reflexivity. }
  intros x rest Hh. split.
  { intros y Hy. apply list_elem_of_lookup_total in Hy as (i & Hil & <-).
    replace x with (Tree.m_heap v !!! 0%nat) by (rewrite Hh; reflexivity).
    apply heap_root; assumption. }
  rewrite Hh.
  set (v2 := Tree.set_heap (Tree.pop_back _) _).
  set (a := Tree.m_currentAlgorithm v) in *.
  destruct (decide (rest = [])) as [->|Hne].
  - exists [], []. split.
    { assert (E : Tree.m_heap v2 = []).
      { unfold v2. simpl. rewrite Hh. reflexivity. }
      rewrite E. rewrite bool_decide_eq_false_2
        by (intros H; apply H; reflexivity).
      simpl. f_equal. apply tree_visualizer_ext; try reflexivity.
      - simpl. exact E.
      - simpl. rewrite <- !app_assoc. reflexivity.
      - simpl. lia. }
    split; [|reflexivity].
    intros i Hi Hil. simpl in Hil. lia.
  - set (m := (length rest - 1)%nat).
    assert (E : Tree.m_heap v2 = rest !!! m :: take m rest).
    { unfold v2. simpl. rewrite Hh. apply pop_back_shape. exact Hne. }
    assert (Hm : (S m = length rest)%nat).
    { unfold m. destruct rest; [contradiction|]. simpl. lia. }
    assert (Hl2 : length (Tree.m_heap v2) = length rest).
    { rewrite E. simpl. rewrite length_take. lia. }
    assert (Hat : forall j : nat, (0 < j)%nat -> (j < length rest)%nat ->
               Tree.m_heap v2 !!! j = Tree.m_heap v !!! j).
    { intros j Hj Hjl. rewrite E, Hh. destruct j as [|j]; [lia|].
      simpl. apply lookup_total_take_lt. lia. }
    rewrite bool_decide_eq_true_2 by (rewrite E; discriminate).
    destruct (heapify_down_spec (S (length (Tree.m_heap v2))) 0 v2)
      as (h & extra & Hrun & Hok' & Hperm).
    { lia. } { lia. }
    { change (Tree.m_currentAlgorithm v2) with a. split.
      - intros i Hi Hil Hp. rewrite Hl2 in Hil.
        pose proof (parent_lt i Hi).
        rewrite !Hat by lia. apply Hok; [lia|].
        rewrite Hh. simpl. lia.
      - intros i _ _ H0. lia. }
    exists h, extra. split.
    { rewrite Hrun. simpl. f_equal.
      apply tree_visualizer_ext; try reflexivity.
      simpl. rewrite <- !app_assoc. reflexivity. }
    split; [exact Hok'|].
    rewrite Hperm, E. apply pop_back_perm. exact Hne.
Qed.

Lemma heap_extract_root_witness :
  (Tree.m_heap Tree.small_heap = [] ->
   Tree.DeleteValue 9 Tree.small_heap
   = Some (Tree.RecordStep "Heap is empty, cannot extract"
             Tree.small_heap)) /\
  (forall (x : Z) (rest : list Z),
     Tree.m_heap Tree.small_heap = x :: rest ->
     (forall y : Z, y ∈ Tree.m_heap Tree.small_heap ->
        Tree.in_order Tree.MinHeap x y) /\
     exists (h : list Z) (swaps : list string),
       Tree.DeleteValue 9 Tree.small_heap
       = Some (Tree.set_heap h
                 (Tree.logged
                    (("Extracting root element: " +:+ pretty x) :: swaps
                     ++ ["Extracted " +:+ pretty x +:+ " successfully"])
                    0 Tree.small_heap)) /\
       Tree.heap_ok Tree.MinHeap h /\
       h ≡ₚ rest).
Proof.
  apply (heap_extract_root 9 Tree.small_heap).
  - reflexivity.
  - intros i Hi Hil. simpl in Hil.
    destruct i as [|[|[|i]]]; [lia | | | lia];
      vm_compute; discriminate.
Defined.

(** ** Exponential search *)

Lemma sorted_at (v : Search.Visualizer) (j k : Z) :
  StronglySorted Z.le (Search.m_array v) ->
  0 <= j <= k -> k < Search.size v ->
  Search.at_ v j <= Search.at_ v k.
Proof.
  intros Hs Hjk Hk. unfold Search.at_, Search.size in *.
  apply sorted_lookup_total; [exact Hs| |]; lia.
Qed.

Lemma exponential_bound_outcome (target : Z) (fuel : nat) :
  forall (bound : Z) (v : Search.Visualizer) (b : Z) (v' : Search.Visualizer),
    Search.Exponential_bound fuel bound target v = Some (b, v') ->
    1 <= bound ->
    exists extra,
      v' = Lookup.extended extra 0 v /\
      existsb Search.isFound extra = false /\
      bound <= b /\
      (b < Search.size v -> target <= Search.at_ v b) /\
      (b = bound \/
       (bound <= b `quot` 2 /\ b `quot` 2 < Search.size v /\
        Search.at_ v (b `quot` 2) < target)).
Proof.
  induction fuel as [|fuel IH]; intros bound v b v' Hr Hb; [discriminate|].
  cbn [Search.Exponential_bound] in Hr.
  destruct (bound <? Search.size v) eqn:Hlt; cbn [andb] in Hr.
  - apply Z.ltb_lt in Hlt.
    destruct (Search.at_ v bound <? target) eqn:Hat.
    + apply Z.ltb_lt in Hat.
      apply IH in Hr as (extra & -> & Hnone & Hbb & Hstop & Hhalf); [|lia].
      rewrite record_extended, extended_app.
      eexists. split; [reflexivity|]. split; [exact Hnone|].
      split; [lia|]. split; [exact Hstop|]. right.
      change (Search.size (Search.RecordStep _ bound (-1) (-1) true v))
        with (Search.size v) in Hhalf.
      change (Search.at_ (Search.RecordStep _ bound (-1) (-1) true v)
                (b `quot` 2))
        with (Search.at_ v (b `quot` 2)) in Hhalf.
      destruct Hhalf as [-> | (Hle & Hsz & Hlow)].
      * rewrite Z.quot_mul by lia. auto with lia.
      * auto with lia.
    + apply Z.ltb_ge in Hat. injection Hr as <- <-.
      exists []. rewrite extended_nil. auto with lia.
  - apply Z.ltb_ge in Hlt. injection Hr as <- <-.
    exists []. rewrite extended_nil.
    split; [reflexivity|]. split; [reflexivity|]. split; [lia|].
    split; [lia|auto].
Qed.

Lemma exponential_binary_outcome (target fin : Z) (fuel : nat) :
  forall (low high : Z) (v : Search.Visualizer) (r : Search.Run),
    Search.Exponential_binary fuel low high target fin v = Some r ->
    0 <= low -> high < Search.size v ->
    exists extra,
      fst r = Lookup.extended extra 0 v /\
      ((exists i, low <= i <= high /\ Search.at_ v i = target /\
                  last extra = Some (Lookup.completed i)) \/
       (existsb Search.isFound extra = false /\
        (StronglySorted Z.le (Search.m_array v) ->
         forall k, low <= k <= high -> Search.at_ v k <> target))).
Proof.
  induction fuel as [|fuel IH]; intros low high v r Hr Hlow Hhigh;
    [discriminate|].
  cbn [Search.Exponential_binary] in Hr.
  destruct (low <=? high) eqn:Hle.
  - apply Z.leb_le in Hle.
    pose proof (mid_in_window low high Hle) as Hmid.
    set (mid := low + (high - low) `quot` 2) in *.
    change (Search.at_ (Search.RecordStep _ mid low high true v) mid)
      with (Search.at_ v mid) in Hr.
    destruct (Search.at_ v mid =? target) eqn:Heq.
    + apply Z.eqb_eq in Heq. injection Hr as <-.
      rewrite found_exit_extended, record_extended, extended_app.
      eexists. split; [reflexivity|]. left.
      exists mid. split; [lia|]. split; [exact Heq|]. reflexivity.
    + apply Z.eqb_neq in Heq.
      destruct (Search.at_ v mid <? target) eqn:Hlt.
      * apply Z.ltb_lt in Hlt.
        apply IH in Hr as (extra & Hfst & Hout); [|lia|exact Hhigh].
        rewrite record_extended, extended_app in Hfst.
        eexists. split; [exact Hfst|].
        destruct Hout as [(i & Hi & Hat & Hlast) | [Hnone Hno]].
        -- left. exists i. split; [lia|]. split; [exact Hat|].
           rewrite last_app, Hlast. reflexivity.
        -- right. split; [exact Hnone|].
           intros Hs k Hk.
           destruct (decide (k <= mid)) as [Hkm|Hkm].
           ++ pose proof (sorted_at v k mid Hs ltac:(lia) ltac:(lia)). lia.
           ++ apply (Hno Hs). lia.
      * apply Z.ltb_ge in Hlt.
        apply IH in Hr as (extra & Hfst & Hout);
          [|lia|change (mid - 1 < Search.size v); lia].
        rewrite record_extended, extended_app in Hfst.
        eexists. split; [exact Hfst|].
        destruct Hout as [(i & Hi & Hat & Hlast) | [Hnone Hno]].
        -- left. exists i. split; [lia|]. split; [exact Hat|].
           rewrite last_app, Hlast. reflexivity.
        -- right. split; [exact Hnone|].
           intros Hs k Hk.
           destruct (decide (mid <= k)) as [Hkm|Hkm].
           ++ pose proof (sorted_at v mid k Hs ltac:(lia) ltac:(lia)). lia.
           ++ apply (Hno Hs). lia.
  - apply Z.leb_gt in Hle. injection Hr as <-.
    exists []. rewrite extended_nil. split; [reflexivity|]. right.
    split; [reflexivity|]. intros _ k Hk. lia.
Qed.

(** X30. On a non-empty array, [ExponentialSearch] only pushes steps;
    a found step, sorted array or not, is the last of the log and
    names an index inside the array that holds the target; and on an
    array in ascending order the search pushes no found step only when
    the target does not occur. *)
Theorem exponential_search_correct (target fin : Z) (v : Search.Visualizer) :
  0 < Search.size v ->
  exists extra,
    fst (Search.ExponentialSearch target fin v) = Lookup.extended extra 0 v /\
    ((exists i, 0 <= i < Search.size v /\
                Search.m_array v !! Z.to_nat i = Some target /\
                last extra = Some (Lookup.completed i)) \/
     (existsb Search.isFound extra = false /\
      (StronglySorted Z.le (Search.m_array v) ->
       target ∉ Search.m_array v))).
Proof.
  intros Hsize.
  assert (Hlook : forall i, 0 <= i < Search.size v ->
            Search.at_ v i = target ->
            Search.m_array v !! Z.to_nat i = Some target).
  { intros i Hi <-. unfold Search.at_.
    apply list_lookup_lookup_total_lt. unfold Search.size in Hi. lia. }
  unfold Search.ExponentialSearch.
  set (v0 := Search.RecordStep "Starting Exponential Search" _ _ _ _ v).
  change (Search.at_ v0 0) with (Search.at_ v 0).
  destruct (Search.at_ v 0 =? target) eqn:H0.
  { apply Z.eqb_eq in H0. cbn [fst]. unfold v0.
    rewrite !record_extended, push_extended, !extended_app.
    eexists. split; [reflexivity|]. left.
    exists 0. split; [lia|]. split; [apply Hlook; [lia|exact H0]|].
    reflexivity. }
  apply Z.eqb_neq in H0.
  destruct (exponential_bound_total target (S (length (Search.m_array v0)))
              1 v0) as [[b v1] Hb].
  { lia. }
  { change (Search.size v0) with (Search.size v).
    change (Search.m_array v0) with (Search.m_array v).
    unfold Search.size. lia. }
  rewrite Hb.
  apply exponential_bound_outcome in Hb
    as (e1 & -> & Hn1 & Hb1 & Hstop & Hhalf); [|lia].
  change (Search.size v0) with (Search.size v) in Hstop, Hhalf.
  change (Search.at_ v0 b) with (Search.at_ v b) in Hstop.
  change (Search.at_ v0 (b `quot` 2))
    with (Search.at_ v (b `quot` 2)) in Hhalf.
  change (Search.size (Lookup.extended e1 0 v0)) with (Search.size v).
  set (low := b `quot` 2). set (high := Z.min b (Search.size v - 1)).
  fold low in Hhalf.
  assert (Hlow : 0 <= low <= b).
  { unfold low. rewrite Z.quot_div_nonneg by lia.
    split; [apply Z.div_pos; lia|].
    apply Z.div_le_upper_bound; lia. }
  set (v2 := Search.RecordStep _ (-1) low high false _).
  destruct (exponential_binary_total target fin (Search.window low high)
              low high v2) as [r Hr].
  { unfold Search.window. lia. }
  rewrite Hr. unfold default. cbn [from_option id].
  apply exponential_binary_outcome in Hr as (e2 & -> & Hout);
    [|lia|change (Search.size v2) with (Search.size v); unfold high; lia].
  unfold v2, v0. rewrite !record_extended, !extended_app.
  eexists. split; [reflexivity|].
  destruct Hout as [(i & Hi & Hat & Hlast) | [Hn2 Hno]].
  - left. exists i.
    change (Search.at_ v2 i) with (Search.at_ v i) in Hat.
    split; [unfold high in Hi; lia|].
    split; [apply Hlook; [unfold high in Hi; lia|exact Hat]|].
    rewrite !last_app, Hlast. reflexivity.
  - right. split.
    { rewrite !existsb_app, Hn1, Hn2. reflexivity. }
    intros Hs Hin.
    apply list_elem_of_lookup_total in Hin as (k & Hk & Hin).
    specialize (Hno Hs).
    assert (Hw : forall j, low <= j <= high -> Search.at_ v j <> target)
      by exact Hno.
    assert (Hkz : 0 <= Z.of_nat k < Search.size v)
      by (unfold Search.size; lia).
    assert (Hatk : Search.at_ v (Z.of_nat k) = target).
    { unfold Search.at_. rewrite Nat2Z.id. exact Hin. }
    destruct (decide (Z.of_nat k < low)) as [Hkl|Hkl].
    + destruct Hhalf as [Hbe | (_ & Hsz & Hlt)].
      * assert (Hl0 : low = 0) by (unfold low; rewrite Hbe; reflexivity).
        lia.
      * pose proof (sorted_at v (Z.of_nat k) low Hs ltac:(lia) Hsz). lia.
    + destruct (decide (Z.of_nat k <= high)) as [Hkh|Hkh].
      * apply (Hw (Z.of_nat k)); [lia|exact Hatk].
      * assert (Hbs : b < Search.size v) by (unfold high in Hkh; lia).
        assert (Hhb : high = b) by (unfold high; lia).
        specialize (Hstop Hbs).
        pose proof (Hw b ltac:(lia)).
        pose proof (sorted_at v b (Z.of_nat k) Hs ltac:(lia) ltac:(lia)).
        lia.
Qed.

Lemma exponential_search_correct_witness :
  exists extra,
    fst (Search.ExponentialSearch 7 12 Scenario.binary_7)
    = Lookup.extended extra 0 Scenario.binary_7 /\
    ((exists i, 0 <= i < Search.size Scenario.binary_7 /\
                Search.m_array Scenario.binary_7 !! Z.to_nat i = Some 7 /\
                last extra = Some (Lookup.completed i)) \/
     (existsb Search.isFound extra = false /\
      (StronglySorted Z.le (Search.m_array Scenario.binary_7) ->
       7 ∉ Search.m_array Scenario.binary_7))).
Proof.
  apply (exponential_search_correct 7 12 Scenario.binary_7).
  reflexivity.
Defined.
